(** * Verification of the CUDA-fuser interface layer and the CPU softmax kernels

    Sources embedded here:
    - [torch/csrc/jit/codegen/cuda/interface.cpp]: the [NVFuserEnabler]
      class, the fuser-interface entry points, the type guard [complyWith],
      the view guard, and the guard / shape-inference operators;
    - [aten/src/ATen/native/cpu/SoftMaxKernel.cpp]: the vectorized softmax,
      log-softmax and backward kernels, and the kernel functions registered
      for them;
    - [torch/csrc/utils/python_dispatch.cpp]: the two parsers and the
      bindings [def_] and [define].

    C++ exceptions are modelled by an error monad, [std::vector] and
    [c10::List] by [list], 64-bit integers by [Z] with the wrap-around written
    out where the code multiplies, raw buffers by functions from element
    offsets to scalars. *)

From Stdlib Require Import String ZArith List Bool Lia.
From Stdlib Require Import Reals Lra.
Import ListNotations.
Local Open Scope Z_scope.

(* ------------------------------------------------------------------ *)
(** * Errors raised through the host check macros *)

Inductive error : Type :=
| CheckError (msg : string)      (* TORCH_CHECK failed: c10::Error *)
| InternalAssert (msg : string)  (* TORCH_INTERNAL_ASSERT failed *)
| StdException (what : string)   (* std::runtime_error, std::out_of_range *)
| OutOfContract (what : string)  (* behaviour the C++ standard leaves undefined *)
| OutOfFuel.                     (* artefact of the model: a loop bound was too small *)

Inductive result (A : Type) : Type :=
| Ok (a : A)
| Err (e : error).
Arguments Ok {A} a.
Arguments Err {A} e.

Definition bind {A B} (m : result A) (k : A -> result B) : result B :=
  match m with
  | Ok a => k a
  | Err e => Err e
  end.

Notation "x <- m ;; k" := (bind m (fun x => k))
  (at level 61, m at next level, right associativity).
Notation "' p <- m ;; k" := (bind m (fun p => k))
  (at level 61, p pattern, m at next level, right associativity).

Definition TORCH_CHECK (cond : bool) (msg : string) : result unit :=
  if cond then Ok tt else Err (CheckError msg).

Definition TORCH_INTERNAL_ASSERT (cond : bool) (msg : string) : result unit :=
  if cond then Ok tt else Err (InternalAssert msg).

Definition is_ok {A} (r : result A) : bool :=
  match r with Ok _ => true | Err _ => false end.

(* ------------------------------------------------------------------ *)
(** * Machine integers *)

Definition fits_int64 (z : Z) : bool := (- 2 ^ 63 <=? z) && (z <? 2 ^ 63).

(** [int64_t * int64_t]; signed overflow is undefined in C++. *)
Definition mul_int64 (a b : Z) : result Z :=
  if fits_int64 (a * b) then Ok (a * b)
  else Err (OutOfContract "signed integer overflow").

(** Conversion of an integer to [int] (32 bits, two's complement). *)
Definition to_int (z : Z) : Z := (z + 2 ^ 31) mod 2 ^ 32 - 2 ^ 31.

(** Conversion of an integer to [size_t] and of a [size_t] to [int64_t]. *)
Definition to_size_t (z : Z) : Z := z mod 2 ^ 64.
Definition to_int64 (z : Z) : Z := (z + 2 ^ 63) mod 2 ^ 64 - 2 ^ 63.

(** [a[i]] on an [ArrayRef] or [c10::List]: no bounds check. *)
Definition at_index {A} (a : list A) (i : Z) : result A :=
  if (0 <=? i) && (i <? Z.of_nat (length a))
  then match nth_error a (Z.to_nat i) with
       | Some v => Ok v
       | None => Err (OutOfContract "index out of bounds")
       end
  else Err (OutOfContract "index out of bounds").

Definition list_prod (l : list Z) : Z := fold_right Z.mul 1 l.

(* ------------------------------------------------------------------ *)
(** * Interpreter values and the operand stack *)

Module Stack.

Section WithTensor.
(** The host tensor type; [interface.cpp] only reads its metadata. *)
Variable Tensor : Type.

Inductive IValue : Type :=
| IVNone
| IVBool (b : bool)
| IVInt (z : Z)
| IVIntList (l : list Z)
| IVTensor (t : Tensor).

(** [Stack] is [std::vector<IValue>]; the top of the stack is the back
    of the vector, i.e. the end of the list. *)
Definition Stack := list IValue.

Definition isIntList (v : IValue) : bool :=
  match v with IVIntList _ => true | _ => false end.
Definition isNone (v : IValue) : bool :=
  match v with IVNone => true | _ => false end.
Definition isTensor (v : IValue) : bool :=
  match v with IVTensor _ => true | _ => false end.

Definition toIntList (v : IValue) : result (list Z) :=
  match v with
  | IVIntList l => Ok l
  | _ => Err (InternalAssert "Expected IntList")
  end.

(** [last(stack, N)]: the top [N] values, bottom-most first. *)
Definition last (stack : Stack) (n : nat) : result (list IValue) :=
  if (n <=? length stack)%nat
  then Ok (skipn (length stack - n) stack)
  else Err (OutOfContract "last: stack too short").

(** [drop(stack, N)]: erase the top [N] values. *)
Definition drop (stack : Stack) (n : nat) : result Stack :=
  if (n <=? length stack)%nat
  then Ok (firstn (length stack - n) stack)
  else Err (OutOfContract "drop: stack too short").

Definition push (stack : Stack) (v : IValue) : Stack := stack ++ [v].

(** [pop(stack)]: move the back element out and shrink the vector. *)
Definition pop (stack : Stack) : result (IValue * Stack) :=
  match rev stack with
  | [] => Err (OutOfContract "pop: empty stack")
  | v :: r => Ok (v, rev r)
  end.

Lemma last_app (rest ins : Stack) :
  last (rest ++ ins) (length ins) = Ok ins.
Proof.
  unfold last. rewrite length_app.
  replace (length ins <=? length rest + length ins)%nat with true
    by (symmetry; apply Nat.leb_le; lia).
  replace (length rest + length ins - length ins)%nat with (length rest) by lia.
  now rewrite skipn_app, skipn_all, Nat.sub_diag.
Qed.

Lemma drop_app (rest ins : Stack) :
  drop (rest ++ ins) (length ins) = Ok rest.
Proof.
  unfold drop. rewrite length_app.
  replace (length ins <=? length rest + length ins)%nat with true
    by (symmetry; apply Nat.leb_le; lia).
  replace (length rest + length ins - length ins)%nat with (length rest) by lia.
  rewrite firstn_app, firstn_all, Nat.sub_diag. simpl. now rewrite app_nil_r.
Qed.

Lemma last_top (rest ins : Stack) (n : nat) :
  n = length ins -> last (rest ++ ins) n = Ok ins.
Proof. intros ->. apply last_app. Qed.

Lemma drop_top (rest ins : Stack) (n : nat) :
  n = length ins -> drop (rest ++ ins) n = Ok rest.
Proof. intros ->. apply drop_app. Qed.

Lemma pop_push (rest : Stack) (v : IValue) :
  pop (push rest v) = Ok (v, rest).
Proof.
  unfold pop, push. rewrite rev_app_distr. simpl. now rewrite rev_involutive.
Qed.

End WithTensor.

Arguments IVNone {Tensor}.
Arguments IVBool {Tensor} b.
Arguments IVInt {Tensor} z.
Arguments IVIntList {Tensor} l.
Arguments IVTensor {Tensor} t.
Arguments isIntList {Tensor} v.
Arguments isNone {Tensor} v.
Arguments isTensor {Tensor} v.
Arguments toIntList {Tensor} v.
Arguments last {Tensor} stack n.
Arguments drop {Tensor} stack n.
Arguments push {Tensor} stack v.
Arguments pop {Tensor} stack.

End Stack.

(* ------------------------------------------------------------------ *)
(** * prim::infer_squeeze_size *)

Module Squeeze.
Import Stack.

(** [size.erase(it)] on a [std::vector<int64_t>]; an iterator is its
    offset from [size.begin()]. *)
Definition erase (size : list Z) (it : Z) : list Z :=
  firstn (Z.to_nat it) size ++ skipn (S (Z.to_nat it)) size.

(** [*it]; reading outside the vector is outside the contract. *)
Definition deref (size : list Z) (it : Z) : result Z := at_index size it.

(** The loop
    [for (auto it = size.begin(); it != size.end(); it++) {
       if ( *it == 1) { auto pre = it - 1; size.erase(it); it = pre; } }]
    started at iterator [it].  Each round either erases an element or
    advances, so [length size] rounds are enough; [fuel] bounds them.
    When the first element is erased, [pre] is the offset [-1]; it is
    incremented before it is compared or dereferenced. *)
Fixpoint squeeze_loop (fuel : nat) (size : list Z) (it : Z) : result (list Z) :=
  if it =? Z.of_nat (length size) then Ok size
  else
    match fuel with
    | O => Err OutOfFuel
    | S fuel' =>
        v <- deref size it ;;
        if v =? 1 then
          let pre := it - 1 in
          let size' := erase size it in
          let it' := pre in
          squeeze_loop fuel' size' (it' + 1)
        else
          squeeze_loop fuel' size (it + 1)
    end.

Definition infer_squeeze_size_vec (size : list Z) : result (list Z) :=
  squeeze_loop (length size) size 0.

(** The registered operation: pop the int list, squeeze it, push it. *)
Definition infer_squeeze_size {T} (stack : Stack T) : result (Stack T) :=
  '(a, stack1) <- pop stack ;;
  size <- toIntList a ;;
  size' <- infer_squeeze_size_vec size ;;
  Ok (push stack1 (IVIntList size')).

(** The list [a] without its elements equal to 1, order kept. *)
Definition remove_ones (a : list Z) : list Z :=
  filter (fun x => negb (x =? 1)) a.

Lemma deref_middle (pre suf : list Z) (v : Z) :
  deref (pre ++ v :: suf) (Z.of_nat (length pre)) = Ok v.
Proof.
  unfold deref, at_index. rewrite length_app. simpl.
  replace ((0 <=? Z.of_nat (length pre)) &&
           (Z.of_nat (length pre) <? Z.of_nat (length pre + S (length suf))))
    with true by (symmetry; apply andb_true_iff; split; [apply Z.leb_le | apply Z.ltb_lt]; lia).
  rewrite Nat2Z.id, nth_error_app2, Nat.sub_diag by lia. reflexivity.
Qed.

Lemma erase_middle (pre suf : list Z) (v : Z) :
  erase (pre ++ v :: suf) (Z.of_nat (length pre)) = pre ++ suf.
Proof.
  unfold erase. rewrite Nat2Z.id.
  rewrite firstn_app, firstn_all, Nat.sub_diag, firstn_O, app_nil_r.
  f_equal.
  rewrite skipn_app, skipn_all2 by lia.
  replace (S (length pre) - length pre)%nat with 1%nat by lia. reflexivity.
Qed.

(** Loop invariant: the part before the iterator is already squeezed and is
    never touched again; the part from the iterator on is filtered. *)
Lemma squeeze_loop_spec (suf : list Z) :
  forall (pre : list Z) (fuel : nat),
    (length suf <= fuel)%nat ->
    squeeze_loop fuel (pre ++ suf) (Z.of_nat (length pre))
    = Ok (pre ++ remove_ones suf).
Proof.
  induction suf as [| v suf IH]; intros pre fuel Hfuel.
  - rewrite app_nil_r. destruct fuel; cbn [squeeze_loop remove_ones filter];
      now rewrite Z.eqb_refl, app_nil_r.
  - destruct fuel as [| fuel]; [simpl in Hfuel; lia |].
    simpl in Hfuel. cbn [squeeze_loop].
    replace (Z.of_nat (length pre) =? Z.of_nat (length (pre ++ v :: suf))) with false
      by (symmetry; apply Z.eqb_neq; rewrite length_app; simpl; lia).
    rewrite deref_middle. cbn [bind].
    destruct (v =? 1) eqn:Hv.
    + rewrite erase_middle.
      replace (Z.of_nat (length pre) - 1 + 1) with (Z.of_nat (length pre)) by lia.
      rewrite IH by lia. unfold remove_ones. simpl. now rewrite Hv.
    + replace (pre ++ v :: suf) with ((pre ++ [v]) ++ suf)
        by (now rewrite <- app_assoc).
      replace (Z.of_nat (length pre) + 1) with (Z.of_nat (length (pre ++ [v])))
        by (rewrite length_app; simpl; lia).
      rewrite IH by lia. unfold remove_ones. simpl. rewrite Hv. simpl.
      now rewrite <- app_assoc.
Qed.

(** C10. For every int list [a], [prim::infer_squeeze_size] pops [a] and pushes
    the list obtained from [a] by removing every element equal to 1, the
    other elements keeping their order; this includes lists that start
    with 1, where the loop steps its iterator back to [begin() - 1]. *)
Theorem infer_squeeze_size_removes_ones {T} (rest : Stack T) (a : list Z) :
  infer_squeeze_size (push rest (IVIntList a))
  = Ok (push rest (IVIntList (remove_ones a))).
Proof.
  unfold infer_squeeze_size. rewrite pop_push. cbn [bind toIntList].
  unfold infer_squeeze_size_vec.
  change (squeeze_loop (length a) a 0)
    with (squeeze_loop (length a) ([] ++ a) (Z.of_nat (length (@nil Z)))).
  rewrite (squeeze_loop_spec a [] (length a) (le_n _)). reflexivity.
Qed.

Example infer_squeeze_size_leading_one :
  infer_squeeze_size_vec [1; 1; 3; 1; 2; 1] = Ok [3; 2].
Proof. reflexivity. Qed.

End Squeeze.

(* ------------------------------------------------------------------ *)
(** * NVFuserEnabler: whether the CUDA fuser is enabled *)

Module Enabler.
Local Open Scope string_scope.

(** What the enabler reads from outside the class: the two environment
    variables (the result of [std::getenv], read once and cached in function
    statics), the build flags, and the three host queries behind
    [nvfuserCanBeEnabled]. *)
Record Env : Type := {
  PYTORCH_JIT_ENABLE_NVFUSER : option string;
  PYTORCH_JIT_USE_NNC_NOT_NVFUSER : option string;
  USE_ROCM : bool;
  FBCODE_CAFFE2 : bool;
  hasCUDA : bool;
  isRegistered : bool;       (* NVFuserPassManager::isRegistered() *)
  getExecutorMode : bool
}.

(** The private members of [class NVFuserEnabler]; [enabled_check_flag_] is
    the [std::once_flag], true once [std::call_once] has run its function to
    completion.  The mutex only serialises callers. *)
Record NVFuserEnabler : Type := {
  runtime_assigned_fuser_enabled_ : option bool;
  enabled_check_flag_ : bool
}.

(** The object as constructed: [static NVFuserEnabler nvfuser_enabler]. *)
Definition nvfuser_enabler : NVFuserEnabler :=
  {| runtime_assigned_fuser_enabled_ := None; enabled_check_flag_ := false |}.

(** Member functions run on the object and either return or throw; the
    object they leave behind is explicit in both cases. *)
Definition M (A : Type) : Type := NVFuserEnabler -> result A * NVFuserEnabler.

Definition nvfuserCanBeEnabled (env : Env) : bool :=
  if USE_ROCM env then false
  else hasCUDA env && isRegistered env && getExecutorMode env.

Definition cannot_enable_msg : string :=
  "Running CUDA fuser is only supported on CUDA builds.".

Definition assertFuserCanBeEnabled (env : Env) (is_enabled : bool) : result unit :=
  if negb is_enabled then Ok tt
  else TORCH_CHECK (nvfuserCanBeEnabled env) cannot_enable_msg.

Definition getFuserEnabledEnvVar (env : Env) : option bool :=
  match PYTORCH_JIT_ENABLE_NVFUSER env with
  | None => None
  | Some enable =>
      if (enable =? "0") || (enable =? "OFF") then Some false else Some true
  end.

Definition getCachedFuserEnabledEnvVar (env : Env) : option bool :=
  getFuserEnabledEnvVar env.

Definition getNNCNotNVFuser (env : Env) : bool :=
  match PYTORCH_JIT_USE_NNC_NOT_NVFUSER env with
  | None => false
  | Some e => if (e =? "1") || (e =? "ON") then true else false
  end.

Definition getCachedNNCNotNVFuser (env : Env) : bool := getNNCNotNVFuser env.

Definition has_value {A} (o : option A) : bool :=
  match o with Some _ => true | None => false end.

(** The function handed to [std::call_once] in [isEnabledImpl]. *)
Definition enabled_check (env : Env) (this : NVFuserEnabler) : result unit :=
  if negb (has_value (runtime_assigned_fuser_enabled_ this))
     && has_value (getCachedFuserEnabledEnvVar env)
  then match getCachedFuserEnabledEnvVar env with
       | Some v => assertFuserCanBeEnabled env v
       | None => Ok tt
       end
  else Ok tt.

(** [std::call_once(enabled_check_flag_, ...)]: nothing when the flag is
    set; otherwise run the function, and set the flag only if it returns. *)
Definition call_once_enabled_check (env : Env) : M unit :=
  fun this =>
    if enabled_check_flag_ this then (Ok tt, this)
    else match enabled_check env this with
         | Ok tt =>
             (Ok tt, {| runtime_assigned_fuser_enabled_ :=
                          runtime_assigned_fuser_enabled_ this;
                        enabled_check_flag_ := true |})
         | Err e => (Err e, this)
         end.

(** The value [isEnabledImpl] returns after the once-only check. *)
Definition resolve (env : Env) (this : NVFuserEnabler) : bool :=
  if getCachedNNCNotNVFuser env then false
  else match runtime_assigned_fuser_enabled_ this with
       | Some v => v
       | None =>
           match getCachedFuserEnabledEnvVar env with
           | Some v => v
           | None => if FBCODE_CAFFE2 env then false else nvfuserCanBeEnabled env
           end
       end.

Definition isEnabledImpl (env : Env) : M bool :=
  fun this =>
    match call_once_enabled_check env this with
    | (Err e, this1) => (Err e, this1)
    | (Ok tt, this1) => (Ok (resolve env this1), this1)
    end.

Definition setEnabled (env : Env) (is_enabled : bool) : M bool :=
  fun this =>
    match assertFuserCanBeEnabled env is_enabled with
    | Err e => (Err e, this)
    | Ok tt =>
        match isEnabledImpl env this with
        | (Err e, this1) => (Err e, this1)
        | (Ok old_value, this1) =>
            (Ok old_value,
             {| runtime_assigned_fuser_enabled_ := Some is_enabled;
                enabled_check_flag_ := enabled_check_flag_ this1 |})
        end
    end.

Definition isEnabled (env : Env) : M bool := isEnabledImpl env.

(** The precedence order of the sources, as a function of the environment
    and of the value last stored by [setEnabled]. *)
Definition precedence (env : Env) (assigned : option bool) : bool :=
  match PYTORCH_JIT_USE_NNC_NOT_NVFUSER env with
  | Some "1" | Some "ON" => false
  | _ =>
      match assigned with
      | Some v => v
      | None =>
          match PYTORCH_JIT_ENABLE_NVFUSER env with
          | Some "0" | Some "OFF" => false
          | Some _ => true
          | None => if FBCODE_CAFFE2 env then false else nvfuserCanBeEnabled env
          end
      end
  end.

(** The once-only check is still to run and will fail: no value assigned,
    the environment asks for the fuser, and it cannot be enabled. *)
Definition pending_check_fails (env : Env) (this : NVFuserEnabler) : bool :=
  negb (enabled_check_flag_ this)
  && negb (has_value (runtime_assigned_fuser_enabled_ this))
  && match getFuserEnabledEnvVar env with Some true => true | _ => false end
  && negb (nvfuserCanBeEnabled env).

(** Splits a string compared against literals into its characters. *)
Ltac split_literal :=
  repeat (match goal with
          | |- context [match ?s with EmptyString => _ | String _ _ => _ end] =>
              is_var s; destruct s
          | |- context [match ?a with Ascii.Ascii _ _ _ _ _ _ _ _ => _ end] =>
              is_var a; destruct a
          | |- context [if ?b then _ else _] => is_var b; destruct b
          end; cbv iota; try reflexivity; try congruence).

Lemma match_1_ON {A} (s : string) (x y : A) :
  match s with "1" | "ON" => x | _ => y end
  = if (s =? "1") || (s =? "ON") then x else y.
Proof.
  destruct (s =? "1") eqn:E1; [apply String.eqb_eq in E1; now subst |].
  destruct (s =? "ON") eqn:E2; [apply String.eqb_eq in E2; now subst |].
  apply String.eqb_neq in E1, E2. cbn [orb]. split_literal.
Qed.

Lemma match_0_OFF {A} (s : string) (x y : A) :
  match s with "0" | "OFF" => x | _ => y end
  = if (s =? "0") || (s =? "OFF") then x else y.
Proof.
  destruct (s =? "0") eqn:E1; [apply String.eqb_eq in E1; now subst |].
  destruct (s =? "OFF") eqn:E2; [apply String.eqb_eq in E2; now subst |].
  apply String.eqb_neq in E1, E2. cbn [orb]. split_literal.
Qed.

Lemma resolve_precedence (env : Env) (this : NVFuserEnabler) :
  resolve env this = precedence env (runtime_assigned_fuser_enabled_ this).
Proof.
  unfold resolve, precedence, getCachedNNCNotNVFuser, getNNCNotNVFuser,
    getCachedFuserEnabledEnvVar, getFuserEnabledEnvVar.
  destruct (PYTORCH_JIT_USE_NNC_NOT_NVFUSER env) as [nnc |].
  - rewrite match_1_ON.
    destruct ((nnc =? "1") || (nnc =? "ON")); [reflexivity |].
    destruct (runtime_assigned_fuser_enabled_ this); [reflexivity |].
    destruct (PYTORCH_JIT_ENABLE_NVFUSER env) as [en |]; [| reflexivity].
    rewrite match_0_OFF. now destruct ((en =? "0") || (en =? "OFF")).
  - destruct (runtime_assigned_fuser_enabled_ this); [reflexivity |].
    destruct (PYTORCH_JIT_ENABLE_NVFUSER env) as [en |]; [| reflexivity].
    rewrite match_0_OFF. now destruct ((en =? "0") || (en =? "OFF")).
Qed.

Lemma call_once_enabled_check_cases (env : Env) (this : NVFuserEnabler) :
  call_once_enabled_check env this
  = if pending_check_fails env this
    then (Err (CheckError cannot_enable_msg), this)
    else (Ok tt, {| runtime_assigned_fuser_enabled_ :=
                      runtime_assigned_fuser_enabled_ this;
                    enabled_check_flag_ := true |}).
Proof.
  unfold call_once_enabled_check, pending_check_fails, enabled_check,
    getCachedFuserEnabledEnvVar, assertFuserCanBeEnabled, TORCH_CHECK.
  destruct this as [assigned flag]. cbn.
  destruct flag; cbn; [reflexivity |].
  destruct assigned; cbn; [reflexivity |].
  destruct (getFuserEnabledEnvVar env) as [[|] |]; cbn; try reflexivity.
  destruct (nvfuserCanBeEnabled env); reflexivity.
Qed.

Lemma isEnabledImpl_cases (env : Env) (this : NVFuserEnabler) :
  isEnabledImpl env this
  = if pending_check_fails env this
    then (Err (CheckError cannot_enable_msg), this)
    else (Ok (precedence env (runtime_assigned_fuser_enabled_ this)),
          {| runtime_assigned_fuser_enabled_ := runtime_assigned_fuser_enabled_ this;
             enabled_check_flag_ := true |}).
Proof.
  unfold isEnabledImpl.
  rewrite call_once_enabled_check_cases.
  destruct (pending_check_fails env this); [reflexivity |].
  now rewrite resolve_precedence.
Qed.

(** The claim C5 as it is written: [isEnabled] returns the value the
    precedence order gives.  It fails when the once-only check throws. *)
Definition isEnabled_follows_precedence (env : Env) (this : NVFuserEnabler) : Prop :=
  fst (isEnabled env this)
  = Ok (precedence env (runtime_assigned_fuser_enabled_ this)).

(** A machine without CUDA where both variables are set to "1". *)
Definition env_no_cuda_both_set : Env :=
  {| PYTORCH_JIT_ENABLE_NVFUSER := Some "1";
     PYTORCH_JIT_USE_NNC_NOT_NVFUSER := Some "1";
     USE_ROCM := false; FBCODE_CAFFE2 := false;
     hasCUDA := false; isRegistered := true; getExecutorMode := true |}.

(** C5, counterexample.  With PYTORCH_JIT_USE_NNC_NOT_NVFUSER=1 the claim
    says [isEnabled()] returns false; with PYTORCH_JIT_ENABLE_NVFUSER=1 on a
    build without CUDA the first call throws instead. *)
Lemma isEnabled_throws_before_precedence :
  precedence env_no_cuda_both_set None = false
  /\ fst (isEnabled env_no_cuda_both_set nvfuser_enabler)
     = Err (CheckError cannot_enable_msg)
  /\ ~ isEnabled_follows_precedence env_no_cuda_both_set nvfuser_enabler.
Proof.
  repeat split; try reflexivity.
  unfold isEnabled_follows_precedence. cbn. discriminate.
Qed.

(** C5, amended.  [isEnabled()] first runs the once-only check: while that
    check has not yet completed, no [setEnabled] value is stored,
    PYTORCH_JIT_ENABLE_NVFUSER asks for the fuser and the fuser cannot be
    enabled, it throws and leaves the object as it was.  Otherwise it
    returns, in this order of precedence: false if
    PYTORCH_JIT_USE_NNC_NOT_NVFUSER is "1" or "ON"; else the value stored by
    the most recent [setEnabled]; else the value of
    PYTORCH_JIT_ENABLE_NVFUSER (false exactly for "0" and "OFF"); else the
    build default. *)
Theorem isEnabled_precedence (env : Env) (this : NVFuserEnabler) :
  isEnabled env this
  = if pending_check_fails env this
    then (Err (CheckError cannot_enable_msg), this)
    else (Ok (precedence env (runtime_assigned_fuser_enabled_ this)),
          {| runtime_assigned_fuser_enabled_ := runtime_assigned_fuser_enabled_ this;
             enabled_check_flag_ := true |}).
Proof.
  unfold isEnabled. apply isEnabledImpl_cases.
Qed.

(** The claim C8 as it is written: [setEnabled] throws exactly when asked
    to enable a fuser that cannot be enabled. *)
Definition setEnabled_raises_exactly_when_cannot_enable
  (env : Env) (is_enabled : bool) (this : NVFuserEnabler) : Prop :=
  is_ok (fst (setEnabled env is_enabled this)) = false
  <-> (is_enabled = true /\ nvfuserCanBeEnabled env = false).

(** A machine without CUDA where only PYTORCH_JIT_ENABLE_NVFUSER is set. *)
Definition env_no_cuda_enable_set : Env :=
  {| PYTORCH_JIT_ENABLE_NVFUSER := Some "1";
     PYTORCH_JIT_USE_NNC_NOT_NVFUSER := None;
     USE_ROCM := false; FBCODE_CAFFE2 := false;
     hasCUDA := false; isRegistered := true; getExecutorMode := true |}.

(** C8, counterexample.  [setEnabled(false)] throws when it is the first
    call into the enabler, PYTORCH_JIT_ENABLE_NVFUSER=1 and there is no
    CUDA: the error comes from the once-only check inside [isEnabledImpl]. *)
Lemma setEnabled_false_throws :
  fst (setEnabled env_no_cuda_enable_set false nvfuser_enabler)
  = Err (CheckError cannot_enable_msg)
  /\ ~ setEnabled_raises_exactly_when_cannot_enable
        env_no_cuda_enable_set false nvfuser_enabler.
Proof.
  split; [reflexivity |].
  unfold setEnabled_raises_exactly_when_cannot_enable. cbn.
  intros [H _]. destruct (H eq_refl) as [H1 _]. discriminate.
Qed.

Lemma setEnabled_cases (env : Env) (is_enabled : bool) (this : NVFuserEnabler) :
  setEnabled env is_enabled this
  = if (is_enabled && negb (nvfuserCanBeEnabled env)) || pending_check_fails env this
    then (Err (CheckError cannot_enable_msg), this)
    else (Ok (precedence env (runtime_assigned_fuser_enabled_ this)),
          {| runtime_assigned_fuser_enabled_ := Some is_enabled;
             enabled_check_flag_ := true |}).
Proof.
  unfold setEnabled. rewrite isEnabledImpl_cases.
  unfold assertFuserCanBeEnabled, TORCH_CHECK.
  destruct is_enabled; cbn [negb andb orb].
  - destruct (nvfuserCanBeEnabled env) eqn:Hcan; cbn [negb orb]; [| reflexivity].
    destruct (pending_check_fails env this); reflexivity.
  - destruct (pending_check_fails env this); reflexivity.
Qed.

(** C8, amended.  [setEnabled(is_enabled)] throws exactly when [is_enabled] is
    true and the fuser cannot be enabled, or when the once-only check of
    [isEnabledImpl] is still to run and fails (no value stored yet,
    PYTORCH_JIT_ENABLE_NVFUSER asks for the fuser, and it cannot be
    enabled), which also happens for [setEnabled(false)].  When it throws
    the object is unchanged, so [isEnabled()] behaves afterwards as it did
    before.  When it returns it has stored [is_enabled], and the value
    returned is what [isEnabled()] returned before the call. *)
Theorem setEnabled_atomic (env : Env) (is_enabled : bool) (this : NVFuserEnabler) :
  (is_ok (fst (setEnabled env is_enabled this)) = false
   <-> (is_enabled = true /\ nvfuserCanBeEnabled env = false)
       \/ pending_check_fails env this = true)
  /\ (is_ok (fst (setEnabled env is_enabled this)) = false ->
      snd (setEnabled env is_enabled this) = this
      /\ isEnabled env (snd (setEnabled env is_enabled this)) = isEnabled env this)
  /\ (forall old_value,
        fst (setEnabled env is_enabled this) = Ok old_value ->
        runtime_assigned_fuser_enabled_ (snd (setEnabled env is_enabled this))
        = Some is_enabled
        /\ fst (isEnabled env this) = Ok old_value).
Proof.
  rewrite setEnabled_cases.
  assert (Hcond : (is_enabled && negb (nvfuserCanBeEnabled env))
                  || pending_check_fails env this = true
                  <-> (is_enabled = true /\ nvfuserCanBeEnabled env = false)
                      \/ pending_check_fails env this = true).
  { rewrite orb_true_iff, andb_true_iff, negb_true_iff. tauto. }
  destruct ((is_enabled && negb (nvfuserCanBeEnabled env))
            || pending_check_fails env this) eqn:Hc; cbn [fst snd is_ok].
  - split; [| split].
    + split; intros _; [now apply Hcond | reflexivity].
    + intros _. split; reflexivity.
    + intros old_value Hok. discriminate.
  - assert (Hp : pending_check_fails env this = false).
    { apply orb_false_iff in Hc. tauto. }
    split; [| split].
    + split; [discriminate |]. intros H. apply Hcond in H. discriminate.
    + discriminate.
    + intros old_value Hok. split; [reflexivity |].
      unfold isEnabled. rewrite isEnabledImpl_cases, Hp. exact Hok.
Qed.

End Enabler.

(* ------------------------------------------------------------------ *)
(** * Entry points that forward to the registered CUDA fuser *)

Module Interface.
Import Enabler.
Local Open Scope string_scope.

Section WithHost.
(** Host types: graph nodes, graphs, the interpreter stack, and [Effect]:
    everything a fuser callback does once it is called (its changes to the
    graph and the stack, and whether it returns or throws). *)
Variables Node Graph IStack Effect : Type.

(** [struct CudaFuserInterface]: function pointers, null until a CUDA build
    registers them. *)
Record CudaFuserInterface : Type := {
  fn_compile_n : option (Node -> Effect);
  fn_run_n_s : option (Node -> IStack -> Effect);
  fn_fuse_graph : option (Graph -> Effect)
}.

Definition requires_cuda_build_msg : string :=
  "Running the CUDA fuser requires a CUDA build.".

(** A wrapper either fails its own check ([Err]) or hands over to the
    callback ([Ok] of the callback's effect). *)
Definition compileFusionGroup (fi : CudaFuserInterface) (fusion_node : Node)
  : result Effect :=
  _ <- TORCH_CHECK (has_value (fn_compile_n fi)) requires_cuda_build_msg ;;
  match fn_compile_n fi with
  | Some f => Ok (f fusion_node)
  | None => Err (OutOfContract "call through a null pointer")
  end.

Definition runFusionGroup (fi : CudaFuserInterface) (fusion_node : Node)
  (stack : IStack) : result Effect :=
  _ <- TORCH_CHECK (has_value (fn_run_n_s fi)) requires_cuda_build_msg ;;
  match fn_run_n_s fi with
  | Some f => Ok (f fusion_node stack)
  | None => Err (OutOfContract "call through a null pointer")
  end.

(** [fuseGraph] also runs on the enabler object, through [isEnabled()];
    [Ok None] is the early return that calls nothing. *)
Definition fuseGraph (env : Env) (fi : CudaFuserInterface) (graph : Graph)
  : M (option Effect) :=
  fun this =>
    match isEnabled env this with
    | (Err e, this1) => (Err e, this1)
    | (Ok false, this1) => (Ok None, this1)
    | (Ok true, this1) =>
        (_ <- TORCH_CHECK (has_value (fn_fuse_graph fi)) requires_cuda_build_msg ;;
         match fn_fuse_graph fi with
         | Some f => Ok (Some (f graph))
         | None => Err (OutOfContract "call through a null pointer")
         end,
         this1)
    end.

Lemma isEnabled_error (env : Env) (this : NVFuserEnabler) (e : error) :
  fst (isEnabled env this) = Err e -> e = CheckError cannot_enable_msg.
Proof.
  unfold isEnabled. rewrite isEnabledImpl_cases.
  destruct (pending_check_fails env this); cbn; congruence.
Qed.

Lemma messages_differ : cannot_enable_msg <> requires_cuda_build_msg.
Proof. discriminate. Qed.

(** C7. [compileFusionGroup] and [runFusionGroup] raise the check error
    "Running the CUDA fuser requires a CUDA build." if and only if their
    function pointer ([fn_compile_n], [fn_run_n_s]) is null, and otherwise
    hand over to it.  [fuseGraph] raises that error only when [isEnabled()]
    returned true and [fn_fuse_graph] is null (and then it does); when
    [isEnabled()] returned false it returns without calling anything, the
    enabler being as [isEnabled()] left it. *)
Theorem fuser_entry_points (env : Env) (fi : CudaFuserInterface)
  (fusion_node : Node) (stack : IStack) (graph : Graph) (this : NVFuserEnabler) :
  (compileFusionGroup fi fusion_node = Err (CheckError requires_cuda_build_msg)
   <-> fn_compile_n fi = None)
  /\ (forall f, fn_compile_n fi = Some f ->
                compileFusionGroup fi fusion_node = Ok (f fusion_node))
  /\ (runFusionGroup fi fusion_node stack = Err (CheckError requires_cuda_build_msg)
      <-> fn_run_n_s fi = None)
  /\ (forall f, fn_run_n_s fi = Some f ->
                runFusionGroup fi fusion_node stack = Ok (f fusion_node stack))
  /\ (fst (fuseGraph env fi graph this) = Err (CheckError requires_cuda_build_msg)
      <-> fst (isEnabled env this) = Ok true /\ fn_fuse_graph fi = None)
  /\ (forall f, fst (isEnabled env this) = Ok true -> fn_fuse_graph fi = Some f ->
                fst (fuseGraph env fi graph this) = Ok (Some (f graph)))
  /\ (fst (isEnabled env this) = Ok false ->
      fuseGraph env fi graph this = (Ok None, snd (isEnabled env this))).
Proof.
  unfold compileFusionGroup, runFusionGroup, fuseGraph, TORCH_CHECK.
  repeat match goal with |- _ /\ _ => split end.
  - destruct (fn_compile_n fi); cbn; split; congruence.
  - intros f H. rewrite H. reflexivity.
  - destruct (fn_run_n_s fi); cbn; split; congruence.
  - intros f H. rewrite H. reflexivity.
  - destruct (isEnabled env this) as [[[|] | e] this1] eqn:Hen; cbn.
    + destruct (fn_fuse_graph fi); cbn; split; try discriminate;
        try (intros [_ ?]; discriminate); auto.
    + split; [discriminate | intros [? _]; discriminate].
    + split; [| intros [? _]; discriminate].
      intros Heq. injection Heq as Heq.
      assert (He := isEnabled_error env this e). rewrite Hen in He.
      specialize (He eq_refl). subst e.
      exfalso. apply messages_differ. congruence.
  - intros f Hen H. rewrite H.
    destruct (isEnabled env this) as [[[|] | e] this1]; cbn in *;
      try discriminate. reflexivity.
  - intros Hen.
    destruct (isEnabled env this) as [[[|] | e] this1]; cbn in *;
      try discriminate. reflexivity.
Qed.

End WithHost.
End Interface.

(* ------------------------------------------------------------------ *)
(** * The type guard of CudaFusionGuard *)

Module Guard.
Local Open Scope string_scope.

(** [c10::ScalarType] is an enumeration, [c10::Device] a device type with an
    index. *)
Definition ScalarType : Type := Z.
Record Device : Type := { device_type : Z; device_index : Z }.

Definition Device_eqb (a b : Device) : bool :=
  (device_type a =? device_type b)%Z && (device_index a =? device_index b)%Z.

(** [c10::Stride]: what profiling recorded for the j-th fastest dimension. *)
Record Stride : Type := {
  stride_index_ : option Z;      (* c10::optional<size_t> *)
  contiguous_ : option bool;
  stride_ : option Z
}.

(** The part of [c10::TensorType] the guard reads.  [sizes] and
    [stride_properties] are [VaryingShape]s: [None] when the rank is not
    known, else one optional entry per dimension. *)
Record TensorType : Type := {
  scalarType : option ScalarType;
  device : option Device;
  requiresGrad : option bool;
  sizes : option (list (option Z));
  stride_properties : option (list (option Stride))
}.

(** [TensorType::dim()] is [sizes().size()]. *)
Definition dim (g : TensorType) : option nat := option_map (@length _) (sizes g).

(** The part of [at::Tensor] the guard reads. *)
Record Tensor : Type := {
  scalar_type : ScalarType;
  tensor_device : Device;
  requires_grad : bool;
  t_sizes : list Z;      (* tensor.sizes() *)
  t_strides : list Z     (* tensor.strides() *)
}.

Definition ndimension (t : Tensor) : Z := Z.of_nat (length (t_sizes t)).

(** [VaryingShape<T>::operator[]]: throws when the rank is unknown, and
    through [std::vector::at] when the index is out of range. *)
Definition varying_at {A} (v : option (list (option A))) (i : nat)
  : result (option A) :=
  match v with
  | None => Err (StdException "Rank isn't fixed")
  | Some dims =>
      match nth_error dims i with
      | Some e => Ok e
      | None => Err (StdException "vector::at")
      end
  end.

(** [stride_properties[j]->...]: the entry is dereferenced unchecked. *)
Definition stride_property (g : TensorType) (j : nat) : result Stride :=
  e <- varying_at (stride_properties g) j ;;
  match e with
  | Some s => Ok s
  | None => Err (OutOfContract "dereference of an empty optional")
  end.

Definition sorted_index_of (s : Stride) : Z :=
  match stride_index_ s with
  | Some i => to_int i
  | None => -1
  end.

(** Check b.1: the j-th fastest dimension has a smaller stride than the
    inner dimension.  [&&] evaluates left to right and stops early. *)
Definition stride_order_violated (t : Tensor) (j : nat) (sorted_index inner_dim : Z)
  : result bool :=
  if negb (j =? 0)%nat && negb (inner_dim =? -1)%Z then
    s <- at_index (t_strides t) sorted_index ;;
    if negb (s =? 0)%Z then
      i <- at_index (t_strides t) inner_dim ;;
      if negb (i =? 0)%Z then Ok (s <? i)%Z else Ok false
    else Ok false
  else Ok false.

(** Check b.2: a dimension marked contiguous is not laid out right after
    the inner dimension. *)
Definition contiguity_violated (t : Tensor) (g : TensorType) (j : nat)
  (sp : Stride) (sorted_index inner_dim : Z) : result bool :=
  match contiguous_ sp with
  | Some true =>
      if negb (j =? 0)%nat then
        sz <- at_index (t_sizes t) sorted_index ;;
        if negb (sz =? 1)%Z then
          st <- at_index (t_strides t) sorted_index ;;
          if negb (st =? 1)%Z then
            prev <- stride_property g (j - 1) ;;
            _ <- TORCH_INTERNAL_ASSERT (Enabler.has_value (stride_index_ prev))
                   "Counknown index is meaningless" ;;
            inner_stride <- at_index (t_strides t) inner_dim ;;
            inner_size <- at_index (t_sizes t) inner_dim ;;
            expected <- mul_int64 inner_stride inner_size ;;
            Ok (negb (st =? expected)%Z)
          else Ok false
        else Ok false
      else
        st <- at_index (t_strides t) sorted_index ;;
        Ok (negb (st =? 1)%Z)
  | _ => Ok false
  end.

(** The stride part of one round of the loop: [None] is [return false],
    [Some d] the value of [inner_dim] after the round. *)
Definition stride_check (t : Tensor) (g : TensorType) (j : nat) (inner_dim : Z)
  : result (option Z) :=
  sp <- stride_property g j ;;
  let sorted_index := sorted_index_of sp in
  if negb (sorted_index =? -1)%Z then
    bad_order <- stride_order_violated t j sorted_index inner_dim ;;
    if bad_order then Ok None
    else
      bad_contiguity <- contiguity_violated t g j sp sorted_index inner_dim ;;
      if bad_contiguity then Ok None
      else if (inner_dim =? -1)%Z then Ok (Some sorted_index)
      else
        sz <- at_index (t_sizes t) sorted_index ;;
        if negb (sz =? 1)%Z then Ok (Some sorted_index) else Ok (Some inner_dim)
  else Ok (Some inner_dim).

Definition guard_size_is (g : TensorType) (j : nat) (v : Z) : result bool :=
  e <- varying_at (sizes g) j ;;
  match e with
  | Some s => Ok (s =? v)%Z
  | None => Ok false
  end.

(** Checks c.1 and c.2 of one round: true when both pass. *)
Definition size_check (t : Tensor) (g : TensorType) (j : nat) : result bool :=
  guard_bcast <- guard_size_is g j 1 ;;
  tj <- at_index (t_sizes t) (Z.of_nat j) ;;
  if negb (Bool.eqb guard_bcast (tj =? 1)%Z) then Ok false
  else
    guard_size_0 <- guard_size_is g j 0 ;;
    if negb (Bool.eqb guard_size_0 (tj =? 0)%Z) then Ok false
    else Ok true.

(** The loop [for (const auto j : c10::irange( *guard_tensor_type->dim()))]
    from round [j] on, [n] rounds left. *)
Fixpoint comply_loop (t : Tensor) (g : TensorType) (n : nat) (j : nat)
  (inner_dim : Z) : result bool :=
  match n with
  | O => Ok true
  | S n' =>
      r <- stride_check t g j inner_dim ;;
      match r with
      | None => Ok false
      | Some inner_dim' =>
          ok <- size_check t g j ;;
          if ok then comply_loop t g n' (S j) inner_dim' else Ok false
      end
  end.

Definition opt_differs {A} (eqb : A -> A -> bool) (o : option A) (v : A) : bool :=
  match o with
  | Some x => negb (eqb x v)
  | None => false
  end.

(** Check a, as one condition. *)
Definition header_mismatch (grad_mode_enabled : bool) (t : Tensor)
  (g : TensorType) (d : nat) : bool :=
  negb (Z.of_nat d =? ndimension t)%Z
  || opt_differs Z.eqb (scalarType g) (scalar_type t)
  || opt_differs Device_eqb (device g) (tensor_device t)
  || opt_differs Bool.eqb (requiresGrad g) (requires_grad t && grad_mode_enabled).

(** [complyWith(tensor, guard_tensor_type)]; the guard is a pointer that
    may be null, and [at::GradMode::is_enabled()] is read from the thread. *)
Definition complyWith (grad_mode_enabled : bool) (tensor : Tensor)
  (guard_tensor_type : option TensorType) : result bool :=
  match guard_tensor_type with
  | None => Err (InternalAssert "guard_tensor_type && guard_tensor_type->dim().has_value()")
  | Some g =>
      match dim g with
      | None => Err (InternalAssert "guard_tensor_type && guard_tensor_type->dim().has_value()")
      | Some d =>
          if header_mismatch grad_mode_enabled tensor g d then Ok false
          else comply_loop tensor g d 0 (-1)
      end
  end.




(** ** The stride conditions, stated on the tensor *)
















(** ** Reading the tensor *)




(** ** The stride checks of a round against the conditions *)











Definition tensor_2x3 : Tensor :=
  {| scalar_type := 6%Z; tensor_device := {| device_type := 1; device_index := 0 |};
     requires_grad := false; t_sizes := [2; 3]%Z; t_strides := [3; 1]%Z |}.



(** A contiguous [2 x 3] guard type and a contiguous [2 x 3] tensor. *)
Definition guard_2x3 : TensorType :=
  {| scalarType := Some 6%Z; device := None; requiresGrad := Some false;
     sizes := Some [Some 2; Some 3]%Z;
     stride_properties :=
       Some [Some {| stride_index_ := Some 1%Z; contiguous_ := Some true;
                     stride_ := Some 1%Z |};
             Some {| stride_index_ := Some 0%Z; contiguous_ := Some true;
                     stride_ := Some 3%Z |}] |}.

Example complyWith_accepts : complyWith true tensor_2x3 (Some guard_2x3) = Ok true.
Proof. reflexivity. Qed.



End Guard.

(* ------------------------------------------------------------------ *)
(** * The view guard *)

Module ViewGuard.
Local Open Scope string_scope.
Local Open Scope Z_scope.

(** The loop of [inferViewShape] over [view_sizes] from index [idx] on:
    [dynamic_index] is the position of the -1 seen so far (or -1),
    [view_size_num_elements] a [size_t]. *)
Fixpoint infer_scan (view_sizes : list Z) (idx : Z) (dynamic_index : Z)
  (view_size_num_elements : Z) : result (Z * Z) :=
  match view_sizes with
  | [] => Ok (dynamic_index, view_size_num_elements)
  | v :: rest =>
      if v =? -1 then
        _ <- TORCH_INTERNAL_ASSERT (dynamic_index =? -1)
               "Only one dimension can by inferred." ;;
        infer_scan rest (idx + 1) idx view_size_num_elements
      else
        _ <- TORCH_INTERNAL_ASSERT (0 <? v) "view_sizes[idx] > 0" ;;
        infer_scan rest (idx + 1) dynamic_index
          (to_size_t (view_size_num_elements * to_size_t v))
  end.

(** [std::accumulate(begin, end, 1, std::multiplies<>())]: the accumulator
    has the type of the initial value [1], which is [int]; each product is
    formed in [int64_t] and converted back to [int]. *)
Definition accumulate_int (tensor_sizes : list Z) : Z :=
  fold_left (fun acc x => to_int (acc * x)) tensor_sizes 1.

(** [view_sizes[dynamic_index] = v] on a [c10::List]. *)
Definition set_index (l : list Z) (i : Z) (v : Z) : list Z :=
  firstn (Z.to_nat i) l ++ v :: skipn (S (Z.to_nat i)) l.

(** [inferViewShape(tensor_sizes, view_sizes)].  A [c10::List] is a handle
    to a shared list, so the assignment to [view_sizes[dynamic_index]] is
    seen by the caller: the function returns the list as it leaves it. *)
Definition inferViewShape (tensor_sizes view_sizes : list Z)
  : result (bool * list Z) :=
  '(dynamic_index, view_size_num_elements) <- infer_scan view_sizes 0 (-1) 1 ;;
  let kNumElements := to_size_t (accumulate_int tensor_sizes) in
  if view_size_num_elements =? 0
  then Err (OutOfContract "remainder by zero")
  else if negb (kNumElements mod view_size_num_elements =? 0)
  then Ok (false, view_sizes)
  else if negb (dynamic_index =? -1)
  then Ok (true, set_index view_sizes dynamic_index
                   (to_int64 (kNumElements / view_size_num_elements)))
  else Ok (true, view_sizes).

(** [std::queue<int64_t>]: [front] and [pop] on an empty queue are outside
    the contract. *)
Definition queue_front (q : list Z) : result Z :=
  match q with
  | x :: _ => Ok x
  | [] => Err (OutOfContract "front of an empty queue")
  end.

Definition queue_pop (q : list Z) : result (list Z) :=
  match q with
  | _ :: r => Ok r
  | [] => Err (OutOfContract "pop of an empty queue")
  end.

Definition queue_push (q : list Z) (x : Z) : list Z := q ++ [x].

(** Step 2, the loop over the tensor sizes; both lists have the same
    length.  [None] is [return false]. *)
Fixpoint tensor_static_check (tensor_sizes tensor_constraint : list Z)
  (dynamic_axis_queue : list Z) (tensor_size_product : Z)
  : result (option (list Z * Z)) :=
  match tensor_sizes, tensor_constraint with
  | size :: sizes', c :: constraint' =>
      if c =? -1 then
        p <- mul_int64 tensor_size_product size ;;
        tensor_static_check sizes' constraint' (queue_push dynamic_axis_queue size) p
      else if negb (c =? size) then Ok None
      else
        p <- mul_int64 tensor_size_product size ;;
        tensor_static_check sizes' constraint' dynamic_axis_queue p
  | _, _ => Ok (Some (dynamic_axis_queue, tensor_size_product))
  end.

(** Step 3, the loop over the view sizes. *)
Fixpoint view_static_check (view_sizes view_sizes_constraint : list Z)
  (dynamic_axis_queue : list Z) (view_size_product : Z) : result (option Z) :=
  match view_sizes, view_sizes_constraint with
  | size :: sizes', c :: constraint' =>
      dynamic_size <- (if c =? -1 then queue_front dynamic_axis_queue else Ok c) ;;
      if negb (dynamic_size =? size) then Ok None
      else
        p <- mul_int64 view_size_product dynamic_size ;;
        q <- (if c =? -1 then queue_pop dynamic_axis_queue else Ok dynamic_axis_queue) ;;
        view_static_check sizes' constraint' q p
  | _, _ => Ok (Some view_size_product)
  end.

Definition checkViewGuard (tensor_sizes view_sizes tensor_constraint
  view_sizes_constraint : list Z) : result bool :=
  if negb (length tensor_constraint =? length tensor_sizes)%nat
     || negb (length view_sizes_constraint =? length view_sizes)%nat
  then Ok false
  else
    r <- tensor_static_check tensor_sizes tensor_constraint [] 1 ;;
    match r with
    | None => Ok false
    | Some (dynamic_axis_queue, tensor_size_product) =>
        r' <- view_static_check view_sizes view_sizes_constraint
                dynamic_axis_queue 1 ;;
        match r' with
        | None => Ok false
        | Some view_size_product =>
            Ok (tensor_size_product =? view_size_product)
        end
    end.

(** Some entry of the constraint is not -1 and differs from the size at
    the same index. *)
Definition static_mismatch (constraint sizes : list Z) : Prop :=
  exists idx c s,
    nth_error constraint idx = Some c /\ nth_error sizes idx = Some s
    /\ c <> -1 /\ c <> s.

(** No product of a prefix of [l] overflows [int64_t]. *)
Definition prefix_products_fit (l : list Z) : Prop :=
  forall k, fits_int64 (list_prod (firstn k l)) = true.

(** The dynamic axes of the view, which take their size from the queue. *)
Definition dynamic_axes (constraint : list Z) : nat :=
  length (filter (fun c => c =? -1) constraint).

Lemma mul_int64_ok (a b c : Z) : mul_int64 a b = Ok c -> c = a * b.
Proof. unfold mul_int64. destruct (fits_int64 (a * b)); congruence. Qed.

Lemma mul_int64_fits (a b : Z) :
  fits_int64 (a * b) = true -> mul_int64 a b = Ok (a * b).
Proof. unfold mul_int64. now intros ->. Qed.

(** A pass of step 2 has multiplied all the sizes, has found no static
    mismatch, and has queued one size per dynamic axis. *)
Lemma tensor_static_check_pass (sizes : list Z) :
  forall constraint q p q' p',
    length constraint = length sizes ->
    tensor_static_check sizes constraint q p = Ok (Some (q', p')) ->
    p' = p * list_prod sizes
    /\ ~ static_mismatch constraint sizes
    /\ length q' = (length q + dynamic_axes constraint)%nat.
Proof.
  induction sizes as [| s sizes IH]; intros [| c constraint] q p q' p' Hlen Hrun;
    try discriminate Hlen.
  - cbn in Hrun. injection Hrun as <- <-. cbn.
    repeat split; try lia.
    intros (idx & c & s & Hc & _). destruct idx; discriminate.
  - cbn [tensor_static_check] in Hrun. injection Hlen as Hlen.
    assert (Hstep : forall q0,
               (c = -1 \/ c = s) ->
               (p1 <- mul_int64 p s ;; tensor_static_check sizes constraint q0 p1)
               = Ok (Some (q', p')) ->
               p' = p * list_prod (s :: sizes)
               /\ ~ static_mismatch (c :: constraint) (s :: sizes)
               /\ length q' = (length q0 + dynamic_axes constraint)%nat).
    { intros q0 Hc Hrun0.
      destruct (mul_int64 p s) as [p1 |] eqn:Hmul; [| discriminate].
      apply mul_int64_ok in Hmul. subst p1. cbn [bind] in Hrun0.
      destruct (IH _ _ _ _ _ Hlen Hrun0) as (Hp & Hno & Hq).
      split; [change (list_prod (s :: sizes)) with (s * list_prod sizes);
              rewrite Hp; ring |].
      split; [| exact Hq].
      intros (idx & c0 & s0 & Hc0 & Hs0 & Hdyn & Hne).
      destruct idx as [| idx]; cbn in Hc0, Hs0.
      - injection Hc0 as <-. injection Hs0 as <-. tauto.
      - apply Hno. now exists idx, c0, s0. }
    unfold dynamic_axes. cbn [filter].
    destruct (c =? -1) eqn:Hdyn.
    + apply Z.eqb_eq in Hdyn.
      destruct (Hstep _ (or_introl Hdyn) Hrun) as (Hp & Hno & Hq).
      repeat split; auto. rewrite Hq. unfold queue_push, dynamic_axes.
      rewrite length_app. cbn. lia.
    + destruct (c =? s) eqn:Heq; cbn [negb] in Hrun; [| discriminate].
      apply Z.eqb_eq in Heq.
      destruct (Hstep _ (or_intror Heq) Hrun) as (Hp & Hno & Hq).
      repeat split; auto.
Qed.

Lemma view_static_check_pass (sizes : list Z) :
  forall constraint q p p',
    length constraint = length sizes ->
    view_static_check sizes constraint q p = Ok (Some p') ->
    p' = p * list_prod sizes /\ ~ static_mismatch constraint sizes.
Proof.
  induction sizes as [| s sizes IH]; intros [| c constraint] q p p' Hlen Hrun;
    try discriminate Hlen.
  - cbn in Hrun. injection Hrun as <-. cbn. split; [lia |].
    intros (idx & c & s & Hc & _). destruct idx; discriminate.
  - cbn [view_static_check] in Hrun. injection Hlen as Hlen.
    destruct (if c =? -1 then queue_front q else Ok c) as [dynamic_size |] eqn:Hd;
      [| discriminate].
    cbn [bind] in Hrun.
    destruct (dynamic_size =? s) eqn:Heq; cbn [negb] in Hrun; [| discriminate].
    apply Z.eqb_eq in Heq. subst dynamic_size.
    destruct (mul_int64 p s) as [p1 |] eqn:Hmul; [| discriminate].
    apply mul_int64_ok in Hmul. subst p1. cbn [bind] in Hrun.
    destruct (if c =? -1 then queue_pop q else Ok q) as [q1 |]; [| discriminate].
    cbn [bind] in Hrun.
    destruct (IH _ _ _ _ Hlen Hrun) as (Hp & Hno).
    split; [change (list_prod (s :: sizes)) with (s * list_prod sizes);
            rewrite Hp; ring |].
    intros (idx & c0 & s0 & Hc0 & Hs0 & Hdyn & Hne).
    destruct idx as [| idx]; cbn in Hc0, Hs0.
    + injection Hc0 as <-. injection Hs0 as <-.
      destruct (c =? -1) eqn:Hc; [apply Z.eqb_eq in Hc; contradiction |].
      injection Hd as Hd. contradiction.
    + apply Hno. now exists idx, c0, s0.
Qed.

(** Step 2 stays inside the contract when no partial product overflows. *)
Lemma tensor_static_check_total (sizes : list Z) :
  forall constraint q p,
    (forall k, fits_int64 (p * list_prod (firstn k sizes)) = true) ->
    exists r, tensor_static_check sizes constraint q p = Ok r.
Proof.
  induction sizes as [| s sizes IH]; intros [| c constraint] q p Hfit;
    cbn [tensor_static_check]; try (eexists; reflexivity).
  assert (Hmul : mul_int64 p s = Ok (p * s)).
  { apply mul_int64_fits. specialize (Hfit 1%nat). cbn in Hfit.
    now rewrite Z.mul_1_r in Hfit. }
  assert (Hrest : forall k, fits_int64 (p * s * list_prod (firstn k sizes)) = true).
  { intros k. specialize (Hfit (S k)). cbn in Hfit. now rewrite Z.mul_assoc in Hfit. }
  rewrite Hmul. cbn [bind].
  destruct (c =? -1); [apply IH, Hrest |].
  destruct (negb (c =? s)); [eexists; reflexivity | apply IH, Hrest].
Qed.

Lemma view_static_check_total (sizes : list Z) :
  forall constraint q p,
    (forall k, fits_int64 (p * list_prod (firstn k sizes)) = true) ->
    (dynamic_axes constraint <= length q)%nat ->
    exists r, view_static_check sizes constraint q p = Ok r.
Proof.
  induction sizes as [| s sizes IH]; intros [| c constraint] q p Hfit Hq;
    cbn [view_static_check]; try (eexists; reflexivity).
  assert (Hmul : mul_int64 p s = Ok (p * s)).
  { apply mul_int64_fits. specialize (Hfit 1%nat). cbn in Hfit.
    now rewrite Z.mul_1_r in Hfit. }
  assert (Hrest : forall k, fits_int64 (p * s * list_prod (firstn k sizes)) = true).
  { intros k. specialize (Hfit (S k)). cbn in Hfit. now rewrite Z.mul_assoc in Hfit. }
  unfold dynamic_axes in Hq. cbn [filter] in Hq.
  destruct (c =? -1) eqn:Hc.
  - destruct q as [| x q]; [cbn in Hq; lia |]. cbn [queue_front queue_pop bind].
    destruct (negb (x =? s)) eqn:Hx; [eexists; reflexivity |].
    apply negb_false_iff, Z.eqb_eq in Hx. subst x.
    rewrite Hmul. cbn [bind]. apply IH; [exact Hrest |].
    cbn in Hq. unfold dynamic_axes. lia.
  - cbn [bind].
    destruct (negb (c =? s)) eqn:Hx; [eexists; reflexivity |].
    apply negb_false_iff, Z.eqb_eq in Hx. subst c.
    rewrite Hmul. cbn [bind]. apply IH; [exact Hrest | exact Hq].
Qed.

Lemma checkViewGuard_true (tensor_sizes view_sizes tensor_constraint
  view_sizes_constraint : list Z) :
  checkViewGuard tensor_sizes view_sizes tensor_constraint view_sizes_constraint
  = Ok true ->
  list_prod tensor_sizes = list_prod view_sizes
  /\ length tensor_constraint = length tensor_sizes
  /\ length view_sizes_constraint = length view_sizes
  /\ ~ static_mismatch tensor_constraint tensor_sizes
  /\ ~ static_mismatch view_sizes_constraint view_sizes.
Proof.
  unfold checkViewGuard.
  destruct (length tensor_constraint =? length tensor_sizes)%nat eqn:Hl1;
    cbn [negb orb]; [| discriminate].
  destruct (length view_sizes_constraint =? length view_sizes)%nat eqn:Hl2;
    cbn [negb]; [| discriminate].
  apply Nat.eqb_eq in Hl1, Hl2.
  destruct (tensor_static_check tensor_sizes tensor_constraint [] 1)
    as [[[q tp] |] |] eqn:H1; cbn [bind]; try discriminate.
  destruct (view_static_check view_sizes view_sizes_constraint q 1)
    as [[vp |] |] eqn:H2; cbn [bind]; try discriminate.
  intros [= Heq]. apply Z.eqb_eq in Heq.
  destruct (tensor_static_check_pass _ _ _ _ _ _ Hl1 H1) as (Htp & Hno1 & _).
  destruct (view_static_check_pass _ _ _ _ _ Hl2 H2) as (Hvp & Hno2).
  repeat split; auto. lia.
Qed.

Lemma checkViewGuard_total (tensor_sizes view_sizes tensor_constraint
  view_sizes_constraint : list Z) :
  prefix_products_fit tensor_sizes ->
  prefix_products_fit view_sizes ->
  (dynamic_axes view_sizes_constraint <= dynamic_axes tensor_constraint)%nat ->
  exists b,
    checkViewGuard tensor_sizes view_sizes tensor_constraint view_sizes_constraint
    = Ok b.
Proof.
  intros Hfit1 Hfit2 Hdyn. unfold checkViewGuard.
  destruct (length tensor_constraint =? length tensor_sizes)%nat eqn:Hl1;
    cbn [negb orb]; [| eexists; reflexivity].
  destruct (length view_sizes_constraint =? length view_sizes)%nat eqn:Hl2;
    cbn [negb]; [| eexists; reflexivity].
  apply Nat.eqb_eq in Hl1, Hl2.
  destruct (tensor_static_check_total tensor_sizes tensor_constraint [] 1) as [r1 H1].
  { intros k. rewrite Z.mul_1_l. apply Hfit1. }
  rewrite H1. cbn [bind]. destruct r1 as [[q tp] |]; [| eexists; reflexivity].
  destruct (tensor_static_check_pass _ _ _ _ _ _ Hl1 H1) as (_ & _ & Hq).
  destruct (view_static_check_total view_sizes view_sizes_constraint q 1) as [r2 H2].
  { intros k. rewrite Z.mul_1_l. apply Hfit2. }
  { rewrite Hq. cbn. lia. }
  rewrite H2. cbn [bind]. destruct r2; eexists; reflexivity.
Qed.

(** C6. [checkViewGuard] returns true only if the product of [tensor_sizes]
    equals the product of the effective view sizes.  It returns false
    whenever a constraint list and its size list differ in length.  When a
    constraint entry other than -1 differs from the size at its index, it
    does not return true, and it returns false for every call that stays
    inside the C++ contract: no partial product overflows [int64_t] and the
    view constraint has no more dynamic axes than the tensor constraint has
    queued. *)
Theorem checkViewGuard_spec (tensor_sizes view_sizes tensor_constraint
  view_sizes_constraint : list Z) :
  let run := checkViewGuard tensor_sizes view_sizes tensor_constraint
               view_sizes_constraint in
  (run = Ok true -> list_prod tensor_sizes = list_prod view_sizes)
  /\ (length tensor_constraint <> length tensor_sizes
      \/ length view_sizes_constraint <> length view_sizes ->
      run = Ok false)
  /\ (static_mismatch tensor_constraint tensor_sizes
      \/ static_mismatch view_sizes_constraint view_sizes ->
      run <> Ok true
      /\ (prefix_products_fit tensor_sizes ->
          prefix_products_fit view_sizes ->
          (dynamic_axes view_sizes_constraint <= dynamic_axes tensor_constraint)%nat ->
          run = Ok false)).
Proof.
  intros run. subst run. split; [| split].
  - intros H. now apply checkViewGuard_true in H.
  - intros Hlen. unfold checkViewGuard.
    destruct (length tensor_constraint =? length tensor_sizes)%nat eqn:Hl1;
      cbn [negb orb]; [| reflexivity].
    destruct (length view_sizes_constraint =? length view_sizes)%nat eqn:Hl2;
      cbn [negb]; [| reflexivity].
    apply Nat.eqb_eq in Hl1, Hl2. tauto.
  - intros Hmis.
    assert (Hnot : checkViewGuard tensor_sizes view_sizes tensor_constraint
                     view_sizes_constraint <> Ok true).
    { intros H. apply checkViewGuard_true in H. tauto. }
    split; [exact Hnot |].
    intros Hfit1 Hfit2 Hdyn.
    destruct (checkViewGuard_total _ _ tensor_constraint view_sizes_constraint
                Hfit1 Hfit2 Hdyn) as [[|] Hb]; [contradiction | exact Hb].
Qed.

(** The guard of the example graph in the source: a [4 x 5 x 6] tensor
    viewed as [4 x 5 x 2 x 3], the first two axes dynamic. *)
Example checkViewGuard_accepts :
  checkViewGuard [4; 5; 6] [4; 5; 2; 3] [-1; -1; 6] [-1; -1; 2; 3] = Ok true.
Proof. reflexivity. Qed.

Example checkViewGuard_rejects_static :
  checkViewGuard [4; 5; 7] [4; 5; 2; 3] [-1; -1; 6] [-1; -1; 2; 3] = Ok false.
Proof. reflexivity. Qed.

(** The [int] accumulator of [std::accumulate] holds the product of the
    sizes modulo [2 ^ 32]. *)
Lemma to_int_mul (a x : Z) : to_int (to_int a * x) = to_int (a * x).
Proof.
  unfold to_int. f_equal.
  rewrite (Z.mod_eq (a + 2 ^ 31) (2 ^ 32)) by lia.
  replace ((a + 2 ^ 31 - 2 ^ 32 * ((a + 2 ^ 31) / 2 ^ 32) - 2 ^ 31) * x + 2 ^ 31)
    with (a * x + 2 ^ 31 + (- ((a + 2 ^ 31) / 2 ^ 32) * x) * 2 ^ 32) by lia.
  apply Z_mod_plus_full.
Qed.

Lemma accumulate_int_wraps (tensor_sizes : list Z) :
  accumulate_int tensor_sizes = to_int (list_prod tensor_sizes).
Proof.
  unfold accumulate_int.
  assert (Hgen : forall l a,
             fold_left (fun acc x => to_int (acc * x)) l (to_int a)
             = to_int (a * list_prod l)).
  { induction l as [| x l IH]; intros a; cbn [fold_left].
    - cbn. now rewrite Z.mul_1_r.
    - rewrite to_int_mul, IH. f_equal.
      change (list_prod (x :: l)) with (x * list_prod l). lia. }
  change 1 with (to_int 1) at 1. rewrite Hgen. f_equal. lia.
Qed.

(** A size that is neither -1 nor positive, or a second -1, stops the loop
    of [inferViewShape] at an internal assertion.  [dynamic_index] is -1 or
    the index of the -1 seen, and indices are not negative. *)
Lemma infer_scan_throws (view_sizes : list Z) :
  forall idx dynamic_index num_elements,
    0 <= idx ->
    Exists (fun v => v <> -1 /\ v <= 0) view_sizes
    \/ ((if (dynamic_index =? -1)%Z then 1 else 0)
        < count_occ Z.eq_dec view_sizes (-1)%Z)%nat ->
    exists msg,
      infer_scan view_sizes idx dynamic_index num_elements
      = Err (InternalAssert msg).
Proof.
  induction view_sizes as [| v rest IH]; intros idx dynamic_index num_elements Hidx Hbad.
  - destruct Hbad as [Hex | Hcount]; [inversion Hex |].
    cbn in Hcount. destruct (dynamic_index =? -1); lia.
  - cbn [infer_scan].
    destruct (Z.eqb_spec v (-1)) as [-> | Hne].
    + destruct (Z.eqb_spec dynamic_index (-1)) as [-> | Hseen]; cbn [negb];
        [| eexists; reflexivity].
      cbn [TORCH_INTERNAL_ASSERT bind]. apply IH; [lia |].
      destruct Hbad as [Hex | Hcount].
      * left. inversion Hex as [v' l' [Hv _] | v' l' Hrest]; subst;
          [congruence | exact Hrest].
      * right. cbn [count_occ] in Hcount.
        destruct (Z.eq_dec (-1) (-1)) as [_ | Hn]; [| congruence].
        destruct (Z.eqb_spec idx (-1)); lia.
    + destruct (Z.ltb_spec 0 v) as [Hpos | Hnpos]; [| eexists; reflexivity].
      cbn [TORCH_INTERNAL_ASSERT bind]. apply IH; [lia |].
      destruct Hbad as [Hex | Hcount].
      * left. inversion Hex as [v' l' [_ Hv] | v' l' Hrest]; subst;
          [lia | exact Hrest].
      * right. cbn [count_occ] in Hcount.
        destruct (Z.eq_dec v (-1)) as [Heq | _]; [contradiction | exact Hcount].
Qed.

Lemma inferViewShape_throws (tensor_sizes view_sizes : list Z) :
  Exists (fun v => v <> -1 /\ v <= 0) view_sizes
  \/ (1 < count_occ Z.eq_dec view_sizes (-1)%Z)%nat ->
  exists msg, inferViewShape tensor_sizes view_sizes = Err (InternalAssert msg).
Proof.
  intros Hbad.
  destruct (infer_scan_throws view_sizes 0 (-1) 1 ltac:(lia) Hbad) as (msg & Hscan).
  exists msg. unfold inferViewShape. now rewrite Hscan.
Qed.

(** The product of the entries of [view_sizes] other than -1. *)
Definition static_elements (view_sizes : list Z) : Z :=
  list_prod (filter (fun v => negb (v =? -1)) view_sizes).

(** The view sizes [inferViewShape] accepts: one entry at most is -1, the
    others are positive, and their product is a [size_t]. *)
Definition well_formed_view (view_sizes : list Z) : Prop :=
  Forall (fun v => v = -1 \/ 0 < v) view_sizes
  /\ (count_occ Z.eq_dec view_sizes (-1)%Z <= 1)%nat
  /\ static_elements view_sizes < 2 ^ 64.

Lemma static_elements_pos (view_sizes : list Z) :
  Forall (fun v => v = -1 \/ 0 < v) view_sizes -> 1 <= static_elements view_sizes.
Proof.
  unfold static_elements. induction 1 as [| v rest Hv _ IH]; cbn; [lia |].
  destruct (Z.eqb_spec v (-1)) as [-> | Hne]; cbn; [exact IH |].
  fold (list_prod (filter (fun v => negb (v =? -1)) rest)). nia.
Qed.

Lemma infer_scan_returns (view_sizes : list Z) :
  forall idx dynamic_index num_elements,
    0 <= idx -> 1 <= num_elements ->
    Forall (fun v => v = -1 \/ 0 < v) view_sizes ->
    (dynamic_index = -1 /\ (count_occ Z.eq_dec view_sizes (-1)%Z <= 1)%nat
     \/ count_occ Z.eq_dec view_sizes (-1) = 0%nat) ->
    num_elements * static_elements view_sizes < 2 ^ 64 ->
    exists dynamic_index',
      infer_scan view_sizes idx dynamic_index num_elements
      = Ok (dynamic_index', num_elements * static_elements view_sizes).
Proof.
  induction view_sizes as [| v rest IH];
    intros idx dynamic_index num_elements Hidx Hnum Hall Hdyn Hfit.
  - exists dynamic_index. cbn. now rewrite Z.mul_1_r.
  - inversion Hall as [| v' rest' Hv Hrest]; subst.
    pose proof (static_elements_pos rest Hrest) as Hpos.
    cbn [infer_scan]. unfold static_elements in *. cbn [filter] in *.
    destruct (Z.eqb_spec v (-1)) as [-> | Hne]; cbn [negb] in *.
    + cbn [count_occ] in Hdyn. destruct (Z.eq_dec (-1) (-1)) as [_ | Hn]; [| congruence].
      destruct Hdyn as [[-> Hcount] | Hcount]; [| discriminate].
      cbn. apply IH; auto; try lia.
    + cbn [count_occ] in Hdyn. destruct (Z.eq_dec v (-1)) as [Heq | _]; [contradiction |].
      assert (Hv0 : 0 < v) by (destruct Hv; [contradiction | assumption]).
      cbn [list_prod fold_right] in Hfit |- *.
      fold (list_prod (filter (fun v => negb (v =? -1)) rest)) in Hfit |- *.
      set (r := list_prod (filter (fun v => negb (v =? -1)) rest)) in *.
      assert (Hstep : num_elements * v < 2 ^ 64) by nia.
      destruct (Z.ltb_spec 0 v) as [_ | Hn]; [| lia]. cbn.
      unfold to_size_t. rewrite (Z.mod_small v) by nia.
      rewrite (Z.mod_small (num_elements * v)) by nia.
      replace (num_elements * (v * r)) with (num_elements * v * r) by lia.
      apply IH; auto; try lia; nia.
Qed.

(** The number of elements of the tensor as [inferViewShape] counts it:
    the product of the sizes, cut to an [int] and read as a [size_t]. *)
Definition counted_elements (tensor_sizes : list Z) : Z :=
  to_size_t (to_int (list_prod tensor_sizes)).

(** On well-formed view sizes [inferViewShape] returns, and its status is
    the divisibility check. *)
Lemma inferViewShape_returns (tensor_sizes view_sizes : list Z) :
  well_formed_view view_sizes ->
  exists inferred,
    inferViewShape tensor_sizes view_sizes
    = Ok (counted_elements tensor_sizes mod static_elements view_sizes =? 0,
          inferred).
Proof.
  intros (Hall & Hcount & Hfit).
  pose proof (static_elements_pos view_sizes Hall) as Hpos.
  destruct (infer_scan_returns view_sizes 0 (-1) 1 ltac:(lia) ltac:(lia) Hall
              ltac:(left; split; [reflexivity | exact Hcount]) ltac:(lia))
    as (dynamic_index & Hscan).
  unfold inferViewShape, counted_elements. rewrite Hscan. cbn [bind].
  rewrite Z.mul_1_l, accumulate_int_wraps.
  destruct (Z.eqb_spec (static_elements view_sizes) 0) as [Hz | _]; [lia |].
  destruct (to_size_t (to_int (list_prod tensor_sizes)) mod static_elements view_sizes =? 0);
    cbn [negb].
  - destruct (negb (dynamic_index =? -1)); eexists; reflexivity.
  - eexists. reflexivity.
Qed.

End ViewGuard.

(* ------------------------------------------------------------------ *)
(** * The guard operators *)

Module GuardOps.
Import Stack.
Local Open Scope string_scope.
Local Open Scope list_scope.

Definition IValue : Type := Stack.IValue Guard.Tensor.
Definition Stack : Type := Stack.Stack Guard.Tensor.

(** The loop of [prim::CudaFusionSizeEq] over the two int lists of equal
    length: false at the first index where exactly one entry is 1. *)
Fixpoint same_broadcast (inp ref : list Z) : bool :=
  match inp, ref with
  | i :: inp', r :: ref' =>
      if negb (Bool.eqb (i =? 1)%Z (r =? 1)%Z) then false
      else same_broadcast inp' ref'
  | _, _ => true
  end.

(** [prim::CudaFusionSizeEq(...) -> bool]; [guard_mode] is the value of the
    global [cuda_fusion_guard_mode]. *)
Definition size_eq_guard (guard_mode : bool) (stack : Stack) : result Stack :=
  inputs <- last stack 2 ;;
  stack <- drop stack 2 ;;
  if negb guard_mode then Ok (push stack (IVBool true))
  else
    in0 <- at_index inputs 0 ;;
    in1 <- at_index inputs 1 ;;
    _ <- TORCH_INTERNAL_ASSERT (isIntList in1) "reference needs to be of int list" ;;
    ref <- toIntList in1 ;;
    match ref with
    | [] => Ok (push stack (IVBool (isNone in0)))
    | _ :: _ =>
        match in0 with
        | IVIntList inp =>
            if negb (length inp =? length ref)%nat
            then Ok (push stack (IVBool false))
            else Ok (push stack (IVBool (same_broadcast inp ref)))
        | _ => Ok (push stack (IVBool false))
        end
    end.

(** The loop of [prim::CudaFusionGuard] over the inputs and the types of
    the node; a type that is not a tensor type casts to a null pointer. *)
Fixpoint all_comply (grad_mode_enabled : bool) (inputs : list IValue)
  (types : list (option Guard.TensorType)) : result bool :=
  match types with
  | [] => Ok true
  | guard_tensor_type :: types' =>
      match inputs with
      | [] => Err (OutOfContract "index out of bounds")
      | input :: inputs' =>
          match input with
          | IVTensor tensor =>
              ok <- Guard.complyWith grad_mode_enabled tensor guard_tensor_type ;;
              if negb ok then Ok false
              else all_comply grad_mode_enabled inputs' types'
          | _ => Err (InternalAssert "inputs[i].isTensor()")
          end
      end
  end.

(** [prim::CudaFusionGuard(...) -> bool] on a node whose [attr::types] is
    [types]. *)
Definition reg_guard (guard_mode grad_mode_enabled : bool)
  (types : list (option Guard.TensorType)) (stack : Stack) : result Stack :=
  let num_inputs := length types in
  inputs <- last stack num_inputs ;;
  stack <- drop stack num_inputs ;;
  if negb guard_mode then Ok (push stack (IVBool true))
  else
    ok <- all_comply grad_mode_enabled inputs types ;;
    Ok (push stack (IVBool ok)).

(** [prim::CudaFusionViewGuard(...) -> bool].  [inferViewShape] writes the
    inferred size into [profiled_view_sizes], which [checkViewGuard] then
    reads. *)
Definition view_guard (guard_mode : bool) (stack : Stack) : result Stack :=
  inputs <- last stack 4 ;;
  in0 <- at_index inputs 0 ;;
  _ <- TORCH_INTERNAL_ASSERT (isIntList in0) "tensor_sizes needs to be Int List" ;;
  tensor_sizes <- toIntList in0 ;;
  in1 <- at_index inputs 1 ;;
  _ <- TORCH_INTERNAL_ASSERT (isIntList in1) "profiled_view_sizes needs to be Int list" ;;
  profiled_view_sizes <- toIntList in1 ;;
  in2 <- at_index inputs 2 ;;
  _ <- TORCH_INTERNAL_ASSERT (isIntList in2) "tensor constraint needs to be Int List" ;;
  tensor_constraint <- toIntList in2 ;;
  in3 <- at_index inputs 3 ;;
  _ <- TORCH_INTERNAL_ASSERT (isIntList in3) "view_sizes constraint needs to be Int List" ;;
  view_sizes_constraint <- toIntList in3 ;;
  stack <- drop stack 4 ;;
  '(status, profiled_view_sizes) <-
     ViewGuard.inferViewShape tensor_sizes profiled_view_sizes ;;
  if negb status then Ok (push stack (IVBool false))
  else if negb guard_mode then Ok (push stack (IVBool true))
  else
    guard_status <- ViewGuard.checkViewGuard tensor_sizes profiled_view_sizes
                      tensor_constraint view_sizes_constraint ;;
    Ok (push stack (IVBool guard_status)).

Section WithEquals.
(** [IValue::equals], a host function. *)
Variable equals : IValue -> IValue -> IValue.

(** [prim::CudaFusionIvalGuard(...) -> bool]. *)
Definition ivalue_guard (guard_mode : bool) (stack : Stack) : result Stack :=
  inputs <- last stack 2 ;;
  stack <- drop stack 2 ;;
  if negb guard_mode then Ok (push stack (IVBool true))
  else
    in0 <- at_index inputs 0 ;;
    in1 <- at_index inputs 1 ;;
    Ok (push stack (equals in0 in1)).

(** With guarding disabled [prim::CudaFusionViewGuard] pops its four int
    lists and pushes the status of [inferViewShape]. *)
Lemma view_guard_disabled (rest : Stack)
  (tensor_sizes view_sizes tensor_constraint view_sizes_constraint : list Z)
  (status : bool) (inferred : list Z) :
  ViewGuard.inferViewShape tensor_sizes view_sizes = Ok (status, inferred) ->
  view_guard false
    (rest ++ [IVIntList tensor_sizes; IVIntList view_sizes;
              IVIntList tensor_constraint; IVIntList view_sizes_constraint])
  = Ok (push rest (IVBool status)).
Proof.
  intros Hinfer. unfold view_guard.
  rewrite (last_top _ rest [_; _; _; _] 4 eq_refl),
    (drop_top _ rest [_; _; _; _] 4 eq_refl).
  simpl.
  rewrite Hinfer. cbn [bind]. now destruct status.
Qed.

(** With guarding disabled [prim::CudaFusionViewGuard] throws what
    [inferViewShape] throws, and pushes nothing. *)
Lemma view_guard_disabled_error (rest : Stack)
  (tensor_sizes view_sizes tensor_constraint view_sizes_constraint : list Z)
  (e : error) :
  ViewGuard.inferViewShape tensor_sizes view_sizes = Err e ->
  view_guard false
    (rest ++ [IVIntList tensor_sizes; IVIntList view_sizes;
              IVIntList tensor_constraint; IVIntList view_sizes_constraint])
  = Err e.
Proof.
  intros Hinfer. unfold view_guard.
  rewrite (last_top _ rest [_; _; _; _] 4 eq_refl),
    (drop_top _ rest [_; _; _; _] 4 eq_refl).
  simpl.
  now rewrite Hinfer.
Qed.

(** C9, amended.  With [cuda_fusion_guard_mode] false,
    [prim::CudaFusionSizeEq], [prim::CudaFusionGuard] and
    [prim::CudaFusionIvalGuard] pop their inputs (two, one per guarded
    type, two) and push true, whatever the inputs are.
    [prim::CudaFusionViewGuard] runs [inferViewShape] before it reads the
    mode.  On view sizes with at most one -1, the others positive and their
    product a [size_t], it pops its four int lists and pushes whether that
    product divides the number of elements of the tensor, taken modulo
    [2 ^ 32] as [inferViewShape] counts it: true when it does, false when
    it does not, although guarding is disabled.  On view sizes with an
    entry that is neither -1 nor positive, or with more than one -1, it
    throws an internal assertion and pushes nothing. *)
Theorem guards_disabled (rest : Stack) (a b : IValue)
  (grad_mode_enabled : bool) (types : list (option Guard.TensorType))
  (tensors : list IValue)
  (tensor_sizes view_sizes tensor_constraint view_sizes_constraint : list Z)
  (Hinputs : length tensors = length types) :
  let view_stack :=
    rest ++ [IVIntList tensor_sizes; IVIntList view_sizes;
             IVIntList tensor_constraint; IVIntList view_sizes_constraint] in
  size_eq_guard false (rest ++ [a; b]) = Ok (push rest (IVBool true))
  /\ reg_guard false grad_mode_enabled types (rest ++ tensors)
     = Ok (push rest (IVBool true))
  /\ ivalue_guard false (rest ++ [a; b]) = Ok (push rest (IVBool true))
  /\ (ViewGuard.well_formed_view view_sizes ->
      view_guard false view_stack
      = Ok (push rest
              (IVBool (ViewGuard.counted_elements tensor_sizes
                         mod ViewGuard.static_elements view_sizes =? 0)%Z)))
  /\ (Exists (fun v => v <> (-1)%Z /\ (v <= 0)%Z) view_sizes
      \/ (1 < count_occ Z.eq_dec view_sizes (-1)%Z)%nat ->
      exists msg, view_guard false view_stack = Err (InternalAssert msg)).
Proof.
  cbv zeta. repeat split.
  - unfold size_eq_guard.
    rewrite (last_top _ rest [a; b] 2 eq_refl), (drop_top _ rest [a; b] 2 eq_refl).
    reflexivity.
  - unfold reg_guard.
    rewrite (last_top _ rest tensors _ (eq_sym Hinputs)),
      (drop_top _ rest tensors _ (eq_sym Hinputs)).
    reflexivity.
  - unfold ivalue_guard.
    rewrite (last_top _ rest [a; b] 2 eq_refl), (drop_top _ rest [a; b] 2 eq_refl).
    reflexivity.
  - intros Hview.
    destruct (ViewGuard.inferViewShape_returns tensor_sizes view_sizes Hview)
      as (inferred & Hinfer).
    now apply (view_guard_disabled rest tensor_sizes view_sizes tensor_constraint
                 view_sizes_constraint _ inferred).
  - intros Hbad.
    destruct (ViewGuard.inferViewShape_throws tensor_sizes view_sizes Hbad)
      as (msg & Hinfer).
    exists msg.
    now apply (view_guard_disabled_error rest tensor_sizes view_sizes
                 tensor_constraint view_sizes_constraint).
Qed.

End WithEquals.

(** A view whose element count does not divide the tensor's. *)
Example inferViewShape_fails :
  ViewGuard.inferViewShape [4; 5]%Z [3; -1]%Z = Ok (false, [3; -1]%Z).
Proof. reflexivity. Qed.

(** The claim C9 as it is written, for the view guard: with guarding
    disabled it pops its four inputs and pushes true or false. *)
Definition pushes_a_bool_when_disabled (rest : Stack)
  (tensor_sizes view_sizes tensor_constraint view_sizes_constraint : list Z)
  : Prop :=
  exists status,
    view_guard false
      (rest ++ [IVIntList tensor_sizes; IVIntList view_sizes;
                IVIntList tensor_constraint; IVIntList view_sizes_constraint])
    = Ok (push rest (IVBool status)).

(** C9, counterexample.  An empty [0 x 5] tensor viewed as [0 x 5], with
    guarding disabled: [inferViewShape] asserts that a view size other
    than -1 is positive, so the guard throws and pushes neither true nor
    false. *)
Lemma view_guard_disabled_throws :
  view_guard false
    ([] ++ [IVIntList [0; 5]%Z; IVIntList [0; 5]%Z;
            IVIntList [0; 5]%Z; IVIntList [0; 5]%Z])
  = Err (InternalAssert "view_sizes[idx] > 0")
  /\ ~ pushes_a_bool_when_disabled [] [0; 5]%Z [0; 5]%Z [0; 5]%Z [0; 5]%Z.
Proof.
  split; [reflexivity |]. intros [status Hrun]. discriminate Hrun.
Qed.

(** A [4 x 5] tensor viewed as [3 x -1]: 3 does not divide 20. *)
Lemma guards_disabled_witness :
  size_eq_guard false ([] ++ [IVNone; IVInt 3]) = Ok (push [] (IVBool true))
  /\ reg_guard false true [None] ([] ++ [IVInt 7]) = Ok (push [] (IVBool true))
  /\ ivalue_guard (fun x _ => x) false ([] ++ [IVNone; IVInt 3])
     = Ok (push [] (IVBool true))
  /\ view_guard false
       ([] ++ [IVIntList [4; 5]%Z; IVIntList [3; -1]%Z;
               IVIntList [-1; -1]%Z; IVIntList [3; -1]%Z])
     = Ok (push [] (IVBool false)).
Proof.
  destruct (guards_disabled (fun x _ => x) [] IVNone (IVInt 3) true [None] [IVInt 7]
              [4; 5]%Z [3; -1]%Z [-1; -1]%Z [3; -1]%Z eq_refl)
    as (Hsize & Hreg & Hival & Hview & _).
  split; [exact Hsize |]. split; [exact Hreg |]. split; [exact Hival |].
  apply Hview.
  unfold ViewGuard.well_formed_view. split; [| split].
  - constructor; [right; lia |]. constructor; [left; reflexivity | constructor].
  - cbn. lia.
  - cbn. lia.
Defined.

End GuardOps.

(* ------------------------------------------------------------------ *)
(** * The CPU softmax kernels *)

Module SoftMax.
Local Open Scope Z_scope.

(** ** The scalar type of a kernel

    [scalar_t] with the operations the kernels apply to it, on scalars or
    lane by lane on [Vectorized<scalar_t>].  The kernels for [BFloat16]
    compute in [float]; the two conversions are taken to be exact, so one
    scalar type stands for both. *)
Class Scalar (T : Type) : Type := {
  zero : T;
  one : T;
  add : T -> T -> T;
  sub : T -> T -> T;
  mul : T -> T -> T;
  div : T -> T -> T;
  sexp : T -> T;              (* std::exp, Vec::exp *)
  slog : T -> T;              (* Vec::log *)
  lt : T -> T -> bool         (* operator<; [a > b] is [lt b a] *)
}.

(** The laws of exact arithmetic the proofs rely on: a strict order, a
    neutral zero, and multiplication by the reciprocal being division. *)
Class ScalarLaws (T : Type) `{Scalar T} : Prop := {
  lt_irrefl : forall a, lt a a = false;
  lt_trans : forall a b c, lt a b = true -> lt b c = true -> lt a c = true;
  add_zero_l : forall a, add zero a = a;
  mul_recip : forall a s, mul a (div one s) = div a s
}.

Section Kernels.
Context {T : Type} `{Scalar T}.

(** [std::max(a, b)], [vec::maximum] on one lane, and
    [data > max ? data : max] with [a] the running maximum. *)
Definition smax (a b : T) : T := if lt a b then b else a.

(** ** Buffers and loops *)

(** A buffer seen from its base pointer: element offset to value. *)
Definition buffer : Type := Z -> T.

Definition upd (m : buffer) (p : Z) (v : T) : buffer :=
  fun q => if q =? p then v else m q.

(** [n] rounds of a loop whose counter starts at [i] and steps by one. *)
Fixpoint for_range {St : Type} (n : nat) (i : Z) (body : Z -> St -> St) (s : St) : St :=
  match n with
  | O => s
  | S n' => for_range n' (i + 1) body (body i s)
  end.

(** [for (i = lo; i < hi; i++) body], also [c10::irange(lo, hi)]. *)
Definition for_loop {St : Type} (lo hi : Z) (body : Z -> St -> St) (s : St) : St :=
  for_range (Z.to_nat (hi - lo)) lo body s.

(** A [Vectorized] value: lane to scalar; the number of lanes is given
    where the vector is stored. *)
Definition Vec : Type := Z -> T.

Definition loadu (m : buffer) (p : Z) : Vec := fun l => m (p + l).

Definition store (lanes : Z) (m : buffer) (p : Z) (v : Vec) : buffer :=
  for_loop 0 lanes (fun l m => upd m (p + l) (v l)) m.

Definition vbroadcast (x : T) : Vec := fun _ => x.
Definition vlift2 (op : T -> T -> T) (a b : Vec) : Vec := fun l => op (a l) (b l).
Definition vlift1 (op : T -> T) (a : Vec) : Vec := fun l => op (a l).

(** ** The helpers of [at::vec]

    Modelled from the spec: [vec::map], [vec::map2], [vec::reduce_all],
    [vec::map_reduce_all] and [vec::map2_reduce_all] of
    [ATen/cpu/vec/functional.h] are not under src/.  They map a function
    over [size] elements, and reduce [size] elements with a binary function,
    here in index order; the functions are given by their action on one
    lane. *)
Definition vec_map (f : T -> T) (out : buffer) (output_data : Z)
  (inp : buffer) (input_data : Z) (size : Z) : buffer :=
  for_loop 0 size (fun i out => upd out (output_data + i) (f (inp (input_data + i)))) out.

(** [vec::map] with the output pointer equal to the input pointer. *)
Definition vec_map_inplace (f : T -> T) (out : buffer) (data : Z) (size : Z)
  : buffer :=
  for_loop 0 size (fun i out => upd out (data + i) (f (out (data + i)))) out.

Definition vec_map2 (f : T -> T -> T) (out : buffer) (output_data : Z)
  (in1 : buffer) (data1 : Z) (in2 : buffer) (data2 : Z) (size : Z) : buffer :=
  for_loop 0 size
    (fun i out => upd out (output_data + i) (f (in1 (data1 + i)) (in2 (data2 + i)))) out.

Definition reduce_all (red : T -> T -> T) (m : buffer) (data : Z) (size : Z) : T :=
  for_loop 1 size (fun i acc => red acc (m (data + i))) (m data).

Definition map_reduce_all (map_fun : T -> T) (red : T -> T -> T)
  (m : buffer) (data : Z) (size : Z) : T :=
  for_loop 1 size (fun i acc => red acc (map_fun (m (data + i)))) (map_fun (m data)).

Definition map2_reduce_all (map_fun : T -> T -> T) (red : T -> T -> T)
  (m1 : buffer) (data1 : Z) (m2 : buffer) (data2 : Z) (size : Z) : T :=
  for_loop 1 size
    (fun i acc => red acc (map_fun (m1 (data1 + i)) (m2 (data2 + i))))
    (map_fun (m1 data1) (m2 data2)).

(** Modelled from the spec: [at::parallel_for] of [ATen/Parallel.h] is not
    under src/.  It splits [[begin, end)] into consecutive non-empty chunks
    and calls [f] on each; the chunks write disjoint parts of the output,
    and here they run one after the other.  Which chunks it makes is the
    scheduler's choice, here the argument [chunks]; [None] when a call of
    [f] does not return. *)
Fixpoint run_chunks (chunks : list (Z * Z)) (f : Z -> Z -> buffer -> option buffer)
  (m : buffer) : option buffer :=
  match chunks with
  | [] => Some m
  | (b, e) :: rest =>
      match f b e m with
      | Some m' => run_chunks rest f m'
      | None => None
      end
  end.

Definition parallel_for (chunks : list (Z * Z)) (begin end_ grain_size : Z)
  (f : Z -> Z -> buffer -> option buffer) (m : buffer) : option buffer :=
  if end_ <=? begin then Some m else run_chunks chunks f m.

(** [chunks] splits [[lo, hi)] into consecutive non-empty ranges. *)
Fixpoint is_partition (lo hi : Z) (chunks : list (Z * Z)) : Prop :=
  match chunks with
  | [] => lo = hi
  | (b, e) :: rest => b = lo /\ lo < e /\ e <= hi /\ is_partition e hi rest
  end.

(** [internal::GRAIN_SIZE] *)
Definition GRAIN_SIZE : Z := 32768.

(** ** What the kernels are to compute *)

(** The list [f 0, f 1, ..., f (n - 1)]. *)
Definition tabulate (f : Z -> T) (n : Z) : list T :=
  map (fun k => f (Z.of_nat k)) (seq 0 (Z.to_nat n)).

(** The elements [m[p], m[p + stride], ...], [n] of them. *)
Definition slice (m : buffer) (p stride : Z) (n : Z) : list T :=
  tabulate (fun d => m (p + d * stride)) n.

(** The sum of a list, from the left, starting from zero. *)
Definition ssum (l : list T) : T := fold_left add l zero.

(** The maximum of a non-empty list, from the left. *)
Definition list_max (l : list T) : T :=
  match l with
  | [] => zero
  | x :: r => fold_left smax r x
  end.

(** [m] is an element of [l] that no element of [l] exceeds. *)
Definition is_max (m : T) (l : list T) : Prop :=
  In m l /\ forall y, In y l -> lt m y = false.

(** [exp(x_i - m) / sum_j exp(x_j - m)] with [m = max_j x_j]. *)
Definition softmax_value (xs : list T) (x : T) : T :=
  let m := list_max xs in
  div (sexp (sub x m)) (ssum (map (fun y => sexp (sub y m)) xs)).

(** [x_i - m - log(sum_j exp(x_j - m))] with [m = max_j x_j]. *)
Definition log_softmax_value (xs : list T) (x : T) : T :=
  let m := list_max xs in
  sub (sub x m) (slog (ssum (map (fun y => sexp (sub y m)) xs))).

(** ** _vec_softmax_lastdim *)

Definition softmax_lastdim_row (dim_size : Z) (input : buffer) (i : Z)
  (output : buffer) : buffer :=
  let input_data := i * dim_size in
  let output_data := i * dim_size in
  let max_input := reduce_all smax input input_data dim_size in
  let output := vec_map (fun x => sexp (sub x max_input))
                  output output_data input input_data dim_size in
  let tmp_sum := reduce_all add output output_data dim_size in
  let tmp_sum := div one tmp_sum in
  vec_map_inplace (fun x => mul x tmp_sum) output output_data dim_size.

(** Every kernel starts by dividing by a multiple of [dim_size] to get its
    grain size or its chunk size.  At [dim_size = 0] that is a division by
    zero, which C++ leaves undefined and which stops the process: the kernel
    does not return, here [None]. *)
Definition _vec_softmax_lastdim (chunks : list (Z * Z)) (input output : buffer)
  (outer_size dim_size : Z) : option buffer :=
  if dim_size =? 0 then None else
  let grain_size := GRAIN_SIZE / (16 * dim_size) in
  let grain_size := if grain_size <? 1 then 1 else grain_size in
  parallel_for chunks 0 outer_size grain_size
    (fun begin end_ output =>
       Some (for_loop begin end_ (softmax_lastdim_row dim_size input) output))
    output.

(** ** _vec_host_softmax_backward_lastdim *)

Definition softmax_backward_lastdim_row (log_softmax : bool) (dim_size : Z)
  (grad output : buffer) (i : Z) (grad_input : buffer) : buffer :=
  let grad_input_data := i * dim_size in
  let grad_data := i * dim_size in
  let output_data := i * dim_size in
  let sum :=
    if log_softmax
    then reduce_all add grad grad_data dim_size
    else map2_reduce_all mul add grad grad_data output output_data dim_size in
  if log_softmax
  then vec_map2 (fun x y => sub x (mul (sexp y) sum))
         grad_input grad_input_data grad grad_data output output_data dim_size
  else vec_map2 (fun x y => mul (sub x sum) y)
         grad_input grad_input_data grad grad_data output output_data dim_size.

Definition _vec_host_softmax_backward_lastdim (log_softmax : bool)
  (chunks : list (Z * Z)) (grad_input grad output : buffer)
  (outer_size dim_size : Z) : option buffer :=
  if dim_size =? 0 then None else
  let grain_size := GRAIN_SIZE / (16 * dim_size) in
  let grain_size := if grain_size <? 1 then 1 else grain_size in
  parallel_for chunks 0 outer_size grain_size
    (fun begin end_ grad_input =>
       Some (for_loop begin end_
               (softmax_backward_lastdim_row log_softmax dim_size grad output)
               grad_input))
    grad_input.

(** ** _vec_softmax, the generic overload

    [input_data] and [output_data] are offsets from the two base pointers;
    the kernel computes the same offset for both. *)

(** The vectorized branch: [vectorized_step] neighbouring columns at once. *)
Definition vec_softmax_vectorized (vectorized_step dim_size dim_stride : Z)
  (input : buffer) (input_data output_data : Z) (output : buffer) : buffer :=
  (* Step 1: Get max Score *)
  let max_vec :=
    for_loop 1 dim_size
      (fun d max_vec =>
         let input_vec := loadu input (input_data + d * dim_stride) in
         vlift2 smax max_vec input_vec)
      (loadu input input_data) in
  (* Step2: Calculate sum *)
  let '(output, sum_vec) :=
    for_loop 0 dim_size
      (fun d '(output, sum_vec) =>
         let output_vec :=
           vlift1 sexp (vlift2 sub (loadu input (input_data + d * dim_stride)) max_vec) in
         (store vectorized_step output (output_data + d * dim_stride) output_vec,
          vlift2 add sum_vec output_vec))
      (output, vbroadcast zero) in
  (* Step3: Unify *)
  for_loop 0 dim_size
    (fun d output =>
       let output_vec :=
         vlift2 div (loadu output (output_data + d * dim_stride)) sum_vec in
       store vectorized_step output (output_data + d * dim_stride) output_vec)
    output.

(** The scalar tail: one column. *)
Definition vec_softmax_scalar (dim_size dim_stride : Z)
  (input : buffer) (input_data output_data : Z) (output : buffer) : buffer :=
  (* Step1: Get max score *)
  let max_input :=
    for_loop 1 dim_size
      (fun d max_input => smax max_input (input (input_data + d * dim_stride)))
      (input input_data) in
  (* Step2: Calculate the Sum *)
  let '(output, sum_data) :=
    for_loop 0 dim_size
      (fun d '(output, sum_data) =>
         let output :=
           upd output (output_data + d * dim_stride)
             (sexp (sub (input (input_data + d * dim_stride)) max_input)) in
         (output, add sum_data (output (output_data + d * dim_stride))))
      (output, zero) in
  (* Step3: Unify *)
  for_loop 0 dim_size
    (fun d output =>
       upd output (output_data + d * dim_stride)
         (div (output (output_data + d * dim_stride)) sum_data))
    output.

(** The body of the [parallel_for] lambda: [while (idx < end)].  [/] and
    [%] on [int64_t] truncate; every round advances [idx], and [fuel]
    bounds the rounds. *)
Fixpoint vec_softmax_while (fuel : nat) (vectorized_step inner_size dim_size : Z)
  (input : buffer) (idx end_ : Z) (output : buffer) : option buffer :=
  let dim_stride := inner_size in
  let outer_stride := dim_size * dim_stride in
  if idx <? end_ then
    match fuel with
    | O => None
    | S fuel' =>
        let outer_idx := Z.quot idx inner_size in
        let inner_idx := Z.rem idx inner_size in
        if (inner_idx + vectorized_step <=? inner_size)
           && (idx + vectorized_step <=? end_)
        then
          let input_data := outer_idx * outer_stride + inner_idx in
          let output_data := outer_idx * outer_stride + inner_idx in
          let output :=
            vec_softmax_vectorized vectorized_step dim_size dim_stride
              input input_data output_data output in
          vec_softmax_while fuel' vectorized_step inner_size dim_size input
            (idx + vectorized_step) end_ output
        else
          let tail_number :=
            if idx + vectorized_step >? end_ then end_ - idx
            else inner_size - inner_idx in
          let output :=
            for_loop 0 tail_number
              (fun i output =>
                 let outer_idx := Z.quot (idx + i) inner_size in
                 let inner_idx := Z.rem (idx + i) inner_size in
                 let input_data := outer_idx * outer_stride + inner_idx in
                 let output_data := outer_idx * outer_stride + inner_idx in
                 vec_softmax_scalar dim_size dim_stride
                   input input_data output_data output)
              output in
          vec_softmax_while fuel' vectorized_step inner_size dim_size input
            (idx + tail_number) end_ output
    end
  else Some output.

Definition _vec_softmax (vectorized_step : Z) (chunks : list (Z * Z))
  (input output : buffer) (outer_size inner_size dim_size : Z) : option buffer :=
  if dim_size =? 0 then None else
  let grain_size := Z.min (GRAIN_SIZE / dim_size) 1 in
  parallel_for chunks 0 (outer_size * inner_size) grain_size
    (fun begin end_ output =>
       vec_softmax_while (Z.to_nat (end_ - begin)) vectorized_step inner_size
         dim_size input begin end_ output)
    output.

(** ** _vec_softmax, the overload for BFloat16

    A [Vectorized<BFloat16>] has [vectorized_step] lanes and converts to
    two [Vectorized<float>] of [float_lanes] lanes each: the lower and the
    upper half. *)
Definition convert_bfloat16_float (float_lanes : Z) (v : Vec) : Vec * Vec :=
  (fun l => v l, fun l => v (float_lanes + l)).

Definition convert_float_bfloat16 (float_lanes : Z) (a b : Vec) : Vec :=
  fun l => if l <? float_lanes then a l else b (l - float_lanes).

(** The vectorized branch; it keeps the converted input and the
    exponentials in the two temporary [float] arrays of the chunk. *)
Definition vec_softmax_bf16_vectorized (float_lanes vectorized_step dim_size dim_stride : Z)
  (input : buffer) (input_data output_data : Z)
  (temp_vec_input_data temp_vec_output_data output : buffer)
  : buffer * buffer * buffer :=
  (* Step 1: Get max Score *)
  let max_vec_bf16 := loadu input input_data in
  let convert_result := convert_bfloat16_float float_lanes max_vec_bf16 in
  let max_vec_o1 := fst convert_result in
  let max_vec_o2 := snd convert_result in
  let temp_vec_input_data :=
    store float_lanes temp_vec_input_data 0 (fst convert_result) in
  let temp_vec_input_data :=
    store float_lanes temp_vec_input_data vectorized_step (snd convert_result) in
  let '(max_vec_o1, max_vec_o2, temp_vec_input_data) :=
    for_loop 1 dim_size
      (fun d '(max_vec_o1, max_vec_o2, temp_vec_input_data) =>
         let input_vec_bf16 := loadu input (input_data + d * dim_stride) in
         let convert_result := convert_bfloat16_float float_lanes input_vec_bf16 in
         let max_vec_o1 := vlift2 smax max_vec_o1 (fst convert_result) in
         let max_vec_o2 := vlift2 smax max_vec_o2 (snd convert_result) in
         let temp_vec_input_data :=
           store float_lanes temp_vec_input_data (d * vectorized_step * 2)
             (fst convert_result) in
         let temp_vec_input_data :=
           store float_lanes temp_vec_input_data
             (d * vectorized_step * 2 + vectorized_step) (snd convert_result) in
         (max_vec_o1, max_vec_o2, temp_vec_input_data))
      (max_vec_o1, max_vec_o2, temp_vec_input_data) in
  (* Step2: Calculate sum *)
  let '(sum_vec_o1, sum_vec_o2, temp_vec_output_data) :=
    for_loop 0 dim_size
      (fun d '(sum_vec_o1, sum_vec_o2, temp_vec_output_data) =>
         let output_vec_o1 := loadu temp_vec_input_data (d * vectorized_step * 2) in
         let output_vec_o2 :=
           loadu temp_vec_input_data (d * vectorized_step * 2 + vectorized_step) in
         let output_vec_o1 := vlift1 sexp (vlift2 sub output_vec_o1 max_vec_o1) in
         let output_vec_o2 := vlift1 sexp (vlift2 sub output_vec_o2 max_vec_o2) in
         let temp_vec_output_data :=
           store float_lanes temp_vec_output_data (d * vectorized_step * 2)
             output_vec_o1 in
         let temp_vec_output_data :=
           store float_lanes temp_vec_output_data
             (d * vectorized_step * 2 + vectorized_step) output_vec_o2 in
         (vlift2 add sum_vec_o1 output_vec_o1, vlift2 add sum_vec_o2 output_vec_o2,
          temp_vec_output_data))
      (vbroadcast zero, vbroadcast zero, temp_vec_output_data) in
  (* Step3: Unify *)
  let output :=
    for_loop 0 dim_size
      (fun d output =>
         let output_vec_o1 := loadu temp_vec_output_data (d * vectorized_step * 2) in
         let output_vec_o2 :=
           loadu temp_vec_output_data (d * vectorized_step * 2 + vectorized_step) in
         let output_vec_o1 := vlift2 div output_vec_o1 sum_vec_o1 in
         let output_vec_o2 := vlift2 div output_vec_o2 sum_vec_o2 in
         let output_vec_bf16 :=
           convert_float_bfloat16 float_lanes output_vec_o1 output_vec_o2 in
         store vectorized_step output (output_data + d * dim_stride) output_vec_bf16)
      output in
  (temp_vec_input_data, temp_vec_output_data, output).

(** The scalar tail of the BFloat16 overload: one column. *)
Definition vec_softmax_bf16_scalar (dim_size dim_stride : Z)
  (input : buffer) (input_data output_data : Z) (output : buffer) : buffer :=
  (* Step1: Get max score *)
  let max_input :=
    for_loop 1 dim_size
      (fun d max_input => smax max_input (input (input_data + d * dim_stride)))
      (input input_data) in
  (* Step2: Calculate the Sum *)
  let '(output, sum_data, temp_output_data) :=
    for_loop 0 dim_size
      (fun d '(output, sum_data, temp_output_data) =>
         let temp_output_data :=
           sexp (sub (input (input_data + d * dim_stride)) max_input) in
         let sum_data := add sum_data temp_output_data in
         (upd output (output_data + d * dim_stride) temp_output_data,
          sum_data, temp_output_data))
      (output, zero, zero) in
  (* Step3: Unify *)
  for_loop 0 dim_size
    (fun d output =>
       upd output (output_data + d * dim_stride)
         (div (output (output_data + d * dim_stride)) sum_data))
    output.

Fixpoint vec_softmax_bf16_while (fuel : nat)
  (float_lanes vectorized_step inner_size dim_size : Z) (input : buffer)
  (idx end_ : Z) (temp_vec_input_data temp_vec_output_data output : buffer)
  : option buffer :=
  let dim_stride := inner_size in
  let outer_stride := dim_size * dim_stride in
  if idx <? end_ then
    match fuel with
    | O => None
    | S fuel' =>
        let outer_idx := Z.quot idx inner_size in
        let inner_idx := Z.rem idx inner_size in
        if (inner_idx + vectorized_step <=? inner_size)
           && (idx + vectorized_step <=? end_)
        then
          let input_data := outer_idx * outer_stride + inner_idx in
          let output_data := outer_idx * outer_stride + inner_idx in
          let '(temp_vec_input_data, temp_vec_output_data, output) :=
            vec_softmax_bf16_vectorized float_lanes vectorized_step dim_size
              dim_stride input input_data output_data
              temp_vec_input_data temp_vec_output_data output in
          vec_softmax_bf16_while fuel' float_lanes vectorized_step inner_size
            dim_size input (idx + vectorized_step) end_
            temp_vec_input_data temp_vec_output_data output
        else
          let tail_number :=
            if idx + vectorized_step >? end_ then end_ - idx
            else inner_size - inner_idx in
          let output :=
            for_loop 0 tail_number
              (fun i output =>
                 let outer_idx := Z.quot (idx + i) inner_size in
                 let inner_idx := Z.rem (idx + i) inner_size in
                 let input_data := outer_idx * outer_stride + inner_idx in
                 let output_data := outer_idx * outer_stride + inner_idx in
                 vec_softmax_bf16_scalar dim_size dim_stride
                   input input_data output_data output)
              output in
          vec_softmax_bf16_while fuel' float_lanes vectorized_step inner_size
            dim_size input (idx + tail_number) end_
            temp_vec_input_data temp_vec_output_data output
    end
  else Some output.

(** [new float[n]()]: zero-initialized. *)
Definition new_float_array : buffer := fun _ => zero.

Definition _vec_softmax_bf16 (float_lanes vectorized_step : Z)
  (chunks : list (Z * Z)) (input output : buffer)
  (outer_size inner_size dim_size : Z) : option buffer :=
  if dim_size =? 0 then None else
  let grain_size := Z.min (GRAIN_SIZE / dim_size) 1 in
  parallel_for chunks 0 (outer_size * inner_size) grain_size
    (fun begin end_ output =>
       vec_softmax_bf16_while (Z.to_nat (end_ - begin)) float_lanes
         vectorized_step inner_size dim_size input begin end_
         new_float_array new_float_array output)
    output.

(** ** Loops *)

Section Loops.
Context {St : Type}.

Lemma for_range_ind (P : Z -> St -> Prop) (body : Z -> St -> St) (n : nat) :
  forall (i : Z) (s : St),
    P i s ->
    (forall j t, i <= j < i + Z.of_nat n -> P j t -> P (j + 1) (body j t)) ->
    P (i + Z.of_nat n) (for_range n i body s).
Proof.
  induction n as [| n IH]; intros i s Hs Hstep.
  - cbn. now rewrite Z.add_0_r.
  - cbn [for_range].
    replace (i + Z.of_nat (S n)) with (i + 1 + Z.of_nat n) by lia.
    apply IH.
    + apply Hstep; [lia | exact Hs].
    + intros j t Hj. apply Hstep. lia.
Qed.

(** The invariant rule of the [for] loop. *)
Lemma for_loop_ind (P : Z -> St -> Prop) (body : Z -> St -> St) (lo hi : Z) (s : St) :
  lo <= hi ->
  P lo s ->
  (forall j t, lo <= j < hi -> P j t -> P (j + 1) (body j t)) ->
  P hi (for_loop lo hi body s).
Proof.
  intros Hle Hs Hstep. unfold for_loop.
  replace hi with (lo + Z.of_nat (Z.to_nat (hi - lo))) at 1 by lia.
  apply for_range_ind; [exact Hs |].
  intros j t Hj. apply Hstep. lia.
Qed.

Lemma for_loop_empty (body : Z -> St -> St) (lo hi : Z) (s : St) :
  hi <= lo -> for_loop lo hi body s = s.
Proof.
  intros Hle. unfold for_loop. now replace (Z.to_nat (hi - lo)) with O by lia.
Qed.

Lemma for_range_ext (body body' : Z -> St -> St) (n : nat) :
  forall i s,
    (forall j t, i <= j < i + Z.of_nat n -> body j t = body' j t) ->
    for_range n i body s = for_range n i body' s.
Proof.
  induction n as [| n IH]; intros i s Hext; [reflexivity |].
  cbn [for_range]. rewrite Hext by lia. apply IH.
  intros j t Hj. apply Hext. lia.
Qed.

Lemma for_loop_ext (body body' : Z -> St -> St) (lo hi : Z) (s : St) :
  (forall j t, lo <= j < hi -> body j t = body' j t) ->
  for_loop lo hi body s = for_loop lo hi body' s.
Proof.
  intros Hext. unfold for_loop. apply for_range_ext.
  intros j t Hj. apply Hext. lia.
Qed.

End Loops.

(** A loop on a pair whose halves do not read each other. *)
Lemma for_range_pair {A B : Type} (f : Z -> A -> A) (g : Z -> B -> B) (n : nat) :
  forall i a b,
    for_range n i (fun j '(a, b) => (f j a, g j b)) (a, b)
    = (for_range n i f a, for_range n i g b).
Proof.
  induction n as [| n IH]; intros i a b; [reflexivity |].
  cbn [for_range]. apply IH.
Qed.

Lemma for_loop_pair {A B : Type} (f : Z -> A -> A) (g : Z -> B -> B) (lo hi : Z)
  (a : A) (b : B) :
  for_loop lo hi (fun j '(a, b) => (f j a, g j b)) (a, b)
  = (for_loop lo hi f a, for_loop lo hi g b).
Proof. apply for_range_pair. Qed.

Lemma for_range_triple {A B C : Type} (f : Z -> A -> A) (g : Z -> B -> B)
  (h : Z -> C -> C) (n : nat) :
  forall i a b c,
    for_range n i (fun j '(a, b, c) => (f j a, g j b, h j c)) (a, b, c)
    = (for_range n i f a, for_range n i g b, for_range n i h c).
Proof.
  induction n as [| n IH]; intros i a b c; [reflexivity |].
  cbn [for_range]. apply IH.
Qed.

Lemma for_loop_triple {A B C : Type} (f : Z -> A -> A) (g : Z -> B -> B)
  (h : Z -> C -> C) (lo hi : Z) (a : A) (b : B) (c : C) :
  for_loop lo hi (fun j '(a, b, c) => (f j a, g j b, h j c)) (a, b, c)
  = (for_loop lo hi f a, for_loop lo hi g b, for_loop lo hi h c).
Proof. apply for_range_triple. Qed.

(** The first round of a loop, taken out of it. *)
Lemma for_loop_first {St : Type} (body : Z -> St -> St) (n : Z) (s : St) :
  0 < n -> for_loop 1 n body (body 0 s) = for_loop 0 n body s.
Proof.
  intros Hn. unfold for_loop.
  replace (Z.to_nat (n - 0)) with (S (Z.to_nat (n - 1))) by lia.
  reflexivity.
Qed.

(** A loop that accumulates with [op] is a fold from the left. *)
Lemma for_range_fold (op : T -> T -> T) (f : Z -> T) (n : nat) :
  forall i a,
    for_range n i (fun j acc => op acc (f j)) a
    = fold_left op (map (fun k => f (i + Z.of_nat k)) (seq 0 n)) a.
Proof.
  induction n as [| n IH]; intros i a; [reflexivity |].
  cbn [for_range seq map fold_left]. rewrite IH, Z.add_0_r.
  f_equal. rewrite <- seq_shift, map_map. apply map_ext.
  intros k. f_equal. lia.
Qed.

Lemma for_loop_fold (op : T -> T -> T) (f : Z -> T) (n : Z) (a : T) :
  for_loop 0 n (fun j acc => op acc (f j)) a = fold_left op (tabulate f n) a.
Proof.
  unfold for_loop, tabulate. rewrite Z.sub_0_r, for_range_fold. reflexivity.
Qed.

Lemma tabulate_cons (f : Z -> T) (n : Z) :
  0 < n -> tabulate f n = f 0 :: map (fun k => f (1 + Z.of_nat k)) (seq 0 (Z.to_nat (n - 1))).
Proof.
  intros Hn. unfold tabulate.
  replace (Z.to_nat n) with (S (Z.to_nat (n - 1))) by lia.
  cbn [seq map]. f_equal. rewrite <- seq_shift, map_map. apply map_ext.
  intros k. f_equal. lia.
Qed.

(** A loop from 1 that starts with the first element folds the whole list. *)
Lemma for_loop_from_1 (op : T -> T -> T) (f : Z -> T) (n : Z) :
  0 < n ->
  for_loop 1 n (fun j acc => op acc (f j)) (f 0)
  = match tabulate f n with
    | [] => zero
    | x :: r => fold_left op r x
    end.
Proof.
  intros Hn. rewrite (tabulate_cons f n Hn).
  unfold for_loop. now rewrite for_range_fold.
Qed.

Lemma tabulate_map (g : T -> T) (f : Z -> T) (n : Z) :
  map g (tabulate f n) = tabulate (fun d => g (f d)) n.
Proof. unfold tabulate. now rewrite map_map. Qed.

Lemma tabulate_ext (f g : Z -> T) (n : Z) :
  (forall d, 0 <= d < n -> f d = g d) -> tabulate f n = tabulate g n.
Proof.
  intros Hext. unfold tabulate. apply map_ext_in. intros k Hk.
  apply in_seq in Hk. apply Hext. lia.
Qed.

Lemma in_tabulate (f : Z -> T) (n : Z) (x : T) :
  In x (tabulate f n) <-> exists d, 0 <= d < n /\ x = f d.
Proof.
  unfold tabulate. rewrite in_map_iff. split.
  - intros (k & <- & Hk). apply in_seq in Hk. exists (Z.of_nat k). split; [lia | reflexivity].
  - intros (d & Hd & ->). exists (Z.to_nat d). split; [f_equal; lia |].
    apply in_seq. lia.
Qed.

Lemma max_reduce (f : Z -> T) (n : Z) :
  0 < n ->
  for_loop 1 n (fun j acc => smax acc (f j)) (f 0) = list_max (tabulate f n).
Proof. intros Hn. now rewrite for_loop_from_1. Qed.

(** ** Buffers *)

Lemma upd_same (m : buffer) (p : Z) (v : T) : upd m p v p = v.
Proof. unfold upd. now rewrite Z.eqb_refl. Qed.

Lemma upd_other (m : buffer) (p q : Z) (v : T) : q <> p -> upd m p v q = m q.
Proof. intros Hne. unfold upd. now apply Z.eqb_neq in Hne as ->. Qed.

(** A loop over rows: round [d] rewrites each address [q] of row [d] to
    [h d q] of its content and leaves the other addresses; rows are
    disjoint.  Then every row holds [h] of the initial content, and the
    addresses outside the rows are unchanged. *)
Lemma for_loop_rows (n : Z) (R : Z -> Z -> Prop) (h : Z -> Z -> T -> T)
  (body : Z -> buffer -> buffer) (m0 : buffer) :
  (forall d m q, 0 <= d < n -> R d q -> body d m q = h d q (m q)) ->
  (forall d m q, 0 <= d < n -> ~ R d q -> body d m q = m q) ->
  (forall d d' q, R d q -> R d' q -> d = d') ->
  (forall d q, 0 <= d < n -> R d q -> for_loop 0 n body m0 q = h d q (m0 q))
  /\ (forall q, (forall d, 0 <= d < n -> ~ R d q) -> for_loop 0 n body m0 q = m0 q).
Proof.
  intros Hin Hout Hdisj.
  destruct (Z_le_gt_dec 0 n) as [Hn | Hn].
  2: { rewrite for_loop_empty by lia. split; [intros; lia | reflexivity]. }
  apply (for_loop_ind
           (fun k m =>
              (forall d q, 0 <= d < k -> R d q -> m q = h d q (m0 q))
              /\ (forall q, (forall d, 0 <= d < k -> ~ R d q) -> m q = m0 q))
           body 0 n m0 Hn).
  - split; [intros; lia | reflexivity].
  - intros k m Hk [IH1 IH2]. split.
    + intros d q Hd HR. destruct (Z.eq_dec d k) as [-> | Hne].
      * rewrite (Hin k m q Hk HR). f_equal. apply IH2.
        intros d' Hd' HR'. specialize (Hdisj _ _ _ HR HR'). lia.
      * rewrite (Hout k m q Hk).
        -- apply IH1; [lia | exact HR].
        -- intros HR'. specialize (Hdisj _ _ _ HR HR'). lia.
    + intros q Hq. rewrite (Hout k m q Hk).
      * apply IH2. intros d Hd. apply Hq. lia.
      * apply Hq. lia.
Qed.

Lemma store_spec (lanes : Z) (m : buffer) (p : Z) (v : Vec) (q : Z) :
  store lanes m p v q
  = if (p <=? q) && (q <? p + lanes) then v (q - p) else m q.
Proof.
  unfold store.
  destruct (for_loop_rows lanes (fun l q => q = p + l) (fun l q _ => v l)
              (fun l m => upd m (p + l) (v l)) m) as [Hin Hout].
  - intros l m' q' _ ->. apply upd_same.
  - intros l m' q' _ Hne. now apply upd_other.
  - intros l l' q' -> Heq. lia.
  - destruct ((p <=? q) && (q <? p + lanes)) eqn:Hr.
    + apply andb_true_iff in Hr. destruct Hr as [H1 H2].
      apply Z.leb_le in H1. apply Z.ltb_lt in H2.
      rewrite (Hin (q - p) q) by lia. reflexivity.
    + apply Hout. intros l Hl ->.
      apply andb_false_iff in Hr. destruct Hr as [Hr | Hr];
        [apply Z.leb_gt in Hr | apply Z.ltb_ge in Hr]; lia.
Qed.

Lemma vec_map_spec (f : T -> T) (out : buffer) (po : Z) (inp : buffer) (pi n : Z) :
  (forall i, 0 <= i < n -> vec_map f out po inp pi n (po + i) = f (inp (pi + i)))
  /\ (forall q, ~ po <= q < po + n -> vec_map f out po inp pi n q = out q).
Proof.
  unfold vec_map.
  destruct (for_loop_rows n (fun i q => q = po + i) (fun i q _ => f (inp (pi + i)))
              (fun i out => upd out (po + i) (f (inp (pi + i)))) out) as [Hin Hout].
  - intros i m q _ ->. apply upd_same.
  - intros i m q _ Hne. now apply upd_other.
  - intros i i' q -> Heq. lia.
  - split.
    + intros i Hi. now apply Hin.
    + intros q Hq. apply Hout. intros i Hi ->. lia.
Qed.

Lemma vec_map_inplace_spec (f : T -> T) (out : buffer) (p n : Z) :
  (forall i, 0 <= i < n -> vec_map_inplace f out p n (p + i) = f (out (p + i)))
  /\ (forall q, ~ p <= q < p + n -> vec_map_inplace f out p n q = out q).
Proof.
  unfold vec_map_inplace.
  destruct (for_loop_rows n (fun i q => q = p + i) (fun i q x => f x)
              (fun i out => upd out (p + i) (f (out (p + i)))) out) as [Hin Hout].
  - intros i m q _ ->. apply upd_same.
  - intros i m q _ Hne. now apply upd_other.
  - intros i i' q -> Heq. lia.
  - split.
    + intros i Hi. now apply (Hin i).
    + intros q Hq. apply Hout. intros i Hi ->. lia.
Qed.

Lemma vec_map2_spec (f : T -> T -> T) (out : buffer) (po : Z)
  (in1 : buffer) (p1 : Z) (in2 : buffer) (p2 n : Z) :
  (forall i, 0 <= i < n ->
             vec_map2 f out po in1 p1 in2 p2 n (po + i) = f (in1 (p1 + i)) (in2 (p2 + i)))
  /\ (forall q, ~ po <= q < po + n -> vec_map2 f out po in1 p1 in2 p2 n q = out q).
Proof.
  unfold vec_map2.
  destruct (for_loop_rows n (fun i q => q = po + i)
              (fun i q _ => f (in1 (p1 + i)) (in2 (p2 + i)))
              (fun i out => upd out (po + i) (f (in1 (p1 + i)) (in2 (p2 + i)))) out)
    as [Hin Hout].
  - intros i m q _ ->. apply upd_same.
  - intros i m q _ Hne. now apply upd_other.
  - intros i i' q -> Heq. lia.
  - split.
    + intros i Hi. now apply Hin.
    + intros q Hq. apply Hout. intros i Hi ->. lia.
Qed.

Lemma slice_ext (m m' : buffer) (p p' stride stride' n : Z) :
  (forall d, 0 <= d < n -> m (p + d * stride) = m' (p' + d * stride')) ->
  slice m p stride n = slice m' p' stride' n.
Proof. intros Hext. now apply tabulate_ext. Qed.

Lemma in_slice (m : buffer) (p stride n : Z) (x : T) :
  In x (slice m p stride n) <-> exists d, 0 <= d < n /\ x = m (p + d * stride).
Proof. apply in_tabulate. Qed.

Lemma reduce_all_max (m : buffer) (p n : Z) :
  0 < n -> reduce_all smax m p n = list_max (slice m p 1 n).
Proof.
  intros Hn. unfold reduce_all, slice.
  rewrite <- (max_reduce (fun d => m (p + d * 1)) n Hn).
  rewrite Z.mul_0_l, Z.add_0_r. apply for_loop_ext.
  intros j t _. now rewrite Z.mul_1_r.
Qed.

(** ** Consequences of the scalar laws *)

Section WithLaws.
Context `{!ScalarLaws T}.

Lemma smax_is_max (seen : list T) (m x : T) :
  is_max m seen -> is_max (smax m x) (seen ++ [x]).
Proof.
  intros [Hin Hmax]. unfold smax. destruct (lt m x) eqn:Hlt.
  - split; [apply in_or_app; right; now left |].
    intros y Hy. apply in_app_or in Hy. destruct Hy as [Hy | [<- | []]].
    + destruct (lt x y) eqn:Hxy; [| reflexivity].
      specialize (Hmax y Hy).
      now rewrite (lt_trans m x y Hlt Hxy) in Hmax.
    + apply lt_irrefl.
  - split; [apply in_or_app; now left |].
    intros y Hy. apply in_app_or in Hy. destruct Hy as [Hy | [<- | []]].
    + now apply Hmax.
    + exact Hlt.
Qed.

Lemma fold_smax_is_max (r : list T) :
  forall (seen : list T) (m : T),
    is_max m seen -> is_max (fold_left smax r m) (seen ++ r).
Proof.
  induction r as [| x r IH]; intros seen m Hm.
  - now rewrite app_nil_r.
  - cbn [fold_left].
    replace (seen ++ x :: r) with ((seen ++ [x]) ++ r) by (now rewrite <- app_assoc).
    apply IH. now apply smax_is_max.
Qed.

(** [list_max] is a maximum of a non-empty list. *)
Lemma list_max_is_max (l : list T) : l <> [] -> is_max (list_max l) l.
Proof.
  destruct l as [| x r]; [congruence |]. intros _. cbn [list_max].
  apply (fold_smax_is_max r [x] x). split; [now left |].
  intros y [<- | []]. apply lt_irrefl.
Qed.

Lemma slice_nonempty (m : buffer) (p stride n : Z) : 0 < n -> slice m p stride n <> [].
Proof.
  intros Hn. unfold slice. rewrite tabulate_cons by exact Hn. discriminate.
Qed.

Lemma sum_reduce (f : Z -> T) (n : Z) :
  0 < n ->
  for_loop 1 n (fun j acc => add acc (f j)) (f 0) = ssum (tabulate f n).
Proof.
  intros Hn. rewrite for_loop_from_1 by exact Hn.
  rewrite (tabulate_cons f n Hn). unfold ssum. cbn [fold_left].
  now rewrite add_zero_l.
Qed.

Lemma reduce_all_sum (m : buffer) (p n : Z) :
  0 < n -> reduce_all add m p n = ssum (slice m p 1 n).
Proof.
  intros Hn. unfold reduce_all, slice.
  rewrite <- (sum_reduce (fun d => m (p + d * 1)) n Hn).
  rewrite Z.mul_0_l, Z.add_0_r. apply for_loop_ext.
  intros j t _. now rewrite Z.mul_1_r.
Qed.

Lemma map2_reduce_all_sum (g : T -> T -> T) (m1 : buffer) (p1 : Z) (m2 : buffer)
  (p2 n : Z) :
  0 < n ->
  map2_reduce_all g add m1 p1 m2 p2 n
  = ssum (tabulate (fun d => g (m1 (p1 + d)) (m2 (p2 + d))) n).
Proof.
  intros Hn. unfold map2_reduce_all.
  rewrite <- (sum_reduce (fun d => g (m1 (p1 + d)) (m2 (p2 + d))) n Hn).
  now rewrite !Z.add_0_r.
Qed.

(** ** Columns of the output

    A kernel fills the output column by column: column [c] has the
    addresses [addr c d] for [0 <= d < dim], and is to hold [expected c d]. *)
Section Columns.
Variable addr : Z -> Z -> Z.
Variable dim : Z.
Variable expected : Z -> Z -> T.
Hypothesis addr_inj :
  forall c d c' d',
    0 <= c -> 0 <= c' -> 0 <= d < dim -> 0 <= d' < dim ->
    addr c d = addr c' d' -> c = c'.

(** [m] holds the expected values in the columns [[lo, hi)] and agrees
    with [m0] everywhere else. *)
Definition cols_done (m0 m : buffer) (lo hi : Z) : Prop :=
  (forall c d, lo <= c < hi -> 0 <= d < dim -> m (addr c d) = expected c d)
  /\ (forall q, (forall c d, lo <= c < hi -> 0 <= d < dim -> q <> addr c d) ->
                m q = m0 q).

Lemma cols_done_nil (m : buffer) (lo : Z) : cols_done m m lo lo.
Proof. split; [intros; lia | reflexivity]. Qed.

Lemma cols_done_trans (m0 m1 m2 : buffer) (lo mid hi : Z) :
  0 <= lo -> lo <= mid <= hi ->
  cols_done m0 m1 lo mid -> cols_done m1 m2 mid hi -> cols_done m0 m2 lo hi.
Proof.
  intros Hlo Hmid [H1 F1] [H2 F2]. split.
  - intros c d Hc Hd. destruct (Z_lt_ge_dec c mid) as [Hlt | Hge].
    + rewrite F2; [apply H1; [lia | exact Hd] |].
      intros c' d' Hc' Hd' Heq.
      assert (c = c') by (apply (addr_inj c d c' d'); auto; lia). lia.
    + apply H2; [lia | exact Hd].
  - intros q Hq. rewrite F2, F1; [reflexivity | |];
      intros c d Hc Hd; apply Hq; auto; lia.
Qed.

Lemma cols_done_for_loop (step : Z -> buffer -> buffer) (lo hi : Z) (m : buffer) :
  0 <= lo -> lo <= hi ->
  (forall c m', lo <= c < hi -> cols_done m' (step c m') c (c + 1)) ->
  cols_done m (for_loop lo hi step m) lo hi.
Proof.
  intros Hlo Hle Hstep.
  apply (for_loop_ind (fun k m' => cols_done m m' lo k) step lo hi m Hle).
  - apply cols_done_nil.
  - intros k m' Hk IH.
    apply (cols_done_trans m m' (step k m') lo k (k + 1)); auto; lia.
Qed.

Lemma cols_done_chunks (f : Z -> Z -> buffer -> option buffer)
  (chunks : list (Z * Z)) (hi : Z) :
  (forall b e m, 0 <= b -> b < e -> e <= hi ->
                 exists m', f b e m = Some m' /\ cols_done m m' b e) ->
  forall lo m,
    0 <= lo -> is_partition lo hi chunks ->
    exists m', run_chunks chunks f m = Some m' /\ cols_done m m' lo hi.
Proof.
  intros Hf. induction chunks as [| [b e] rest IH]; intros lo m Hlo Hpart.
  - cbn in Hpart. subst hi. exists m. split; [reflexivity | apply cols_done_nil].
  - cbn in Hpart. destruct Hpart as (-> & Hlt & Hle & Hrest).
    destruct (Hf lo e m Hlo Hlt Hle) as (m1 & Hrun1 & Hdone1).
    destruct (IH e m1 ltac:(lia) Hrest) as (m2 & Hrun2 & Hdone2).
    exists m2. cbn [run_chunks]. rewrite Hrun1. split; [exact Hrun2 |].
    assert (e <= hi) by exact Hle.
    apply (cols_done_trans m m1 m2 lo e hi); auto; lia.
Qed.

Lemma cols_done_parallel_for (f : Z -> Z -> buffer -> option buffer)
  (chunks : list (Z * Z)) (hi grain_size : Z) (m : buffer) :
  0 <= hi ->
  is_partition 0 hi chunks ->
  (forall b e m, 0 <= b -> b < e -> e <= hi ->
                 exists m', f b e m = Some m' /\ cols_done m m' b e) ->
  exists m', parallel_for chunks 0 hi grain_size f m = Some m'
             /\ cols_done m m' 0 hi.
Proof.
  intros Hhi Hpart Hf. unfold parallel_for.
  destruct (hi <=? 0) eqn:Hz.
  - apply Z.leb_le in Hz. assert (hi = 0) by lia. subst hi.
    exists m. split; [reflexivity | apply cols_done_nil].
  - apply (cols_done_chunks f chunks hi Hf 0 m); [lia | exact Hpart].
Qed.

End Columns.
(** ** The last-dimension kernels: row [i] is the column, at [i * dim_size] *)

Definition lastdim_addr (dim_size : Z) (i d : Z) : Z := i * dim_size + d.

Lemma lastdim_addr_inj (dim_size : Z) (c d c' d' : Z) :
  0 <= c -> 0 <= c' -> 0 <= d < dim_size -> 0 <= d' < dim_size ->
  lastdim_addr dim_size c d = lastdim_addr dim_size c' d' -> c = c'.
Proof. unfold lastdim_addr. intros. nia. Qed.

Lemma lastdim_row_frame (dim_size i q : Z) :
  (forall c d, i <= c < i + 1 -> 0 <= d < dim_size -> q <> lastdim_addr dim_size c d) ->
  ~ i * dim_size <= q < i * dim_size + dim_size.
Proof.
  intros Hq Hr. apply (Hq i (q - i * dim_size)); unfold lastdim_addr; lia.
Qed.

Definition softmax_lastdim_expected (dim_size : Z) (input : buffer) (i d : Z) : T :=
  softmax_value (slice input (i * dim_size) 1 dim_size) (input (i * dim_size + d)).

Lemma softmax_lastdim_row_done (dim_size : Z) (input : buffer) (i : Z) (m : buffer) :
  0 < dim_size ->
  cols_done (lastdim_addr dim_size) dim_size (softmax_lastdim_expected dim_size input)
    m (softmax_lastdim_row dim_size input i m) i (i + 1).
Proof.
  intros Hdim. unfold softmax_lastdim_row.
  set (p := i * dim_size).
  set (max_input := reduce_all smax input p dim_size).
  set (out1 := vec_map (fun x => sexp (sub x max_input)) m p input p dim_size).
  destruct (vec_map_spec (fun x => sexp (sub x max_input)) m p input p dim_size)
    as [Hv1 Hf1]. fold out1 in Hv1, Hf1.
  set (tmp_sum := reduce_all add out1 p dim_size).
  destruct (vec_map_inplace_spec (fun x => mul x (div one tmp_sum)) out1 p dim_size)
    as [Hv2 Hf2].
  assert (Hmax : max_input = list_max (slice input p 1 dim_size)).
  { apply reduce_all_max, Hdim. }
  assert (Hsum : tmp_sum
                 = ssum (map (fun y => sexp (sub y max_input)) (slice input p 1 dim_size))).
  { unfold tmp_sum. rewrite reduce_all_sum by exact Hdim.
    unfold slice. rewrite tabulate_map. f_equal. apply tabulate_ext.
    intros d Hd. rewrite Z.mul_1_r. now apply Hv1. }
  split.
  - intros c d Hc Hd. assert (c = i) by lia. subst c.
    unfold lastdim_addr, softmax_lastdim_expected, softmax_value. fold p.
    rewrite Hv2, Hv1 by exact Hd. rewrite mul_recip, Hsum, Hmax. reflexivity.
  - intros q Hq. apply lastdim_row_frame in Hq. fold p in Hq.
    rewrite Hf2, Hf1 by exact Hq. reflexivity.
Qed.

Lemma _vec_softmax_lastdim_correct (chunks : list (Z * Z)) (input output : buffer)
  (outer_size dim_size : Z) :
  0 <= outer_size -> 0 < dim_size ->
  is_partition 0 outer_size chunks ->
  exists output',
    _vec_softmax_lastdim chunks input output outer_size dim_size = Some output'
    /\ cols_done (lastdim_addr dim_size) dim_size
         (softmax_lastdim_expected dim_size input) output output' 0 outer_size.
Proof.
  intros Houter Hdim Hpart. unfold _vec_softmax_lastdim.
  destruct (Z.eqb_spec dim_size 0) as [Hzero | _]; [lia |].
  apply cols_done_parallel_for; auto.
  - apply lastdim_addr_inj.
  - intros b e m Hb Hlt Hle. eexists. split; [reflexivity |].
    apply cols_done_for_loop; try lia.
    + apply lastdim_addr_inj.
    + intros c m' Hc. now apply softmax_lastdim_row_done.
Qed.

(** ** The backward kernel *)

Definition softmax_backward_expected (log_softmax : bool) (dim_size : Z)
  (grad output : buffer) (i d : Z) : T :=
  let p := i * dim_size in
  if log_softmax
  then sub (grad (p + d))
         (mul (sexp (output (p + d))) (ssum (slice grad p 1 dim_size)))
  else mul (sub (grad (p + d))
              (ssum (tabulate (fun j => mul (grad (p + j)) (output (p + j))) dim_size)))
         (output (p + d)).

Lemma softmax_backward_lastdim_row_done (log_softmax : bool) (dim_size : Z)
  (grad output : buffer) (i : Z) (m : buffer) :
  0 < dim_size ->
  cols_done (lastdim_addr dim_size) dim_size
    (softmax_backward_expected log_softmax dim_size grad output)
    m (softmax_backward_lastdim_row log_softmax dim_size grad output i m) i (i + 1).
Proof.
  intros Hdim. unfold softmax_backward_lastdim_row, softmax_backward_expected.
  set (p := i * dim_size).
  destruct log_softmax.
  - destruct (vec_map2_spec
                (fun x y => sub x (mul (sexp y) (reduce_all add grad p dim_size)))
                m p grad p output p dim_size) as [Hv Hf].
    split.
    + intros c d Hc Hd. assert (c = i) by lia. subst c.
      unfold lastdim_addr. fold p. rewrite Hv by exact Hd.
      now rewrite reduce_all_sum by exact Hdim.
    + intros q Hq. apply lastdim_row_frame in Hq. now apply Hf.
  - destruct (vec_map2_spec
                (fun x y => mul (sub x (map2_reduce_all mul add grad p output p dim_size)) y)
                m p grad p output p dim_size) as [Hv Hf].
    split.
    + intros c d Hc Hd. assert (c = i) by lia. subst c.
      unfold lastdim_addr. fold p. rewrite Hv by exact Hd.
      now rewrite map2_reduce_all_sum by exact Hdim.
    + intros q Hq. apply lastdim_row_frame in Hq. now apply Hf.
Qed.

Lemma _vec_host_softmax_backward_lastdim_correct (log_softmax : bool)
  (chunks : list (Z * Z)) (grad_input grad output : buffer) (outer_size dim_size : Z) :
  0 <= outer_size -> 0 < dim_size ->
  is_partition 0 outer_size chunks ->
  exists grad_input',
    _vec_host_softmax_backward_lastdim log_softmax chunks grad_input grad output
      outer_size dim_size = Some grad_input'
    /\ cols_done (lastdim_addr dim_size) dim_size
         (softmax_backward_expected log_softmax dim_size grad output)
         grad_input grad_input' 0 outer_size.
Proof.
  intros Houter Hdim Hpart. unfold _vec_host_softmax_backward_lastdim.
  destruct (Z.eqb_spec dim_size 0) as [Hzero | _]; [lia |].
  apply cols_done_parallel_for; auto.
  - apply lastdim_addr_inj.
  - intros b e m Hb Hlt Hle. eexists. split; [reflexivity |].
    apply cols_done_for_loop; try lia.
    + apply lastdim_addr_inj.
    + intros c m' Hc. now apply softmax_backward_lastdim_row_done.
Qed.

(** ** Strided columns: the kernels for a dimension other than the last *)

Lemma for_range_vec (op : T -> T -> T) (g : Z -> Vec) (l : Z) (n : nat) :
  forall i (v : Vec),
    for_range n i (fun d v => vlift2 op v (g d)) v l
    = for_range n i (fun d acc => op acc (g d l)) (v l).
Proof.
  induction n as [| n IH]; intros i v; [reflexivity |].
  cbn [for_range]. now rewrite IH.
Qed.

(** A lane of a vector accumulated over a loop is the scalar loop on that lane. *)
Lemma for_loop_vec (op : T -> T -> T) (g : Z -> Vec) (lo hi : Z) (v : Vec) (l : Z) :
  for_loop lo hi (fun d v => vlift2 op v (g d)) v l
  = for_loop lo hi (fun d acc => op acc (g d l)) (v l).
Proof. apply for_range_vec. Qed.

Lemma for_range_shift {St : Type} (step : Z -> St -> St) (k : Z) (n : nat) :
  forall i s,
    for_range n i (fun j => step (k + j)) s = for_range n (k + i) step s.
Proof.
  induction n as [| n IH]; intros i s; [reflexivity |].
  cbn [for_range]. rewrite IH. f_equal. lia.
Qed.

Lemma for_loop_shift {St : Type} (step : Z -> St -> St) (idx n : Z) (s : St) :
  for_loop 0 n (fun i => step (idx + i)) s = for_loop idx (idx + n) step s.
Proof.
  unfold for_loop. rewrite for_range_shift. f_equal; lia.
Qed.

(** The address of element [d] of column [c]: the tensor is laid out as
    [outer_size x dim_size x inner_size], and column [c] is the pair of an
    outer and an inner index. *)
Definition strided_addr (inner_size dim_size : Z) (c d : Z) : Z :=
  c / inner_size * (dim_size * inner_size) + c mod inner_size + d * inner_size.

Lemma strided_addr_inj (inner_size dim_size : Z) (c d c' d' : Z) :
  0 < inner_size ->
  0 <= c -> 0 <= c' -> 0 <= d < dim_size -> 0 <= d' < dim_size ->
  strided_addr inner_size dim_size c d = strided_addr inner_size dim_size c' d' ->
  c = c'.
Proof.
  intros Hin Hc Hc' Hd Hd'. unfold strided_addr. intros Heq.
  assert (Hk := Z.mod_pos_bound c inner_size Hin).
  assert (Hk' := Z.mod_pos_bound c' inner_size Hin).
  assert (Hdm := Z.div_mod c inner_size ltac:(lia)).
  assert (Hdm' := Z.div_mod c' inner_size ltac:(lia)).
  set (o := c / inner_size) in *. set (k := c mod inner_size) in *.
  set (o' := c' / inner_size) in *. set (k' := c' mod inner_size) in *.
  assert (Hrows : o * dim_size + d = o' * dim_size + d' /\ k = k').
  { assert (inner_size * (o * dim_size + d) + k
            = inner_size * (o' * dim_size + d') + k') by lia.
    assert (o * dim_size + d = o' * dim_size + d') by nia.
    split; [assumption | nia]. }
  destruct Hrows as [Hrow Hkk].
  assert (Hoo : o = o') by nia. lia.
Qed.

(** Truncating division agrees with [strided_addr] on the indices the
    kernels form. *)
Lemma quot_rem_addr (inner_size dim_size idx : Z) :
  0 <= idx -> 0 < inner_size ->
  Z.quot idx inner_size * (dim_size * inner_size) + Z.rem idx inner_size
  = strided_addr inner_size dim_size idx 0.
Proof.
  intros Hidx Hin. unfold strided_addr.
  rewrite Z.quot_div_nonneg, Z.rem_mod_nonneg by lia. lia.
Qed.

(** The lanes of a vectorized group are neighbouring columns. *)
Lemma strided_addr_lane (inner_size dim_size idx l d : Z) :
  0 <= idx -> 0 < inner_size -> 0 <= l ->
  idx mod inner_size + l < inner_size ->
  strided_addr inner_size dim_size (idx + l) d
  = strided_addr inner_size dim_size idx 0 + l + d * inner_size.
Proof.
  intros Hidx Hin Hl Hfit. unfold strided_addr.
  assert (Hk := Z.mod_pos_bound idx inner_size Hin).
  assert (Hdm := Z.div_mod idx inner_size ltac:(lia)).
  assert (Hq : (idx + l) / inner_size = idx / inner_size).
  { symmetry. apply (Z.div_unique (idx + l) inner_size _ (idx mod inner_size + l)); lia. }
  assert (Hr : (idx + l) mod inner_size = idx mod inner_size + l).
  { symmetry. apply (Z.mod_unique (idx + l) inner_size (idx / inner_size)); lia. }
  rewrite Hq, Hr. lia.
Qed.

Definition softmax_expected (inner_size dim_size : Z) (input : buffer) (c d : Z) : T :=
  softmax_value
    (slice input (strided_addr inner_size dim_size c 0) inner_size dim_size)
    (input (strided_addr inner_size dim_size c d)).

Lemma strided_addr_0 (inner_size dim_size c d : Z) :
  strided_addr inner_size dim_size c d
  = strided_addr inner_size dim_size c 0 + d * inner_size.
Proof. unfold strided_addr. lia. Qed.

(** The maximum of a strided column, computed from its first element on. *)
Lemma column_max (input : buffer) (p stride dim_size : Z) :
  0 < dim_size ->
  for_loop 1 dim_size (fun d acc => smax acc (input (p + d * stride))) (input p)
  = list_max (slice input p stride dim_size).
Proof.
  intros Hdim. unfold slice.
  rewrite <- (max_reduce (fun d => input (p + d * stride)) dim_size Hdim).
  now rewrite Z.mul_0_l, Z.add_0_r.
Qed.

Lemma softmax_value_column (input : buffer) (p stride dim_size : Z) (x : T) :
  softmax_value (slice input p stride dim_size) x
  = div (sexp (sub x (list_max (slice input p stride dim_size))))
      (ssum (tabulate
               (fun d => sexp (sub (input (p + d * stride))
                                 (list_max (slice input p stride dim_size))))
               dim_size)).
Proof.
  unfold softmax_value. cbn zeta. f_equal. f_equal.
  unfold slice at 2. now rewrite tabulate_map.
Qed.

Lemma vec_softmax_scalar_spec (dim_size stride : Z) (input : buffer) (p : Z)
  (m : buffer) :
  0 < dim_size -> 0 < stride ->
  let m' := vec_softmax_scalar dim_size stride input p p m in
  (forall d, 0 <= d < dim_size ->
             m' (p + d * stride)
             = softmax_value (slice input p stride dim_size) (input (p + d * stride)))
  /\ (forall q, (forall d, 0 <= d < dim_size -> q <> p + d * stride) -> m' q = m q).
Proof.
  intros Hdim Hstride. unfold vec_softmax_scalar.
  rewrite (column_max input p stride dim_size Hdim).
  set (mx := list_max (slice input p stride dim_size)).
  rewrite (for_loop_ext _
             (fun d '(output, sum_data) =>
                (upd output (p + d * stride) (sexp (sub (input (p + d * stride)) mx)),
                 add sum_data (sexp (sub (input (p + d * stride)) mx))))).
  2: { intros d [o sm] _. cbn. now rewrite upd_same. }
  rewrite for_loop_pair. cbn zeta.
  rewrite (for_loop_fold add (fun d => sexp (sub (input (p + d * stride)) mx))).
  fold (ssum (tabulate (fun d => sexp (sub (input (p + d * stride)) mx)) dim_size)).
  set (sm := ssum _).
  set (out2 := for_loop 0 dim_size
                 (fun d output =>
                    upd output (p + d * stride) (sexp (sub (input (p + d * stride)) mx))) m).
  destruct (for_loop_rows dim_size (fun d q => q = p + d * stride)
              (fun d q _ => sexp (sub (input (p + d * stride)) mx))
              (fun d output =>
                 upd output (p + d * stride) (sexp (sub (input (p + d * stride)) mx))) m)
    as [H2 F2].
  { intros d m0 q _ ->. apply upd_same. }
  { intros d m0 q _ Hne. now apply upd_other. }
  { intros d d' q -> Heq. nia. }
  fold out2 in H2, F2.
  destruct (for_loop_rows dim_size (fun d q => q = p + d * stride)
              (fun d q x => div x sm)
              (fun d output =>
                 upd output (p + d * stride) (div (output (p + d * stride)) sm)) out2)
    as [H3 F3].
  { intros d m0 q _ ->. apply upd_same. }
  { intros d m0 q _ Hne. now apply upd_other. }
  { intros d d' q -> Heq. nia. }
  split.
  - intros d Hd. rewrite (H3 d) by auto. rewrite (H2 d) by auto.
    now rewrite softmax_value_column.
  - intros q Hq. rewrite F3, F2; auto; intros d Hd; apply Hq; exact Hd.
Qed.

(** Rows of [lanes] neighbouring addresses, [stride] apart, are disjoint. *)
Lemma rows_disjoint (base lanes stride d d' q : Z) :
  0 <= lanes <= stride ->
  base + d * stride <= q < base + d * stride + lanes ->
  base + d' * stride <= q < base + d' * stride + lanes ->
  d = d'.
Proof. intros. nia. Qed.

Lemma vec_softmax_vectorized_spec (lanes dim_size stride : Z) (input : buffer)
  (base : Z) (m : buffer) :
  0 < dim_size -> 0 <= lanes <= stride ->
  let m' := vec_softmax_vectorized lanes dim_size stride input base base m in
  (forall l d, 0 <= l < lanes -> 0 <= d < dim_size ->
               m' (base + l + d * stride)
               = softmax_value (slice input (base + l) stride dim_size)
                   (input (base + l + d * stride)))
  /\ (forall q, (forall l d, 0 <= l < lanes -> 0 <= d < dim_size ->
                             q <> base + l + d * stride) ->
                m' q = m q).
Proof.
  intros Hdim Hlanes. unfold vec_softmax_vectorized. cbn zeta.
  set (max_vec := for_loop 1 dim_size _ (loadu input base)).
  assert (Hmax : forall l, max_vec l = list_max (slice input (base + l) stride dim_size)).
  { intros l. unfold max_vec.
    rewrite (for_loop_vec smax (fun d => loadu input (base + d * stride))).
    rewrite <- column_max by exact Hdim. unfold loadu.
    apply for_loop_ext. intros d t _. do 2 f_equal. lia. }
  set (E := fun d : Z =>
              vlift1 sexp (vlift2 sub (loadu input (base + d * stride)) max_vec)).
  rewrite (for_loop_pair
             (fun d output => store lanes output (base + d * stride) (E d))
             (fun d sum_vec => vlift2 add sum_vec (E d))).
  set (sum_vec := for_loop 0 dim_size (fun d sum_vec => vlift2 add sum_vec (E d))
                    (vbroadcast zero)).
  assert (Hsum : forall l, sum_vec l = ssum (tabulate (fun d => E d l) dim_size)).
  { intros l. unfold sum_vec. rewrite for_loop_vec. apply for_loop_fold. }
  set (R := fun d q : Z => base + d * stride <= q < base + d * stride + lanes).
  assert (Hrow : forall d q, R d q ->
                   (base + d * stride <=? q) && (q <? base + d * stride + lanes) = true).
  { intros d q [H1 H2]. apply andb_true_iff. split; [apply Z.leb_le | apply Z.ltb_lt]; lia. }
  assert (Hnrow : forall d q, ~ R d q ->
                   (base + d * stride <=? q) && (q <? base + d * stride + lanes) = false).
  { intros d q Hn. apply andb_false_iff.
    destruct (Z_le_gt_dec (base + d * stride) q);
      [right; apply Z.ltb_ge | left; apply Z.leb_gt]; unfold R in Hn; lia. }
  set (out2 := for_loop 0 dim_size
                 (fun d output => store lanes output (base + d * stride) (E d)) m).
  destruct (for_loop_rows dim_size R (fun d q _ => E d (q - (base + d * stride)))
              (fun d output => store lanes output (base + d * stride) (E d)) m)
    as [H2 F2].
  { intros d m0 q _ HR. rewrite store_spec. now rewrite Hrow. }
  { intros d m0 q _ HR. rewrite store_spec. now rewrite Hnrow. }
  { intros d d' q HR HR'. apply (rows_disjoint base lanes stride d d' q); assumption. }
  fold out2 in H2, F2.
  destruct (for_loop_rows dim_size R
              (fun d q x => div x (sum_vec (q - (base + d * stride))))
              (fun d output =>
                 store lanes output (base + d * stride)
                   (vlift2 div (loadu output (base + d * stride)) sum_vec)) out2)
    as [H3 F3].
  { intros d m0 q _ HR. rewrite store_spec, Hrow by exact HR.
    unfold vlift2, loadu. do 2 f_equal. lia. }
  { intros d m0 q _ HR. rewrite store_spec. now rewrite Hnrow. }
  { intros d d' q HR HR'. apply (rows_disjoint base lanes stride d d' q); assumption. }
  cbn iota. split.
  - intros l d Hl Hd.
    assert (HR : R d (base + l + d * stride)) by (unfold R; lia).
    rewrite (H3 d _ Hd HR), (H2 d _ Hd HR).
    replace (base + l + d * stride - (base + d * stride)) with l by lia.
    rewrite softmax_value_column, Hsum. unfold E, vlift1, vlift2, loadu.
    rewrite Hmax. f_equal; [do 3 f_equal; lia |].
    f_equal. apply tabulate_ext. intros j Hj. do 3 f_equal. lia.
  - intros q Hq.
    assert (HnR : forall d, 0 <= d < dim_size -> ~ R d q).
    { intros d Hd [H1 H2']. apply (Hq (q - (base + d * stride)) d); lia. }
    rewrite F3, F2 by exact HnR. reflexivity.
Qed.

(** The vectorized branch fills the columns [[idx, idx + lanes)]. *)
Lemma vec_softmax_vectorized_done (lanes inner_size dim_size : Z) (input : buffer)
  (idx : Z) (m : buffer) :
  0 < dim_size -> 0 < inner_size -> 0 <= lanes -> 0 <= idx ->
  idx mod inner_size + lanes <= inner_size ->
  cols_done (strided_addr inner_size dim_size) dim_size
    (softmax_expected inner_size dim_size input) m
    (vec_softmax_vectorized lanes dim_size inner_size input
       (strided_addr inner_size dim_size idx 0)
       (strided_addr inner_size dim_size idx 0) m)
    idx (idx + lanes).
Proof.
  intros Hdim Hin Hlanes Hidx Hfit.
  assert (Hk := Z.mod_pos_bound idx inner_size Hin).
  destruct (vec_softmax_vectorized_spec lanes dim_size inner_size input
              (strided_addr inner_size dim_size idx 0) m Hdim ltac:(lia))
    as [Hv Hf].
  split.
  - intros c d Hc Hd. unfold softmax_expected.
    replace c with (idx + (c - idx)) by lia.
    rewrite !(strided_addr_lane inner_size dim_size idx (c - idx)) by lia.
    rewrite Hv by lia. do 2 f_equal. lia.
  - intros q Hq. apply Hf. intros l d Hl Hd Heq.
    apply (Hq (idx + l) d); [lia | exact Hd |].
    rewrite strided_addr_lane by lia. exact Heq.
Qed.

(** The scalar branch fills one column. *)
Lemma vec_softmax_scalar_done (inner_size dim_size : Z) (input : buffer)
  (c : Z) (m : buffer) :
  0 < dim_size -> 0 < inner_size -> 0 <= c ->
  cols_done (strided_addr inner_size dim_size) dim_size
    (softmax_expected inner_size dim_size input) m
    (vec_softmax_scalar dim_size inner_size input
       (strided_addr inner_size dim_size c 0)
       (strided_addr inner_size dim_size c 0) m)
    c (c + 1).
Proof.
  intros Hdim Hin Hc.
  destruct (vec_softmax_scalar_spec dim_size inner_size input
              (strided_addr inner_size dim_size c 0) m Hdim Hin) as [Hv Hf].
  split.
  - intros c' d Hc' Hd. assert (c' = c) by lia. subst c'.
    unfold softmax_expected. rewrite (strided_addr_0 inner_size dim_size c d).
    now apply Hv.
  - intros q Hq. apply Hf. intros d Hd Heq.
    apply (Hq c d); [lia | exact Hd |].
    now rewrite strided_addr_0.
Qed.

(** The tail length is positive and stays inside the chunk. *)
Lemma tail_number_bounds (lanes inner_size idx end_ : Z) :
  0 < inner_size -> 0 <= idx -> idx < end_ ->
  (Z.rem idx inner_size + lanes <=? inner_size) && (idx + lanes <=? end_) = false ->
  let tail_number :=
    if idx + lanes >? end_ then end_ - idx else inner_size - Z.rem idx inner_size in
  0 < tail_number /\ idx + tail_number <= end_.
Proof.
  intros Hin Hidx Hlt Hcond. cbn zeta.
  rewrite Z.rem_mod_nonneg in * by lia.
  assert (Hk := Z.mod_pos_bound idx inner_size Hin).
  rewrite Z.gtb_ltb.
  destruct (end_ <? idx + lanes) eqn:Hend.
  - apply Z.ltb_lt in Hend. lia.
  - apply Z.ltb_ge in Hend. apply andb_false_iff in Hcond.
    destruct Hcond as [Hc | Hc]; [apply Z.leb_gt in Hc | apply Z.leb_gt in Hc]; lia.
Qed.

(** The [while] loop of a chunk returns, having filled its columns. *)
Lemma vec_softmax_while_done (lanes inner_size dim_size : Z) (input : buffer)
  (end_ : Z) (fuel : nat) :
  0 < lanes -> 0 < inner_size -> 0 < dim_size ->
  forall idx m,
    0 <= idx -> idx <= end_ -> (Z.to_nat (end_ - idx) <= fuel)%nat ->
    exists m',
      vec_softmax_while fuel lanes inner_size dim_size input idx end_ m = Some m'
      /\ cols_done (strided_addr inner_size dim_size) dim_size
           (softmax_expected inner_size dim_size input) m m' idx end_.
Proof.
  intros Hlanes Hin Hdim.
  assert (Hinj := fun c d c' d' => strided_addr_inj inner_size dim_size c d c' d' Hin).
  induction fuel as [| fuel IH]; intros idx m Hidx Hle Hfuel.
  - assert (idx = end_) by lia. subst idx. cbn.
    rewrite Z.ltb_irrefl. exists m. split; [reflexivity | apply cols_done_nil].
  - cbn [vec_softmax_while]. cbn zeta.
    destruct (idx <? end_) eqn:Hlt.
    2: { apply Z.ltb_ge in Hlt. assert (idx = end_) by lia. subst idx.
         exists m. split; [reflexivity | apply cols_done_nil]. }
    apply Z.ltb_lt in Hlt.
    rewrite (quot_rem_addr inner_size dim_size idx Hidx Hin).
    destruct ((Z.rem idx inner_size + lanes <=? inner_size)
              && (idx + lanes <=? end_)) eqn:Hcond.
    + apply andb_true_iff in Hcond. destruct Hcond as [Hc1 Hc2].
      apply Z.leb_le in Hc1, Hc2. rewrite Z.rem_mod_nonneg in Hc1 by lia.
      set (m1 := vec_softmax_vectorized lanes dim_size inner_size input _ _ m).
      destruct (IH (idx + lanes) m1) as (m2 & Hrun & Hdone); try lia.
      exists m2. split; [exact Hrun |].
      apply (cols_done_trans _ _ _ Hinj m m1 m2 idx (idx + lanes) end_);
        try lia; [| exact Hdone].
      apply vec_softmax_vectorized_done; auto; lia.
    + destruct (tail_number_bounds lanes inner_size idx end_ Hin Hidx Hlt Hcond)
        as [Htail Hfit].
      set (tail_number := if idx + lanes >? end_ then end_ - idx
                          else inner_size - Z.rem idx inner_size) in *.
      set (m1 := for_loop 0 tail_number _ m).
      assert (Hm1 : cols_done (strided_addr inner_size dim_size) dim_size
                      (softmax_expected inner_size dim_size input)
                      m m1 idx (idx + tail_number)).
      { unfold m1.
        rewrite (for_loop_ext _
                   (fun i output =>
                      (fun c output =>
                         vec_softmax_scalar dim_size inner_size input
                           (strided_addr inner_size dim_size c 0)
                           (strided_addr inner_size dim_size c 0) output)
                        (idx + i) output)).
        2: { intros i t Hi. now rewrite quot_rem_addr by lia. }
        rewrite (for_loop_shift
                   (fun c output =>
                      vec_softmax_scalar dim_size inner_size input
                        (strided_addr inner_size dim_size c 0)
                        (strided_addr inner_size dim_size c 0) output)).
        apply cols_done_for_loop; try lia; [exact Hinj |].
        intros c m' Hc. apply vec_softmax_scalar_done; auto; lia. }
      destruct (IH (idx + tail_number) m1) as (m2 & Hrun & Hdone); try lia.
      exists m2. split; [exact Hrun |].
      apply (cols_done_trans _ _ _ Hinj m m1 m2 idx (idx + tail_number) end_);
        try lia; assumption.
Qed.

Lemma _vec_softmax_correct (lanes : Z) (chunks : list (Z * Z))
  (input output : buffer) (outer_size inner_size dim_size : Z) :
  0 < lanes -> 0 <= outer_size -> 0 < inner_size -> 0 < dim_size ->
  is_partition 0 (outer_size * inner_size) chunks ->
  exists output',
    _vec_softmax lanes chunks input output outer_size inner_size dim_size
    = Some output'
    /\ cols_done (strided_addr inner_size dim_size) dim_size
         (softmax_expected inner_size dim_size input) output output'
         0 (outer_size * inner_size).
Proof.
  intros Hlanes Houter Hin Hdim Hpart. unfold _vec_softmax.
  destruct (Z.eqb_spec dim_size 0) as [Hzero | _]; [lia |].
  apply cols_done_parallel_for; auto; try nia.
  - intros c d c' d'. now apply strided_addr_inj.
  - intros b e m Hb Hlt Hle.
    apply vec_softmax_while_done; auto; lia.
Qed.

(** ** The BFloat16 overload of _vec_softmax *)

(** The two temporary arrays hold, for each [d], the lower half of the
    lanes at [d * vectorized_step * 2] and the upper half [vectorized_step]
    further. *)
Lemma temp_rows (float_lanes vectorized_step dim_size : Z) (A B : Z -> Vec)
  (m0 : buffer) :
  0 <= float_lanes <= vectorized_step ->
  let m :=
    for_loop 0 dim_size
      (fun d m =>
         store float_lanes
           (store float_lanes m (d * vectorized_step * 2) (A d))
           (d * vectorized_step * 2 + vectorized_step) (B d)) m0 in
  forall d l, 0 <= d < dim_size -> 0 <= l < float_lanes ->
              m (d * vectorized_step * 2 + l) = A d l
              /\ m (d * vectorized_step * 2 + vectorized_step + l) = B d l.
Proof.
  intros Hfl. cbn zeta.
  set (lo := fun d : Z => d * vectorized_step * 2).
  set (R := fun d q : Z =>
              lo d <= q < lo d + float_lanes
              \/ lo d + vectorized_step <= q < lo d + vectorized_step + float_lanes).
  set (h := fun (d q : Z) (_ : T) =>
              if q <? lo d + vectorized_step then A d (q - lo d)
              else B d (q - (lo d + vectorized_step))).
  destruct (for_loop_rows dim_size R h
              (fun d m =>
                 store float_lanes (store float_lanes m (lo d) (A d))
                   (lo d + vectorized_step) (B d)) m0) as [Hrows _].
  - intros d m q _ HR. rewrite !store_spec. unfold h.
    destruct HR as [[H1 H2] | [H1 H2]].
    + replace ((lo d + vectorized_step <=? q)
               && (q <? lo d + vectorized_step + float_lanes)) with false
        by (symmetry; apply andb_false_iff; left; apply Z.leb_gt; lia).
      replace ((lo d <=? q) && (q <? lo d + float_lanes)) with true
        by (symmetry; apply andb_true_iff; split;
            [apply Z.leb_le | apply Z.ltb_lt]; lia).
      now replace (q <? lo d + vectorized_step) with true
        by (symmetry; apply Z.ltb_lt; lia).
    + replace ((lo d + vectorized_step <=? q)
               && (q <? lo d + vectorized_step + float_lanes)) with true
        by (symmetry; apply andb_true_iff; split;
            [apply Z.leb_le | apply Z.ltb_lt]; lia).
      now replace (q <? lo d + vectorized_step) with false
        by (symmetry; apply Z.ltb_ge; lia).
  - intros d m q _ HR. rewrite !store_spec.
    replace ((lo d + vectorized_step <=? q)
             && (q <? lo d + vectorized_step + float_lanes)) with false.
    2: { symmetry. apply andb_false_iff.
         destruct (Z_le_gt_dec (lo d + vectorized_step) q);
           [right; apply Z.ltb_ge | left; apply Z.leb_gt]; unfold R in HR; lia. }
    replace ((lo d <=? q) && (q <? lo d + float_lanes)) with false; [reflexivity |].
    symmetry. apply andb_false_iff.
    destruct (Z_le_gt_dec (lo d) q);
      [right; apply Z.ltb_ge | left; apply Z.leb_gt]; unfold R in HR; lia.
  - intros d d' q HR HR'. unfold R, lo in HR, HR'.
    assert (Hv : 0 < vectorized_step) by lia.
    assert (H1 : d * vectorized_step * 2 <= q
                 < d * vectorized_step * 2 + 2 * vectorized_step) by lia.
    assert (H2 : d' * vectorized_step * 2 <= q
                 < d' * vectorized_step * 2 + 2 * vectorized_step) by lia.
    assert (H3 : - vectorized_step < (d - d') * vectorized_step < vectorized_step)
      by lia.
    nia.
  - intros d l Hd Hl. fold (lo d). split.
    + rewrite (Hrows d); [| exact Hd | left; lia]. unfold h.
      replace (lo d + l <? lo d + vectorized_step) with true
        by (symmetry; apply Z.ltb_lt; lia).
      f_equal. lia.
    + rewrite (Hrows d); [| exact Hd | right; lia]. unfold h.
      replace (lo d + vectorized_step + l <? lo d + vectorized_step) with false
        by (symmetry; apply Z.ltb_ge; lia).
      f_equal. lia.
Qed.

Lemma vec_softmax_bf16_vectorized_spec (float_lanes lanes dim_size stride : Z)
  (input : buffer) (base : Z) (temp_in temp_out m : buffer) :
  0 < dim_size -> 0 <= float_lanes -> lanes = 2 * float_lanes -> lanes <= stride ->
  let m' := snd (vec_softmax_bf16_vectorized float_lanes lanes dim_size stride
                   input base base temp_in temp_out m) in
  (forall l d, 0 <= l < lanes -> 0 <= d < dim_size ->
               m' (base + l + d * stride)
               = softmax_value (slice input (base + l) stride dim_size)
                   (input (base + l + d * stride)))
  /\ (forall q, (forall l d, 0 <= l < lanes -> 0 <= d < dim_size ->
                             q <> base + l + d * stride) ->
                m' q = m q).
Proof.
  intros Hdim Hfl Hlanes Hstride. unfold vec_softmax_bf16_vectorized.
  cbn zeta. cbn [fst snd convert_bfloat16_float].
  (* Step 1 *)
  replace (loadu input base) with (loadu input (base + 0 * stride))
    by (f_equal; lia).
  set (lo := fun d : Z => loadu input (base + d * stride)).
  set (up := fun (d l : Z) => loadu input (base + d * stride) (float_lanes + l)).
  rewrite (for_loop_triple
             (fun d v => vlift2 smax v (fun l => lo d l))
             (fun d v => vlift2 smax v (fun l => up d l))
             (fun d t =>
                store float_lanes
                  (store float_lanes t (d * lanes * 2) (fun l => lo d l))
                  (d * lanes * 2 + lanes) (fun l => up d l))).
  set (max_vec_o1 := for_loop 1 dim_size (fun d v => vlift2 smax v (fun l => lo d l)) _).
  set (max_vec_o2 := for_loop 1 dim_size (fun d v => vlift2 smax v (fun l => up d l)) _).
  set (Ht := fun (d : Z) (t : buffer) =>
               store float_lanes
                 (store float_lanes t (d * lanes * 2) (fun l => lo d l))
                 (d * lanes * 2 + lanes) (fun l => up d l)).
  set (t0 := store float_lanes (store float_lanes temp_in 0 _) lanes _).
  assert (Ht0 : t0 = Ht 0 temp_in) by reflexivity.
  rewrite Ht0, (for_loop_first Ht dim_size temp_in Hdim). clear t0 Ht0.
  set (ti := for_loop 0 dim_size Ht temp_in).
  (* Step 2 *)
  set (E1 := fun d : Z => vlift1 sexp (vlift2 sub (loadu ti (d * lanes * 2)) max_vec_o1)).
  set (E2 := fun d : Z =>
               vlift1 sexp (vlift2 sub (loadu ti (d * lanes * 2 + lanes)) max_vec_o2)).
  rewrite (for_loop_triple
             (fun d v => vlift2 add v (E1 d))
             (fun d v => vlift2 add v (E2 d))
             (fun d t =>
                store float_lanes (store float_lanes t (d * lanes * 2) (E1 d))
                  (d * lanes * 2 + lanes) (E2 d))).
  set (sum_vec_o1 := for_loop 0 dim_size (fun d v => vlift2 add v (E1 d)) _).
  set (sum_vec_o2 := for_loop 0 dim_size (fun d v => vlift2 add v (E2 d)) _).
  set (to := for_loop 0 dim_size _ temp_out).
  cbn [snd].
  assert (Hti : forall d l, 0 <= d < dim_size -> 0 <= l < float_lanes ->
                  ti (d * lanes * 2 + l) = lo d l
                  /\ ti (d * lanes * 2 + lanes + l) = up d l).
  { apply (temp_rows float_lanes lanes dim_size (fun d l => lo d l)
             (fun d l => up d l) temp_in). lia. }
  assert (Hto : forall d l, 0 <= d < dim_size -> 0 <= l < float_lanes ->
                  to (d * lanes * 2 + l) = E1 d l
                  /\ to (d * lanes * 2 + lanes + l) = E2 d l).
  { apply (temp_rows float_lanes lanes dim_size E1 E2 temp_out). lia. }
  assert (Hmax1 : forall l, max_vec_o1 l
                            = list_max (slice input (base + l) stride dim_size)).
  { intros l. unfold max_vec_o1. rewrite for_loop_vec.
    rewrite <- column_max by exact Hdim. unfold lo, loadu.
    replace (base + 0 * stride + l) with (base + l) by lia.
    apply for_loop_ext. intros d t _. do 2 f_equal. lia. }
  assert (Hmax2 : forall l, max_vec_o2 l
                            = list_max (slice input (base + (float_lanes + l))
                                          stride dim_size)).
  { intros l. unfold max_vec_o2. rewrite for_loop_vec.
    rewrite <- column_max by exact Hdim. unfold up, loadu.
    replace (base + 0 * stride + (float_lanes + l)) with (base + (float_lanes + l))
      by lia.
    apply for_loop_ext. intros d t _. do 2 f_equal. lia. }
  assert (Hsum1 : forall l, sum_vec_o1 l = ssum (tabulate (fun d => E1 d l) dim_size)).
  { intros l. unfold sum_vec_o1. rewrite for_loop_vec. apply for_loop_fold. }
  assert (Hsum2 : forall l, sum_vec_o2 l = ssum (tabulate (fun d => E2 d l) dim_size)).
  { intros l. unfold sum_vec_o2. rewrite for_loop_vec. apply for_loop_fold. }
  (* one lane of the result, in either half *)
  assert (Hlane : forall (E : Z -> Vec) (sm : Vec) (k l d : Z),
             (forall j, 0 <= j < dim_size ->
                        E j l = sexp (sub (input (base + k + j * stride))
                                        (list_max (slice input (base + k) stride dim_size)))) ->
             sm l = ssum (tabulate (fun j => E j l) dim_size) ->
             0 <= d < dim_size ->
             div (E d l) (sm l)
             = softmax_value (slice input (base + k) stride dim_size)
                 (input (base + k + d * stride))).
  { intros E sm k l d HE Hsm Hd.
    rewrite softmax_value_column, Hsm, (HE d Hd). f_equal. f_equal.
    apply tabulate_ext. intros j Hj. now apply HE. }
  (* Step 3 *)
  set (R := fun d q : Z => base + d * stride <= q < base + d * stride + lanes).
  set (O := fun d : Z =>
              convert_float_bfloat16 float_lanes
                (vlift2 div (loadu to (d * lanes * 2)) sum_vec_o1)
                (vlift2 div (loadu to (d * lanes * 2 + lanes)) sum_vec_o2)).
  destruct (for_loop_rows dim_size R (fun d q _ => O d (q - (base + d * stride)))
              (fun d output => store lanes output (base + d * stride) (O d)) m)
    as [H3 F3].
  { intros d m0 q _ [H1 H2]. rewrite store_spec.
    now replace ((base + d * stride <=? q) && (q <? base + d * stride + lanes))
      with true by (symmetry; apply andb_true_iff; split;
                    [apply Z.leb_le | apply Z.ltb_lt]; lia). }
  { intros d m0 q _ HR. rewrite store_spec.
    replace ((base + d * stride <=? q) && (q <? base + d * stride + lanes))
      with false; [reflexivity |].
    symmetry. apply andb_false_iff.
    destruct (Z_le_gt_dec (base + d * stride) q);
      [right; apply Z.ltb_ge | left; apply Z.leb_gt]; unfold R in HR; lia. }
  { intros d d' q HR HR'. apply (rows_disjoint base lanes stride d d' q); auto; lia. }
  unfold O in H3, F3. split.
  - intros l d Hl Hd.
    assert (HR : R d (base + l + d * stride)) by (unfold R; lia).
    rewrite (H3 d _ Hd HR).
    replace (base + l + d * stride - (base + d * stride)) with l by lia.
    unfold convert_float_bfloat16, vlift2, loadu.
    destruct (l <? float_lanes) eqn:Hhalf.
    + apply Z.ltb_lt in Hhalf.
      destruct (Hto d l Hd ltac:(lia)) as [-> _].
      apply (Hlane E1 sum_vec_o1 l l d); auto.
      intros j Hj. unfold E1, vlift1, vlift2, loadu.
      destruct (Hti j l Hj ltac:(lia)) as [-> _].
      rewrite Hmax1. unfold lo, loadu. do 3 f_equal. lia.
    + apply Z.ltb_ge in Hhalf.
      destruct (Hto d (l - float_lanes) Hd ltac:(lia)) as [_ ->].
      replace (base + l) with (base + (float_lanes + (l - float_lanes))) by lia.
      apply (Hlane E2 sum_vec_o2 (float_lanes + (l - float_lanes))
               (l - float_lanes) d); auto.
      intros j Hj. unfold E2, vlift1, vlift2, loadu.
      destruct (Hti j (l - float_lanes) Hj ltac:(lia)) as [_ ->].
      rewrite Hmax2. unfold up, loadu. do 3 f_equal. lia.
  - intros q Hq. apply F3. intros d Hd [H1 H2].
    apply (Hq (q - (base + d * stride)) d); lia.
Qed.

Lemma vec_softmax_bf16_scalar_spec (dim_size stride : Z) (input : buffer) (p : Z)
  (m : buffer) :
  0 < dim_size -> 0 < stride ->
  let m' := vec_softmax_bf16_scalar dim_size stride input p p m in
  (forall d, 0 <= d < dim_size ->
             m' (p + d * stride)
             = softmax_value (slice input p stride dim_size) (input (p + d * stride)))
  /\ (forall q, (forall d, 0 <= d < dim_size -> q <> p + d * stride) -> m' q = m q).
Proof.
  intros Hdim Hstride. unfold vec_softmax_bf16_scalar.
  rewrite (column_max input p stride dim_size Hdim).
  set (mx := list_max (slice input p stride dim_size)).
  cbn zeta.
  rewrite (for_loop_triple
             (fun d output =>
                upd output (p + d * stride) (sexp (sub (input (p + d * stride)) mx)))
             (fun d sum_data => add sum_data (sexp (sub (input (p + d * stride)) mx)))
             (fun d (_ : T) => sexp (sub (input (p + d * stride)) mx))).
  rewrite (for_loop_fold add (fun d => sexp (sub (input (p + d * stride)) mx))).
  fold (ssum (tabulate (fun d => sexp (sub (input (p + d * stride)) mx)) dim_size)).
  set (sm := ssum _).
  set (out2 := for_loop 0 dim_size
                 (fun d output =>
                    upd output (p + d * stride) (sexp (sub (input (p + d * stride)) mx))) m).
  destruct (for_loop_rows dim_size (fun d q => q = p + d * stride)
              (fun d q _ => sexp (sub (input (p + d * stride)) mx))
              (fun d output =>
                 upd output (p + d * stride) (sexp (sub (input (p + d * stride)) mx))) m)
    as [H2 F2].
  { intros d m0 q _ ->. apply upd_same. }
  { intros d m0 q _ Hne. now apply upd_other. }
  { intros d d' q -> Heq. nia. }
  fold out2 in H2, F2.
  destruct (for_loop_rows dim_size (fun d q => q = p + d * stride)
              (fun d q x => div x sm)
              (fun d output =>
                 upd output (p + d * stride) (div (output (p + d * stride)) sm)) out2)
    as [H3 F3].
  { intros d m0 q _ ->. apply upd_same. }
  { intros d m0 q _ Hne. now apply upd_other. }
  { intros d d' q -> Heq. nia. }
  split.
  - intros d Hd. rewrite (H3 d) by auto. rewrite (H2 d) by auto.
    now rewrite softmax_value_column.
  - intros q Hq. rewrite F3, F2; auto; intros d Hd; apply Hq; exact Hd.
Qed.

Lemma vec_softmax_bf16_vectorized_done (float_lanes lanes inner_size dim_size : Z)
  (input : buffer) (idx : Z) (temp_in temp_out m : buffer) :
  0 < dim_size -> 0 < inner_size -> 0 <= float_lanes -> lanes = 2 * float_lanes ->
  0 <= idx -> idx mod inner_size + lanes <= inner_size ->
  cols_done (strided_addr inner_size dim_size) dim_size
    (softmax_expected inner_size dim_size input) m
    (snd (vec_softmax_bf16_vectorized float_lanes lanes dim_size inner_size input
            (strided_addr inner_size dim_size idx 0)
            (strided_addr inner_size dim_size idx 0) temp_in temp_out m))
    idx (idx + lanes).
Proof.
  intros Hdim Hin Hfl Hlanes Hidx Hfit.
  assert (Hk := Z.mod_pos_bound idx inner_size Hin).
  destruct (vec_softmax_bf16_vectorized_spec float_lanes lanes dim_size inner_size
              input (strided_addr inner_size dim_size idx 0) temp_in temp_out m
              Hdim Hfl Hlanes ltac:(lia)) as [Hv Hf].
  split.
  - intros c d Hc Hd. unfold softmax_expected.
    replace c with (idx + (c - idx)) by lia.
    rewrite !(strided_addr_lane inner_size dim_size idx (c - idx)) by lia.
    rewrite Hv by lia. do 2 f_equal. lia.
  - intros q Hq. apply Hf. intros l d Hl Hd Heq.
    apply (Hq (idx + l) d); [lia | exact Hd |].
    rewrite strided_addr_lane by lia. exact Heq.
Qed.

Lemma vec_softmax_bf16_scalar_done (inner_size dim_size : Z) (input : buffer)
  (c : Z) (m : buffer) :
  0 < dim_size -> 0 < inner_size -> 0 <= c ->
  cols_done (strided_addr inner_size dim_size) dim_size
    (softmax_expected inner_size dim_size input) m
    (vec_softmax_bf16_scalar dim_size inner_size input
       (strided_addr inner_size dim_size c 0)
       (strided_addr inner_size dim_size c 0) m)
    c (c + 1).
Proof.
  intros Hdim Hin Hc.
  destruct (vec_softmax_bf16_scalar_spec dim_size inner_size input
              (strided_addr inner_size dim_size c 0) m Hdim Hin) as [Hv Hf].
  split.
  - intros c' d Hc' Hd. assert (c' = c) by lia. subst c'.
    unfold softmax_expected. rewrite (strided_addr_0 inner_size dim_size c d).
    now apply Hv.
  - intros q Hq. apply Hf. intros d Hd Heq.
    apply (Hq c d); [lia | exact Hd |].
    now rewrite strided_addr_0.
Qed.

Lemma vec_softmax_bf16_while_done (float_lanes lanes inner_size dim_size : Z)
  (input : buffer) (end_ : Z) (fuel : nat) :
  0 < float_lanes -> lanes = 2 * float_lanes -> 0 < inner_size -> 0 < dim_size ->
  forall idx temp_in temp_out m,
    0 <= idx -> idx <= end_ -> (Z.to_nat (end_ - idx) <= fuel)%nat ->
    exists m',
      vec_softmax_bf16_while fuel float_lanes lanes inner_size dim_size input
        idx end_ temp_in temp_out m = Some m'
      /\ cols_done (strided_addr inner_size dim_size) dim_size
           (softmax_expected inner_size dim_size input) m m' idx end_.
Proof.
  intros Hfl Hlanes Hin Hdim.
  assert (Hinj := fun c d c' d' => strided_addr_inj inner_size dim_size c d c' d' Hin).
  induction fuel as [| fuel IH]; intros idx temp_in temp_out m Hidx Hle Hfuel.
  - assert (idx = end_) by lia. subst idx. cbn.
    rewrite Z.ltb_irrefl. exists m. split; [reflexivity | apply cols_done_nil].
  - cbn [vec_softmax_bf16_while]. cbn zeta.
    destruct (idx <? end_) eqn:Hlt.
    2: { apply Z.ltb_ge in Hlt. assert (idx = end_) by lia. subst idx.
         exists m. split; [reflexivity | apply cols_done_nil]. }
    apply Z.ltb_lt in Hlt.
    rewrite (quot_rem_addr inner_size dim_size idx Hidx Hin).
    destruct ((Z.rem idx inner_size + lanes <=? inner_size)
              && (idx + lanes <=? end_)) eqn:Hcond.
    + apply andb_true_iff in Hcond. destruct Hcond as [Hc1 Hc2].
      apply Z.leb_le in Hc1, Hc2. rewrite Z.rem_mod_nonneg in Hc1 by lia.
      assert (Hstep := vec_softmax_bf16_vectorized_done float_lanes lanes
                         inner_size dim_size input idx temp_in temp_out m
                         Hdim Hin ltac:(lia) Hlanes Hidx Hc1).
      destruct (vec_softmax_bf16_vectorized float_lanes lanes dim_size inner_size
                  input _ _ temp_in temp_out m) as [[temp_in' temp_out'] m1].
      cbn [snd] in Hstep.
      destruct (IH (idx + lanes) temp_in' temp_out' m1) as (m2 & Hrun & Hdone);
        try lia.
      exists m2. split; [exact Hrun |].
      apply (cols_done_trans _ _ _ Hinj m m1 m2 idx (idx + lanes) end_);
        try lia; assumption.
    + destruct (tail_number_bounds lanes inner_size idx end_ Hin Hidx Hlt Hcond)
        as [Htail Hfit].
      set (tail_number := if idx + lanes >? end_ then end_ - idx
                          else inner_size - Z.rem idx inner_size) in *.
      set (m1 := for_loop 0 tail_number _ m).
      assert (Hm1 : cols_done (strided_addr inner_size dim_size) dim_size
                      (softmax_expected inner_size dim_size input)
                      m m1 idx (idx + tail_number)).
      { unfold m1.
        rewrite (for_loop_ext _
                   (fun i output =>
                      (fun c output =>
                         vec_softmax_bf16_scalar dim_size inner_size input
                           (strided_addr inner_size dim_size c 0)
                           (strided_addr inner_size dim_size c 0) output)
                        (idx + i) output)).
        2: { intros i t Hi. now rewrite quot_rem_addr by lia. }
        rewrite (for_loop_shift
                   (fun c output =>
                      vec_softmax_bf16_scalar dim_size inner_size input
                        (strided_addr inner_size dim_size c 0)
                        (strided_addr inner_size dim_size c 0) output)).
        apply cols_done_for_loop; try lia; [exact Hinj |].
        intros c m' Hc. apply vec_softmax_bf16_scalar_done; auto; lia. }
      destruct (IH (idx + tail_number) temp_in temp_out m1) as (m2 & Hrun & Hdone);
        try lia.
      exists m2. split; [exact Hrun |].
      apply (cols_done_trans _ _ _ Hinj m m1 m2 idx (idx + tail_number) end_);
        try lia; assumption.
Qed.

Lemma _vec_softmax_bf16_correct (float_lanes lanes : Z) (chunks : list (Z * Z))
  (input output : buffer) (outer_size inner_size dim_size : Z) :
  0 < float_lanes -> lanes = 2 * float_lanes ->
  0 <= outer_size -> 0 < inner_size -> 0 < dim_size ->
  is_partition 0 (outer_size * inner_size) chunks ->
  exists output',
    _vec_softmax_bf16 float_lanes lanes chunks input output outer_size inner_size
      dim_size = Some output'
    /\ cols_done (strided_addr inner_size dim_size) dim_size
         (softmax_expected inner_size dim_size input) output output'
         0 (outer_size * inner_size).
Proof.
  intros Hfl Hlanes Houter Hin Hdim Hpart. unfold _vec_softmax_bf16.
  destruct (Z.eqb_spec dim_size 0) as [Hzero | _]; [lia |].
  apply cols_done_parallel_for; auto; try nia.
  - intros c d c' d'. now apply strided_addr_inj.
  - intros b e m Hb Hlt Hle.
    apply vec_softmax_bf16_while_done; auto; lia.
Qed.

(** The address of element [d] of the column with outer index [o] and
    inner index [k]. *)
Lemma strided_addr_outer_inner (inner_size dim_size o k d : Z) :
  0 < inner_size -> 0 <= k < inner_size ->
  strided_addr inner_size dim_size (o * inner_size + k) d
  = o * (dim_size * inner_size) + k + d * inner_size.
Proof.
  intros Hin Hk. unfold strided_addr.
  assert (Hq : (o * inner_size + k) / inner_size = o).
  { symmetry. apply (Z.div_unique (o * inner_size + k) inner_size o k); lia. }
  assert (Hr : (o * inner_size + k) mod inner_size = k).
  { symmetry. apply (Z.mod_unique (o * inner_size + k) inner_size o k); lia. }
  rewrite Hq, Hr. reflexivity.
Qed.

(** What a finished strided softmax kernel has written, by outer index,
    inner index and position in the slice. *)
Lemma softmax_cols_done_pointwise (inner_size dim_size outer_size : Z)
  (input output output' : buffer) :
  0 < inner_size -> 0 < dim_size ->
  cols_done (strided_addr inner_size dim_size) dim_size
    (softmax_expected inner_size dim_size input) output output'
    0 (outer_size * inner_size) ->
  forall o k d,
    0 <= o < outer_size -> 0 <= k < inner_size -> 0 <= d < dim_size ->
    let p := o * (dim_size * inner_size) + k in
    let xs := slice input p inner_size dim_size in
    is_max (list_max xs) xs
    /\ output' (p + d * inner_size) = softmax_value xs (input (p + d * inner_size)).
Proof.
  intros Hin Hdim [Hv _] o k d Ho Hk Hd. cbn zeta. split.
  - apply list_max_is_max, slice_nonempty, Hdim.
  - specialize (Hv (o * inner_size + k) d ltac:(nia) Hd).
    unfold softmax_expected in Hv.
    rewrite !strided_addr_outer_inner in Hv by lia.
    now rewrite Z.mul_0_l, Z.add_0_r in Hv.
Qed.

(** C1. On scalars with exact arithmetic ([ScalarLaws]; the conversions
    between BFloat16 and float are taken to be exact), for an input of
    [outer_size] slices of [dim_size] elements with [0 < dim_size], and for
    every way [parallel_for] may split the work, each softmax forward
    kernel returns, and for every slice and every index [d] in it has
    written [exp(x_d - m) / sum_j exp(x_j - m)], [m] being the maximum of
    the slice.  [_vec_softmax_lastdim] takes the slices as rows (stride 1);
    [_vec_softmax] and its BFloat16 overload take them with stride
    [inner_size], through the vectorized branch and the scalar tail alike. *)
Theorem softmax_forward_kernels
  (input output : buffer) (outer_size inner_size dim_size : Z)
  (vectorized_step float_lanes : Z) (rows columns : list (Z * Z)) :
  0 <= outer_size -> 0 < dim_size -> 0 < inner_size ->
  0 < vectorized_step -> 0 < float_lanes ->
  is_partition 0 outer_size rows ->
  is_partition 0 (outer_size * inner_size) columns ->
  (exists output',
      _vec_softmax_lastdim rows input output outer_size dim_size = Some output'
      /\ forall i d,
          0 <= i < outer_size -> 0 <= d < dim_size ->
          let xs := slice input (i * dim_size) 1 dim_size in
          is_max (list_max xs) xs
          /\ output' (i * dim_size + d) = softmax_value xs (input (i * dim_size + d)))
  /\ (exists output',
        _vec_softmax vectorized_step columns input output outer_size inner_size
          dim_size = Some output'
        /\ forall o k d,
            0 <= o < outer_size -> 0 <= k < inner_size -> 0 <= d < dim_size ->
            let p := o * (dim_size * inner_size) + k in
            let xs := slice input p inner_size dim_size in
            is_max (list_max xs) xs
            /\ output' (p + d * inner_size)
               = softmax_value xs (input (p + d * inner_size)))
  /\ (exists output',
        _vec_softmax_bf16 float_lanes (2 * float_lanes) columns input output
          outer_size inner_size dim_size = Some output'
        /\ forall o k d,
            0 <= o < outer_size -> 0 <= k < inner_size -> 0 <= d < dim_size ->
            let p := o * (dim_size * inner_size) + k in
            let xs := slice input p inner_size dim_size in
            is_max (list_max xs) xs
            /\ output' (p + d * inner_size)
               = softmax_value xs (input (p + d * inner_size))).
Proof.
  intros Houter Hdim Hin Hvs Hfl Hrows Hcols. split; [| split].
  - destruct (_vec_softmax_lastdim_correct rows input output outer_size dim_size
                Houter Hdim Hrows) as (output' & Hrun & Hv & _).
    exists output'. split; [exact Hrun |].
    intros i d Hi Hd. cbn zeta. split.
    + apply list_max_is_max, slice_nonempty, Hdim.
    + apply (Hv i d Hi Hd).
  - destruct (_vec_softmax_correct vectorized_step columns input output outer_size
                inner_size dim_size Hvs Houter Hin Hdim Hcols)
      as (output' & Hrun & Hdone).
    exists output'. split; [exact Hrun |].
    now apply (softmax_cols_done_pointwise inner_size dim_size outer_size
                 input output output').
  - destruct (_vec_softmax_bf16_correct float_lanes (2 * float_lanes) columns
                input output outer_size inner_size dim_size Hfl eq_refl
                Houter Hin Hdim Hcols) as (output' & Hrun & Hdone).
    exists output'. split; [exact Hrun |].
    now apply (softmax_cols_done_pointwise inner_size dim_size outer_size
                 input output output').
Qed.

(** C3. On scalars with exact arithmetic, for [grad] and [output] of
    [outer_size] rows of [dim_size] elements with [0 < dim_size], and for
    every way [parallel_for] may split the rows, the backward kernel
    returns, and has written for every row: in softmax mode
    [grad_input_d = (grad_d - S) * output_d] with
    [S = sum_j grad_j * output_j]; in log-softmax mode
    [grad_input_d = grad_d - exp(output_d) * S] with [S = sum_j grad_j]. *)
Theorem softmax_backward_kernel
  (grad_input grad output : buffer) (outer_size dim_size : Z)
  (rows : list (Z * Z)) :
  0 <= outer_size -> 0 < dim_size -> is_partition 0 outer_size rows ->
  (exists grad_input',
      _vec_host_softmax_backward_lastdim false rows grad_input grad output
        outer_size dim_size = Some grad_input'
      /\ forall i d,
          0 <= i < outer_size -> 0 <= d < dim_size ->
          let p := i * dim_size in
          let total := ssum (tabulate (fun j => mul (grad (p + j)) (output (p + j)))
                               dim_size) in
          grad_input' (p + d) = mul (sub (grad (p + d)) total) (output (p + d)))
  /\ (exists grad_input',
        _vec_host_softmax_backward_lastdim true rows grad_input grad output
          outer_size dim_size = Some grad_input'
        /\ forall i d,
            0 <= i < outer_size -> 0 <= d < dim_size ->
            let p := i * dim_size in
            let total := ssum (slice grad p 1 dim_size) in
            grad_input' (p + d)
            = sub (grad (p + d)) (mul (sexp (output (p + d))) total)).
Proof.
  intros Houter Hdim Hrows. split.
  - destruct (_vec_host_softmax_backward_lastdim_correct false rows grad_input
                grad output outer_size dim_size Houter Hdim Hrows)
      as (gi & Hrun & Hv & _).
    exists gi. split; [exact Hrun |]. intros i d Hi Hd.
    apply (Hv i d Hi Hd).
  - destruct (_vec_host_softmax_backward_lastdim_correct true rows grad_input
                grad output outer_size dim_size Houter Hdim Hrows)
      as (gi & Hrun & Hv & _).
    exists gi. split; [exact Hrun |]. intros i d Hi Hd.
    apply (Hv i d Hi Hd).
Qed.

End WithLaws.

End Kernels.

(** ** Exact real arithmetic is a model of the scalar laws *)

#[export] Instance R_Scalar : Scalar R := {|
  zero := 0%R;
  one := 1%R;
  add := Rplus;
  sub := Rminus;
  mul := Rmult;
  div := Rdiv;
  sexp := exp;
  slog := ln;
  lt := fun a b => if Rlt_dec a b then true else false
|}.

#[export] Instance R_ScalarLaws : ScalarLaws R.
Proof.
  split; cbn.
  - intros a. destruct (Rlt_dec a a) as [Hlt | _]; [| reflexivity].
    exfalso. exact (Rlt_irrefl a Hlt).
  - intros a b c. destruct (Rlt_dec a b) as [Hab | _]; [| discriminate].
    destruct (Rlt_dec b c) as [Hbc | _]; [| discriminate]. intros _ _.
    destruct (Rlt_dec a c) as [_ | Hn]; [reflexivity |].
    exfalso. apply Hn. exact (Rlt_trans a b c Hab Hbc).
  - intros a. apply Rplus_0_l.
  - intros a s. unfold Rdiv. now rewrite Rmult_1_l.
Qed.

(** A [2 x 3 x 2] tensor holding its own offsets, and a zeroed output. *)
Definition sample_input : @buffer R := fun p => IZR p.
Definition sample_output : @buffer R := fun _ => 0%R.

(** The columns [0, 1, 2] go to one chunk (a vectorized group of two, then
    a tail of one), column [3] to another (a tail of one). *)
Lemma softmax_forward_kernels_witness :
  exists output',
    _vec_softmax 2 [(0, 3); (3, 4)] sample_input sample_output 2 2 3 = Some output'
    /\ output' 7 = softmax_value (slice sample_input 7 2 3) (sample_input 7).
Proof.
  destruct (softmax_forward_kernels sample_input sample_output 2 2 3 2 1
              [(0, 1); (1, 2)] [(0, 3); (3, 4)])
    as (_ & (output' & Hrun & Hv) & _);
    try lia; try (cbn; repeat split; lia).
  exists output'. split; [exact Hrun |].
  apply (Hv 1 1 0); lia.
Defined.

Lemma softmax_backward_kernel_witness :
  exists grad_input',
    _vec_host_softmax_backward_lastdim true [(0, 1); (1, 2)] sample_output
      sample_input sample_input 2 3 = Some grad_input'
    /\ grad_input' 4
       = Rminus (sample_input 4)
           (Rmult (exp (sample_input 4)) (ssum (slice sample_input 3 1 3))).
Proof.
  destruct (softmax_backward_kernel sample_output sample_input sample_input 2 3
              [(0, 1); (1, 2)])
    as (_ & (grad_input' & Hrun & Hv));
    try lia; try (cbn; repeat split; lia).
  exists grad_input'. split; [exact Hrun |].
  apply (Hv 1 1); lia.
Defined.

End SoftMax.

(* ------------------------------------------------------------------ *)
(** * The CPU log-softmax kernels *)

Module LogSoftMax.
Import SoftMax.
Local Open Scope Z_scope.

(** [-std::numeric_limits<scalar_t>::infinity()] *)
Class ScalarInf (T : Type) : Type := { neg_infinity : T }.

(** ** Arithmetic with infinities

    [float] as far as the kernels can tell it from the real numbers: the
    finite values are real numbers and are computed with exactly, except
    that [exp] of an argument above [exp_overflow] is [+infinity] (the
    largest [float] is below [exp 89]); the operations on the infinities
    and on NaN are those of IEEE 754. *)
Inductive float_value : Type :=
| NaN
| NegInf
| Finite (r : R)
| PosInf.

Definition exp_overflow : R := 89.

Definition float_add (a b : float_value) : float_value :=
  match a, b with
  | NaN, _ | _, NaN => NaN
  | PosInf, NegInf | NegInf, PosInf => NaN
  | PosInf, _ | _, PosInf => PosInf
  | NegInf, _ | _, NegInf => NegInf
  | Finite x, Finite y => Finite (x + y)
  end.

Definition float_sub (a b : float_value) : float_value :=
  match a, b with
  | NaN, _ | _, NaN => NaN
  | PosInf, PosInf | NegInf, NegInf => NaN
  | PosInf, _ | _, NegInf => PosInf
  | NegInf, _ | _, PosInf => NegInf
  | Finite x, Finite y => Finite (x - y)
  end.

(** The product of an infinity, [+infinity] when [positive], and [r]. *)
Definition float_scale_inf (positive : bool) (r : R) : float_value :=
  if Rlt_dec 0 r then (if positive then PosInf else NegInf)
  else if Rlt_dec r 0 then (if positive then NegInf else PosInf)
  else NaN.

Definition float_mul (a b : float_value) : float_value :=
  match a, b with
  | NaN, _ | _, NaN => NaN
  | PosInf, PosInf | NegInf, NegInf => PosInf
  | PosInf, NegInf | NegInf, PosInf => NegInf
  | PosInf, Finite r | Finite r, PosInf => float_scale_inf true r
  | NegInf, Finite r | Finite r, NegInf => float_scale_inf false r
  | Finite x, Finite y => Finite (x * y)
  end.

Definition float_div (a b : float_value) : float_value :=
  match a, b with
  | NaN, _ | _, NaN => NaN
  | (PosInf | NegInf), (PosInf | NegInf) => NaN
  | Finite _, (PosInf | NegInf) => Finite 0
  | PosInf, Finite r => if Rlt_dec r 0 then NegInf else PosInf
  | NegInf, Finite r => if Rlt_dec r 0 then PosInf else NegInf
  | Finite x, Finite y =>
      if Req_EM_T y 0 then float_scale_inf true x else Finite (x / y)
  end.

Definition float_exp (a : float_value) : float_value :=
  match a with
  | NaN => NaN
  | NegInf => Finite 0
  | PosInf => PosInf
  | Finite r => if Rlt_dec exp_overflow r then PosInf else Finite (exp r)
  end.

Definition float_log (a : float_value) : float_value :=
  match a with
  | NaN | NegInf => NaN
  | PosInf => PosInf
  | Finite r =>
      if Rlt_dec r 0 then NaN
      else if Req_EM_T r 0 then NegInf
           else Finite (ln r)
  end.

Definition float_lt (a b : float_value) : bool :=
  match a, b with
  | NaN, _ | _, NaN => false
  | _, NegInf | PosInf, _ => false
  | NegInf, _ | _, PosInf => true
  | Finite x, Finite y => if Rlt_dec x y then true else false
  end.

#[export] Instance float_Scalar : Scalar float_value := {|
  zero := Finite 0;
  one := Finite 1;
  add := float_add;
  sub := float_sub;
  mul := float_mul;
  div := float_div;
  sexp := float_exp;
  slog := float_log;
  lt := float_lt
|}.

#[export] Instance float_ScalarInf : ScalarInf float_value := {|
  neg_infinity := NegInf
|}.

(** A [2 x 16] tensor: 100 in column 8, zero elsewhere. *)
Definition overflow_input : @buffer float_value :=
  fun p => if (p =? 8) || (p =? 24) then Finite 100 else Finite 0.

Definition uninitialized : @buffer float_value := fun _ => NaN.

Section Kernels.
Context {T : Type} `{Scalar T} `{ScalarInf T}.

(** [for (d = lo; d < hi; d += step) body] with [0 < step]. *)
Definition for_step {St : Type} (lo hi step : Z) (body : Z -> St -> St) (s : St)
  : St :=
  for_loop 0 ((hi - lo + step - 1) / step) (fun g => body (lo + g * step)) s.

(** [a > b] lane by lane, and [Vec::blendv(a, b, mask)]: [b] where the
    mask is set. *)
Definition vgt (a b : @Vec T) : Z -> bool := fun l => lt (b l) (a l).
Definition blendv (a b : @Vec T) (mask : Z -> bool) : @Vec T :=
  fun l => if mask l then b l else a l.

Definition divup (x y : Z) : Z := (x + y - 1) / y.

Definition BLOCK_SIZE : Z := 128 * 1024.
Definition sizeof_BFloat16 : Z := 2.

(** ** _vec_log_softmax_lastdim

    [max_input_arr] and [tmp_sum_scalar] are the two local arrays of the
    lambda; [CHUNK_SIZE] rows are handled together. *)
Definition log_softmax_lastdim_block (CHUNK_SIZE dim_size : Z) (input : @buffer T)
  (end_ ii : Z) (st : @buffer T * @buffer T * @buffer T)
  : @buffer T * @buffer T * @buffer T :=
  let '(max_input_arr, tmp_sum_scalar, output) := st in
  let loop_end := CHUNK_SIZE in
  let loop_end := if ii + CHUNK_SIZE >? end_ then end_ - ii else loop_end in
  let max_input_arr :=
    for_loop 0 loop_end
      (fun j max_input_arr =>
         let i := ii + j in
         let input_data := i * dim_size in
         upd max_input_arr j (reduce_all smax input input_data dim_size))
      max_input_arr in
  let tmp_sum_scalar :=
    for_loop 0 loop_end
      (fun j tmp_sum_scalar =>
         let i := ii + j in
         let input_data := i * dim_size in
         let max_input := max_input_arr j in
         upd tmp_sum_scalar j
           (map_reduce_all (fun x => sexp (sub x max_input)) add
              input input_data dim_size))
      tmp_sum_scalar in
  let tmp_sum_scalar := vec_map_inplace slog tmp_sum_scalar 0 loop_end in
  let output :=
    for_loop 0 loop_end
      (fun j output =>
         let i := ii + j in
         let input_data := i * dim_size in
         let output_data := i * dim_size in
         let tmp_sum := tmp_sum_scalar j in
         let max_input := max_input_arr j in
         vec_map (fun x => sub (sub x max_input) tmp_sum)
           output output_data input input_data dim_size)
      output in
  (max_input_arr, tmp_sum_scalar, output).

Definition _vec_log_softmax_lastdim (sizeof_scalar Vec_size : Z)
  (chunks : list (Z * Z)) (uninit input output : @buffer T)
  (outer_size dim_size : Z) : option (@buffer T) :=
  if dim_size =? 0 then None else
  let CHUNK_SIZE := 128 / sizeof_scalar * Vec_size in
  let grain_size := GRAIN_SIZE / (16 * dim_size * CHUNK_SIZE) in
  let grain_size := if grain_size <? CHUNK_SIZE then CHUNK_SIZE else grain_size in
  parallel_for chunks 0 outer_size grain_size
    (fun begin end_ output =>
       Some (snd (for_step begin end_ CHUNK_SIZE
                    (log_softmax_lastdim_block CHUNK_SIZE dim_size input end_)
                    (uninit, uninit, output))))
    output.

(** ** _vec_logsoftmax, the generic template

    [local] is the array [buffer] of the chunk: [input_max_data] at its
    start, [tmp_sum_data] [CHUNK_SIZE] further. *)
Section Generic.
Variable Vec_size : Z.
Variables dim_size inner_size CHUNK_SIZE : Z.
Variable input : @buffer T.

Let input_max_data : Z := 0.
Let tmp_sum_data : Z := CHUNK_SIZE.

(** // init *)
Definition logsoftmax_init (size : Z) (local : @buffer T) : @buffer T :=
  let zero_vec := vbroadcast zero in
  let min_vec := vbroadcast neg_infinity in
  let vec_end := size - Z.rem size Vec_size in
  let local :=
    for_step 0 vec_end Vec_size
      (fun d0 local =>
         let local := store Vec_size local (input_max_data + d0) min_vec in
         store Vec_size local (tmp_sum_data + d0) zero_vec)
      local in
  for_loop vec_end size
    (fun d0 local =>
       let local := upd local (input_max_data + d0) neg_infinity in
       upd local (tmp_sum_data + d0) zero)
    local.

(** // compute max *)
Definition logsoftmax_compute_max (outer_idx inner_idx_begin size : Z)
  (local : @buffer T) : @buffer T :=
  let vec_end := size - Z.rem size Vec_size in
  for_loop 0 dim_size
    (fun dim_idx local =>
       let input_ptr :=
         outer_idx * dim_size * inner_size + dim_idx * inner_size + inner_idx_begin in
       let local :=
         for_step 0 vec_end Vec_size
           (fun d1 local =>
              let data_vec := loadu input (input_ptr + d1) in
              let max_vec := loadu local (input_max_data + d1) in
              let max_vec := blendv max_vec data_vec (vgt data_vec max_vec) in
              store Vec_size local (input_max_data + d1) max_vec)
           local in
       for_loop vec_end size
         (fun d1 local =>
            let data_val := input (input_ptr + d1) in
            let max_val := local (input_max_data + d1) in
            upd local (input_max_data + d1)
              (if lt max_val data_val then data_val else max_val))
         local)
    local.

(** // compute sum of (x - max).exp() *)
Definition logsoftmax_compute_sum (outer_idx inner_idx_begin size : Z)
  (local : @buffer T) : @buffer T :=
  let vec_end := size - Z.rem size Vec_size in
  for_loop 0 dim_size
    (fun dim_idx local =>
       let input_ptr :=
         outer_idx * dim_size * inner_size + dim_idx * inner_size + inner_idx_begin in
       let local :=
         for_step 0 vec_end Vec_size
           (fun d2 local =>
              let data_vec := loadu input (input_ptr + d2) in
              let sum_vec := loadu local (tmp_sum_data + d2) in
              let max_vec := loadu local (input_max_data + d2) in
              let sum_vec :=
                vlift2 add sum_vec (vlift1 sexp (vlift2 sub data_vec max_vec)) in
              store Vec_size local (tmp_sum_data + d2) sum_vec)
           local in
       for_loop vec_end size
         (fun d2 local =>
            let data_val := input (input_ptr + d2) in
            let max_val := local (input_max_data + d2) in
            upd local (tmp_sum_data + d2)
              (add (local (tmp_sum_data + d2)) (sexp (sub data_val max_val))))
         local)
    local.

(** // compute x - max - sum *)
Definition logsoftmax_write (outer_idx inner_idx_begin size : Z)
  (local output : @buffer T) : @buffer T :=
  let vec_end := size - Z.rem size Vec_size in
  for_loop 0 dim_size
    (fun dim_idx output =>
       let offset :=
         outer_idx * dim_size * inner_size + dim_idx * inner_size + inner_idx_begin in
       let input_ptr := offset in
       let output_ptr := offset in
       let output :=
         for_step 0 vec_end Vec_size
           (fun d3 output =>
              let data_vec := loadu input (input_ptr + d3) in
              let max_vec := loadu local (input_max_data + d3) in
              let sum_vec := loadu local (tmp_sum_data + d3) in
              let out_vec := vlift2 sub (vlift2 sub data_vec max_vec) sum_vec in
              store Vec_size output (output_ptr + d3) out_vec)
           output in
       for_loop vec_end size
         (fun d3 output =>
            upd output (output_ptr + d3)
              (sub (sub (input (input_ptr + d3)) (local (input_max_data + d3)))
                 (local (tmp_sum_data + d3))))
         output)
    output.

(** One round of the loop [for (int64_t i = begin; i < end; i++)]. *)
Definition logsoftmax_block (num_chunks : Z) (i : Z)
  (st : @buffer T * @buffer T) : @buffer T * @buffer T :=
  let '(local, output) := st in
  let outer_idx := Z.quot i num_chunks in
  let k := Z.rem i num_chunks in
  let inner_idx_begin := k * CHUNK_SIZE in
  let size := Z.min CHUNK_SIZE (inner_size - inner_idx_begin) in
  let local := logsoftmax_init size local in
  let local := logsoftmax_compute_max outer_idx inner_idx_begin size local in
  let local := logsoftmax_compute_sum outer_idx inner_idx_begin size local in
  (* apply log *)
  let local := vec_map_inplace slog local tmp_sum_data size in
  let output := logsoftmax_write outer_idx inner_idx_begin size local output in
  (local, output).

End Generic.

Definition _vec_logsoftmax (sizeof_scalar Vec_size : Z) (chunks : list (Z * Z))
  (uninit input output : @buffer T) (outer_size inner_size dim_size : Z)
  : option (@buffer T) :=
  if dim_size =? 0 then None else
  let CHUNK_SIZE := Z.max (BLOCK_SIZE / dim_size / sizeof_scalar) Vec_size in
  let CHUNK_SIZE := CHUNK_SIZE / Vec_size * Vec_size in
  let num_chunks := divup inner_size CHUNK_SIZE in
  let grain_size := GRAIN_SIZE / (16 * dim_size * CHUNK_SIZE) in
  parallel_for chunks 0 (outer_size * num_chunks) grain_size
    (fun begin end_ output =>
       Some (snd (for_loop begin end_
                    (logsoftmax_block Vec_size dim_size inner_size CHUNK_SIZE
                       input num_chunks)
                    (uninit, output))))
    output.

(** ** _vec_logsoftmax<BFloat16>

    [bVec] has [2 * fVec_size] lanes.  [local] is the [float] array
    [buffer] of the chunk: [input_max_data] at its start, [tmp_sum_data]
    [CHUNK_SIZE] further; [input_buffer] caches the converted input. *)
Section BFloat16.
Variable fVec_size : Z.
Let bVec_size : Z := 2 * fVec_size.
Variables dim_size inner_size CHUNK_SIZE : Z.
Variable input : @buffer T.

Let input_max_data : Z := 0.
Let tmp_sum_data : Z := CHUNK_SIZE.

(** // init *)
Definition logsoftmax_bf16_init (size : Z) (local : @buffer T) : @buffer T :=
  let zero_fvec := vbroadcast zero in
  let min_fvec := vbroadcast neg_infinity in
  let vec_end := size - Z.rem size bVec_size in
  let local :=
    for_step 0 vec_end bVec_size
      (fun d0 local =>
         let local := store fVec_size local (input_max_data + d0) min_fvec in
         let local := store fVec_size local (input_max_data + d0 + fVec_size) min_fvec in
         let local := store fVec_size local (tmp_sum_data + d0) zero_fvec in
         store fVec_size local (tmp_sum_data + d0 + fVec_size) zero_fvec)
      local in
  for_loop vec_end size
    (fun d0 local =>
       let local := upd local (input_max_data + d0) neg_infinity in
       upd local (tmp_sum_data + d0) zero)
    local.

(** // compute max *)
Definition logsoftmax_bf16_compute_max (outer_idx inner_idx_begin size : Z)
  (local input_buffer : @buffer T) : @buffer T * @buffer T :=
  let vec_end := size - Z.rem size bVec_size in
  for_loop 0 dim_size
    (fun dim_idx '(local, input_buffer) =>
       let input_ptr :=
         outer_idx * dim_size * inner_size + dim_idx * inner_size + inner_idx_begin in
       let input_buffer_ptr := dim_idx * CHUNK_SIZE in
       let '(local, input_buffer) :=
         for_step 0 vec_end bVec_size
           (fun d1 '(local, input_buffer) =>
              let data_bvec := loadu input (input_ptr + d1) in
              let '(data_fvec0, data_fvec1) :=
                convert_bfloat16_float fVec_size data_bvec in
              let max_fvec0 := loadu local (input_max_data + d1) in
              let max_fvec1 := loadu local (input_max_data + d1 + fVec_size) in
              let max_fvec0 := blendv max_fvec0 data_fvec0 (vgt data_fvec0 max_fvec0) in
              let max_fvec1 := blendv max_fvec1 data_fvec1 (vgt data_fvec1 max_fvec1) in
              let local := store fVec_size local (input_max_data + d1) max_fvec0 in
              let local :=
                store fVec_size local (input_max_data + d1 + fVec_size) max_fvec0 in
              (* cache the 'converted' float input *)
              let input_buffer :=
                store fVec_size input_buffer (input_buffer_ptr + d1) data_fvec0 in
              let input_buffer :=
                store fVec_size input_buffer (input_buffer_ptr + d1 + fVec_size)
                  data_fvec1 in
              (local, input_buffer))
           (local, input_buffer) in
       for_loop vec_end size
         (fun d1 '(local, input_buffer) =>
            let data_val := input (input_ptr + d1) in
            let max_val := local (input_max_data + d1) in
            let local :=
              upd local (input_max_data + d1)
                (if lt max_val data_val then data_val else max_val) in
            (local, upd input_buffer (input_buffer_ptr + d1) data_val))
         (local, input_buffer))
    (local, input_buffer).

(** // compute sum of (x - max).exp() *)
Definition logsoftmax_bf16_compute_sum (size : Z) (input_buffer local : @buffer T)
  : @buffer T :=
  let vec_end := size - Z.rem size bVec_size in
  for_loop 0 dim_size
    (fun dim_idx local =>
       let input_buffer_ptr := dim_idx * CHUNK_SIZE in
       let local :=
         for_step 0 vec_end bVec_size
           (fun d2 local =>
              let data_fvec0 := loadu input_buffer (input_buffer_ptr + d2) in
              let data_fvec1 := loadu input_buffer (input_buffer_ptr + d2 + fVec_size) in
              let sum_fvec0 := loadu local (tmp_sum_data + d2) in
              let sum_fvec1 := loadu local (tmp_sum_data + d2 + fVec_size) in
              let max_fvec0 := loadu local (input_max_data + d2) in
              let max_fvec1 := loadu local (input_max_data + d2 + fVec_size) in
              let sum_fvec0 :=
                vlift2 add sum_fvec0 (vlift1 sexp (vlift2 sub data_fvec0 max_fvec0)) in
              let sum_fvec1 :=
                vlift2 add sum_fvec1 (vlift1 sexp (vlift2 sub data_fvec1 max_fvec1)) in
              let local := store fVec_size local (tmp_sum_data + d2) sum_fvec0 in
              store fVec_size local (tmp_sum_data + d2 + fVec_size) sum_fvec1)
           local in
       for_loop vec_end size
         (fun d2 local =>
            let data_val := input_buffer (input_buffer_ptr + d2) in
            let max_val := local (input_max_data + d2) in
            upd local (tmp_sum_data + d2)
              (add (local (tmp_sum_data + d2)) (sexp (sub data_val max_val))))
         local)
    local.

(** // compute x - max - sum *)
Definition logsoftmax_bf16_write (outer_idx inner_idx_begin size : Z)
  (input_buffer local output : @buffer T) : @buffer T :=
  let vec_end := size - Z.rem size bVec_size in
  for_loop 0 dim_size
    (fun dim_idx output =>
       let input_buffer_ptr := dim_idx * CHUNK_SIZE in
       let output_ptr :=
         outer_idx * dim_size * inner_size + dim_idx * inner_size + inner_idx_begin in
       let output :=
         for_step 0 vec_end bVec_size
           (fun d3 output =>
              let data_fvec0 := loadu input_buffer (input_buffer_ptr + d3) in
              let data_fvec1 := loadu input_buffer (input_buffer_ptr + d3 + fVec_size) in
              let max_fvec0 := loadu local (input_max_data + d3) in
              let max_fvec1 := loadu local (input_max_data + d3 + fVec_size) in
              let sum_fvec0 := loadu local (tmp_sum_data + d3) in
              let sum_fvec1 := loadu local (tmp_sum_data + d3 + fVec_size) in
              let out_fvec0 := vlift2 sub (vlift2 sub data_fvec0 max_fvec0) sum_fvec0 in
              let out_fvec1 := vlift2 sub (vlift2 sub data_fvec1 max_fvec1) sum_fvec1 in
              let out_bvec := convert_float_bfloat16 fVec_size out_fvec0 out_fvec1 in
              store bVec_size output (output_ptr + d3) out_bvec)
           output in
       for_loop vec_end size
         (fun d3 output =>
            upd output (output_ptr + d3)
              (sub (sub (input_buffer (input_buffer_ptr + d3))
                      (local (input_max_data + d3)))
                 (local (tmp_sum_data + d3))))
         output)
    output.

(** One round of the loop [for (int64_t i = begin; i < end; i++)]. *)
Definition logsoftmax_bf16_block (num_chunks : Z) (i : Z)
  (st : @buffer T * @buffer T * @buffer T) : @buffer T * @buffer T * @buffer T :=
  let '(local, input_buffer, output) := st in
  let outer_idx := Z.quot i num_chunks in
  let k := Z.rem i num_chunks in
  let inner_idx_begin := k * CHUNK_SIZE in
  let size := Z.min CHUNK_SIZE (inner_size - inner_idx_begin) in
  let local := logsoftmax_bf16_init size local in
  let '(local, input_buffer) :=
    logsoftmax_bf16_compute_max outer_idx inner_idx_begin size local input_buffer in
  let local := logsoftmax_bf16_compute_sum size input_buffer local in
  (* apply log *)
  let local := vec_map_inplace slog local tmp_sum_data size in
  let output :=
    logsoftmax_bf16_write outer_idx inner_idx_begin size input_buffer local output in
  (local, input_buffer, output).

End BFloat16.

(** [uninit] is the content of freshly allocated memory. *)
Definition _vec_logsoftmax_bf16 (fVec_size : Z) (chunks : list (Z * Z))
  (uninit input output : @buffer T) (outer_size inner_size dim_size : Z)
  : option (@buffer T) :=
  if dim_size =? 0 then None else
  let bVec_size := 2 * fVec_size in
  let CHUNK_SIZE := Z.max (BLOCK_SIZE / dim_size / sizeof_BFloat16) bVec_size in
  let CHUNK_SIZE := CHUNK_SIZE / bVec_size * bVec_size in
  let num_chunks := divup inner_size CHUNK_SIZE in
  let grain_size := GRAIN_SIZE / (16 * dim_size * CHUNK_SIZE) in
  parallel_for chunks 0 (outer_size * num_chunks) grain_size
    (fun begin end_ output =>
       Some (snd (for_loop begin end_
                    (logsoftmax_bf16_block fVec_size dim_size inner_size CHUNK_SIZE
                       input num_chunks)
                    (uninit, uninit, output))))
    output.

(** ** Loops with a stride, and loops over rows that read their surroundings *)

Lemma for_step_count (lo hi step : Z) :
  0 < step -> lo <= hi ->
  let n := (hi - lo + step - 1) / step in
  0 <= n /\ hi <= lo + n * step /\ forall g, 0 <= g < n -> lo + g * step < hi.
Proof.
  intros Hstep Hle n.
  pose proof (Z.div_mod (hi - lo + step - 1) step ltac:(lia)) as Hdm.
  pose proof (Z.mod_pos_bound (hi - lo + step - 1) step Hstep) as Hmod.
  fold n in Hdm.
  assert (0 <= n) by (apply Z.div_pos; lia).
  split; [lia | split; [nia | intros g Hg; nia]].
Qed.

(** The invariant rule of the loop [for (d = lo; d < hi; d += step)]: a
    round at [d] leads to [d + step], or to [hi] when that is nearer. *)
Lemma for_step_ind {St : Type} (P : Z -> St -> Prop) (body : Z -> St -> St)
  (lo hi step : Z) (s : St) :
  0 < step -> lo <= hi ->
  P lo s ->
  (forall d t, lo <= d < hi -> P d t -> P (Z.min (d + step) hi) (body d t)) ->
  P hi (for_step lo hi step body s).
Proof.
  intros Hstep Hle Hs Hbody. unfold for_step.
  destruct (for_step_count lo hi step Hstep Hle) as (Hn & Hhi & Hlast).
  set (n := (hi - lo + step - 1) / step) in *.
  assert (Hgoal : P (Z.min (lo + n * step) hi)
                    (for_loop 0 n (fun g => body (lo + g * step)) s)).
  { apply (for_loop_ind (fun g t => P (Z.min (lo + g * step) hi) t)
             (fun g => body (lo + g * step)) 0 n s Hn).
    - now rewrite Z.mul_0_l, Z.add_0_r, Z.min_l.
    - intros g t Hg IH. specialize (Hlast g Hg).
      rewrite Z.min_l in IH by lia.
      replace (lo + (g + 1) * step) with (lo + g * step + step) by lia.
      apply Hbody; [nia | exact IH]. }
  now rewrite Z.min_r in Hgoal.
Qed.

(** When [hi - lo] is a multiple of [step] the rounds are counted by [g]. *)
Lemma for_step_exact {St : Type} (body : Z -> St -> St) (n step : Z) (s : St) :
  0 < step -> 0 <= n ->
  for_step 0 (n * step) step body s = for_loop 0 n (fun g => body (g * step)) s.
Proof.
  intros Hstep Hn. unfold for_step.
  replace ((n * step - 0 + step - 1) / step) with n
    by (apply (Z.div_unique _ step n (step - 1)); lia).
  apply for_loop_ext. intros g t _. now rewrite Z.add_0_l.
Qed.

Lemma for_range_snoc {St : Type} (body : Z -> St -> St) (n : nat) :
  forall i s,
    for_range (S n) i body s = body (i + Z.of_nat n) (for_range n i body s).
Proof.
  induction n as [| n IH]; intros i s.
  - cbn. now rewrite Z.add_0_r.
  - change (for_range (S (S n)) i body s) with (for_range (S n) (i + 1) body (body i s)).
    rewrite IH. cbn [for_range]. f_equal. lia.
Qed.

(** The last round of a loop, taken out of it. *)
Lemma for_loop_snoc {St : Type} (body : Z -> St -> St) (lo k : Z) (s : St) :
  lo <= k -> for_loop lo (k + 1) body s = body k (for_loop lo k body s).
Proof.
  intros Hk. unfold for_loop.
  replace (Z.to_nat (k + 1 - lo)) with (S (Z.to_nat (k - lo))) by lia.
  rewrite for_range_snoc. f_equal. lia.
Qed.

(** [for_loop_rows] for rounds that also read addresses outside the rows:
    what a round writes to row [d] may depend on any buffer that agrees
    with the initial one outside the rows. *)
Lemma for_loop_rows_stable (lo n : Z) (R : Z -> Z -> Prop) (h : Z -> Z -> T -> T)
  (body : Z -> buffer -> buffer) (m0 : buffer) :
  (forall d m q, lo <= d < n ->
                 (forall a, (forall d', lo <= d' < n -> ~ R d' a) -> m a = m0 a) ->
                 R d q -> body d m q = h d q (m q)) ->
  (forall d m q, lo <= d < n -> ~ R d q -> body d m q = m q) ->
  (forall d d' q, R d q -> R d' q -> d = d') ->
  (forall d q, lo <= d < n -> R d q -> for_loop lo n body m0 q = h d q (m0 q))
  /\ (forall q, (forall d, lo <= d < n -> ~ R d q) -> for_loop lo n body m0 q = m0 q).
Proof.
  intros Hin Hout Hdisj.
  destruct (Z_le_gt_dec lo n) as [Hn | Hn].
  2: { rewrite for_loop_empty by lia. split; [intros; lia | reflexivity]. }
  apply (for_loop_ind
           (fun k m =>
              (forall d q, lo <= d < k -> R d q -> m q = h d q (m0 q))
              /\ (forall q, (forall d, lo <= d < k -> ~ R d q) -> m q = m0 q))
           body lo n m0 Hn).
  - split; [intros; lia | reflexivity].
  - intros k m Hk [IH1 IH2]. split.
    + intros d q Hd HR. destruct (Z.eq_dec d k) as [-> | Hne].
      * rewrite (Hin k m q Hk).
        -- f_equal. apply IH2.
           intros d' Hd' HR'. specialize (Hdisj _ _ _ HR HR'). lia.
        -- intros a Ha. apply IH2. intros d' Hd'. apply Ha. lia.
        -- exact HR.
      * rewrite (Hout k m q Hk).
        -- apply IH1; [lia | exact HR].
        -- intros HR'. specialize (Hdisj _ _ _ HR HR'). lia.
    + intros q Hq. rewrite (Hout k m q Hk).
      * apply IH2. intros d Hd. apply Hq. lia.
      * apply Hq. lia.
Qed.

(** ** _vec_log_softmax_lastdim writes the log-softmax of every row *)

Definition log_softmax_lastdim_expected (dim_size : Z) (input : buffer) (i d : Z) : T :=
  log_softmax_value (slice input (i * dim_size) 1 dim_size) (input (i * dim_size + d)).

Section WithLaws.
Context `{!ScalarLaws T}.

Lemma map_reduce_all_sum (g : T -> T) (m : buffer) (p n : Z) :
  0 < n -> map_reduce_all g add m p n = ssum (map g (slice m p 1 n)).
Proof.
  intros Hn. unfold map_reduce_all, slice. rewrite tabulate_map.
  rewrite <- (sum_reduce (fun d => g (m (p + d * 1))) n Hn).
  rewrite Z.mul_0_l, Z.add_0_r. apply for_loop_ext.
  intros j t _. now rewrite Z.mul_1_r.
Qed.

Lemma log_softmax_lastdim_block_done (CHUNK_SIZE dim_size : Z) (input : buffer)
  (end_ ii : Z) (max_input_arr tmp_sum_scalar output : buffer) :
  0 < dim_size -> 0 < CHUNK_SIZE -> 0 <= ii < end_ ->
  cols_done (lastdim_addr dim_size) dim_size
    (log_softmax_lastdim_expected dim_size input) output
    (snd (log_softmax_lastdim_block CHUNK_SIZE dim_size input end_ ii
            (max_input_arr, tmp_sum_scalar, output)))
    ii (Z.min (ii + CHUNK_SIZE) end_).
Proof.
  intros Hdim Hchunk Hii. unfold log_softmax_lastdim_block. cbv beta iota zeta.
  set (loop_end := if ii + CHUNK_SIZE >? end_ then end_ - ii else CHUNK_SIZE).
  assert (Hend : Z.min (ii + CHUNK_SIZE) end_ = ii + loop_end).
  { unfold loop_end. rewrite Z.gtb_ltb.
    destruct (Z.ltb_spec end_ (ii + CHUNK_SIZE)); lia. }
  assert (Hpos : 0 < loop_end) by lia.
  set (ma := for_loop 0 loop_end _ max_input_arr).
  assert (Hma : forall j, 0 <= j < loop_end ->
                          ma j = list_max (slice input ((ii + j) * dim_size) 1 dim_size)).
  { intros j Hj. unfold ma.
    destruct (for_loop_rows loop_end (fun j q => q = j)
                (fun j q _ => reduce_all smax input ((ii + j) * dim_size) dim_size)
                (fun j m => upd m j (reduce_all smax input ((ii + j) * dim_size) dim_size))
                max_input_arr) as [Hin _].
    - intros d m q _ ->. apply upd_same.
    - intros d m q _ Hne. now apply upd_other.
    - intros d d' q -> Heq. lia.
    - rewrite (Hin j j Hj eq_refl). apply reduce_all_max, Hdim. }
  set (ts := for_loop 0 loop_end _ tmp_sum_scalar).
  assert (Hts : forall j, 0 <= j < loop_end ->
                          ts j = ssum (map (fun x => sexp (sub x (ma j)))
                                         (slice input ((ii + j) * dim_size) 1 dim_size))).
  { intros j Hj. unfold ts.
    destruct (for_loop_rows loop_end (fun j q => q = j)
                (fun j q _ => map_reduce_all (fun x => sexp (sub x (ma j))) add
                                input ((ii + j) * dim_size) dim_size)
                (fun j m => upd m j (map_reduce_all (fun x => sexp (sub x (ma j))) add
                                       input ((ii + j) * dim_size) dim_size))
                tmp_sum_scalar) as [Hin _].
    - intros d m q _ ->. apply upd_same.
    - intros d m q _ Hne. now apply upd_other.
    - intros d d' q -> Heq. lia.
    - rewrite (Hin j j Hj eq_refl). apply map_reduce_all_sum, Hdim. }
  set (tl := vec_map_inplace slog ts 0 loop_end).
  assert (Htl : forall j, 0 <= j < loop_end -> tl j = slog (ts j)).
  { intros j Hj. destruct (vec_map_inplace_spec slog ts 0 loop_end) as [Hv _].
    apply (Hv j Hj). }
  cbn [snd]. rewrite Hend.
  apply (for_loop_ind
           (fun k m' =>
              cols_done (lastdim_addr dim_size) dim_size
                (log_softmax_lastdim_expected dim_size input) output m' ii (ii + k))
           _ 0 loop_end output); [lia | |].
  - rewrite Z.add_0_r. apply cols_done_nil.
  - intros j m' Hj IH.
    apply (cols_done_trans _ _ _ (lastdim_addr_inj dim_size) output m' _
             ii (ii + j) (ii + (j + 1))); [lia | lia | exact IH |].
    cbv beta zeta.
    destruct (vec_map_spec (fun x => sub (sub x (ma j)) (tl j)) m'
                ((ii + j) * dim_size) input ((ii + j) * dim_size) dim_size)
      as [Hv Hf].
    split.
    + intros c d Hc Hd. assert (c = ii + j) by lia. subst c.
      unfold lastdim_addr, log_softmax_lastdim_expected, log_softmax_value.
      rewrite Hv by exact Hd. rewrite Htl, Hts, Hma by exact Hj. reflexivity.
    + intros q Hq. apply Hf. apply lastdim_row_frame.
      intros c d Hc Hd. apply Hq; [lia | exact Hd].
Qed.

Lemma _vec_log_softmax_lastdim_correct (sizeof_scalar Vec_size : Z)
  (chunks : list (Z * Z)) (uninit input output : buffer) (outer_size dim_size : Z) :
  0 < 128 / sizeof_scalar * Vec_size ->
  0 <= outer_size -> 0 < dim_size ->
  is_partition 0 outer_size chunks ->
  exists output',
    _vec_log_softmax_lastdim sizeof_scalar Vec_size chunks uninit input output
      outer_size dim_size = Some output'
    /\ cols_done (lastdim_addr dim_size) dim_size
         (log_softmax_lastdim_expected dim_size input) output output' 0 outer_size.
Proof.
  intros Hchunk Houter Hdim Hpart. unfold _vec_log_softmax_lastdim.
  destruct (Z.eqb_spec dim_size 0) as [Hzero | _]; [lia |].
  cbv zeta.
  apply cols_done_parallel_for; auto.
  - apply lastdim_addr_inj.
  - intros b e m Hb Hlt Hle. eexists. split; [reflexivity |].
    apply (for_step_ind
             (fun d st =>
                cols_done (lastdim_addr dim_size) dim_size
                  (log_softmax_lastdim_expected dim_size input) m (snd st) b d)
             _ b e _ (uninit, uninit, m) Hchunk); [lia | apply cols_done_nil |].
    intros d [[ma ts] out] Hd IH. cbn [snd] in IH.
    apply (cols_done_trans _ _ _ (lastdim_addr_inj dim_size) m out _ b d); auto; try lia.
    apply log_softmax_lastdim_block_done; auto; lia.
Qed.

End WithLaws.

(** ** Elementwise passes: a vectorized loop and its scalar tail *)

Lemma store_in (lanes : Z) (m : @buffer T) (p : Z) (v : @Vec T) (q : Z) :
  p <= q < p + lanes -> store lanes m p v q = v (q - p).
Proof.
  intros Hq. rewrite store_spec.
  destruct (Z.leb_spec p q); [| lia]. destruct (Z.ltb_spec q (p + lanes)); [| lia].
  reflexivity.
Qed.

Lemma store_out (lanes : Z) (m : @buffer T) (p : Z) (v : @Vec T) (q : Z) :
  ~ p <= q < p + lanes -> store lanes m p v q = m q.
Proof.
  intros Hq. rewrite store_spec.
  destruct (Z.leb_spec p q); [| reflexivity].
  destruct (Z.ltb_spec q (p + lanes)); [lia | reflexivity].
Qed.

(** [size - (size % lanes)] is the number of elements in full vectors. *)
Lemma vec_end_full (size lanes : Z) :
  0 < lanes -> 0 <= size ->
  size - Z.rem size lanes = size / lanes * lanes
  /\ 0 <= size / lanes
  /\ size / lanes * lanes <= size < size / lanes * lanes + lanes.
Proof.
  intros Hl Hs. rewrite Z.rem_mod_nonneg by lia.
  pose proof (Z.div_mod size lanes ltac:(lia)) as Hdm.
  pose proof (Z.mod_pos_bound size lanes Hl) as Hmod.
  assert (0 <= size / lanes) by (apply Z.div_pos; lia).
  repeat split; lia.
Qed.

Lemma group_unique (lanes x g g' : Z) :
  g * lanes <= x < g * lanes + lanes -> g' * lanes <= x < g' * lanes + lanes -> g = g'.
Proof.
  intros Hg Hg'. assert (g < g' + 1) by nia. assert (g' < g + 1) by nia. lia.
Qed.

(** The loop [for (d = 0; d < size - size % lanes; d += lanes)] storing a
    vector at [base + d], followed by the loop over the remaining [d]
    writing one element at [base + d]: when a lane [l] of the vector at [d]
    is [f (d + l)] of the element it overwrites, and the scalar written at
    [d] is [f d] of the element it overwrites, the region
    [[base, base + size)] is mapped by [f] and nothing else is written.
    The rounds may read outside the region. *)
Lemma pass_spec (lanes size base : Z) (f : Z -> T -> T)
  (vbody : Z -> @buffer T -> @Vec T) (sbody : Z -> @buffer T -> T) (m0 : @buffer T) :
  0 < lanes -> 0 <= size ->
  (forall d l m, 0 <= d -> 0 <= l < lanes -> d + l < size ->
                 (forall a, ~ base <= a < base + size -> m a = m0 a) ->
                 vbody d m l = f (d + l) (m (base + d + l))) ->
  (forall d m, 0 <= d < size ->
               (forall a, ~ base <= a < base + size -> m a = m0 a) ->
               sbody d m = f d (m (base + d))) ->
  let vec_end := size - Z.rem size lanes in
  let m2 :=
    for_loop vec_end size (fun d m => upd m (base + d) (sbody d m))
      (for_step 0 vec_end lanes (fun d m => store lanes m (base + d) (vbody d m)) m0) in
  (forall q, 0 <= q < size -> m2 (base + q) = f q (m0 (base + q)))
  /\ (forall a, ~ base <= a < base + size -> m2 a = m0 a).
Proof.
  intros Hl Hs Hv Hsc vec_end m2.
  destruct (vec_end_full size lanes Hl Hs) as (He & Hn & Hb).
  set (n := size / lanes) in *.
  assert (Hve : vec_end = n * lanes) by exact He.
  unfold m2. clear m2. rewrite Hve. rewrite for_step_exact by assumption.
  set (m1 := for_loop 0 n _ m0).
  destruct (for_loop_rows_stable 0 n
              (fun g a => base + g * lanes <= a < base + g * lanes + lanes)
              (fun g a x => f (a - base) x)
              (fun g m => store lanes m (base + g * lanes) (vbody (g * lanes) m)) m0)
    as [Hin1 Hout1].
  { intros g m a Hg Hagree Ha. rewrite store_in by exact Ha.
    rewrite Hv.
    - f_equal; [lia | f_equal; lia].
    - nia.
    - lia.
    - nia.
    - intros a' Ha'. apply Hagree. intros g' Hg'. nia. }
  { intros g m a Hg Ha. now apply store_out. }
  { intros g g' a Hg Hg'. apply (group_unique lanes (a - base)); lia. }
  fold m1 in Hin1, Hout1.
  destruct (for_loop_rows_stable (n * lanes) size
              (fun d a => a = base + d)
              (fun d a x => f d x)
              (fun d m => upd m (base + d) (sbody d m)) m1)
    as [Hin2 Hout2].
  { intros d m a Hd Hagree ->. rewrite upd_same. apply Hsc; [lia |].
    intros a' Ha'. rewrite Hagree by (intros d' Hd'; lia).
    apply Hout1. intros g' Hg'. nia. }
  { intros d m a Hd Ha. now apply upd_other. }
  { intros d d' a -> Heq. lia. }
  split.
  - intros q Hq. destruct (Z_lt_ge_dec q (n * lanes)) as [Hlt | Hge].
    + rewrite Hout2 by (intros d Hd; lia).
      rewrite (Hin1 (q / lanes) (base + q)).
      * f_equal. lia.
      * split; [apply Z.div_pos; lia |].
        apply Z.div_lt_upper_bound; lia.
      * pose proof (Z.div_mod q lanes ltac:(lia)).
        pose proof (Z.mod_pos_bound q lanes Hl). lia.
    + rewrite (Hin2 q (base + q)) by (try reflexivity; lia).
      f_equal. apply Hout1. intros g Hg. nia.
  - intros a Ha. rewrite Hout2 by (intros d Hd; lia).
    apply Hout1. intros g Hg. nia.
Qed.

(** Passes over one region, one after the other: each element is folded
    through the passes. *)
Lemma passes_fold (n size base : Z) (F : Z -> Z -> T -> T)
  (step : Z -> @buffer T -> @buffer T) (m0 : @buffer T) :
  0 <= n ->
  (forall d m, 0 <= d < n ->
               (forall a, ~ base <= a < base + size -> m a = m0 a) ->
               (forall q, 0 <= q < size -> step d m (base + q) = F d q (m (base + q)))
               /\ (forall a, ~ base <= a < base + size -> step d m a = m a)) ->
  (forall q, 0 <= q < size ->
             for_loop 0 n step m0 (base + q)
             = for_loop 0 n (fun d acc => F d q acc) (m0 (base + q)))
  /\ (forall a, ~ base <= a < base + size -> for_loop 0 n step m0 a = m0 a).
Proof.
  intros Hn Hstep.
  apply (for_loop_ind
           (fun k m =>
              (forall q, 0 <= q < size ->
                         m (base + q) = for_loop 0 k (fun d acc => F d q acc) (m0 (base + q)))
              /\ (forall a, ~ base <= a < base + size -> m a = m0 a))
           step 0 n m0 Hn).
  - split; [| reflexivity]. intros q Hq. now rewrite for_loop_empty by lia.
  - intros k m Hk [IH1 IH2]. destruct (Hstep k m Hk IH2) as [Hin Hout]. split.
    + intros q Hq. rewrite for_loop_snoc by lia. rewrite Hin by exact Hq.
      f_equal. now apply IH1.
    + intros a Ha. rewrite Hout by exact Ha. now apply IH2.
Qed.

(** ** The phases of a chunk of _vec_logsoftmax *)

Section GenericPhases.
Variable Vec_size : Z.
Variables dim_size inner_size CHUNK_SIZE : Z.
Variable input : @buffer T.
Hypothesis Vec_size_pos : 0 < Vec_size.

(** After [// init] the chunk's maxima are [-infinity] and its sums zero. *)
Lemma logsoftmax_init_spec (size : Z) (local : @buffer T) :
  0 <= size <= CHUNK_SIZE ->
  forall q, 0 <= q < size ->
    logsoftmax_init Vec_size CHUNK_SIZE size local q = neg_infinity
    /\ logsoftmax_init Vec_size CHUNK_SIZE size local (CHUNK_SIZE + q) = zero.
Proof.
  intros Hsize. unfold logsoftmax_init. cbv zeta.
  destruct (vec_end_full size Vec_size Vec_size_pos ltac:(lia)) as (He & Hn & Hb).
  set (n := size / Vec_size) in *. rewrite He.
  rewrite for_step_exact by assumption.
  set (h := fun a : Z => if a <? CHUNK_SIZE then neg_infinity else zero).
  destruct (for_loop_rows_stable 0 n
              (fun g a => 0 <= g < n
                          /\ (0 + g * Vec_size <= a < 0 + g * Vec_size + Vec_size
                              \/ CHUNK_SIZE + g * Vec_size <= a
                                 < CHUNK_SIZE + g * Vec_size + Vec_size))
              (fun g a _ => h a)
              (fun g m =>
                 store Vec_size
                   (store Vec_size m (0 + g * Vec_size) (vbroadcast neg_infinity))
                   (CHUNK_SIZE + g * Vec_size) (vbroadcast zero))
              local) as [Hin1 Hout1].
  { intros g m a Hg _ [_ [Ha | Ha]]; unfold h.
    - rewrite store_out by nia. rewrite store_in by exact Ha.
      destruct (Z.ltb_spec a CHUNK_SIZE); [reflexivity | nia].
    - rewrite store_in by exact Ha.
      destruct (Z.ltb_spec a CHUNK_SIZE); [nia | reflexivity]. }
  { intros g m a Hg Ha. rewrite !store_out; [reflexivity | |];
      intros Hr; apply Ha; (split; [exact Hg |]); [left | right]; exact Hr. }
  { intros g g' a [Hg [Ha | Ha]] [Hg' [Ha' | Ha']].
    - apply (group_unique Vec_size a); lia.
    - nia.
    - nia.
    - apply (group_unique Vec_size (a - CHUNK_SIZE)); lia. }
  set (m1 := for_loop 0 n _ local) in *.
  destruct (for_loop_rows_stable (n * Vec_size) size
              (fun d a => n * Vec_size <= d < size /\ (a = 0 + d \/ a = CHUNK_SIZE + d))
              (fun d a _ => h a)
              (fun d m => upd (upd m (0 + d) neg_infinity) (CHUNK_SIZE + d) zero)
              m1) as [Hin2 Hout2].
  { intros d m a Hd _ [_ [-> | ->]]; unfold h.
    - rewrite upd_other by lia. rewrite upd_same.
      destruct (Z.ltb_spec (0 + d) CHUNK_SIZE); [reflexivity | lia].
    - rewrite upd_same.
      destruct (Z.ltb_spec (CHUNK_SIZE + d) CHUNK_SIZE); [lia | reflexivity]. }
  { intros d m a Hd Ha. rewrite !upd_other; [reflexivity | |];
      intros Hr; apply Ha; (split; [exact Hd |]); [left | right]; exact Hr. }
  { intros d d' a [Hd [-> | ->]] [Hd' [Ha' | Ha']]; lia. }
  assert (Hgroup : forall q, 0 <= q < n * Vec_size ->
                             0 <= q / Vec_size < n
                             /\ q / Vec_size * Vec_size <= q
                                < q / Vec_size * Vec_size + Vec_size).
  { intros q Hq. pose proof (Z.div_mod q Vec_size ltac:(lia)).
    pose proof (Z.mod_pos_bound q Vec_size Vec_size_pos).
    split; [| lia].
    split; [apply Z.div_pos; lia | apply Z.div_lt_upper_bound; lia]. }
  assert (Hh : forall q, 0 <= q < size -> h q = neg_infinity /\ h (CHUNK_SIZE + q) = zero).
  { intros q Hq. unfold h.
    destruct (Z.ltb_spec q CHUNK_SIZE); [| lia].
    destruct (Z.ltb_spec (CHUNK_SIZE + q) CHUNK_SIZE); [lia | auto]. }
  intros q Hq. destruct (Hh q Hq) as [Hh1 Hh2].
  destruct (Z_lt_ge_dec q (n * Vec_size)) as [Hlt | Hge].
  - destruct (Hgroup q ltac:(lia)) as [Hg Hr]. split.
    + rewrite Hout2 by (intros d Hd [_ [Ha | Ha]]; lia).
      rewrite (Hin1 (q / Vec_size) q); [exact Hh1 | exact Hg |].
      split; [exact Hg | left; lia].
    + rewrite Hout2 by (intros d Hd [_ [Ha | Ha]]; lia).
      rewrite (Hin1 (q / Vec_size) (CHUNK_SIZE + q)); [exact Hh2 | exact Hg |].
      split; [exact Hg | right; lia].
  - split.
    + rewrite (Hin2 q q); [exact Hh1 | lia |]. split; [lia | left; lia].
    + rewrite (Hin2 q (CHUNK_SIZE + q)); [exact Hh2 | lia |].
      split; [lia | right; lia].
Qed.

Let input_ptr (outer_idx inner_idx_begin dim_idx : Z) : Z :=
  outer_idx * dim_size * inner_size + dim_idx * inner_size + inner_idx_begin.

(** After [// compute max] every maximum has been folded with the
    elements of its column; the sums are untouched. *)
Lemma logsoftmax_compute_max_spec (outer_idx inner_idx_begin size : Z)
  (local : @buffer T) :
  0 <= size -> 0 <= dim_size ->
  (forall q, 0 <= q < size ->
             logsoftmax_compute_max Vec_size dim_size inner_size input
               outer_idx inner_idx_begin size local q
             = for_loop 0 dim_size
                 (fun d acc => smax acc (input (input_ptr outer_idx inner_idx_begin d + q)))
                 (local q))
  /\ (forall a, ~ 0 <= a < size ->
                logsoftmax_compute_max Vec_size dim_size inner_size input
                  outer_idx inner_idx_begin size local a = local a).
Proof.
  intros Hsize Hdim. unfold logsoftmax_compute_max. cbv zeta.
  destruct (passes_fold dim_size size 0
              (fun d q x => smax x (input (input_ptr outer_idx inner_idx_begin d + q)))
              (fun dim_idx local =>
                 for_loop (size - Z.rem size Vec_size) size
                   (fun d1 local =>
                      upd local (0 + d1)
                        (if lt (local (0 + d1))
                              (input (input_ptr outer_idx inner_idx_begin dim_idx + d1))
                         then input (input_ptr outer_idx inner_idx_begin dim_idx + d1)
                         else local (0 + d1)))
                   (for_step 0 (size - Z.rem size Vec_size) Vec_size
                      (fun d1 local =>
                         store Vec_size local (0 + d1)
                           (blendv (loadu local (0 + d1))
                              (loadu input
                                 (input_ptr outer_idx inner_idx_begin dim_idx + d1))
                              (vgt (loadu input
                                      (input_ptr outer_idx inner_idx_begin dim_idx + d1))
                                 (loadu local (0 + d1)))))
                      local))
              local Hdim) as [Hin Hout].
  { intros d m Hd _.
    apply (pass_spec Vec_size size 0
             (fun q x => smax x (input (input_ptr outer_idx inner_idx_begin d + q)))
             (fun d1 local =>
                blendv (loadu local (0 + d1))
                  (loadu input (input_ptr outer_idx inner_idx_begin d + d1))
                  (vgt (loadu input (input_ptr outer_idx inner_idx_begin d + d1))
                     (loadu local (0 + d1))))
             (fun d1 local =>
                if lt (local (0 + d1)) (input (input_ptr outer_idx inner_idx_begin d + d1))
                then input (input_ptr outer_idx inner_idx_begin d + d1)
                else local (0 + d1))
             m Vec_size_pos Hsize).
    - intros d1 l m' Hd1 Hl Hlt _. unfold blendv, vgt, loadu, smax.
      replace (input_ptr outer_idx inner_idx_begin d + d1 + l)
        with (input_ptr outer_idx inner_idx_begin d + (d1 + l)) by lia.
      reflexivity.
    - intros d1 m' Hd1 _. reflexivity. }
  split.
  - intros q Hq. apply (Hin q Hq).
  - intros a Ha. apply Hout. lia.
Qed.

(** After [// compute sum of (x - max).exp()] every sum has been
    increased by [exp(x - max)] for the elements of its column; the maxima
    are untouched. *)
Lemma logsoftmax_compute_sum_spec (outer_idx inner_idx_begin size : Z)
  (local : @buffer T) :
  0 <= size <= CHUNK_SIZE -> 0 <= dim_size ->
  (forall q, 0 <= q < size ->
             logsoftmax_compute_sum Vec_size dim_size inner_size CHUNK_SIZE input
               outer_idx inner_idx_begin size local (CHUNK_SIZE + q)
             = for_loop 0 dim_size
                 (fun d acc =>
                    add acc
                      (sexp (sub (input (input_ptr outer_idx inner_idx_begin d + q))
                               (local q))))
                 (local (CHUNK_SIZE + q)))
  /\ (forall a, ~ CHUNK_SIZE <= a < CHUNK_SIZE + size ->
                logsoftmax_compute_sum Vec_size dim_size inner_size CHUNK_SIZE input
                  outer_idx inner_idx_begin size local a = local a).
Proof.
  intros Hsize Hdim. unfold logsoftmax_compute_sum. cbv zeta.
  apply (passes_fold dim_size size CHUNK_SIZE
           (fun d q x =>
              add x (sexp (sub (input (input_ptr outer_idx inner_idx_begin d + q))
                             (local q))))
           _ local Hdim).
  intros d m Hd Hagree.
  apply (pass_spec Vec_size size CHUNK_SIZE
           (fun q x =>
              add x (sexp (sub (input (input_ptr outer_idx inner_idx_begin d + q))
                             (local q))))
           (fun d2 local =>
              vlift2 add (loadu local (CHUNK_SIZE + d2))
                (vlift1 sexp
                   (vlift2 sub
                      (loadu input (input_ptr outer_idx inner_idx_begin d + d2))
                      (loadu local (0 + d2)))))
           (fun d2 local =>
              add (local (CHUNK_SIZE + d2))
                (sexp (sub (input (input_ptr outer_idx inner_idx_begin d + d2))
                         (local (0 + d2)))))
           m Vec_size_pos ltac:(lia)).
  - intros d2 l m' Hd2 Hl Hlt Hagree'. unfold vlift2, vlift1, loadu.
    rewrite (Hagree' (0 + d2 + l)), (Hagree (0 + d2 + l)) by lia.
    replace (input_ptr outer_idx inner_idx_begin d + d2 + l)
      with (input_ptr outer_idx inner_idx_begin d + (d2 + l)) by lia.
    replace (0 + d2 + l) with (d2 + l) by lia. reflexivity.
  - intros d2 m' Hd2 Hagree'.
    rewrite (Hagree' (0 + d2)), (Hagree (0 + d2)) by lia. reflexivity.
Qed.

(** [// compute x - max - sum] writes the chunk's part of every row of the
    slice and nothing else. *)
Lemma logsoftmax_write_spec (outer_idx inner_idx_begin size : Z)
  (local output : @buffer T) :
  0 <= size <= inner_size ->
  (forall d q, 0 <= d < dim_size -> 0 <= q < size ->
               logsoftmax_write Vec_size dim_size inner_size CHUNK_SIZE input
                 outer_idx inner_idx_begin size local output
                 (input_ptr outer_idx inner_idx_begin d + q)
               = sub (sub (input (input_ptr outer_idx inner_idx_begin d + q)) (local q))
                   (local (CHUNK_SIZE + q)))
  /\ (forall a, (forall d q, 0 <= d < dim_size -> 0 <= q < size ->
                             a <> input_ptr outer_idx inner_idx_begin d + q) ->
                logsoftmax_write Vec_size dim_size inner_size CHUNK_SIZE input
                  outer_idx inner_idx_begin size local output a = output a).
Proof.
  intros Hsize. unfold logsoftmax_write. cbv zeta.
  set (ptr := input_ptr outer_idx inner_idx_begin).
  set (value := fun d q => sub (sub (input (ptr d + q)) (local q)) (local (CHUNK_SIZE + q))).
  destruct (for_loop_rows_stable 0 dim_size
              (fun d a => ptr d <= a < ptr d + size)
              (fun d a _ => value d (a - ptr d))
              (fun dim_idx output =>
                 for_loop (size - Z.rem size Vec_size) size
                   (fun d3 output =>
                      upd output (ptr dim_idx + d3)
                        (sub (sub (input (ptr dim_idx + d3)) (local (0 + d3)))
                           (local (CHUNK_SIZE + d3))))
                   (for_step 0 (size - Z.rem size Vec_size) Vec_size
                      (fun d3 output =>
                         store Vec_size output (ptr dim_idx + d3)
                           (vlift2 sub
                              (vlift2 sub (loadu input (ptr dim_idx + d3))
                                 (loadu local (0 + d3)))
                              (loadu local (CHUNK_SIZE + d3))))
                      output))
              output) as [Hin Hout].
  - intros d m a Hd _ Ha.
    destruct (pass_spec Vec_size size (ptr d) (fun q _ => value d q)
                (fun d3 _ =>
                   vlift2 sub
                     (vlift2 sub (loadu input (ptr d + d3)) (loadu local (0 + d3)))
                     (loadu local (CHUNK_SIZE + d3)))
                (fun d3 _ =>
                   sub (sub (input (ptr d + d3)) (local (0 + d3)))
                     (local (CHUNK_SIZE + d3)))
                m Vec_size_pos ltac:(lia)) as [Hw _].
    + intros d3 l m' Hd3 Hl Hlt _. unfold vlift2, loadu, value.
      replace (ptr d + d3 + l) with (ptr d + (d3 + l)) by lia.
      replace (0 + d3 + l) with (d3 + l) by lia.
      replace (CHUNK_SIZE + d3 + l) with (CHUNK_SIZE + (d3 + l)) by lia.
      reflexivity.
    + intros d3 m' Hd3 _. reflexivity.
    + specialize (Hw (a - ptr d) ltac:(lia)).
      replace (ptr d + (a - ptr d)) with a in Hw by lia. exact Hw.
  - intros d m a Hd Ha.
    destruct (pass_spec Vec_size size (ptr d) (fun q _ => value d q)
                (fun d3 _ =>
                   vlift2 sub
                     (vlift2 sub (loadu input (ptr d + d3)) (loadu local (0 + d3)))
                     (loadu local (CHUNK_SIZE + d3)))
                (fun d3 _ =>
                   sub (sub (input (ptr d + d3)) (local (0 + d3)))
                     (local (CHUNK_SIZE + d3)))
                m Vec_size_pos ltac:(lia)) as [_ Hf].
    + intros d3 l m' Hd3 Hl Hlt _. unfold vlift2, loadu, value.
      replace (ptr d + d3 + l) with (ptr d + (d3 + l)) by lia.
      replace (0 + d3 + l) with (d3 + l) by lia.
      replace (CHUNK_SIZE + d3 + l) with (CHUNK_SIZE + (d3 + l)) by lia.
      reflexivity.
    + intros d3 m' Hd3 _. reflexivity.
    + apply (Hf a Ha).
  - intros d d' a Hd Hd'. unfold ptr, input_ptr in Hd, Hd'.
    apply (group_unique inner_size
             (a - outer_idx * dim_size * inner_size - inner_idx_begin)); lia.
  - split.
    + intros d q Hd Hq. pose proof (Hin d (ptr d + q) Hd ltac:(lia)) as Hv.
      unfold value in Hv. replace (ptr d + q - ptr d) with q in Hv by lia. exact Hv.
    + intros a Ha. apply (Hout a). intros d Hd Hr.
      apply (Ha d (a - ptr d) Hd); lia.
Qed.

End GenericPhases.

(** ** Kernels that fill the output block by block

    Block [i] holds the columns [[bs i, bs (i + 1))]. *)
Section Blocks.
Variable addr : Z -> Z -> Z.
Variable dim : Z.
Variable expected : Z -> Z -> T.
Hypothesis addr_inj :
  forall c d c' d',
    0 <= c -> 0 <= c' -> 0 <= d < dim -> 0 <= d' < dim ->
    addr c d = addr c' d' -> c = c'.
Variable bs : Z -> Z.
Hypothesis bs_0 : 0 <= bs 0.
Hypothesis bs_step : forall i, 0 <= i -> bs i <= bs (i + 1).

Lemma bs_mono (i j : Z) : 0 <= i <= j -> bs i <= bs j.
Proof.
  intros [Hi Hij]. replace j with (i + Z.of_nat (Z.to_nat (j - i))) by lia.
  induction (Z.to_nat (j - i)) as [| n IH].
  - rewrite Z.add_0_r. lia.
  - replace (i + Z.of_nat (S n)) with (i + Z.of_nat n + 1) by lia.
    specialize (bs_step (i + Z.of_nat n) ltac:(lia)). lia.
Qed.

Lemma bs_nonneg (i : Z) : 0 <= i -> 0 <= bs i.
Proof. intros Hi. pose proof (bs_mono 0 i ltac:(lia)). lia. Qed.

Lemma blocks_done_for_loop {A : Type} (step : Z -> A * @buffer T -> A * @buffer T)
  (lo hi : Z) (s : A * @buffer T) :
  0 <= lo <= hi ->
  (forall i st, lo <= i < hi ->
                cols_done addr dim expected (snd st) (snd (step i st))
                  (bs i) (bs (i + 1))) ->
  cols_done addr dim expected (snd s) (snd (for_loop lo hi step s)) (bs lo) (bs hi).
Proof.
  intros Hle Hstep.
  apply (for_loop_ind
           (fun k st => cols_done addr dim expected (snd s) (snd st) (bs lo) (bs k))
           step lo hi s ltac:(lia)).
  - apply cols_done_nil.
  - intros k st Hk IH.
    apply (cols_done_trans addr dim expected addr_inj (snd s) (snd st) _
             (bs lo) (bs k) (bs (k + 1))).
    + apply bs_nonneg. lia.
    + split; [apply bs_mono; lia | apply bs_step; lia].
    + exact IH.
    + now apply Hstep.
Qed.

Lemma blocks_done_chunks (f : Z -> Z -> @buffer T -> option (@buffer T))
  (chunks : list (Z * Z)) (hi : Z) :
  (forall b e m, 0 <= b -> b < e -> e <= hi ->
                 exists m', f b e m = Some m'
                            /\ cols_done addr dim expected m m' (bs b) (bs e)) ->
  forall lo m,
    0 <= lo -> is_partition lo hi chunks ->
    exists m', run_chunks chunks f m = Some m'
               /\ cols_done addr dim expected m m' (bs lo) (bs hi).
Proof.
  intros Hf. induction chunks as [| [b e] rest IH]; intros lo m Hlo Hpart.
  - cbn in Hpart. subst hi. exists m. split; [reflexivity | apply cols_done_nil].
  - cbn in Hpart. destruct Hpart as (-> & Hlt & Hle & Hrest).
    destruct (Hf lo e m Hlo Hlt Hle) as (m1 & Hrun1 & Hdone1).
    destruct (IH e m1 ltac:(lia) Hrest) as (m2 & Hrun2 & Hdone2).
    exists m2. cbn [run_chunks]. rewrite Hrun1. split; [exact Hrun2 |].
    apply (cols_done_trans addr dim expected addr_inj m m1 m2 (bs lo) (bs e) (bs hi));
      auto.
    + apply bs_nonneg, Hlo.
    + split; apply bs_mono; lia.
Qed.

End Blocks.

(** ** _vec_logsoftmax writes the log-softmax of every column *)

Definition log_softmax_expected (inner_size dim_size : Z) (input : @buffer T)
  (c d : Z) : T :=
  log_softmax_value
    (slice input (strided_addr inner_size dim_size c 0) inner_size dim_size)
    (input (strided_addr inner_size dim_size c d)).

(** The first column of round [i] of the loop over [outer_size * num_chunks]. *)
Definition block_start (inner_size CHUNK_SIZE num_chunks i : Z) : Z :=
  i / num_chunks * inner_size + i mod num_chunks * CHUNK_SIZE.

Lemma divup_bounds (x y : Z) :
  0 < y -> 0 < x -> 0 < divup x y /\ (divup x y - 1) * y < x <= divup x y * y.
Proof.
  intros Hy Hx. unfold divup.
  pose proof (Z.div_mod (x + y - 1) y ltac:(lia)) as Hdm.
  pose proof (Z.mod_pos_bound (x + y - 1) y Hy) as Hmod.
  split; [apply Z.div_str_pos; lia | nia].
Qed.

Lemma block_start_next (inner_size CHUNK_SIZE i : Z) :
  0 < CHUNK_SIZE -> 0 < inner_size -> 0 <= i ->
  let num_chunks := divup inner_size CHUNK_SIZE in
  let k := i mod num_chunks in
  let size := Z.min CHUNK_SIZE (inner_size - k * CHUNK_SIZE) in
  0 <= k /\ 0 < size /\ k * CHUNK_SIZE + size <= inner_size
  /\ block_start inner_size CHUNK_SIZE num_chunks (i + 1)
     = block_start inner_size CHUNK_SIZE num_chunks i + size.
Proof.
  intros Hc Hin Hi num_chunks k size.
  destruct (divup_bounds inner_size CHUNK_SIZE Hc Hin) as (Hnc & Hlo & Hhi).
  fold num_chunks in Hnc, Hlo, Hhi.
  pose proof (Z.div_mod i num_chunks ltac:(lia)) as Hdm.
  pose proof (Z.mod_pos_bound i num_chunks Hnc) as Hmod. fold k in Hdm, Hmod.
  set (o := i / num_chunks) in *.
  unfold block_start. fold k o.
  destruct (Z_lt_ge_dec (k + 1) num_chunks) as [Hlt | Hge].
  - assert (Hq : (i + 1) / num_chunks = o).
    { symmetry. apply (Z.div_unique (i + 1) num_chunks o (k + 1)); lia. }
    assert (Hr : (i + 1) mod num_chunks = k + 1).
    { symmetry. apply (Z.mod_unique (i + 1) num_chunks o (k + 1)); lia. }
    rewrite Hq, Hr. unfold size. nia.
  - assert (Hk : k = num_chunks - 1) by lia.
    assert (Hq : (i + 1) / num_chunks = o + 1).
    { symmetry. apply (Z.div_unique (i + 1) num_chunks (o + 1) 0); lia. }
    assert (Hr : (i + 1) mod num_chunks = 0).
    { symmetry. apply (Z.mod_unique (i + 1) num_chunks (o + 1) 0); lia. }
    rewrite Hq, Hr. unfold size. rewrite Hk in *. nia.
Qed.

(** A maximum that starts from [-infinity] is the maximum of the column,
    when its first element is not below [-infinity]. *)
Lemma column_max_from_neg_infinity (input : @buffer T) (p stride dim_size : Z) :
  0 < dim_size ->
  smax neg_infinity (input p) = input p ->
  for_loop 0 dim_size (fun d acc => smax acc (input (p + d * stride))) neg_infinity
  = list_max (slice input p stride dim_size).
Proof.
  intros Hdim Hfirst.
  rewrite <- (for_loop_first _ dim_size neg_infinity Hdim).
  rewrite Z.mul_0_l, Z.add_0_r, Hfirst. now apply column_max.
Qed.

Lemma column_sum_from_zero (g : T -> T) (input : @buffer T) (p stride dim_size : Z) :
  for_loop 0 dim_size (fun d acc => add acc (g (input (p + d * stride)))) zero
  = ssum (map g (slice input p stride dim_size)).
Proof.
  unfold slice. rewrite tabulate_map.
  apply (for_loop_fold add (fun d => g (input (p + d * stride)))).
Qed.

Lemma logsoftmax_block_done (Vec_size dim_size inner_size CHUNK_SIZE : Z)
  (input : @buffer T) (i : Z) (local output : @buffer T) :
  0 < Vec_size -> 0 < dim_size -> 0 < inner_size -> 0 < CHUNK_SIZE -> 0 <= i ->
  let num_chunks := divup inner_size CHUNK_SIZE in
  (forall c, block_start inner_size CHUNK_SIZE num_chunks i <= c
             < block_start inner_size CHUNK_SIZE num_chunks (i + 1) ->
             smax neg_infinity (input (strided_addr inner_size dim_size c 0))
             = input (strided_addr inner_size dim_size c 0)) ->
  cols_done (strided_addr inner_size dim_size) dim_size
    (log_softmax_expected inner_size dim_size input) output
    (snd (logsoftmax_block Vec_size dim_size inner_size CHUNK_SIZE input num_chunks i
            (local, output)))
    (block_start inner_size CHUNK_SIZE num_chunks i)
    (block_start inner_size CHUNK_SIZE num_chunks (i + 1)).
Proof.
  intros Hv Hdim Hin Hc Hi num_chunks Hfirst.
  destruct (block_start_next inner_size CHUNK_SIZE i Hc Hin Hi)
    as (Hk & Hsize & Hfit & Hnext).
  destruct (divup_bounds inner_size CHUNK_SIZE Hc Hin) as (Hnc & _).
  fold num_chunks in Hnc, Hk, Hsize, Hfit, Hnext.
  rewrite Hnext in *.
  unfold logsoftmax_block. cbv beta iota zeta.
  rewrite Z.quot_div_nonneg, Z.rem_mod_nonneg by lia.
  unfold block_start in *.
  set (o := i / num_chunks) in *. set (k := i mod num_chunks) in *.
  set (ib := k * CHUNK_SIZE) in *.
  set (size := Z.min CHUNK_SIZE (inner_size - ib)) in *.
  assert (Hsz : 0 <= size <= CHUNK_SIZE) by lia.
  pose proof (logsoftmax_init_spec Vec_size CHUNK_SIZE Hv size local Hsz) as Hinit.
  set (l1 := logsoftmax_init Vec_size CHUNK_SIZE size local) in *.
  destruct (logsoftmax_compute_max_spec Vec_size dim_size inner_size input Hv
              o ib size l1 ltac:(lia) ltac:(lia)) as [Hmax Hmaxf].
  set (l2 := logsoftmax_compute_max Vec_size dim_size inner_size input o ib size l1) in *.
  destruct (logsoftmax_compute_sum_spec Vec_size dim_size inner_size CHUNK_SIZE input Hv
              o ib size l2 Hsz ltac:(lia)) as [Hsum Hsumf].
  set (l3 := logsoftmax_compute_sum Vec_size dim_size inner_size CHUNK_SIZE input
               o ib size l2) in *.
  destruct (vec_map_inplace_spec slog l3 CHUNK_SIZE size) as [Hlog Hlogf].
  set (l4 := vec_map_inplace slog l3 CHUNK_SIZE size) in *.
  destruct (logsoftmax_write_spec Vec_size dim_size inner_size CHUNK_SIZE input Hv
              o ib size l4 output ltac:(lia)) as [Hw Hwf].
  cbn [snd].
  set (out := logsoftmax_write Vec_size dim_size inner_size CHUNK_SIZE input
                o ib size l4 output) in *.
  assert (Haddr : forall q d, 0 <= q < size ->
                              strided_addr inner_size dim_size (o * inner_size + ib + q) d
                              = o * dim_size * inner_size + d * inner_size + ib + q).
  { intros q d Hq.
    replace (o * inner_size + ib + q) with (o * inner_size + (ib + q)) by lia.
    rewrite strided_addr_outer_inner by lia. lia. }
  split.
  - intros c d Hcol Hd.
    replace c with (o * inner_size + ib + (c - (o * inner_size + ib))) by lia.
    set (q := c - (o * inner_size + ib)).
    assert (Hq : 0 <= q < size) by (unfold q; lia).
    unfold log_softmax_expected, log_softmax_value.
    assert (Hcolumn : forall d', o * dim_size * inner_size + d' * inner_size + ib + q
                                 = strided_addr inner_size dim_size
                                     (o * inner_size + ib + q) 0 + d' * inner_size).
    { intros d'. rewrite (Haddr q 0 Hq). lia. }
    set (p := strided_addr inner_size dim_size (o * inner_size + ib + q) 0) in *.
    assert (Hm : l4 q = list_max (slice input p inner_size dim_size)).
    { rewrite Hlogf by lia. rewrite Hsumf by lia. rewrite (Hmax q Hq).
      destruct (Hinit q Hq) as [-> _].
      rewrite <- (column_max_from_neg_infinity input p inner_size dim_size Hdim).
      - apply for_loop_ext. intros d' t _. now rewrite <- Hcolumn.
      - apply Hfirst. lia. }
    assert (Hs : l4 (CHUNK_SIZE + q)
                 = slog (ssum (map (fun y => sexp (sub y (l4 q)))
                                 (slice input p inner_size dim_size)))).
    { rewrite (Hlog q Hq). f_equal. rewrite (Hsum q Hq).
      rewrite (Hmaxf (CHUNK_SIZE + q)) by lia. destruct (Hinit q Hq) as [_ ->].
      rewrite <- (column_sum_from_zero (fun y => sexp (sub y (l4 q)))).
      apply for_loop_ext. intros d' t _. rewrite <- Hcolumn.
      rewrite (Hlogf q) by lia. rewrite (Hsumf q) by lia. reflexivity. }
    rewrite (Haddr q d Hq). rewrite (Hw d q Hd Hq), Hs, Hm. reflexivity.
  - intros a Ha. apply Hwf. intros d q Hd Hq Heq.
    apply (Ha (o * inner_size + ib + q) d); [lia | exact Hd |].
    now rewrite (Haddr q d Hq).
Qed.

(** The generic kernel returns and leaves the log-softmax of every column,
    when no first element of a column is below [-infinity] or unordered
    with it. *)
Lemma _vec_logsoftmax_correct (sizeof_scalar Vec_size : Z) (chunks : list (Z * Z))
  (uninit input output : @buffer T) (outer_size inner_size dim_size : Z) :
  0 < Vec_size -> 0 <= outer_size -> 0 < inner_size -> 0 < dim_size ->
  (forall a, 0 <= a < outer_size * dim_size * inner_size ->
             smax neg_infinity (input a) = input a) ->
  is_partition 0
    (outer_size
     * divup inner_size
         (Z.max (BLOCK_SIZE / dim_size / sizeof_scalar) Vec_size / Vec_size * Vec_size))
    chunks ->
  exists output',
    _vec_logsoftmax sizeof_scalar Vec_size chunks uninit input output
      outer_size inner_size dim_size = Some output'
    /\ cols_done (strided_addr inner_size dim_size) dim_size
         (log_softmax_expected inner_size dim_size input) output output'
         0 (outer_size * inner_size).
Proof.
  intros Hv Houter Hin Hdim Hfinite Hpart. unfold _vec_logsoftmax.
  destruct (Z.eqb_spec dim_size 0) as [Hzero | _]; [lia |].
  cbv zeta.
  set (CHUNK_SIZE :=
         Z.max (BLOCK_SIZE / dim_size / sizeof_scalar) Vec_size / Vec_size * Vec_size)
    in *.
  assert (Hc : 0 < CHUNK_SIZE).
  { unfold CHUNK_SIZE.
    assert (1 <= Z.max (BLOCK_SIZE / dim_size / sizeof_scalar) Vec_size / Vec_size).
    { apply Z.div_le_lower_bound; lia. }
    nia. }
  destruct (divup_bounds inner_size CHUNK_SIZE Hc Hin) as (Hnc & _).
  set (num_chunks := divup inner_size CHUNK_SIZE) in *.
  set (bs := block_start inner_size CHUNK_SIZE num_chunks).
  assert (Hbs0 : bs 0 = 0).
  { unfold bs, block_start. rewrite Z.div_0_l, Z.mod_0_l by lia. lia. }
  assert (Hbsn : bs (outer_size * num_chunks) = outer_size * inner_size).
  { unfold bs, block_start. rewrite Z.div_mul, Z.mod_mul by lia. lia. }
  assert (Hstep : forall i, 0 <= i -> bs i <= bs (i + 1)).
  { intros i Hi.
    destruct (block_start_next inner_size CHUNK_SIZE i Hc Hin Hi) as (_ & Hs & _ & Hn).
    fold num_chunks in Hs, Hn. unfold bs. lia. }
  enough (Hgoal :
            exists output',
              parallel_for chunks 0 (outer_size * num_chunks)
                (GRAIN_SIZE / (16 * dim_size * CHUNK_SIZE))
                (fun begin end_ output =>
                   Some (snd (for_loop begin end_
                                (logsoftmax_block Vec_size dim_size inner_size
                                   CHUNK_SIZE input num_chunks)
                                (uninit, output))))
                output = Some output'
              /\ cols_done (strided_addr inner_size dim_size) dim_size
                   (log_softmax_expected inner_size dim_size input) output output'
                   (bs 0) (bs (outer_size * num_chunks)))
    by (now rewrite Hbs0, Hbsn in Hgoal).
  assert (Hinj := fun c d c' d' => strided_addr_inj inner_size dim_size c d c' d' Hin).
  unfold parallel_for.
  destruct (outer_size * num_chunks <=? 0) eqn:Hz.
  - apply Z.leb_le in Hz. assert (Hzero : outer_size * num_chunks = 0) by nia.
    rewrite Hzero. exists output. split; [reflexivity | apply cols_done_nil].
  - apply (blocks_done_chunks (strided_addr inner_size dim_size) dim_size
             (log_softmax_expected inner_size dim_size input)
             Hinj bs ltac:(lia) Hstep
             _ chunks (outer_size * num_chunks)); [| lia | exact Hpart].
    intros b e m Hb Hlt Hle. eexists. split; [reflexivity |].
    apply (blocks_done_for_loop (strided_addr inner_size dim_size) dim_size
             (log_softmax_expected inner_size dim_size input)
             Hinj bs ltac:(lia) Hstep
             _ b e (uninit, m)); [lia |].
    intros i [local out] Hib. cbn [snd].
    apply logsoftmax_block_done; auto; try lia.
    intros c Hcol. apply Hfinite.
    destruct (block_start_next inner_size CHUNK_SIZE i Hc Hin ltac:(lia))
      as (Hk & Hs & Hfit & Hn).
    fold num_chunks in Hk, Hs, Hfit, Hn, Hcol. rewrite Hn in Hcol.
    unfold block_start in Hcol.
    assert (Ho : 0 <= i / num_chunks < outer_size).
    { split; [apply Z.div_pos; lia | apply Z.div_lt_upper_bound; nia]. }
    set (o := i / num_chunks) in *.
    replace c with (o * inner_size + (c - o * inner_size)) by lia.
    rewrite strided_addr_outer_inner by lia.
    assert (Hrow : inner_size <= dim_size * inner_size) by nia.
    assert (Hrows : (o + 1) * (dim_size * inner_size)
                    <= outer_size * (dim_size * inner_size)) by nia.
    assert (Hnonneg : 0 <= o * (dim_size * inner_size)) by nia.
    lia.
Qed.

(** What the finished generic kernel has written, by outer index, inner
    index and position in the slice. *)
Lemma log_softmax_cols_done_pointwise (inner_size dim_size outer_size : Z)
  (input output output' : @buffer T) :
  0 < inner_size -> 0 < dim_size ->
  cols_done (strided_addr inner_size dim_size) dim_size
    (log_softmax_expected inner_size dim_size input) output output'
    0 (outer_size * inner_size) ->
  forall o k d,
    0 <= o < outer_size -> 0 <= k < inner_size -> 0 <= d < dim_size ->
    let p := o * (dim_size * inner_size) + k in
    output' (p + d * inner_size)
    = log_softmax_value (slice input p inner_size dim_size) (input (p + d * inner_size)).
Proof.
  intros Hin Hdim [Hv _] o k d Ho Hk Hd. cbn zeta.
  specialize (Hv (o * inner_size + k) d ltac:(nia) Hd).
  unfold log_softmax_expected in Hv.
  rewrite !strided_addr_outer_inner in Hv by lia.
  now rewrite Z.mul_0_l, Z.add_0_r in Hv.
Qed.

(** The last-dim kernel and the generic kernel for another dimension are
    as C2 says: on scalars with exact arithmetic ([ScalarLaws], used by
    the last-dim kernel to start its sum from the first element), for
    [0 < dim_size] and every way [parallel_for] may split the work, each
    returns and has written [x_d - m - log(sum_j exp(x_j - m))] for every
    slice and every index [d] in it, [m] being the maximum of the slice.
    The generic kernel starts its maxima from [-infinity] and needs the
    input to be ordered with it. *)
Lemma log_softmax_lastdim_and_generic_kernels `{!ScalarLaws T}
  (uninit input output : @buffer T) (outer_size inner_size dim_size : Z)
  (sizeof_scalar Vec_size : Z) (rows blocks : list (Z * Z)) :
  0 < sizeof_scalar <= 128 -> 0 < Vec_size ->
  0 <= outer_size -> 0 < dim_size -> 0 < inner_size ->
  (forall a, 0 <= a < outer_size * dim_size * inner_size ->
             smax neg_infinity (input a) = input a) ->
  is_partition 0 outer_size rows ->
  is_partition 0
    (outer_size
     * divup inner_size
         (Z.max (BLOCK_SIZE / dim_size / sizeof_scalar) Vec_size / Vec_size * Vec_size))
    blocks ->
  (exists output',
      _vec_log_softmax_lastdim sizeof_scalar Vec_size rows uninit input output
        outer_size dim_size = Some output'
      /\ forall i d,
          0 <= i < outer_size -> 0 <= d < dim_size ->
          let xs := slice input (i * dim_size) 1 dim_size in
          is_max (list_max xs) xs
          /\ output' (i * dim_size + d)
             = log_softmax_value xs (input (i * dim_size + d)))
  /\ (exists output',
        _vec_logsoftmax sizeof_scalar Vec_size blocks uninit input output
          outer_size inner_size dim_size = Some output'
        /\ forall o k d,
            0 <= o < outer_size -> 0 <= k < inner_size -> 0 <= d < dim_size ->
            let p := o * (dim_size * inner_size) + k in
            let xs := slice input p inner_size dim_size in
            is_max (list_max xs) xs
            /\ output' (p + d * inner_size)
               = log_softmax_value xs (input (p + d * inner_size))).
Proof.
  intros Hsz Hv Houter Hdim Hin Hordered Hrows Hblocks. split.
  - assert (Hchunk : 0 < 128 / sizeof_scalar * Vec_size).
    { assert (1 <= 128 / sizeof_scalar) by (apply Z.div_le_lower_bound; lia). nia. }
    destruct (_vec_log_softmax_lastdim_correct sizeof_scalar Vec_size rows uninit
                input output outer_size dim_size Hchunk Houter Hdim Hrows)
      as (output' & Hrun & Hdone & _).
    exists output'. split; [exact Hrun |].
    intros i d Hi Hd. cbn zeta. split.
    + apply list_max_is_max, slice_nonempty, Hdim.
    + apply (Hdone i d Hi Hd).
  - destruct (_vec_logsoftmax_correct sizeof_scalar Vec_size blocks uninit input
                output outer_size inner_size dim_size Hv Houter Hin Hdim Hordered
                Hblocks) as (output' & Hrun & Hdone).
    exists output'. split; [exact Hrun |].
    intros o k d Ho Hk Hd. cbn zeta. split.
    + apply list_max_is_max, slice_nonempty, Hdim.
    + now apply (log_softmax_cols_done_pointwise inner_size dim_size outer_size
                   input output output').
Qed.

(** ** Passes whose rounds read the rows they write

    [for_loop_rows] for rounds that read their own row and the addresses
    outside the rows: what a round writes is given from the initial buffer. *)
Lemma for_loop_rows_own (lo n : Z) (R : Z -> Z -> Prop) (val : Z -> Z -> T)
  (body : Z -> @buffer T -> @buffer T) (m0 : @buffer T) :
  (forall d m q, lo <= d < n ->
                 (forall a, (forall d', lo <= d' < n -> d' <> d -> ~ R d' a) -> m a = m0 a) ->
                 R d q -> body d m q = val d q) ->
  (forall d m q, lo <= d < n -> ~ R d q -> body d m q = m q) ->
  (forall d d' q, R d q -> R d' q -> d = d') ->
  (forall d q, lo <= d < n -> R d q -> for_loop lo n body m0 q = val d q)
  /\ (forall q, (forall d, lo <= d < n -> ~ R d q) -> for_loop lo n body m0 q = m0 q).
Proof.
  intros Hin Hout Hdisj.
  destruct (Z_le_gt_dec lo n) as [Hn | Hn].
  2: { rewrite for_loop_empty by lia. split; [intros; lia | reflexivity]. }
  apply (for_loop_ind
           (fun k m =>
              (forall d q, lo <= d < k -> R d q -> m q = val d q)
              /\ (forall q, (forall d, lo <= d < k -> ~ R d q) -> m q = m0 q))
           body lo n m0 Hn).
  - split; [intros; lia | reflexivity].
  - intros k m Hk [IH1 IH2]. split.
    + intros d q Hd HR. destruct (Z.eq_dec d k) as [-> | Hne].
      * apply (Hin k m q Hk); [| exact HR].
        intros a Ha. apply IH2. intros d' Hd'. apply Ha; lia.
      * rewrite (Hout k m q Hk).
        -- apply IH1; [lia | exact HR].
        -- intros HR'. specialize (Hdisj _ _ _ HR HR'). lia.
    + intros q Hq. rewrite (Hout k m q Hk).
      * apply IH2. intros d Hd. apply Hq. lia.
      * apply Hq. lia.
Qed.

(** A vectorized loop over the elements [[0, size)] and its scalar tail,
    with rounds of any kind: element [q] owns the addresses [a] with
    [W q a], a vector round rewrites the addresses of its [lanes] elements
    to [val] and a scalar round those of its one element, reading the
    addresses of no other element.  Then the addresses of all elements
    hold [val], and nothing else is written. *)
Lemma pass_rounds (lanes size : Z) (W : Z -> Z -> Prop) (val : Z -> T)
  (vstep sstep : Z -> @buffer T -> @buffer T) (m0 : @buffer T) :
  0 < lanes -> 0 <= size ->
  (forall q q' a, W q a -> W q' a -> q = q') ->
  (forall g m q a,
      0 <= g -> g * lanes + lanes <= size ->
      (forall a', (forall q', 0 <= q' < size ->
                              ~ g * lanes <= q' < g * lanes + lanes -> ~ W q' a') ->
                  m a' = m0 a') ->
      g * lanes <= q < g * lanes + lanes -> W q a ->
      vstep (g * lanes) m a = val a) ->
  (forall g m a,
      0 <= g -> g * lanes + lanes <= size ->
      (forall q, g * lanes <= q < g * lanes + lanes -> ~ W q a) ->
      vstep (g * lanes) m a = m a) ->
  (forall d m a,
      size - Z.rem size lanes <= d < size ->
      (forall a', (forall q', 0 <= q' < size -> q' <> d -> ~ W q' a') -> m a' = m0 a') ->
      W d a -> sstep d m a = val a) ->
  (forall d m a,
      size - Z.rem size lanes <= d < size -> ~ W d a -> sstep d m a = m a) ->
  let vec_end := size - Z.rem size lanes in
  let m2 := for_loop vec_end size sstep (for_step 0 vec_end lanes vstep m0) in
  (forall q a, 0 <= q < size -> W q a -> m2 a = val a)
  /\ (forall a, (forall q, 0 <= q < size -> ~ W q a) -> m2 a = m0 a).
Proof.
  intros Hl Hs Hinj Hv Hvf Hsc Hscf vec_end m2.
  destruct (vec_end_full size lanes Hl Hs) as (He & Hn & Hb).
  set (n := size / lanes) in *.
  assert (Hve : vec_end = n * lanes) by exact He.
  unfold m2. clear m2. rewrite Hve. rewrite for_step_exact by assumption.
  rewrite He in Hsc, Hscf.
  set (m1 := for_loop 0 n _ m0).
  destruct (for_loop_rows_own 0 n
              (fun g a => exists q, g * lanes <= q < g * lanes + lanes /\ W q a)
              (fun _ a => val a)
              (fun g => vstep (g * lanes)) m0) as [Hin1 Hout1].
  { intros g m a Hg Hagree (q & Hq & HW).
    apply (Hv g m q a); [lia | nia | | exact Hq | exact HW].
    intros a' Ha'. apply Hagree. intros g' Hg' Hne (q' & Hq' & HW').
    apply (Ha' q'); [nia | | exact HW'].
    intros Hq''. apply Hne. apply (group_unique lanes q'); lia. }
  { intros g m a Hg Ha. apply Hvf; [lia | nia |].
    intros q Hq HW. apply Ha. now exists q. }
  { intros g g' a (q & Hq & HW) (q' & Hq' & HW').
    assert (q = q') by (apply (Hinj q q' a); assumption). subst q'.
    apply (group_unique lanes q); lia. }
  fold m1 in Hin1, Hout1.
  assert (Hgroup : forall q, 0 <= q < n * lanes ->
                             0 <= q / lanes < n
                             /\ q / lanes * lanes <= q < q / lanes * lanes + lanes).
  { intros q Hq. pose proof (Z.div_mod q lanes ltac:(lia)).
    pose proof (Z.mod_pos_bound q lanes Hl).
    split; [| lia].
    split; [apply Z.div_pos; lia | apply Z.div_lt_upper_bound; lia]. }
  assert (Hm1 : forall a, (forall q, 0 <= q < n * lanes -> ~ W q a) -> m1 a = m0 a).
  { intros a Ha. apply Hout1. intros g Hg (q & Hq & HW).
    apply (Ha q); [nia | exact HW]. }
  destruct (for_loop_rows_own (n * lanes) size W (fun _ a => val a) sstep m1)
    as [Hin2 Hout2].
  { intros d m a Hd Hagree HW. apply (Hsc d m a Hd); [| exact HW].
    intros a' Ha'. rewrite Hagree.
    - apply Hm1. intros q Hq. apply Ha'; lia.
    - intros d' Hd' Hne. apply Ha'; lia. }
  { intros d m a Hd HW. now apply Hscf. }
  { exact Hinj. }
  split.
  - intros q a Hq HW. destruct (Z_lt_ge_dec q (n * lanes)) as [Hlt | Hge].
    + rewrite Hout2.
      * destruct (Hgroup q ltac:(lia)) as [Hg Hr].
        apply (Hin1 (q / lanes) a Hg). now exists q.
      * intros d Hd HW'. assert (d = q) by (apply (Hinj d q a); assumption). lia.
    + apply (Hin2 q a); [lia | exact HW].
  - intros a Ha. rewrite Hout2.
    + apply Hm1. intros q Hq. apply Ha. lia.
    + intros d Hd. apply Ha. lia.
Qed.

Lemma store_cases (lanes : Z) (m : @buffer T) (p : Z) (v : @Vec T) (a : Z) :
  (p <= a < p + lanes /\ store lanes m p v a = v (a - p))
  \/ (~ p <= a < p + lanes /\ store lanes m p v a = m a).
Proof.
  destruct (Z_le_gt_dec p a) as [Hle | Hgt].
  - destruct (Z_lt_ge_dec a (p + lanes)) as [Hlt | Hge].
    + left. split; [lia | apply store_in; lia].
    + right. split; [lia | apply store_out; lia].
  - right. split; [lia | apply store_out; lia].
Qed.

Lemma for_step_pair {A B : Type} (f : Z -> A -> A) (g : Z -> B -> B)
  (lo hi step : Z) (a : A) (b : B) :
  for_step lo hi step (fun j '(a, b) => (f j a, g j b)) (a, b)
  = (for_step lo hi step f a, for_step lo hi step g b).
Proof.
  unfold for_step.
  apply (for_loop_pair (fun k => f (lo + k * step)) (fun k => g (lo + k * step))).
Qed.

(** Passes over one region in which element [q] is rewritten from element
    [src q]: when the region starts out constant, each element is the fold
    of the passes at [src q]. *)
Lemma passes_gather_fold (n size : Z) (src : Z -> Z) (F : Z -> Z -> T -> T)
  (step : Z -> @buffer T -> @buffer T) (init : T) (m0 : @buffer T) :
  0 <= n ->
  (forall q, 0 <= q < size -> 0 <= src q < size /\ src (src q) = src q) ->
  (forall q, 0 <= q < size -> m0 q = init) ->
  (forall d m, 0 <= d < n ->
               (forall q, 0 <= q < size -> step d m q = F d (src q) (m (src q)))
               /\ (forall a, ~ 0 <= a < size -> step d m a = m a)) ->
  (forall q, 0 <= q < size ->
             for_loop 0 n step m0 q = for_loop 0 n (fun d acc => F d (src q) acc) init)
  /\ (forall a, ~ 0 <= a < size -> for_loop 0 n step m0 a = m0 a).
Proof.
  intros Hn Hsrc Hinit Hstep.
  apply (for_loop_ind
           (fun k m =>
              (forall q, 0 <= q < size ->
                         m q = for_loop 0 k (fun d acc => F d (src q) acc) init)
              /\ (forall a, ~ 0 <= a < size -> m a = m0 a))
           step 0 n m0 Hn).
  - split; [| reflexivity]. intros q Hq. rewrite for_loop_empty by lia. now apply Hinit.
  - intros k m Hk [IH1 IH2]. destruct (Hstep k m Hk) as [Hin Hout]. split.
    + intros q Hq. destruct (Hsrc q Hq) as [Hr Hidem].
      rewrite for_loop_snoc by lia. rewrite Hin by exact Hq.
      f_equal. rewrite (IH1 (src q) Hr). now rewrite Hidem.
    + intros a Ha. rewrite Hout by exact Ha. now apply IH2.
Qed.

(** ** The phases of a chunk of _vec_logsoftmax<BFloat16> *)

(** The lane whose maximum ends up at lane [q] of a chunk of [size]
    columns: in a full [bVec] the upper [fVec] receives what is stored
    for the lower one. *)
Definition max_lane (fVec_size size q : Z) : Z :=
  if (q <? size - Z.rem size (2 * fVec_size)) && (fVec_size <=? q mod (2 * fVec_size))
  then q - fVec_size
  else q.

Lemma lane_of_group (lanes g q : Z) :
  0 < lanes -> g * lanes <= q < g * lanes + lanes -> q mod lanes = q - g * lanes.
Proof.
  intros Hl Hq. symmetry. apply (Z.mod_unique q lanes g (q - g * lanes)); lia.
Qed.

Lemma max_lane_range (fVec_size size q : Z) :
  0 < fVec_size -> 0 <= q < size ->
  0 <= max_lane fVec_size size q < size
  /\ max_lane fVec_size size (max_lane fVec_size size q) = max_lane fVec_size size q.
Proof.
  intros Hf Hq. unfold max_lane.
  set (vec_end := size - Z.rem size (2 * fVec_size)).
  pose proof (Z.div_mod q (2 * fVec_size) ltac:(lia)) as Hdm.
  pose proof (Z.mod_pos_bound q (2 * fVec_size) ltac:(lia)) as Hmod.
  assert (Hdiv : 0 <= q / (2 * fVec_size)) by (apply Z.div_pos; lia).
  destruct (Z.ltb_spec q vec_end) as [Hlt | Hge]; cbn [andb].
  - destruct (Z.leb_spec fVec_size (q mod (2 * fVec_size))) as [Hup | Hlow].
    + assert (Hlow : fVec_size <= q) by nia.
      assert (Hlane : (q - fVec_size) mod (2 * fVec_size)
                      = q mod (2 * fVec_size) - fVec_size).
      { symmetry.
        apply (Z.mod_unique (q - fVec_size) (2 * fVec_size) (q / (2 * fVec_size))); lia. }
      split; [lia |].
      destruct (Z.ltb_spec (q - fVec_size) vec_end); [| lia]. cbn [andb].
      rewrite Hlane. destruct (Z.leb_spec fVec_size (q mod (2 * fVec_size) - fVec_size));
        [lia | reflexivity].
    + split; [lia |].
      destruct (Z.ltb_spec q vec_end); [| lia]. cbn [andb].
      destruct (Z.leb_spec fVec_size (q mod (2 * fVec_size))); [lia | reflexivity].
  - split; [lia |]. destruct (Z.ltb_spec q vec_end); [lia | reflexivity].
Qed.

Ltac store_case :=
  match goal with
  | |- context [store ?l ?m ?p ?v ?a] =>
      destruct (store_cases l m p v a) as [[? ->] | [? ->]]
  end.

Section BFloat16Phases.
Variable fVec_size : Z.
Variables dim_size inner_size CHUNK_SIZE : Z.
Variable input : @buffer T.
Hypothesis fVec_size_pos : 0 < fVec_size.

(** After [// init] the chunk's maxima are [-infinity] and its sums zero. *)
Lemma logsoftmax_bf16_init_spec (size : Z) (local : @buffer T) :
  0 <= size <= CHUNK_SIZE ->
  forall q, 0 <= q < size ->
    logsoftmax_bf16_init fVec_size CHUNK_SIZE size local q = neg_infinity
    /\ logsoftmax_bf16_init fVec_size CHUNK_SIZE size local (CHUNK_SIZE + q) = zero.
Proof.
  intros Hsize. unfold logsoftmax_bf16_init. cbv zeta.
  destruct (pass_rounds (2 * fVec_size) size
              (fun q a => 0 <= q < size /\ (a = q \/ a = CHUNK_SIZE + q))
              (fun a => if a <? CHUNK_SIZE then neg_infinity else zero)
              (fun d0 local =>
                 store fVec_size
                   (store fVec_size
                      (store fVec_size
                         (store fVec_size local (0 + d0) (vbroadcast neg_infinity))
                         (0 + d0 + fVec_size) (vbroadcast neg_infinity))
                      (CHUNK_SIZE + d0) (vbroadcast zero))
                   (CHUNK_SIZE + d0 + fVec_size) (vbroadcast zero))
              (fun d0 local =>
                 upd (upd local (0 + d0) neg_infinity) (CHUNK_SIZE + d0) zero)
              local ltac:(lia) ltac:(lia)) as [Hin _].
  - intros q q' a [Hq Ha] [Hq' Ha']. lia.
  - intros g m q a Hg Hfull _ Hq [Hr Ha]. unfold vbroadcast.
    repeat store_case; destruct (Z.ltb_spec a CHUNK_SIZE); try reflexivity; lia.
  - intros g m a Hg Hfull Ha.
    pose proof (Ha a) as Ha1. pose proof (Ha (a - CHUNK_SIZE)) as Ha2.
    assert (0 <= g * (2 * fVec_size)) by nia.
    repeat store_case; try reflexivity; exfalso; lia.
  - intros d m a Hd _ [Hr [-> | ->]].
    + rewrite upd_other by lia. rewrite upd_same.
      destruct (Z.ltb_spec d CHUNK_SIZE); [reflexivity | lia].
    + rewrite upd_same.
      destruct (Z.ltb_spec (CHUNK_SIZE + d) CHUNK_SIZE); [lia | reflexivity].
  - intros d m a Hd Ha.
    destruct (vec_end_full size (2 * fVec_size) ltac:(lia) ltac:(lia)) as (He & Hn & _).
    assert (0 <= d) by nia.
    rewrite !upd_other; [reflexivity | |]; intros ->; apply Ha; (split; lia).
  - intros q Hq. split.
    + rewrite (Hin q q Hq) by (split; [exact Hq | now left]).
      destruct (Z.ltb_spec q CHUNK_SIZE); [reflexivity | lia].
    + rewrite (Hin q (CHUNK_SIZE + q) Hq) by (split; [exact Hq | now right]).
      destruct (Z.ltb_spec (CHUNK_SIZE + q) CHUNK_SIZE); [lia | reflexivity].
Qed.

Let input_ptr (outer_idx inner_idx_begin dim_idx : Z) : Z :=
  outer_idx * dim_size * inner_size + dim_idx * inner_size + inner_idx_begin.

(** The rounds of [// compute max], for the maxima and for the cached
    input: neither reads what the other writes. *)
Definition bf16_max_vstep (ptr d1 : Z) (local : @buffer T) : @buffer T :=
  let data_fvec0 := fst (convert_bfloat16_float fVec_size (loadu input (ptr + d1))) in
  let max_fvec0 := loadu local (0 + d1) in
  let max_fvec0 := blendv max_fvec0 data_fvec0 (vgt data_fvec0 max_fvec0) in
  let local := store fVec_size local (0 + d1) max_fvec0 in
  store fVec_size local (0 + d1 + fVec_size) max_fvec0.

Definition bf16_max_sstep (ptr d1 : Z) (local : @buffer T) : @buffer T :=
  let data_val := input (ptr + d1) in
  let max_val := local (0 + d1) in
  upd local (0 + d1) (if lt max_val data_val then data_val else max_val).

Definition bf16_cache_vstep (ptr buffer_ptr d1 : Z) (input_buffer : @buffer T)
  : @buffer T :=
  let data := convert_bfloat16_float fVec_size (loadu input (ptr + d1)) in
  let input_buffer := store fVec_size input_buffer (buffer_ptr + d1) (fst data) in
  store fVec_size input_buffer (buffer_ptr + d1 + fVec_size) (snd data).

Definition bf16_cache_sstep (ptr buffer_ptr d1 : Z) (input_buffer : @buffer T)
  : @buffer T :=
  upd input_buffer (buffer_ptr + d1) (input (ptr + d1)).

Lemma pair_pass {A B : Type} (f1 f2 : Z -> A -> A) (g1 g2 : Z -> B -> B)
  (lo hi step lo' hi' : Z) (a : A) (b : B) :
  (let '(a', b') := for_step lo hi step (fun j '(a, b) => (f1 j a, g1 j b)) (a, b) in
   for_loop lo' hi' (fun j '(a, b) => (f2 j a, g2 j b)) (a', b'))
  = (for_loop lo' hi' f2 (for_step lo hi step f1 a),
     for_loop lo' hi' g2 (for_step lo hi step g1 b)).
Proof. rewrite for_step_pair. apply for_loop_pair. Qed.

Lemma logsoftmax_bf16_compute_max_split (outer_idx inner_idx_begin size : Z)
  (local input_buffer : @buffer T) :
  let vec_end := size - Z.rem size (2 * fVec_size) in
  logsoftmax_bf16_compute_max fVec_size dim_size inner_size CHUNK_SIZE input
    outer_idx inner_idx_begin size local input_buffer
  = (for_loop 0 dim_size
       (fun dim_idx local =>
          for_loop vec_end size
            (bf16_max_sstep (input_ptr outer_idx inner_idx_begin dim_idx))
            (for_step 0 vec_end (2 * fVec_size)
               (bf16_max_vstep (input_ptr outer_idx inner_idx_begin dim_idx)) local))
       local,
     for_loop 0 dim_size
       (fun dim_idx input_buffer =>
          for_loop vec_end size
            (bf16_cache_sstep (input_ptr outer_idx inner_idx_begin dim_idx)
               (dim_idx * CHUNK_SIZE))
            (for_step 0 vec_end (2 * fVec_size)
               (bf16_cache_vstep (input_ptr outer_idx inner_idx_begin dim_idx)
                  (dim_idx * CHUNK_SIZE))
               input_buffer))
       input_buffer).
Proof.
  cbv zeta. unfold logsoftmax_bf16_compute_max. cbv zeta.
  rewrite <- for_loop_pair. apply for_loop_ext. intros j [a b] _.
  apply (pair_pass
           (bf16_max_vstep (input_ptr outer_idx inner_idx_begin j))
           (bf16_max_sstep (input_ptr outer_idx inner_idx_begin j))
           (bf16_cache_vstep (input_ptr outer_idx inner_idx_begin j) (j * CHUNK_SIZE))
           (bf16_cache_sstep (input_ptr outer_idx inner_idx_begin j) (j * CHUNK_SIZE))).
Qed.

(** One pass of [// compute max] over the maxima: lane [q] gets the
    maximum of what lane [max_lane q] held and the element of that lane. *)
Lemma bf16_max_pass_spec (ptr size : Z) (local : @buffer T) :
  0 <= size ->
  let vec_end := size - Z.rem size (2 * fVec_size) in
  let local' :=
    for_loop vec_end size (bf16_max_sstep ptr)
      (for_step 0 vec_end (2 * fVec_size) (bf16_max_vstep ptr) local) in
  (forall q, 0 <= q < size ->
             local' q = smax (local (max_lane fVec_size size q))
                          (input (ptr + max_lane fVec_size size q)))
  /\ (forall a, ~ 0 <= a < size -> local' a = local a).
Proof.
  intros Hsize vec_end local'.
  destruct (vec_end_full size (2 * fVec_size) ltac:(lia) Hsize) as (He & Hn & Hb).
  destruct (pass_rounds (2 * fVec_size) size (fun q a => a = q)
              (fun a => smax (local (max_lane fVec_size size a))
                          (input (ptr + max_lane fVec_size size a)))
              (bf16_max_vstep ptr) (bf16_max_sstep ptr) local
              ltac:(lia) Hsize) as [Hin Hout].
  - intros q q' a -> ->. reflexivity.
  - intros g m q a Hg Hfull Hagree Hq ->.
    assert (Hg0 : 0 <= g * (2 * fVec_size)) by nia.
    assert (Hlane := lane_of_group (2 * fVec_size) g q ltac:(lia) Hq).
    assert (Hown : forall a', g * (2 * fVec_size) <= a' < g * (2 * fVec_size) + 2 * fVec_size ->
                              m a' = local a').
    { intros a' Ha'. apply Hagree. intros q' Hq' Hout' ->. lia. }
    unfold bf16_max_vstep, convert_bfloat16_float, max_lane. cbv zeta. cbn [fst].
    rewrite He.
    assert (Hve : q < size / (2 * fVec_size) * (2 * fVec_size)).
    { assert (g + 1 <= size / (2 * fVec_size)) by (apply Z.div_le_lower_bound; lia).
      nia. }
    destruct (Z.ltb_spec q (size / (2 * fVec_size) * (2 * fVec_size))); [| lia].
    cbn [andb]. rewrite Hlane.
    repeat store_case; unfold blendv, vgt, loadu, smax.
    + destruct (Z.leb_spec fVec_size (q - g * (2 * fVec_size))); [| lia].
      rewrite (Hown (0 + g * (2 * fVec_size) + (q - (0 + g * (2 * fVec_size) + fVec_size))))
        by lia.
      replace (0 + g * (2 * fVec_size) + (q - (0 + g * (2 * fVec_size) + fVec_size)))
        with (q - fVec_size) by lia.
      replace (ptr + g * (2 * fVec_size) + (q - (0 + g * (2 * fVec_size) + fVec_size)))
        with (ptr + (q - fVec_size)) by lia.
      reflexivity.
    + destruct (Z.leb_spec fVec_size (q - g * (2 * fVec_size))); [lia |].
      rewrite (Hown (0 + g * (2 * fVec_size) + (q - (0 + g * (2 * fVec_size))))) by lia.
      replace (0 + g * (2 * fVec_size) + (q - (0 + g * (2 * fVec_size)))) with q by lia.
      replace (ptr + g * (2 * fVec_size) + (q - (0 + g * (2 * fVec_size))))
        with (ptr + q) by lia.
      reflexivity.
    + exfalso. lia.
  - intros g m a Hg Hfull Ha. pose proof (Ha a) as Ha1.
    assert (Hg0 : 0 <= g * (2 * fVec_size)) by nia.
    unfold bf16_max_vstep. cbv zeta.
    repeat store_case; try reflexivity; exfalso; lia.
  - intros d m a Hd Hagree ->. unfold bf16_max_sstep, max_lane. cbv zeta.
    rewrite upd_same.
    destruct (Z.ltb_spec d (size - Z.rem size (2 * fVec_size))); [lia |].
    cbn [andb]. rewrite (Hagree (0 + d)) by (intros q' Hq' Hne Heq; lia).
    reflexivity.
  - intros d m a Hd Ha. unfold bf16_max_sstep. cbv zeta.
    apply upd_other. intros ->. apply Ha. lia.
  - split.
    + intros q Hq. apply (Hin q q Hq eq_refl).
    + intros a Ha. apply Hout. intros q Hq ->. lia.
Qed.

(** After [// compute max], started from maxima at [-infinity]: lane [q]
    holds the maximum of column [max_lane q] of the chunk. *)
Lemma logsoftmax_bf16_max_spec (outer_idx inner_idx_begin size : Z) (local : @buffer T) :
  0 <= size -> 0 <= dim_size ->
  (forall q, 0 <= q < size -> local q = neg_infinity) ->
  let vec_end := size - Z.rem size (2 * fVec_size) in
  let local' :=
    for_loop 0 dim_size
      (fun dim_idx local =>
         for_loop vec_end size
           (bf16_max_sstep (input_ptr outer_idx inner_idx_begin dim_idx))
           (for_step 0 vec_end (2 * fVec_size)
              (bf16_max_vstep (input_ptr outer_idx inner_idx_begin dim_idx)) local))
      local in
  (forall q, 0 <= q < size ->
             local' q
             = for_loop 0 dim_size
                 (fun d acc =>
                    smax acc
                      (input (input_ptr outer_idx inner_idx_begin d
                              + max_lane fVec_size size q)))
                 neg_infinity)
  /\ (forall a, ~ 0 <= a < size -> local' a = local a).
Proof.
  intros Hsize Hdim Hinit vec_end local'.
  apply (passes_gather_fold dim_size size (max_lane fVec_size size)
           (fun d j x => smax x (input (input_ptr outer_idx inner_idx_begin d + j)))
           _ neg_infinity local Hdim).
  - intros q Hq. now apply max_lane_range.
  - exact Hinit.
  - intros d m Hd.
    apply (bf16_max_pass_spec (input_ptr outer_idx inner_idx_begin d) size m Hsize).
Qed.

(** After [// compute max] the cache holds the chunk's part of every row
    of the slice. *)
Lemma logsoftmax_bf16_cache_spec (outer_idx inner_idx_begin size : Z)
  (input_buffer : @buffer T) :
  0 <= size <= CHUNK_SIZE ->
  let vec_end := size - Z.rem size (2 * fVec_size) in
  let input_buffer' :=
    for_loop 0 dim_size
      (fun dim_idx input_buffer =>
         for_loop vec_end size
           (bf16_cache_sstep (input_ptr outer_idx inner_idx_begin dim_idx)
              (dim_idx * CHUNK_SIZE))
           (for_step 0 vec_end (2 * fVec_size)
              (bf16_cache_vstep (input_ptr outer_idx inner_idx_begin dim_idx)
                 (dim_idx * CHUNK_SIZE))
              input_buffer))
      input_buffer in
  forall d q, 0 <= d < dim_size -> 0 <= q < size ->
              input_buffer' (d * CHUNK_SIZE + q)
              = input (input_ptr outer_idx inner_idx_begin d + q).
Proof.
  intros Hsize vec_end input_buffer'.
  destruct (for_loop_rows_own 0 dim_size
              (fun d a => d * CHUNK_SIZE <= a < d * CHUNK_SIZE + size)
              (fun d a => input (input_ptr outer_idx inner_idx_begin d
                                 + (a - d * CHUNK_SIZE)))
              (fun dim_idx input_buffer =>
                 for_loop vec_end size
                   (bf16_cache_sstep (input_ptr outer_idx inner_idx_begin dim_idx)
                      (dim_idx * CHUNK_SIZE))
                   (for_step 0 vec_end (2 * fVec_size)
                      (bf16_cache_vstep (input_ptr outer_idx inner_idx_begin dim_idx)
                         (dim_idx * CHUNK_SIZE))
                      input_buffer))
              input_buffer) as [Hin _].
  - intros d m a Hd _ Ha.
    set (ptr := input_ptr outer_idx inner_idx_begin d).
    destruct (pass_rounds (2 * fVec_size) size (fun q a => a = d * CHUNK_SIZE + q)
                (fun a => input (ptr + (a - d * CHUNK_SIZE)))
                (bf16_cache_vstep ptr (d * CHUNK_SIZE))
                (bf16_cache_sstep ptr (d * CHUNK_SIZE)) m
                ltac:(lia) ltac:(lia)) as [Hw _].
    + intros q q' a' -> Heq. lia.
    + intros g m' q a' Hg Hfull _ Hq ->.
      unfold bf16_cache_vstep, convert_bfloat16_float, loadu. cbv zeta. cbn [fst snd].
      repeat store_case; f_equal; lia.
    + intros g m' a' Hg Hfull Ha'. pose proof (Ha' (a' - d * CHUNK_SIZE)) as Ha1.
      unfold bf16_cache_vstep. cbv zeta.
      repeat store_case; try reflexivity; exfalso; lia.
    + intros d' m' a' Hd' _ ->. unfold bf16_cache_sstep.
      rewrite upd_same. f_equal. lia.
    + intros d' m' a' Hd' Ha'. unfold bf16_cache_sstep. now apply upd_other.
    + apply (Hw (a - d * CHUNK_SIZE) a); lia.
  - intros d m a Hd Ha.
    set (ptr := input_ptr outer_idx inner_idx_begin d).
    destruct (pass_rounds (2 * fVec_size) size (fun q a => a = d * CHUNK_SIZE + q)
                (fun a => input (ptr + (a - d * CHUNK_SIZE)))
                (bf16_cache_vstep ptr (d * CHUNK_SIZE))
                (bf16_cache_sstep ptr (d * CHUNK_SIZE)) m
                ltac:(lia) ltac:(lia)) as [_ Hf].
    + intros q q' a' -> Heq. lia.
    + intros g m' q a' Hg Hfull _ Hq ->.
      unfold bf16_cache_vstep, convert_bfloat16_float, loadu. cbv zeta. cbn [fst snd].
      repeat store_case; f_equal; lia.
    + intros g m' a' Hg Hfull Ha'. pose proof (Ha' (a' - d * CHUNK_SIZE)) as Ha1.
      unfold bf16_cache_vstep. cbv zeta.
      repeat store_case; try reflexivity; exfalso; lia.
    + intros d' m' a' Hd' _ ->. unfold bf16_cache_sstep.
      rewrite upd_same. f_equal. lia.
    + intros d' m' a' Hd' Ha'. unfold bf16_cache_sstep. now apply upd_other.
    + apply Hf. intros q Hq ->. apply Ha. lia.
  - intros d d' a Hd Hd'. apply (group_unique CHUNK_SIZE a); lia.
  - intros d q Hd Hq. unfold input_buffer'.
    rewrite (Hin d (d * CHUNK_SIZE + q) Hd) by lia. f_equal. lia.
Qed.

(** The rounds of [// compute sum of (x - max).exp()] and of
    [// compute x - max - sum]. *)
Definition bf16_sum_vstep (input_buffer : @buffer T) (buffer_ptr d2 : Z)
  (local : @buffer T) : @buffer T :=
  let data_fvec0 := loadu input_buffer (buffer_ptr + d2) in
  let data_fvec1 := loadu input_buffer (buffer_ptr + d2 + fVec_size) in
  let sum_fvec0 := loadu local (CHUNK_SIZE + d2) in
  let sum_fvec1 := loadu local (CHUNK_SIZE + d2 + fVec_size) in
  let max_fvec0 := loadu local (0 + d2) in
  let max_fvec1 := loadu local (0 + d2 + fVec_size) in
  let sum_fvec0 := vlift2 add sum_fvec0 (vlift1 sexp (vlift2 sub data_fvec0 max_fvec0)) in
  let sum_fvec1 := vlift2 add sum_fvec1 (vlift1 sexp (vlift2 sub data_fvec1 max_fvec1)) in
  let local := store fVec_size local (CHUNK_SIZE + d2) sum_fvec0 in
  store fVec_size local (CHUNK_SIZE + d2 + fVec_size) sum_fvec1.

Definition bf16_sum_sstep (input_buffer : @buffer T) (buffer_ptr d2 : Z)
  (local : @buffer T) : @buffer T :=
  let data_val := input_buffer (buffer_ptr + d2) in
  let max_val := local (0 + d2) in
  upd local (CHUNK_SIZE + d2) (add (local (CHUNK_SIZE + d2)) (sexp (sub data_val max_val))).

Definition bf16_write_vstep (input_buffer local : @buffer T) (buffer_ptr output_ptr d3 : Z)
  (output : @buffer T) : @buffer T :=
  let data_fvec0 := loadu input_buffer (buffer_ptr + d3) in
  let data_fvec1 := loadu input_buffer (buffer_ptr + d3 + fVec_size) in
  let max_fvec0 := loadu local (0 + d3) in
  let max_fvec1 := loadu local (0 + d3 + fVec_size) in
  let sum_fvec0 := loadu local (CHUNK_SIZE + d3) in
  let sum_fvec1 := loadu local (CHUNK_SIZE + d3 + fVec_size) in
  let out_fvec0 := vlift2 sub (vlift2 sub data_fvec0 max_fvec0) sum_fvec0 in
  let out_fvec1 := vlift2 sub (vlift2 sub data_fvec1 max_fvec1) sum_fvec1 in
  store (2 * fVec_size) output (output_ptr + d3)
    (convert_float_bfloat16 fVec_size out_fvec0 out_fvec1).

Definition bf16_write_sstep (input_buffer local : @buffer T) (buffer_ptr output_ptr d3 : Z)
  (output : @buffer T) : @buffer T :=
  upd output (output_ptr + d3)
    (sub (sub (input_buffer (buffer_ptr + d3)) (local (0 + d3)))
       (local (CHUNK_SIZE + d3))).

Lemma logsoftmax_bf16_compute_sum_rounds (size : Z) (input_buffer local : @buffer T) :
  let vec_end := size - Z.rem size (2 * fVec_size) in
  logsoftmax_bf16_compute_sum fVec_size dim_size CHUNK_SIZE size input_buffer local
  = for_loop 0 dim_size
      (fun dim_idx local =>
         for_loop vec_end size (bf16_sum_sstep input_buffer (dim_idx * CHUNK_SIZE))
           (for_step 0 vec_end (2 * fVec_size)
              (bf16_sum_vstep input_buffer (dim_idx * CHUNK_SIZE)) local))
      local.
Proof. reflexivity. Qed.

Lemma logsoftmax_bf16_write_rounds (outer_idx inner_idx_begin size : Z)
  (input_buffer local output : @buffer T) :
  let vec_end := size - Z.rem size (2 * fVec_size) in
  logsoftmax_bf16_write fVec_size dim_size inner_size CHUNK_SIZE
    outer_idx inner_idx_begin size input_buffer local output
  = for_loop 0 dim_size
      (fun dim_idx output =>
         for_loop vec_end size
           (bf16_write_sstep input_buffer local (dim_idx * CHUNK_SIZE)
              (input_ptr outer_idx inner_idx_begin dim_idx))
           (for_step 0 vec_end (2 * fVec_size)
              (bf16_write_vstep input_buffer local (dim_idx * CHUNK_SIZE)
                 (input_ptr outer_idx inner_idx_begin dim_idx))
              output))
      output.
Proof. reflexivity. Qed.

(** One pass of the sums: each is increased by [exp] of its cached element
    less its maximum. *)
Lemma bf16_sum_pass_spec (buffer_ptr size : Z) (input_buffer local0 local : @buffer T) :
  0 <= size <= CHUNK_SIZE ->
  (forall a, ~ CHUNK_SIZE <= a < CHUNK_SIZE + size -> local a = local0 a) ->
  let vec_end := size - Z.rem size (2 * fVec_size) in
  let local' :=
    for_loop vec_end size (bf16_sum_sstep input_buffer buffer_ptr)
      (for_step 0 vec_end (2 * fVec_size) (bf16_sum_vstep input_buffer buffer_ptr)
         local) in
  (forall q, 0 <= q < size ->
             local' (CHUNK_SIZE + q)
             = add (local (CHUNK_SIZE + q))
                 (sexp (sub (input_buffer (buffer_ptr + q)) (local0 q))))
  /\ (forall a, ~ CHUNK_SIZE <= a < CHUNK_SIZE + size -> local' a = local a).
Proof.
  intros Hsize Hagree0 vec_end local'.
  destruct (pass_rounds (2 * fVec_size) size (fun q a => a = CHUNK_SIZE + q)
              (fun a => add (local a)
                          (sexp (sub (input_buffer (buffer_ptr + (a - CHUNK_SIZE)))
                                   (local0 (a - CHUNK_SIZE)))))
              (bf16_sum_vstep input_buffer buffer_ptr)
              (bf16_sum_sstep input_buffer buffer_ptr) local
              ltac:(lia) ltac:(lia)) as [Hin Hout].
  - intros q q' a -> Heq. lia.
  - intros g m q a Hg Hfull Hagree Hq ->.
    assert (Hg0 : 0 <= g * (2 * fVec_size)) by nia.
    assert (Hown : forall a', CHUNK_SIZE + g * (2 * fVec_size) <= a'
                              < CHUNK_SIZE + g * (2 * fVec_size) + 2 * fVec_size ->
                              m a' = local a').
    { intros a' Ha'. apply Hagree. intros q' Hq' Hout' Heq. lia. }
    assert (Hmax : forall a', 0 <= a' < size -> m a' = local0 a').
    { intros a' Ha'. rewrite Hagree by (intros q' Hq' Hout' Heq; lia).
      apply Hagree0. lia. }
    unfold bf16_sum_vstep, vlift2, vlift1, loadu. cbv zeta.
    repeat store_case.
    + rewrite Hown, Hmax by lia. f_equal; [f_equal; lia |].
      f_equal. f_equal; f_equal; lia.
    + rewrite Hown, Hmax by lia. f_equal; [f_equal; lia |].
      f_equal. f_equal; f_equal; lia.
    + exfalso. lia.
  - intros g m a Hg Hfull Ha. pose proof (Ha (a - CHUNK_SIZE)) as Ha1.
    unfold bf16_sum_vstep. cbv zeta.
    repeat store_case; try reflexivity; exfalso; lia.
  - intros d m a Hd Hagree ->. unfold bf16_sum_sstep. cbv zeta.
    destruct (vec_end_full size (2 * fVec_size) ltac:(lia) ltac:(lia)) as (He & Hn & _).
    assert (0 <= d) by nia.
    rewrite upd_same.
    rewrite (Hagree (CHUNK_SIZE + d)) by (intros q' Hq' Hne Heq; lia).
    rewrite (Hagree (0 + d)) by (intros q' Hq' Hne Heq; lia).
    rewrite (Hagree0 (0 + d)) by lia.
    f_equal. f_equal. f_equal; f_equal; lia.
  - intros d m a Hd Ha. unfold bf16_sum_sstep. cbv zeta.
    apply upd_other. intros ->. now apply Ha.
  - split.
    + intros q Hq. unfold local', vec_end. rewrite (Hin q (CHUNK_SIZE + q) Hq eq_refl).
      f_equal. f_equal. f_equal; f_equal; lia.
    + intros a Ha. apply Hout. intros q Hq ->. lia.
Qed.

(** After [// compute sum of (x - max).exp()]. *)
Lemma logsoftmax_bf16_compute_sum_spec (size : Z) (input_buffer local : @buffer T) :
  0 <= size <= CHUNK_SIZE -> 0 <= dim_size ->
  (forall q, 0 <= q < size ->
             logsoftmax_bf16_compute_sum fVec_size dim_size CHUNK_SIZE size
               input_buffer local (CHUNK_SIZE + q)
             = for_loop 0 dim_size
                 (fun d acc =>
                    add acc (sexp (sub (input_buffer (d * CHUNK_SIZE + q)) (local q))))
                 (local (CHUNK_SIZE + q)))
  /\ (forall a, ~ CHUNK_SIZE <= a < CHUNK_SIZE + size ->
                logsoftmax_bf16_compute_sum fVec_size dim_size CHUNK_SIZE size
                  input_buffer local a = local a).
Proof.
  intros Hsize Hdim. rewrite logsoftmax_bf16_compute_sum_rounds. cbv zeta.
  apply (passes_fold dim_size size CHUNK_SIZE
           (fun d q x => add x (sexp (sub (input_buffer (d * CHUNK_SIZE + q)) (local q))))
           _ local Hdim).
  intros d m Hd Hagree.
  apply (bf16_sum_pass_spec (d * CHUNK_SIZE) size input_buffer local m Hsize Hagree).
Qed.

(** One row of [// compute x - max - sum]. *)
Lemma bf16_write_pass_spec (buffer_ptr output_ptr size : Z)
  (input_buffer local output : @buffer T) :
  0 <= size ->
  let vec_end := size - Z.rem size (2 * fVec_size) in
  let output' :=
    for_loop vec_end size (bf16_write_sstep input_buffer local buffer_ptr output_ptr)
      (for_step 0 vec_end (2 * fVec_size)
         (bf16_write_vstep input_buffer local buffer_ptr output_ptr) output) in
  (forall q, 0 <= q < size ->
             output' (output_ptr + q)
             = sub (sub (input_buffer (buffer_ptr + q)) (local q))
                 (local (CHUNK_SIZE + q)))
  /\ (forall a, ~ output_ptr <= a < output_ptr + size -> output' a = output a).
Proof.
  intros Hsize vec_end output'.
  destruct (pass_rounds (2 * fVec_size) size (fun q a => a = output_ptr + q)
              (fun a => sub (sub (input_buffer (buffer_ptr + (a - output_ptr)))
                               (local (a - output_ptr)))
                          (local (CHUNK_SIZE + (a - output_ptr))))
              (bf16_write_vstep input_buffer local buffer_ptr output_ptr)
              (bf16_write_sstep input_buffer local buffer_ptr output_ptr) output
              ltac:(lia) ltac:(lia)) as [Hin Hout].
  - intros q q' a -> Heq. lia.
  - intros g m q a Hg Hfull _ Hq ->.
    unfold bf16_write_vstep, convert_float_bfloat16, vlift2, loadu. cbv zeta.
    store_case; [| exfalso; lia].
    destruct (Z.ltb_spec (output_ptr + q - (output_ptr + g * (2 * fVec_size))) fVec_size).
    + f_equal; [f_equal |]; f_equal; lia.
    + f_equal; [f_equal |]; f_equal; lia.
  - intros g m a Hg Hfull Ha. pose proof (Ha (a - output_ptr)) as Ha1.
    unfold bf16_write_vstep. cbv zeta.
    store_case; [exfalso; lia | reflexivity].
  - intros d m a Hd _ ->. unfold bf16_write_sstep.
    rewrite upd_same. f_equal; [f_equal |]; f_equal; lia.
  - intros d m a Hd Ha. unfold bf16_write_sstep. now apply upd_other.
  - split.
    + intros q Hq. unfold output', vec_end.
      rewrite (Hin q (output_ptr + q) Hq eq_refl).
      f_equal; [f_equal |]; f_equal; lia.
    + intros a Ha. apply Hout. intros q Hq ->. lia.
Qed.

(** [// compute x - max - sum] writes the chunk's part of every row of the
    slice and nothing else. *)
Lemma logsoftmax_bf16_write_spec (outer_idx inner_idx_begin size : Z)
  (input_buffer local output : @buffer T) :
  0 <= size <= inner_size ->
  (forall d q, 0 <= d < dim_size -> 0 <= q < size ->
               logsoftmax_bf16_write fVec_size dim_size inner_size CHUNK_SIZE
                 outer_idx inner_idx_begin size input_buffer local output
                 (input_ptr outer_idx inner_idx_begin d + q)
               = sub (sub (input_buffer (d * CHUNK_SIZE + q)) (local q))
                   (local (CHUNK_SIZE + q)))
  /\ (forall a, (forall d q, 0 <= d < dim_size -> 0 <= q < size ->
                             a <> input_ptr outer_idx inner_idx_begin d + q) ->
                logsoftmax_bf16_write fVec_size dim_size inner_size CHUNK_SIZE
                  outer_idx inner_idx_begin size input_buffer local output a
                = output a).
Proof.
  intros Hsize. rewrite logsoftmax_bf16_write_rounds. cbv zeta.
  set (ptr := input_ptr outer_idx inner_idx_begin).
  destruct (for_loop_rows_own 0 dim_size
              (fun d a => ptr d <= a < ptr d + size)
              (fun d a => sub (sub (input_buffer (d * CHUNK_SIZE + (a - ptr d)))
                                 (local (a - ptr d)))
                            (local (CHUNK_SIZE + (a - ptr d))))
              (fun dim_idx output =>
                 for_loop (size - Z.rem size (2 * fVec_size)) size
                   (bf16_write_sstep input_buffer local (dim_idx * CHUNK_SIZE)
                      (ptr dim_idx))
                   (for_step 0 (size - Z.rem size (2 * fVec_size)) (2 * fVec_size)
                      (bf16_write_vstep input_buffer local (dim_idx * CHUNK_SIZE)
                         (ptr dim_idx))
                      output))
              output) as [Hin Hout].
  - intros d m a Hd _ Ha.
    destruct (bf16_write_pass_spec (d * CHUNK_SIZE) (ptr d) size input_buffer local m
                ltac:(lia)) as [Hw _].
    specialize (Hw (a - ptr d) ltac:(lia)).
    replace (ptr d + (a - ptr d)) with a in Hw by lia. exact Hw.
  - intros d m a Hd Ha.
    destruct (bf16_write_pass_spec (d * CHUNK_SIZE) (ptr d) size input_buffer local m
                ltac:(lia)) as [_ Hf].
    apply (Hf a Ha).
  - intros d d' a Hd Hd'. unfold ptr, input_ptr in Hd, Hd'.
    apply (group_unique inner_size
             (a - outer_idx * dim_size * inner_size - inner_idx_begin)); lia.
  - split.
    + intros d q Hd Hq. rewrite (Hin d (ptr d + q) Hd) by lia.
      replace (ptr d + q - ptr d) with q by lia. reflexivity.
    + intros a Ha. apply Hout. intros d Hd Hr.
      apply (Ha d (a - ptr d) Hd); lia.
Qed.

End BFloat16Phases.

(** ** What _vec_logsoftmax<BFloat16> writes *)

(** The column whose maximum the kernel subtracts in column [c]. *)
Definition bf16_max_column (fVec_size inner_size CHUNK_SIZE c : Z) : Z :=
  let k := c mod inner_size in
  let q := k mod CHUNK_SIZE in
  let size := Z.min CHUNK_SIZE (inner_size - (k - q)) in
  c - q + max_lane fVec_size size q.

(** [x_d - m' - log(sum_j exp(x_j - m'))] with [m'] the maximum of the
    column [bf16_max_column c]. *)
Definition log_softmax_bf16_expected (fVec_size inner_size dim_size CHUNK_SIZE : Z)
  (input : @buffer T) (c d : Z) : T :=
  let m :=
    list_max
      (slice input
         (strided_addr inner_size dim_size
            (bf16_max_column fVec_size inner_size CHUNK_SIZE c) 0)
         inner_size dim_size) in
  sub (sub (input (strided_addr inner_size dim_size c d)) m)
    (slog (ssum (map (fun y => sexp (sub y m))
                   (slice input (strided_addr inner_size dim_size c 0)
                      inner_size dim_size)))).

Lemma bf16_max_column_in_block (fVec_size inner_size CHUNK_SIZE o k q : Z) :
  0 < CHUNK_SIZE -> 0 <= k ->
  let ib := k * CHUNK_SIZE in
  let size := Z.min CHUNK_SIZE (inner_size - ib) in
  0 <= q < size ->
  bf16_max_column fVec_size inner_size CHUNK_SIZE (o * inner_size + ib + q)
  = o * inner_size + ib + max_lane fVec_size size q.
Proof.
  intros Hc Hk ib size Hq. unfold bf16_max_column. cbv zeta.
  assert (Hib : 0 <= ib) by (unfold ib; nia).
  assert (Hmod : (o * inner_size + ib + q) mod inner_size = ib + q).
  { symmetry. apply (Z.mod_unique _ inner_size o (ib + q)); lia. }
  assert (Hmod' : (ib + q) mod CHUNK_SIZE = q).
  { symmetry. apply (Z.mod_unique _ CHUNK_SIZE k q); unfold ib; lia. }
  rewrite Hmod, Hmod'. replace (ib + q - q) with ib by lia. fold size. lia.
Qed.

Lemma logsoftmax_bf16_block_done (fVec_size dim_size inner_size CHUNK_SIZE : Z)
  (input : @buffer T) (i : Z) (local input_buffer output : @buffer T) :
  0 < fVec_size -> 0 < dim_size -> 0 < inner_size -> 0 < CHUNK_SIZE -> 0 <= i ->
  let num_chunks := divup inner_size CHUNK_SIZE in
  (forall c, block_start inner_size CHUNK_SIZE num_chunks i <= c
             < block_start inner_size CHUNK_SIZE num_chunks (i + 1) ->
             smax neg_infinity (input (strided_addr inner_size dim_size c 0))
             = input (strided_addr inner_size dim_size c 0)) ->
  cols_done (strided_addr inner_size dim_size) dim_size
    (log_softmax_bf16_expected fVec_size inner_size dim_size CHUNK_SIZE input) output
    (snd (logsoftmax_bf16_block fVec_size dim_size inner_size CHUNK_SIZE input
            num_chunks i (local, input_buffer, output)))
    (block_start inner_size CHUNK_SIZE num_chunks i)
    (block_start inner_size CHUNK_SIZE num_chunks (i + 1)).
Proof.
  intros Hv Hdim Hin Hc Hi num_chunks Hfirst.
  destruct (block_start_next inner_size CHUNK_SIZE i Hc Hin Hi)
    as (Hk & Hsize & Hfit & Hnext).
  destruct (divup_bounds inner_size CHUNK_SIZE Hc Hin) as (Hnc & _).
  fold num_chunks in Hnc, Hk, Hsize, Hfit, Hnext.
  rewrite Hnext in *.
  unfold logsoftmax_bf16_block. cbv beta iota zeta.
  rewrite Z.quot_div_nonneg, Z.rem_mod_nonneg by lia.
  unfold block_start in *.
  set (o := i / num_chunks) in *. set (k := i mod num_chunks) in *.
  set (ib := k * CHUNK_SIZE) in *.
  set (size := Z.min CHUNK_SIZE (inner_size - ib)) in *.
  assert (Hsz : 0 <= size <= CHUNK_SIZE) by lia.
  pose proof (logsoftmax_bf16_init_spec fVec_size CHUNK_SIZE Hv size local Hsz) as Hinit.
  set (l1 := logsoftmax_bf16_init fVec_size CHUNK_SIZE size local) in *.
  pose proof (logsoftmax_bf16_compute_max_split fVec_size dim_size inner_size CHUNK_SIZE
                input o ib size l1 input_buffer) as Hsplit.
  cbv zeta in Hsplit. rewrite Hsplit. clear Hsplit.
  destruct (logsoftmax_bf16_max_spec fVec_size dim_size inner_size input Hv
              o ib size l1 ltac:(lia) ltac:(lia) (fun q Hq => proj1 (Hinit q Hq)))
    as [Hmax Hmaxf].
  pose proof (logsoftmax_bf16_cache_spec fVec_size dim_size inner_size CHUNK_SIZE input Hv
                o ib size input_buffer Hsz) as Hcache.
  cbv zeta in Hmax, Hmaxf, Hcache.
  set (l2 := for_loop 0 dim_size _ l1) in *.
  set (cache := for_loop 0 dim_size _ input_buffer) in *.
  destruct (logsoftmax_bf16_compute_sum_spec fVec_size dim_size CHUNK_SIZE Hv
              size cache l2 Hsz ltac:(lia)) as [Hsum Hsumf].
  set (l3 := logsoftmax_bf16_compute_sum fVec_size dim_size CHUNK_SIZE size cache l2) in *.
  destruct (vec_map_inplace_spec slog l3 CHUNK_SIZE size) as [Hlog Hlogf].
  set (l4 := vec_map_inplace slog l3 CHUNK_SIZE size) in *.
  destruct (logsoftmax_bf16_write_spec fVec_size dim_size inner_size CHUNK_SIZE Hv
              o ib size cache l4 output ltac:(lia)) as [Hw Hwf].
  cbn [snd].
  set (out := logsoftmax_bf16_write fVec_size dim_size inner_size CHUNK_SIZE
                o ib size cache l4 output) in *.
  assert (Haddr : forall q d, 0 <= q < size ->
                              strided_addr inner_size dim_size (o * inner_size + ib + q) d
                              = o * dim_size * inner_size + d * inner_size + ib + q).
  { intros q d Hq.
    replace (o * inner_size + ib + q) with (o * inner_size + (ib + q)) by lia.
    rewrite strided_addr_outer_inner by lia. lia. }
  split.
  - intros c d Hcol Hd.
    replace c with (o * inner_size + ib + (c - (o * inner_size + ib))) by lia.
    set (q := c - (o * inner_size + ib)).
    assert (Hq : 0 <= q < size) by (unfold q; lia).
    unfold log_softmax_bf16_expected.
    pose proof (bf16_max_column_in_block fVec_size inner_size CHUNK_SIZE o k q Hc Hk)
      as Hmc.
    cbv zeta in Hmc. fold ib in Hmc. fold size in Hmc. rewrite (Hmc Hq). clear Hmc.
    destruct (max_lane_range fVec_size size q Hv Hq) as [Hml _].
    set (q' := max_lane fVec_size size q) in *.
    assert (Hcolumn : forall j d', 0 <= j < size ->
                                   o * dim_size * inner_size + d' * inner_size + ib + j
                                   = strided_addr inner_size dim_size
                                       (o * inner_size + ib + j) 0 + d' * inner_size).
    { intros j d' Hj. rewrite (Haddr j 0 Hj). lia. }
    set (p := strided_addr inner_size dim_size (o * inner_size + ib + q) 0) in *.
    set (p' := strided_addr inner_size dim_size (o * inner_size + ib + q') 0) in *.
    assert (Hm : l4 q = list_max (slice input p' inner_size dim_size)).
    { rewrite Hlogf by lia. rewrite Hsumf by lia. rewrite (Hmax q Hq). fold q'.
      rewrite <- (column_max_from_neg_infinity input p' inner_size dim_size Hdim).
      - apply for_loop_ext. intros d' t _. unfold p'.
        now rewrite (Hcolumn q' d' Hml).
      - apply Hfirst. lia. }
    assert (Hs : l4 (CHUNK_SIZE + q)
                 = slog (ssum (map (fun y => sexp (sub y (l4 q)))
                                 (slice input p inner_size dim_size)))).
    { rewrite (Hlog q Hq). f_equal. rewrite (Hsum q Hq).
      rewrite (Hmaxf (CHUNK_SIZE + q)) by lia. destruct (Hinit q Hq) as [_ ->].
      rewrite <- (column_sum_from_zero (fun y => sexp (sub y (l4 q)))).
      apply for_loop_ext. intros d' t Hd'. unfold p. rewrite <- (Hcolumn q d' Hq).
      rewrite (Hcache d' q) by lia.
      rewrite (Hlogf q) by lia. rewrite (Hsumf q) by lia. reflexivity. }
    cbv zeta. rewrite (Haddr q d Hq).
    rewrite (Hw d q Hd Hq), Hs, Hm, (Hcache d q Hd Hq). reflexivity.
  - intros a Ha. apply Hwf. intros d q Hd Hq Heq.
    apply (Ha (o * inner_size + ib + q) d); [lia | exact Hd |].
    now rewrite (Haddr q d Hq).
Qed.

(** The BFloat16 specialization returns, and leaves in every column [c]
    the log-softmax formed with the maximum of column [bf16_max_column c]:
    of [c] itself in the lower half of a full [bVec] and in the scalar
    tail, of the column [fVec::size()] lower in the upper half. *)
Lemma _vec_logsoftmax_bf16_spec (fVec_size : Z) (chunks : list (Z * Z))
  (uninit input output : @buffer T) (outer_size inner_size dim_size : Z) :
  0 < fVec_size -> 0 <= outer_size -> 0 < inner_size -> 0 < dim_size ->
  (forall a, 0 <= a < outer_size * dim_size * inner_size ->
             smax neg_infinity (input a) = input a) ->
  let CHUNK_SIZE :=
    Z.max (BLOCK_SIZE / dim_size / sizeof_BFloat16) (2 * fVec_size)
    / (2 * fVec_size) * (2 * fVec_size) in
  is_partition 0 (outer_size * divup inner_size CHUNK_SIZE) chunks ->
  exists output',
    _vec_logsoftmax_bf16 fVec_size chunks uninit input output
      outer_size inner_size dim_size = Some output'
    /\ cols_done (strided_addr inner_size dim_size) dim_size
         (log_softmax_bf16_expected fVec_size inner_size dim_size CHUNK_SIZE input)
         output output' 0 (outer_size * inner_size).
Proof.
  intros Hv Houter Hin Hdim Hfinite CHUNK_SIZE Hpart.
  unfold _vec_logsoftmax_bf16.
  destruct (Z.eqb_spec dim_size 0) as [Hzero | _]; [lia |].
  cbv zeta. fold CHUNK_SIZE.
  assert (Hc : 0 < CHUNK_SIZE).
  { unfold CHUNK_SIZE.
    assert (1 <= Z.max (BLOCK_SIZE / dim_size / sizeof_BFloat16) (2 * fVec_size)
                 / (2 * fVec_size)).
    { apply Z.div_le_lower_bound; lia. }
    nia. }
  destruct (divup_bounds inner_size CHUNK_SIZE Hc Hin) as (Hnc & _).
  set (num_chunks := divup inner_size CHUNK_SIZE) in *.
  set (bs := block_start inner_size CHUNK_SIZE num_chunks).
  assert (Hbs0 : bs 0 = 0).
  { unfold bs, block_start. rewrite Z.div_0_l, Z.mod_0_l by lia. lia. }
  assert (Hbsn : bs (outer_size * num_chunks) = outer_size * inner_size).
  { unfold bs, block_start. rewrite Z.div_mul, Z.mod_mul by lia. lia. }
  assert (Hstep : forall i, 0 <= i -> bs i <= bs (i + 1)).
  { intros i Hi.
    destruct (block_start_next inner_size CHUNK_SIZE i Hc Hin Hi) as (_ & Hs & _ & Hn).
    fold num_chunks in Hs, Hn. unfold bs. lia. }
  enough (Hgoal :
            exists output',
              parallel_for chunks 0 (outer_size * num_chunks)
                (GRAIN_SIZE / (16 * dim_size * CHUNK_SIZE))
                (fun begin end_ output =>
                   Some (snd (for_loop begin end_
                                (logsoftmax_bf16_block fVec_size dim_size inner_size
                                   CHUNK_SIZE input num_chunks)
                                (uninit, uninit, output))))
                output = Some output'
              /\ cols_done (strided_addr inner_size dim_size) dim_size
                   (log_softmax_bf16_expected fVec_size inner_size dim_size
                      CHUNK_SIZE input)
                   output output' (bs 0) (bs (outer_size * num_chunks)))
    by (now rewrite Hbs0, Hbsn in Hgoal).
  assert (Hinj := fun c d c' d' => strided_addr_inj inner_size dim_size c d c' d' Hin).
  unfold parallel_for.
  destruct (outer_size * num_chunks <=? 0) eqn:Hz.
  - apply Z.leb_le in Hz. assert (Hzero : outer_size * num_chunks = 0) by nia.
    rewrite Hzero. exists output. split; [reflexivity | apply cols_done_nil].
  - apply (blocks_done_chunks (strided_addr inner_size dim_size) dim_size
             (log_softmax_bf16_expected fVec_size inner_size dim_size CHUNK_SIZE input)
             Hinj bs ltac:(lia) Hstep
             _ chunks (outer_size * num_chunks)); [| lia | exact Hpart].
    intros b e m Hb Hlt Hle. eexists. split; [reflexivity |].
    apply (blocks_done_for_loop (strided_addr inner_size dim_size) dim_size
             (log_softmax_bf16_expected fVec_size inner_size dim_size CHUNK_SIZE input)
             Hinj bs ltac:(lia) Hstep
             _ b e (uninit, uninit, m)); [lia |].
    intros i [[local cache] out] Hib. cbn [snd].
    apply logsoftmax_bf16_block_done; auto; try lia.
    intros c Hcol. apply Hfinite.
    destruct (block_start_next inner_size CHUNK_SIZE i Hc Hin ltac:(lia))
      as (Hk & Hs & Hfit & Hn).
    fold num_chunks in Hk, Hs, Hfit, Hn, Hcol. rewrite Hn in Hcol.
    unfold block_start in Hcol.
    assert (Ho : 0 <= i / num_chunks < outer_size).
    { split; [apply Z.div_pos; lia | apply Z.div_lt_upper_bound; nia]. }
    set (o := i / num_chunks) in *.
    replace c with (o * inner_size + (c - o * inner_size)) by lia.
    rewrite strided_addr_outer_inner by lia.
    assert (Hrow : inner_size <= dim_size * inner_size) by nia.
    assert (Hrows : (o + 1) * (dim_size * inner_size)
                    <= outer_size * (dim_size * inner_size)) by nia.
    assert (Hnonneg : 0 <= o * (dim_size * inner_size)) by nia.
    lia.
Qed.

(** Where the kernel subtracts the maximum of the column itself, it writes
    what C2 says. *)
Lemma log_softmax_bf16_expected_agrees (fVec_size inner_size dim_size CHUNK_SIZE : Z)
  (input : @buffer T) (c d : Z) :
  bf16_max_column fVec_size inner_size CHUNK_SIZE c = c ->
  log_softmax_bf16_expected fVec_size inner_size dim_size CHUNK_SIZE input c d
  = log_softmax_expected inner_size dim_size input c d.
Proof.
  intros Hcol. unfold log_softmax_bf16_expected, log_softmax_expected, log_softmax_value.
  now rewrite Hcol.
Qed.

(** ** _vec_logsoftmax<BFloat16> on a [2 x 16] tensor

    The tensor is reduced over its first dimension ([outer_size = 1],
    [dim_size = 2], [inner_size = 16]) with 16-lane [bVec] and 8-lane
    [fVec].  Column 8 is the slice [x 8, x 24].  The kernel returns, and
    what it writes for column 8 is formed with the maximum of column 0, the
    slice [x 0, x 16]: [max_fvec0] is stored to both halves of
    [input_max_data], and [max_fvec1] is never stored. *)
Lemma logsoftmax_bf16_upper_half_uses_lower_max (x uninit output : @buffer T) :
  let m0 := smax (smax neg_infinity (x 0)) (x 16) in
  exists output',
    _vec_logsoftmax_bf16 8 [(0, 1)] uninit x output 1 16 2 = Some output'
    /\ output' 8
       = sub (sub (x 8) m0)
           (slog (add (add zero (sexp (sub (x 8) m0))) (sexp (sub (x 24) m0))))
    /\ output' 24
       = sub (sub (x 24) m0)
           (slog (add (add zero (sexp (sub (x 8) m0))) (sexp (sub (x 24) m0)))).
Proof.
  cbv zeta. eexists. split; [reflexivity |]. split; reflexivity.
Qed.

(** What the claim asks for in column 8 of that tensor. *)
Lemma log_softmax_value_column_8 (x : @buffer T) :
  let m8 := smax (x 8) (x 24) in
  log_softmax_value (slice x 8 16 2) (x 8)
  = sub (sub (x 8) m8)
      (slog (add (add zero (sexp (sub (x 8) m8))) (sexp (sub (x 24) m8)))).
Proof. reflexivity. Qed.

End Kernels.

(** C2 at a failing input of the BFloat16 specialization: the [2 x 16]
    tensor [overflow_input], reduced over its first dimension.  The slice
    of column 8 is [100, 100], and the claim asks for
    [100 - 100 - log(exp 0 + exp 0) = - log 2] at its first element.  The
    generic kernel returns and has written that.  The BFloat16
    specialization returns and has written [-infinity]: it subtracts the
    maximum of column 0, which is 0, and [exp 100] overflows. *)
Theorem logsoftmax_bf16_overflow :
  log_softmax_value (slice overflow_input 8 16 2) (overflow_input 8) = Finite (- ln 2)
  /\ (exists output',
        _vec_logsoftmax 4 8 [(0, 1)] uninitialized overflow_input uninitialized 1 16 2
        = Some output'
        /\ output' 8 = Finite (- ln 2))
  /\ (exists output',
        _vec_logsoftmax_bf16 8 [(0, 1)] uninitialized overflow_input uninitialized
          1 16 2 = Some output'
        /\ output' 8 = NegInf).
Proof.
  assert (Hclaim : log_softmax_value (slice overflow_input 8 16 2) (overflow_input 8)
                   = Finite (- ln 2)).
  { rewrite log_softmax_value_column_8. unfold smax. cbn.
    destruct (Rlt_dec 100 100) as [Hlt | _]; [lra |].
    unfold float_exp, exp_overflow.
    destruct (Rlt_dec 89 (100 - 100)) as [Hlt | _]; [lra |].
    replace (100 - 100)%R with 0%R by lra. rewrite exp_0. cbn.
    destruct (Rlt_dec (0 + 1 + 1) 0) as [Hlt | _]; [lra |].
    destruct (Req_EM_T (0 + 1 + 1) 0) as [Heq | _]; [lra |].
    f_equal. replace (0 + 1 + 1)%R with 2%R by lra. lra. }
  split; [exact Hclaim |]. split.
  - destruct (_vec_logsoftmax_correct 4 8 [(0, 1)] uninitialized overflow_input
                uninitialized 1 16 2) as (output' & Hrun & Hdone);
      try lia.
    + intros a _. unfold overflow_input.
      destruct ((a =? 8) || (a =? 24)); reflexivity.
    + cbn. repeat split; lia.
    + exists output'. split; [exact Hrun |].
      rewrite <- Hclaim.
      apply (log_softmax_cols_done_pointwise 16 2 1 overflow_input uninitialized
               output' ltac:(lia) ltac:(lia) Hdone 0 8 0); lia.
  - destruct (logsoftmax_bf16_upper_half_uses_lower_max
                overflow_input uninitialized uninitialized)
      as (output' & Hrun & H8 & _).
    exists output'. split; [exact Hrun |].
    rewrite H8. unfold smax. cbn.
    destruct (Rlt_dec 0 0) as [Hlt | _]; [lra |].
    unfold float_exp, exp_overflow.
    destruct (Rlt_dec 89 (100 - 0)) as [_ | Hn]; [reflexivity | lra].
Qed.

End LogSoftMax.

(* ------------------------------------------------------------------ *)
(** * prim::infer_unsqueeze_size and prim::infer_squeeze_size.dim *)

Module SqueezeDim.
Import Stack Squeeze.

(** [IValue::toInt] and [IValue::toIntVector] assert the tag of the value. *)
Definition toInt {T} (v : IValue T) : result Z :=
  match v with
  | IVInt z => Ok z
  | _ => Err (InternalAssert "Expected Int")
  end.

Definition toIntVector {T} (v : IValue T) : result (list Z) :=
  match v with
  | IVIntList l => Ok l
  | _ => Err (InternalAssert "Expected IntList")
  end.

(** [size.insert(it, v)]; an iterator is its offset from [size.begin()]. *)
Definition insert (size : list Z) (it : Z) (v : Z) : list Z :=
  firstn (Z.to_nat it) size ++ v :: skipn (Z.to_nat it) size.

(** [size.size()], a [size_t]. *)
Definition vec_size (size : list Z) : Z := Z.of_nat (length size).

(** The body of [prim::infer_unsqueeze_size]: [dim + 1 + size.size()] is
    formed in [size_t] and converted back to [int64_t]; an iterator before
    [begin()] or after [end()] is outside the contract of [insert]. *)
Definition infer_unsqueeze_size_vec (size : list Z) (dim : Z) : result (list Z) :=
  let dim :=
    if dim <? 0 then to_int64 (to_size_t (to_size_t (dim + 1) + vec_size size))
    else dim in
  let it := 0 + dim in
  if (0 <=? it) && (it <=? vec_size size)
  then Ok (insert size it 1)
  else Err (OutOfContract "insert: iterator outside the vector").

Definition infer_unsqueeze_size {T} (stack : Stack T) : result (Stack T) :=
  '(d, stack) <- pop stack ;;
  dim <- toInt d ;;
  '(a, stack) <- pop stack ;;
  size <- toIntVector a ;;
  size <- infer_unsqueeze_size_vec size dim ;;
  Ok (push stack (IVIntList size)).

(** The body of [prim::infer_squeeze_size.dim]. *)
Definition infer_squeeze_dim_size_vec (size : list Z) (dim : Z) : result (list Z) :=
  let dim :=
    if dim <? 0 then to_int64 (to_size_t (to_size_t dim + vec_size size))
    else dim in
  let it := 0 + dim in
  v <- deref size it ;;
  if v =? 1 then Ok (erase size it) else Ok size.

Definition infer_squeeze_dim_size {T} (stack : Stack T) : result (Stack T) :=
  '(d, stack) <- pop stack ;;
  dim <- toInt d ;;
  '(a, stack) <- pop stack ;;
  size <- toIntVector a ;;
  size <- infer_squeeze_dim_size_vec size dim ;;
  Ok (push stack (IVIntList size)).

(** The position a dimension index stands for in a list of [n] entries. *)
Definition wrap_dim (dim n : Z) : Z := if dim <? 0 then dim + n else dim.

Lemma size_t_int64_sum (x n : Z) :
  - 2 ^ 63 <= x + n < 2 ^ 63 ->
  to_int64 (to_size_t (to_size_t x + n)) = x + n.
Proof.
  intros Hfit. unfold to_int64, to_size_t.
  rewrite Zplus_mod_idemp_l, <- Z.add_assoc, Zplus_mod_idemp_l.
  rewrite Z.mod_small by lia. lia.
Qed.

Lemma pop_two {T} (rest : Stack T) (a b : IValue T) :
  pop (rest ++ [a; b]) = Ok (b, rest ++ [a]).
Proof.
  replace (rest ++ [a; b]) with (push (rest ++ [a]) b)
    by (unfold push; now rewrite <- app_assoc).
  apply pop_push.
Qed.

Lemma pop_one {T} (rest : Stack T) (a : IValue T) :
  pop (rest ++ [a]) = Ok (a, rest).
Proof. apply (pop_push T rest a). Qed.

Lemma length_insert (size : list Z) (it v : Z) :
  0 <= it <= vec_size size -> length (insert size it v) = S (length size).
Proof.
  unfold insert, vec_size. intros Hit.
  rewrite length_app, length_firstn. cbn [length]. rewrite length_skipn. lia.
Qed.

Lemma deref_insert (size : list Z) (it v : Z) :
  0 <= it <= vec_size size -> deref (insert size it v) it = Ok v.
Proof.
  unfold vec_size. intros Hit. unfold insert.
  assert (Hlen : length (firstn (Z.to_nat it) size) = Z.to_nat it).
  { rewrite length_firstn. lia. }
  replace it with (Z.of_nat (length (firstn (Z.to_nat it) size))) at 3 by lia.
  apply deref_middle.
Qed.

Lemma erase_insert (size : list Z) (it v : Z) :
  0 <= it <= vec_size size -> erase (insert size it v) it = size.
Proof.
  unfold vec_size. intros Hit. unfold insert.
  assert (Hlen : length (firstn (Z.to_nat it) size) = Z.to_nat it).
  { rewrite length_firstn. lia. }
  replace it with (Z.of_nat (length (firstn (Z.to_nat it) size))) at 3 by lia.
  rewrite erase_middle. apply firstn_skipn.
Qed.

Lemma unsqueeze_vec_in_range (size : list Z) (dim : Z) :
  vec_size size + 1 < 2 ^ 63 ->
  - (vec_size size + 1) <= dim <= vec_size size ->
  infer_unsqueeze_size_vec size dim
  = Ok (insert size (wrap_dim dim (vec_size size + 1)) 1).
Proof.
  intros Hn Hdim. unfold infer_unsqueeze_size_vec, wrap_dim. cbv zeta.
  pose proof (Nat2Z.is_nonneg (length size)) as Hnn. fold (vec_size size) in Hnn.
  destruct (Z.ltb_spec dim 0) as [Hneg | Hpos].
  - rewrite size_t_int64_sum by lia.
    replace (0 + (dim + 1 + vec_size size)) with (dim + (vec_size size + 1)) by lia.
    destruct (Z.leb_spec 0 (dim + (vec_size size + 1))); [| lia].
    destruct (Z.leb_spec (dim + (vec_size size + 1)) (vec_size size)); [| lia].
    reflexivity.
  - rewrite Z.add_0_l.
    destruct (Z.leb_spec 0 dim); [| lia].
    destruct (Z.leb_spec dim (vec_size size)); [| lia].
    reflexivity.
Qed.

Lemma squeeze_dim_vec_in_range (size : list Z) (dim : Z) :
  vec_size size < 2 ^ 63 ->
  - vec_size size <= dim < vec_size size ->
  infer_squeeze_dim_size_vec size dim
  = (v <- deref size (wrap_dim dim (vec_size size)) ;;
     if v =? 1 then Ok (erase size (wrap_dim dim (vec_size size))) else Ok size).
Proof.
  intros Hn Hdim. unfold infer_squeeze_dim_size_vec, wrap_dim. cbv zeta.
  destruct (Z.ltb_spec dim 0) as [Hneg | Hpos].
  - rewrite size_t_int64_sum by lia. reflexivity.
  - reflexivity.
Qed.

Lemma infer_squeeze_size_vec_spec (size : list Z) :
  infer_squeeze_size_vec size = Ok (remove_ones size).
Proof.
  unfold infer_squeeze_size_vec.
  change (squeeze_loop (length size) size 0)
    with (squeeze_loop (length size) ([] ++ size) (Z.of_nat (length (@nil Z)))).
  now rewrite (squeeze_loop_spec size [] (length size) (le_n _)).
Qed.

Lemma remove_ones_app (a b : list Z) :
  remove_ones (a ++ b) = remove_ones a ++ remove_ones b.
Proof. apply filter_app. Qed.

Lemma remove_ones_insert (size : list Z) (it : Z) :
  remove_ones (insert size it 1) = remove_ones size.
Proof.
  unfold insert. rewrite remove_ones_app. cbn.
  rewrite <- remove_ones_app. now rewrite firstn_skipn.
Qed.

Lemma remove_ones_erase (size : list Z) (it : Z) :
  deref size it = Ok 1 -> remove_ones (erase size it) = remove_ones size.
Proof.
  unfold deref, at_index, erase. intros Hd.
  destruct ((0 <=? it) && (it <? Z.of_nat (length size))); [| discriminate].
  destruct (nth_error size (Z.to_nat it)) as [v |] eqn:Hnth; [| discriminate].
  injection Hd as ->.
  apply nth_error_split in Hnth. destruct Hnth as (pre & suf & -> & Hlen).
  rewrite <- Hlen.
  rewrite firstn_app, firstn_all, Nat.sub_diag, firstn_O, app_nil_r.
  rewrite skipn_app, skipn_all2 by lia.
  replace (S (length pre) - length pre)%nat with 1%nat by lia.
  cbn [skipn app]. rewrite !remove_ones_app. reflexivity.
Qed.

(** [prim::infer_unsqueeze_size(a, dim)] followed by
    [prim::infer_squeeze_size.dim(_, dim)] with the same [dim] gives [a]
    back, for every [dim] from [-(n + 1)] to [n], [n] being the length of
    [a]: the first inserts a 1 at the position of [dim], counted from the
    end of the longer list when negative, and the second finds it there. *)
Theorem unsqueeze_squeeze_dim_round_trip {T} (rest : Stack T) (a : list Z) (dim : Z) :
  vec_size a + 1 < 2 ^ 63 ->
  - (vec_size a + 1) <= dim <= vec_size a ->
  let a' := insert a (wrap_dim dim (vec_size a + 1)) 1 in
  infer_unsqueeze_size (rest ++ [IVIntList a; IVInt dim]) = Ok (push rest (IVIntList a'))
  /\ length a' = S (length a)
  /\ nth_error a' (Z.to_nat (wrap_dim dim (vec_size a + 1))) = Some 1
  /\ infer_squeeze_dim_size (push rest (IVIntList a') ++ [IVInt dim])
     = Ok (push rest (IVIntList a)).
Proof.
  intros Hn Hdim a'.
  assert (Hpos : 0 <= wrap_dim dim (vec_size a + 1) <= vec_size a).
  { unfold wrap_dim. destruct (Z.ltb_spec dim 0); lia. }
  assert (Hlen : length a' = S (length a)) by (now apply length_insert).
  assert (Hderef : deref a' (wrap_dim dim (vec_size a + 1)) = Ok 1)
    by (now apply deref_insert).
  repeat split.
  - unfold infer_unsqueeze_size. rewrite pop_two. cbn [bind toInt].
    rewrite pop_one. cbn [bind toIntVector].
    now rewrite (unsqueeze_vec_in_range a dim Hn Hdim).
  - exact Hlen.
  - unfold deref, at_index in Hderef.
    destruct ((0 <=? wrap_dim dim (vec_size a + 1))
              && (wrap_dim dim (vec_size a + 1) <? Z.of_nat (length a')));
      [| discriminate].
    destruct (nth_error a' (Z.to_nat (wrap_dim dim (vec_size a + 1))));
      [congruence | discriminate].
  - unfold infer_squeeze_dim_size, push. rewrite <- app_assoc. cbn [app].
    rewrite pop_two. cbn [bind toInt]. rewrite pop_one. cbn [bind toIntVector].
    assert (Hsize : vec_size a' = vec_size a + 1) by (unfold vec_size; lia).
    rewrite squeeze_dim_vec_in_range by lia.
    rewrite Hsize, Hderef. cbn [bind]. rewrite Z.eqb_refl.
    unfold a'. now rewrite erase_insert.
Qed.

(** A 1 appended to [[2; 3]] with [dim = -1], and removed again. *)
Lemma unsqueeze_squeeze_dim_round_trip_witness :
  infer_unsqueeze_size ([] ++ [IVIntList [2; 3]; IVInt (-1)])
  = Ok (push ([] : Stack unit) (IVIntList [2; 3; 1]))
  /\ length [2; 3; 1] = 3%nat
  /\ nth_error [2; 3; 1] 2 = Some 1
  /\ infer_squeeze_dim_size (push ([] : Stack unit) (IVIntList [2; 3; 1]) ++ [IVInt (-1)])
     = Ok (push [] (IVIntList [2; 3])).
Proof.
  refine (unsqueeze_squeeze_dim_round_trip ([] : Stack unit) [2; 3] (-1) _ _);
    cbn; lia.
Defined.

(** [prim::infer_squeeze_size.dim(a, dim)] does not check [dim].  For
    [dim] from [-n] to [n - 1], [n] being the length of [a], it looks at
    the entry at the position of [dim], counted from the end when negative:
    the list without that entry when it is 1, the list unchanged otherwise.
    Any other [dim] reads outside the vector. *)
Theorem infer_squeeze_dim_size_bounds (a : list Z) (dim : Z) :
  vec_size a < 2 ^ 63 -> - 2 ^ 63 <= dim < 2 ^ 63 ->
  (- vec_size a <= dim < vec_size a ->
   exists v,
     nth_error a (Z.to_nat (wrap_dim dim (vec_size a))) = Some v
     /\ infer_squeeze_dim_size_vec a dim
        = Ok (if v =? 1 then erase a (wrap_dim dim (vec_size a)) else a))
  /\ (~ - vec_size a <= dim < vec_size a ->
      is_ok (infer_squeeze_dim_size_vec a dim) = false).
Proof.
  intros Hn Hdim. split.
  - intros Hin. rewrite squeeze_dim_vec_in_range by assumption.
    assert (Hpos : 0 <= wrap_dim dim (vec_size a) < vec_size a).
    { unfold wrap_dim. destruct (Z.ltb_spec dim 0); lia. }
    unfold deref, at_index. fold (vec_size a).
    destruct (Z.leb_spec 0 (wrap_dim dim (vec_size a))); [| lia].
    destruct (Z.ltb_spec (wrap_dim dim (vec_size a)) (vec_size a)); [| lia].
    cbn [andb].
    destruct (nth_error a (Z.to_nat (wrap_dim dim (vec_size a)))) as [v |] eqn:Hnth.
    + exists v. split; [reflexivity |]. cbn [bind]. now destruct (v =? 1).
    + apply nth_error_None in Hnth. unfold vec_size in *. lia.
  - intros Hout. unfold infer_squeeze_dim_size_vec. cbv zeta.
    pose proof (Nat2Z.is_nonneg (length a)) as Hnn. fold (vec_size a) in Hnn.
    assert (Hbad : forall it, ~ 0 <= it < vec_size a -> is_ok (deref a it) = false).
    { intros it Hit. unfold deref, at_index. fold (vec_size a).
      destruct (Z.leb_spec 0 it); destruct (Z.ltb_spec it (vec_size a)); cbn [andb];
        try reflexivity. lia. }
    destruct (Z.ltb_spec dim 0) as [Hneg | Hpos].
    + rewrite size_t_int64_sum by lia.
      specialize (Hbad (0 + (dim + vec_size a)) ltac:(lia)).
      destruct (deref a (0 + (dim + vec_size a))); [discriminate | reflexivity].
    + specialize (Hbad (0 + dim) ltac:(lia)).
      destruct (deref a (0 + dim)); [discriminate | reflexivity].
Qed.

Lemma infer_squeeze_dim_size_bounds_witness :
  (- vec_size [4; 1; 5] <= -2 < vec_size [4; 1; 5] ->
   exists v,
     nth_error [4; 1; 5] (Z.to_nat (wrap_dim (-2) (vec_size [4; 1; 5]))) = Some v
     /\ infer_squeeze_dim_size_vec [4; 1; 5] (-2)
        = Ok (if v =? 1 then erase [4; 1; 5] (wrap_dim (-2) (vec_size [4; 1; 5]))
              else [4; 1; 5]))
  /\ (~ - vec_size [4; 1; 5] <= -2 < vec_size [4; 1; 5] ->
      is_ok (infer_squeeze_dim_size_vec [4; 1; 5] (-2)) = false).
Proof.
  refine (infer_squeeze_dim_size_bounds [4; 1; 5] (-2) _ _); cbn; lia.
Defined.

(** [prim::infer_squeeze_size] undoes both: it gives the same list after
    [prim::infer_unsqueeze_size] as before, and after
    [prim::infer_squeeze_size.dim] as before; applied twice it gives what it
    gives once. *)
Theorem infer_squeeze_size_absorbs (a : list Z) (dim : Z) :
  (forall a', infer_unsqueeze_size_vec a dim = Ok a' ->
              infer_squeeze_size_vec a' = infer_squeeze_size_vec a)
  /\ (forall a', infer_squeeze_dim_size_vec a dim = Ok a' ->
                 infer_squeeze_size_vec a' = infer_squeeze_size_vec a)
  /\ (forall a', infer_squeeze_size_vec a = Ok a' ->
                 infer_squeeze_size_vec a' = Ok a').
Proof.
  repeat split; intros a' Hrun; rewrite !infer_squeeze_size_vec_spec in *.
  - unfold infer_unsqueeze_size_vec in Hrun. cbv zeta in Hrun.
    destruct (_ && _) in Hrun; [| discriminate].
    injection Hrun as <-. now rewrite remove_ones_insert.
  - unfold infer_squeeze_dim_size_vec in Hrun. cbv zeta in Hrun.
    destruct (deref a _) as [v |] eqn:Hd; [| discriminate]. cbn [bind] in Hrun.
    destruct (Z.eqb_spec v 1) as [-> | Hne]; injection Hrun as <-; [| reflexivity].
    f_equal. apply remove_ones_erase. exact Hd.
  - injection Hrun as <-. f_equal. unfold remove_ones.
    induction a as [| x a IH]; [reflexivity |]. cbn.
    destruct (x =? 1) eqn:Hx; cbn; [exact IH |]. rewrite Hx. cbn. now f_equal.
Qed.

End SqueezeDim.

(* ------------------------------------------------------------------ *)
(** * Sequences of calls on the enabler *)

Module EnablerCalls.
Import Enabler.
Local Open Scope string_scope.

(** A call of one of the two public member functions. *)
Inductive call : Type :=
| CallIsEnabled
| CallSetEnabled (is_enabled : bool).

Definition run_call (env : Env) (c : call) : M bool :=
  match c with
  | CallIsEnabled => isEnabled env
  | CallSetEnabled is_enabled => setEnabled env is_enabled
  end.

(** The calls one after the other on the same object: what each returned
    or threw, and the object at the end. *)
Fixpoint run_calls (env : Env) (calls : list call) (this : NVFuserEnabler)
  : list (result bool) * NVFuserEnabler :=
  match calls with
  | [] => ([], this)
  | c :: rest =>
      let '(r, this1) := run_call env c this in
      let '(rs, this2) := run_calls env rest this1 in
      (r :: rs, this2)
  end.

(** When the once-only check is still to run and fails, every call of
    [isEnabled()] and of [setEnabled()], with either argument, throws and
    leaves the object as it was: no sequence of calls gets the enabler out
    of that state. *)
Theorem enabler_stays_failing (env : Env) (this : NVFuserEnabler)
  (calls : list call) :
  pending_check_fails env this = true ->
  run_calls env calls this
  = (map (fun _ => Err (CheckError cannot_enable_msg)) calls, this).
Proof.
  intros Hp. induction calls as [| c rest IH]; [reflexivity |].
  cbn [run_calls map].
  assert (Hc : run_call env c this = (Err (CheckError cannot_enable_msg), this)).
  { destruct c as [| b]; cbn [run_call].
    - unfold isEnabled. now rewrite isEnabledImpl_cases, Hp.
    - now rewrite setEnabled_cases, Hp, orb_true_r. }
  now rewrite Hc, IH.
Qed.

Lemma enabler_stays_failing_witness :
  run_calls env_no_cuda_enable_set
    [CallIsEnabled; CallSetEnabled false; CallIsEnabled] nvfuser_enabler
  = (map (fun _ => Err (CheckError cannot_enable_msg))
       [CallIsEnabled; CallSetEnabled false; CallIsEnabled],
     nvfuser_enabler).
Proof.
  apply (enabler_stays_failing env_no_cuda_enable_set nvfuser_enabler
           [CallIsEnabled; CallSetEnabled false; CallIsEnabled]).
  reflexivity.
Defined.

(** Between two calls in one process the two environment variables, read
    once and cached, and the build flags stay as they are; what [hasCUDA()],
    [isRegistered()] and [getExecutorMode()] answer may change. *)
Definition same_process (env env' : Env) : Prop :=
  PYTORCH_JIT_ENABLE_NVFUSER env' = PYTORCH_JIT_ENABLE_NVFUSER env
  /\ PYTORCH_JIT_USE_NNC_NOT_NVFUSER env' = PYTORCH_JIT_USE_NNC_NOT_NVFUSER env
  /\ USE_ROCM env' = USE_ROCM env
  /\ FBCODE_CAFFE2 env' = FBCODE_CAFFE2 env.

(** [isEnabled()] called once in each of the host states [hosts], one
    after the other on the same object. *)
Fixpoint run_isEnabled (hosts : list Env) (this : NVFuserEnabler)
  : list (result bool) * NVFuserEnabler :=
  match hosts with
  | [] => ([], this)
  | env :: rest =>
      let '(r, this1) := isEnabled env this in
      let '(rs, this2) := run_isEnabled rest this1 in
      (r :: rs, this2)
  end.

(** Nothing settles the value before the default: no force-disable, no
    value assigned at runtime, PYTORCH_JIT_ENABLE_NVFUSER not set, and not
    an fbcode build. *)
Definition on_default_path (env : Env) (this : NVFuserEnabler) : bool :=
  negb (getNNCNotNVFuser env)
  && negb (has_value (runtime_assigned_fuser_enabled_ this))
  && negb (has_value (getFuserEnabledEnvVar env))
  && negb (FBCODE_CAFFE2 env).

Lemma resolve_same_process (env env' : Env) (this : NVFuserEnabler) :
  same_process env env' ->
  resolve env' this
  = if on_default_path env this then nvfuserCanBeEnabled env' else resolve env this.
Proof.
  intros (Henable & Hnnc & _ & Hfb).
  unfold resolve, on_default_path, getCachedNNCNotNVFuser, getCachedFuserEnabledEnvVar,
    getNNCNotNVFuser, getFuserEnabledEnvVar.
  rewrite Henable, Hnnc, Hfb.
  destruct (match PYTORCH_JIT_USE_NNC_NOT_NVFUSER env with
            | Some e => if (e =? "1") || (e =? "ON") then true else false
            | None => false
            end); cbn [negb andb]; [reflexivity |].
  destruct (runtime_assigned_fuser_enabled_ this); cbn [has_value negb andb];
    [reflexivity |].
  destruct (PYTORCH_JIT_ENABLE_NVFUSER env) as [enable |]; cbn [has_value negb andb].
  - now destruct ((enable =? "0") || (enable =? "OFF")).
  - now destruct (FBCODE_CAFFE2 env).
Qed.

(** Once [isEnabled()] has returned, no later [isEnabled()] throws or
    changes the object, whatever the host queries answer by then.  Each
    later call returns the value returned first, except on the default
    path, where nothing but [nvfuserCanBeEnabled()] settles the value:
    there each call returns what the host queries answer at that call. *)
Theorem isEnabled_after_first_return (env : Env) (this : NVFuserEnabler)
  (b : bool) (hosts : list Env) :
  fst (isEnabled env this) = Ok b ->
  Forall (same_process env) hosts ->
  run_isEnabled hosts (snd (isEnabled env this))
  = (map (fun env' =>
            Ok (if on_default_path env this then nvfuserCanBeEnabled env' else b))
       hosts,
     snd (isEnabled env this)).
Proof.
  unfold isEnabled. rewrite isEnabledImpl_cases.
  destruct (pending_check_fails env this); cbn [fst snd]; [discriminate |].
  intros Hfirst Hhosts. injection Hfirst as Hb.
  set (this1 := {| runtime_assigned_fuser_enabled_ := runtime_assigned_fuser_enabled_ this;
                   enabled_check_flag_ := true |}).
  assert (Hb1 : b = resolve env this1) by (now rewrite resolve_precedence).
  assert (Hpath : on_default_path env this = on_default_path env this1) by reflexivity.
  rewrite Hpath, Hb1. clear Hb Hb1 Hpath.
  induction Hhosts as [| env' hosts Hsame _ IH]; [reflexivity |].
  cbn [run_isEnabled map]. unfold isEnabled at 1. rewrite isEnabledImpl_cases.
  assert (Hdone : pending_check_fails env' this1 = false) by reflexivity.
  rewrite Hdone.
  change {| runtime_assigned_fuser_enabled_ := runtime_assigned_fuser_enabled_ this1;
            enabled_check_flag_ := true |} with this1.
  rewrite IH.
  now rewrite <- resolve_precedence, (resolve_same_process env env' this1 Hsame).
Qed.

(** A machine with CUDA and no environment variable set. *)
Definition env_cuda : Env :=
  {| PYTORCH_JIT_ENABLE_NVFUSER := None;
     PYTORCH_JIT_USE_NNC_NOT_NVFUSER := None;
     USE_ROCM := false; FBCODE_CAFFE2 := false;
     hasCUDA := true; isRegistered := true; getExecutorMode := true |}.

(** The same machine after the executor mode has been switched off. *)
Definition env_cuda_legacy_executor : Env :=
  {| PYTORCH_JIT_ENABLE_NVFUSER := None;
     PYTORCH_JIT_USE_NNC_NOT_NVFUSER := None;
     USE_ROCM := false; FBCODE_CAFFE2 := false;
     hasCUDA := true; isRegistered := true; getExecutorMode := false |}.

(** On the default path the second call follows the host: true, then
    false once the executor mode is off, then true again. *)
Lemma isEnabled_after_first_return_witness :
  run_isEnabled [env_cuda; env_cuda_legacy_executor; env_cuda]
    (snd (isEnabled env_cuda nvfuser_enabler))
  = ([Ok true; Ok false; Ok true], snd (isEnabled env_cuda nvfuser_enabler)).
Proof.
  apply (isEnabled_after_first_return env_cuda nvfuser_enabler true
           [env_cuda; env_cuda_legacy_executor; env_cuda]).
  - reflexivity.
  - repeat constructor.
Defined.

(** A [setEnabled(v)] that returns is read back by [isEnabled()], which
    then does not throw: it returns [v], or false when
    PYTORCH_JIT_USE_NNC_NOT_NVFUSER is "1" or "ON", and leaves the object as
    [setEnabled] left it. *)
Theorem setEnabled_then_isEnabled (env : Env) (this : NVFuserEnabler)
  (v old_value : bool) :
  fst (setEnabled env v this) = Ok old_value ->
  isEnabled env (snd (setEnabled env v this))
  = (Ok (if getNNCNotNVFuser env then false else v), snd (setEnabled env v this)).
Proof.
  rewrite setEnabled_cases.
  destruct ((v && negb (nvfuserCanBeEnabled env)) || pending_check_fails env this);
    cbn [fst snd]; [discriminate |].
  intros _. unfold isEnabled, isEnabledImpl, call_once_enabled_check. cbn.
  unfold resolve, getCachedNNCNotNVFuser. cbn. reflexivity.
Qed.

Lemma setEnabled_then_isEnabled_witness :
  isEnabled env_cuda (snd (setEnabled env_cuda false nvfuser_enabler))
  = (Ok (if getNNCNotNVFuser env_cuda then false else false),
     snd (setEnabled env_cuda false nvfuser_enabler)).
Proof.
  apply (setEnabled_then_isEnabled env_cuda nvfuser_enabler false true).
  reflexivity.
Defined.

End EnablerCalls.

(* ------------------------------------------------------------------ *)
(** * The remaining entry points of the fuser interface *)

Module InterfaceQueries.
Import Enabler Interface.
Local Open Scope string_scope.

Section WithHost.
Variables Node Graph IStack Effect ProfilingRecord : Type.

(** The other function pointers of [struct CudaFuserInterface]; a callback
    that answers may also throw. *)
Record Queries : Type := {
  fn_can_fuse_n : option (Node -> result bool);
  fn_insert_profile_inodes : option (ProfilingRecord -> Effect);
  fn_profile_n : option (Node -> result bool);
  fn_skip_n : option (string -> bool -> result bool)
}.

(** [p != nullptr && p(args)]: the callback is not called through a null
    pointer. *)
Definition canFuseNode (q : Queries) (node : Node) : result bool :=
  match fn_can_fuse_n q with
  | None => Ok false
  | Some f => f node
  end.

(** [None]: nothing was called. *)
Definition InsertProfileNodesForCUDAFuser (q : Queries) (pr : ProfilingRecord)
  : option Effect :=
  match fn_insert_profile_inodes q with
  | Some f => Some (f pr)
  | None => None
  end.

Definition profileNode (q : Queries) (node : Node) : result bool :=
  match fn_profile_n q with
  | None => Ok false
  | Some f => f node
  end.

Definition skipNode (q : Queries) (symbol_str : string) (flip : bool) : result bool :=
  match fn_skip_n q with
  | None => Ok false
  | Some f => f symbol_str flip
  end.

(** The interface before a CUDA build has registered anything. *)
Definition unregistered : CudaFuserInterface Node Graph IStack Effect :=
  {| fn_compile_n := None; fn_run_n_s := None; fn_fuse_graph := None |}.

Definition unregistered_queries : Queries :=
  {| fn_can_fuse_n := None; fn_insert_profile_inodes := None;
     fn_profile_n := None; fn_skip_n := None |}.

(** With nothing registered, the queries [canFuseNode], [profileNode] and
    [skipNode] answer false and [InsertProfileNodesForCUDAFuser] does
    nothing, none of them throwing; [compileFusionGroup] and
    [runFusionGroup] throw, and [fuseGraph] throws exactly when
    [isEnabled()] returns true or throws itself. *)
Theorem unregistered_interface (env : Env) (this : NVFuserEnabler)
  (node : Node) (stack : IStack) (graph : Graph) (pr : ProfilingRecord)
  (symbol_str : string) (flip : bool) :
  canFuseNode unregistered_queries node = Ok false
  /\ profileNode unregistered_queries node = Ok false
  /\ skipNode unregistered_queries symbol_str flip = Ok false
  /\ InsertProfileNodesForCUDAFuser unregistered_queries pr = None
  /\ compileFusionGroup _ _ _ _ unregistered node
     = Err (CheckError requires_cuda_build_msg)
  /\ runFusionGroup _ _ _ _ unregistered node stack
     = Err (CheckError requires_cuda_build_msg)
  /\ (is_ok (fst (fuseGraph _ _ _ _ env unregistered graph this)) = true
      <-> fst (isEnabled env this) = Ok false).
Proof.
  repeat split; try reflexivity.
  - unfold fuseGraph. destruct (isEnabled env this) as [[[|] | e] this1];
      cbn; intros H; congruence.
  - unfold fuseGraph. intros H.
    destruct (isEnabled env this) as [[[|] | e] this1]; cbn in *; congruence.
Qed.

End WithHost.
End InterfaceQueries.

(* ------------------------------------------------------------------ *)
(** * The operators nvfuser substitutes for aliasing operators *)

Module CopyOps.
Import Stack SqueezeDim.
Local Open Scope string_scope.
Local Open Scope list_scope.

Section WithTensor.
Variable Tensor : Type.
(** [at::native::view], [at::native::reshape], [at::squeeze],
    [at::squeeze(_, dim)], [at::unsqueeze] and [at::add(_, _, 1.0)]: host
    functions, which return a tensor or throw. *)
Variable at_view : Tensor -> list Z -> result Tensor.
Variable at_reshape : Tensor -> list Z -> result Tensor.
Variable at_squeeze : Tensor -> result Tensor.
Variable at_squeeze_dim : Tensor -> Z -> result Tensor.
Variable at_unsqueeze : Tensor -> Z -> result Tensor.
Variable at_add : Tensor -> Tensor -> result Tensor.

Definition toTensor (v : IValue Tensor) : result Tensor :=
  match v with
  | IVTensor t => Ok t
  | _ => Err (InternalAssert "Expected Tensor")
  end.

(** [pop(stack, a, b)]: the top two values, the deeper one first. *)
Definition pop2 (stack : Stack Tensor)
  : result (IValue Tensor * IValue Tensor * Stack Tensor) :=
  '(b, stack) <- pop stack ;;
  '(a, stack) <- pop stack ;;
  Ok (a, b, stack).

Definition only_nvfuser_msg (op : string) : string :=
  op ++ " is only used by nvfuser to identify non-mutating "
     ++ "alias ops, should be restored after fusion pass!".

(** [name] is [node->s(attr::name)].  The two conversions of the popped
    values are arguments of one call, which C++ evaluates in either order;
    here the tensor is converted first. *)
Definition view_copy (name : string) (stack : Stack Tensor)
  : result (Stack Tensor) :=
  _ <- TORCH_CHECK (name =? "CudaFusionGroup") (only_nvfuser_msg "view_copy") ;;
  '(self, size, stack) <- pop2 stack ;;
  t <- toTensor self ;;
  s <- toIntVector size ;;
  r <- at_view t s ;;
  Ok (push stack (IVTensor r)).

Definition reshape_copy (name : string) (stack : Stack Tensor)
  : result (Stack Tensor) :=
  _ <- TORCH_CHECK (name =? "CudaFusionGroup") (only_nvfuser_msg "reshape_copy") ;;
  '(self, shape, stack) <- pop2 stack ;;
  t <- toTensor self ;;
  s <- toIntVector shape ;;
  r <- at_reshape t s ;;
  Ok (push stack (IVTensor r)).

Definition squeeze_copy (name : string) (stack : Stack Tensor)
  : result (Stack Tensor) :=
  _ <- TORCH_CHECK (name =? "CudaFusionGroup") (only_nvfuser_msg "squeeze_copy") ;;
  '(self, stack) <- pop stack ;;
  t <- toTensor self ;;
  r <- at_squeeze t ;;
  Ok (push stack (IVTensor r)).

Definition squeeze_dim_copy (name : string) (stack : Stack Tensor)
  : result (Stack Tensor) :=
  _ <- TORCH_CHECK (name =? "CudaFusionGroup") (only_nvfuser_msg "squeeze_dim_copy") ;;
  '(self, dim, stack) <- pop2 stack ;;
  t <- toTensor self ;;
  d <- toInt dim ;;
  r <- at_squeeze_dim t d ;;
  Ok (push stack (IVTensor r)).

Definition unsqueeze_copy (name : string) (stack : Stack Tensor)
  : result (Stack Tensor) :=
  _ <- TORCH_CHECK (name =? "CudaFusionGroup") (only_nvfuser_msg "unsqueeze_copy") ;;
  '(self, dim, stack) <- pop2 stack ;;
  t <- toTensor self ;;
  d <- toInt dim ;;
  r <- at_unsqueeze t d ;;
  Ok (push stack (IVTensor r)).

(** [prim::add_optional(Tensor(a) input, Tensor? bias) -> Tensor(a)] *)
Definition add_optional (stack : Stack Tensor)
  : result (Stack Tensor) :=
  '(input, bias, stack) <- pop2 stack ;;
  if isNone bias then Ok (push stack input)
  else
    a <- toTensor input ;;
    b <- toTensor bias ;;
    r <- at_add a b ;;
    Ok (push stack (IVTensor r)).

Lemma pop2_top (rest : Stack Tensor) (a b : IValue Tensor) :
  pop2 (rest ++ [a; b]) = Ok (a, b, rest).
Proof.
  unfold pop2. rewrite pop_two. cbn [bind]. rewrite pop_one. reflexivity.
Qed.

(** Outside a node named "CudaFusionGroup" each of the five [_copy]
    operators throws its check error before it looks at the stack, whatever
    the stack holds; inside one, [prim::view_copy] replaces a tensor and an
    int list on top of the stack by what [at::native::view] returns, and
    throws what it throws. *)
Theorem copy_ops_only_in_fusion_group (name : string) (stack rest : Stack Tensor)
  (t : Tensor) (size : list Z) :
  (name <> "CudaFusionGroup" ->
   view_copy name stack = Err (CheckError (only_nvfuser_msg "view_copy"))
   /\ reshape_copy name stack = Err (CheckError (only_nvfuser_msg "reshape_copy"))
   /\ squeeze_copy name stack = Err (CheckError (only_nvfuser_msg "squeeze_copy"))
   /\ squeeze_dim_copy name stack
      = Err (CheckError (only_nvfuser_msg "squeeze_dim_copy"))
   /\ unsqueeze_copy name stack
      = Err (CheckError (only_nvfuser_msg "unsqueeze_copy")))
  /\ view_copy "CudaFusionGroup" (rest ++ [IVTensor t; IVIntList size])
     = (r <- at_view t size ;; Ok (push rest (IVTensor r))).
Proof.
  split.
  - intros Hname. apply String.eqb_neq in Hname.
    unfold view_copy, reshape_copy, squeeze_copy, squeeze_dim_copy, unsqueeze_copy.
    rewrite Hname. repeat split.
  - unfold view_copy. rewrite String.eqb_refl. cbn [TORCH_CHECK bind].
    rewrite pop2_top. reflexivity.
Qed.

(** [prim::add_optional] with no bias leaves its input on the stack as it
    is, whatever kind of value it is; with a tensor as bias it pushes the
    sum of the two tensors, or throws what [at::add] throws, and it throws
    when the input is not a tensor. *)
Theorem add_optional_bias (rest : Stack Tensor) (input : IValue Tensor) (a b : Tensor) :
  add_optional (rest ++ [input; IVNone]) = Ok (push rest input)
  /\ add_optional (rest ++ [IVTensor a; IVTensor b])
     = (r <- at_add a b ;; Ok (push rest (IVTensor r)))
  /\ (isTensor input = false ->
      is_ok (add_optional (rest ++ [input; IVTensor b])) = false).
Proof.
  unfold add_optional. rewrite !pop2_top. cbn [bind isNone toTensor].
  repeat split. intros Hin. destruct input; try reflexivity. discriminate.
Qed.

End WithTensor.
End CopyOps.

(* ------------------------------------------------------------------ *)
(** * What the view guard accepts *)

Module ViewGuardAccepts.
Import ViewGuard.
Local Open Scope Z_scope.

(** Every constraint entry is -1 or the size at its index; the two lists
    have the same length. *)
Definition static_match (constraint sizes : list Z) : Prop :=
  Forall2 (fun c s => c = -1 \/ c = s) constraint sizes.

(** The sizes at the dynamic axes, those whose constraint is -1, in order. *)
Fixpoint dynamic_sizes (sizes constraint : list Z) : list Z :=
  match sizes, constraint with
  | s :: sizes', c :: constraint' =>
      if c =? -1 then s :: dynamic_sizes sizes' constraint'
      else dynamic_sizes sizes' constraint'
  | _, _ => []
  end.

Definition is_prefix (l1 l2 : list Z) : Prop := exists rest, l2 = l1 ++ rest.

(** Step 2 passes exactly on a static match, and then has queued the
    dynamic sizes of the tensor. *)
Lemma tensor_static_check_queue (sizes : list Z) :
  forall constraint q p q' p',
    length constraint = length sizes ->
    tensor_static_check sizes constraint q p = Ok (Some (q', p')) ->
    static_match constraint sizes /\ q' = q ++ dynamic_sizes sizes constraint.
Proof.
  induction sizes as [| s sizes IH]; intros [| c constraint] q p q' p' Hlen Hrun;
    try discriminate Hlen.
  - cbn in Hrun. injection Hrun as <- <-. split; [constructor | now rewrite app_nil_r].
  - cbn [tensor_static_check dynamic_sizes] in *. injection Hlen as Hlen.
    destruct (Z.eqb_spec c (-1)) as [Hc | Hc].
    + destruct (mul_int64 p s) as [p1 |]; [| discriminate]. cbn [bind] in Hrun.
      destruct (IH _ _ _ _ _ Hlen Hrun) as (Hm & ->). unfold queue_push.
      split; [constructor; auto | now rewrite <- app_assoc].
    + destruct (Z.eqb_spec c s) as [Hcs | Hcs]; cbn [negb] in Hrun; [| discriminate].
      destruct (mul_int64 p s) as [p1 |]; [| discriminate]. cbn [bind] in Hrun.
      destruct (IH _ _ _ _ _ Hlen Hrun) as (Hm & ->).
      split; [constructor; auto | reflexivity].
Qed.

Lemma tensor_static_check_complete (sizes constraint : list Z) :
  static_match constraint sizes ->
  forall q p,
    (forall k, fits_int64 (p * list_prod (firstn k sizes)) = true) ->
    tensor_static_check sizes constraint q p
    = Ok (Some (q ++ dynamic_sizes sizes constraint, p * list_prod sizes)).
Proof.
  induction 1 as [| c s constraint sizes Hcs _ IH]; intros q p Hfit.
  - cbn. now rewrite app_nil_r, Z.mul_1_r.
  - cbn [tensor_static_check dynamic_sizes].
    assert (Hmul : mul_int64 p s = Ok (p * s)).
    { apply mul_int64_fits. specialize (Hfit 1%nat). cbn in Hfit.
      now rewrite Z.mul_1_r in Hfit. }
    assert (Hrest : forall k, fits_int64 (p * s * list_prod (firstn k sizes)) = true).
    { intros k. specialize (Hfit (S k)). cbn in Hfit.
      now rewrite Z.mul_assoc in Hfit. }
    rewrite Hmul. cbn [bind].
    change (list_prod (s :: sizes)) with (s * list_prod sizes). rewrite Z.mul_assoc.
    destruct (Z.eqb_spec c (-1)) as [Hc | Hc].
    + rewrite IH by exact Hrest. unfold queue_push. now rewrite <- app_assoc.
    + destruct Hcs as [Hcs | Hcs]; [contradiction |]. subst c.
      rewrite Z.eqb_refl. cbn [negb]. now rewrite IH by exact Hrest.
Qed.

(** Step 3 passes exactly on a static match when the dynamic sizes of the
    view are at the front of the queue, in the same order. *)
Lemma view_static_check_queue (sizes : list Z) :
  forall constraint q p p',
    length constraint = length sizes ->
    view_static_check sizes constraint q p = Ok (Some p') ->
    static_match constraint sizes /\ is_prefix (dynamic_sizes sizes constraint) q.
Proof.
  induction sizes as [| s sizes IH]; intros [| c constraint] q p p' Hlen Hrun;
    try discriminate Hlen.
  - split; [constructor | now exists q].
  - cbn [view_static_check dynamic_sizes] in *. injection Hlen as Hlen.
    destruct (Z.eqb_spec c (-1)) as [Hc | Hc].
    + destruct q as [| x q]; cbn [queue_front queue_pop bind] in Hrun; [discriminate |].
      destruct (Z.eqb_spec x s) as [-> | Hx]; cbn [negb] in Hrun; [| discriminate].
      destruct (mul_int64 p s) as [p1 |]; [| discriminate]. cbn [bind] in Hrun.
      destruct (IH _ _ _ _ Hlen Hrun) as (Hm & rest & ->).
      split; [constructor; auto |]. now exists rest.
    + cbn [bind] in Hrun.
      destruct (Z.eqb_spec c s) as [-> | Hx]; cbn [negb] in Hrun; [| discriminate].
      destruct (mul_int64 p s) as [p1 |]; [| discriminate]. cbn [bind] in Hrun.
      destruct (IH _ _ _ _ Hlen Hrun) as (Hm & Hpre).
      split; [constructor; auto | exact Hpre].
Qed.

Lemma view_static_check_complete (sizes constraint : list Z) :
  static_match constraint sizes ->
  forall q p,
    is_prefix (dynamic_sizes sizes constraint) q ->
    (forall k, fits_int64 (p * list_prod (firstn k sizes)) = true) ->
    view_static_check sizes constraint q p = Ok (Some (p * list_prod sizes)).
Proof.
  induction 1 as [| c s constraint sizes Hcs _ IH]; intros q p Hpre Hfit.
  - cbn. now rewrite Z.mul_1_r.
  - cbn [view_static_check dynamic_sizes] in *.
    assert (Hmul : mul_int64 p s = Ok (p * s)).
    { apply mul_int64_fits. specialize (Hfit 1%nat). cbn in Hfit.
      now rewrite Z.mul_1_r in Hfit. }
    assert (Hrest : forall k, fits_int64 (p * s * list_prod (firstn k sizes)) = true).
    { intros k. specialize (Hfit (S k)). cbn in Hfit.
      now rewrite Z.mul_assoc in Hfit. }
    change (list_prod (s :: sizes)) with (s * list_prod sizes). rewrite Z.mul_assoc.
    destruct (Z.eqb_spec c (-1)) as [Hc | Hc].
    + destruct Hpre as (rest & ->). cbn [app queue_front queue_pop bind].
      rewrite Z.eqb_refl. cbn [negb]. rewrite Hmul. cbn [bind].
      apply IH; [now exists rest | exact Hrest].
    + destruct Hcs as [Hcs | Hcs]; [contradiction |]. subst c. cbn [bind].
      rewrite Z.eqb_refl. cbn [negb]. rewrite Hmul. cbn [bind].
      apply IH; [exact Hpre | exact Hrest].
Qed.

Lemma static_match_length (constraint sizes : list Z) :
  static_match constraint sizes -> length constraint = length sizes.
Proof. apply Forall2_length. Qed.

(** When no partial product of the sizes overflows [int64_t],
    [checkViewGuard] returns true exactly when both size lists match the
    static entries of their constraints, the dynamic axes of the view have,
    in order, the sizes of the first dynamic axes of the tensor, and the two
    products are equal.  The forward direction holds without the condition
    on the products. *)
Theorem checkViewGuard_accepts_exactly (tensor_sizes view_sizes tensor_constraint
  view_sizes_constraint : list Z) :
  prefix_products_fit tensor_sizes ->
  prefix_products_fit view_sizes ->
  (checkViewGuard tensor_sizes view_sizes tensor_constraint view_sizes_constraint
   = Ok true
   <-> static_match tensor_constraint tensor_sizes
       /\ static_match view_sizes_constraint view_sizes
       /\ is_prefix (dynamic_sizes view_sizes view_sizes_constraint)
            (dynamic_sizes tensor_sizes tensor_constraint)
       /\ list_prod tensor_sizes = list_prod view_sizes).
Proof.
  intros Hfit1 Hfit2. split.
  - intros Hrun.
    destruct (checkViewGuard_true _ _ _ _ Hrun) as (Hprod & Hl1 & Hl2 & _).
    unfold checkViewGuard in Hrun.
    rewrite Hl1, Hl2, !Nat.eqb_refl in Hrun. cbn [negb orb] in Hrun.
    destruct (tensor_static_check tensor_sizes tensor_constraint [] 1)
      as [[[q tp] |] |] eqn:H1; cbn [bind] in Hrun; try discriminate.
    destruct (view_static_check view_sizes view_sizes_constraint q 1)
      as [[vp |] |] eqn:H2; cbn [bind] in Hrun; try discriminate.
    destruct (tensor_static_check_queue _ _ _ _ _ _ Hl1 H1) as (Hm1 & ->).
    destruct (view_static_check_queue _ _ _ _ _ Hl2 H2) as (Hm2 & Hpre).
    repeat split; auto.
  - intros (Hm1 & Hm2 & Hpre & Hprod). unfold checkViewGuard.
    rewrite (static_match_length _ _ Hm1), (static_match_length _ _ Hm2),
      !Nat.eqb_refl.
    cbn [negb orb].
    rewrite (tensor_static_check_complete _ _ Hm1)
      by (intros k; rewrite Z.mul_1_l; apply Hfit1).
    cbn [bind app].
    rewrite (view_static_check_complete _ _ Hm2 _ _ Hpre)
      by (intros k; rewrite Z.mul_1_l; apply Hfit2).
    cbn [bind]. rewrite !Z.mul_1_l. f_equal. now apply Z.eqb_eq.
Qed.

(** A [4 x 5 x 6] tensor viewed as [4 x 5 x 2 x 3], the first two axes
    dynamic. *)
Lemma checkViewGuard_accepts_exactly_witness :
  checkViewGuard [4; 5; 6] [4; 5; 2; 3] [-1; -1; 6] [-1; -1; 2; 3] = Ok true
  <-> static_match [-1; -1; 6] [4; 5; 6]
      /\ static_match [-1; -1; 2; 3] [4; 5; 2; 3]
      /\ is_prefix (dynamic_sizes [4; 5; 2; 3] [-1; -1; 2; 3])
           (dynamic_sizes [4; 5; 6] [-1; -1; 6])
      /\ list_prod [4; 5; 6] = list_prod [4; 5; 2; 3].
Proof.
  apply checkViewGuard_accepts_exactly; intros k.
  - do 4 (destruct k as [| k]; [reflexivity |]). reflexivity.
  - do 5 (destruct k as [| k]; [reflexivity |]). reflexivity.
Defined.

End ViewGuardAccepts.

(* ------------------------------------------------------------------ *)
(** * What inferViewShape infers *)

Module ViewInference.
Import Stack ViewGuard GuardOps.
Local Open Scope Z_scope.

Lemma list_prod_app (l1 l2 : list Z) :
  list_prod (l1 ++ l2) = list_prod l1 * list_prod l2.
Proof.
  induction l1 as [| x l1 IH]; cbn [app].
  - unfold list_prod. cbn [fold_right]. lia.
  - change (list_prod (x :: l1 ++ l2)) with (x * list_prod (l1 ++ l2)).
    change (list_prod (x :: l1)) with (x * list_prod l1). rewrite IH. lia.
Qed.

Lemma list_prod_pos (l : list Z) : Forall (fun v => 0 < v) l -> 1 <= list_prod l.
Proof.
  induction 1 as [| x l Hx _ IH]; [cbn; lia |].
  change (list_prod (x :: l)) with (x * list_prod l). nia.
Qed.

Lemma list_prod_nonneg (l : list Z) :
  Forall (fun s => 0 <= s < 2 ^ 31) l -> 0 <= list_prod l.
Proof.
  induction 1 as [| x l Hx _ IH]; [cbn; lia |].
  change (list_prod (x :: l)) with (x * list_prod l). nia.
Qed.

(** The loop of [inferViewShape] over static sizes: the dynamic index is
    kept, the sizes are multiplied. *)
Lemma infer_scan_static (l : list Z) :
  forall idx dynamic_index num_elements,
    Forall (fun v => 0 < v) l ->
    1 <= num_elements -> num_elements * list_prod l < 2 ^ 64 ->
    forall rest,
      infer_scan (l ++ rest) idx dynamic_index num_elements
      = infer_scan rest (idx + Z.of_nat (length l)) dynamic_index
          (num_elements * list_prod l).
Proof.
  induction l as [| v l IH]; intros idx di n Hall Hn Hfit rest.
  - cbn. now rewrite Z.add_0_r, Z.mul_1_r.
  - inversion Hall as [| v' l' Hv Hl]; subst.
    pose proof (list_prod_pos l Hl) as Hpos.
    change (list_prod (v :: l)) with (v * list_prod l) in *.
    cbn [app infer_scan].
    destruct (Z.eqb_spec v (-1)) as [Heq | _]; [lia |].
    destruct (Z.ltb_spec 0 v) as [_ | Hn0]; [| lia].
    cbn [TORCH_INTERNAL_ASSERT bind].
    unfold to_size_t. rewrite (Z.mod_small v) by nia.
    rewrite (Z.mod_small (n * v)) by nia.
    rewrite IH by (auto; nia).
    cbn [length]. rewrite Nat2Z.inj_succ. f_equal; lia.
Qed.

Lemma set_index_middle (pre suf : list Z) (old v : Z) :
  set_index (pre ++ old :: suf) (Z.of_nat (length pre)) v = pre ++ v :: suf.
Proof.
  unfold set_index. rewrite Nat2Z.id.
  rewrite firstn_app, firstn_all, Nat.sub_diag. cbn [firstn].
  rewrite app_nil_r. f_equal. f_equal.
  change (S (length pre)) with (1 + length pre)%nat.
  rewrite <- (skipn_skipn 1 (length pre)).
  rewrite skipn_app, skipn_all, Nat.sub_diag. reflexivity.
Qed.

(** [inferViewShape] on a view with one dynamic axis between static sizes:
    the number of elements of the tensor is taken through [int], and the
    quotient is written over the -1 when the static sizes divide it. *)
Lemma inferViewShape_dynamic (tensor_sizes pre suf : list Z) :
  Forall (fun v => 0 < v) pre -> Forall (fun v => 0 < v) suf ->
  list_prod pre * list_prod suf < 2 ^ 64 ->
  let kNumElements := to_size_t (to_int (list_prod tensor_sizes)) in
  let static := list_prod pre * list_prod suf in
  inferViewShape tensor_sizes (pre ++ -1 :: suf)
  = if kNumElements mod static =? 0
    then Ok (true, pre ++ to_int64 (kNumElements / static) :: suf)
    else Ok (false, pre ++ -1 :: suf).
Proof.
  intros Hpre Hsuf Hfit. cbv zeta.
  pose proof (list_prod_pos pre Hpre) as Hp1.
  pose proof (list_prod_pos suf Hsuf) as Hp2.
  unfold inferViewShape.
  rewrite (infer_scan_static pre 0 (-1) 1 Hpre) by nia.
  cbn [infer_scan]. rewrite Z.eqb_refl. cbn [TORCH_INTERNAL_ASSERT bind].
  rewrite Z.mul_1_l.
  replace suf with (suf ++ []) at 1 by apply app_nil_r.
  rewrite (infer_scan_static suf _ _ _ Hsuf) by nia.
  cbn [infer_scan bind]. rewrite accumulate_int_wraps.
  destruct (Z.eqb_spec (list_prod pre * list_prod suf) 0) as [Hz | _]; [nia |].
  destruct (to_size_t (to_int (list_prod tensor_sizes))
              mod (list_prod pre * list_prod suf) =? 0); cbn [negb];
    [| reflexivity].
  destruct (Z.eqb_spec (0 + Z.of_nat (length pre)) (-1)) as [Hneg | _]; [lia |].
  cbn [negb]. now rewrite Z.add_0_l, set_index_middle.
Qed.

(** For a tensor of fewer than [2 ^ 31] elements and a view with one
    dynamic axis, [inferViewShape] accepts exactly when the static sizes of
    the view divide the number of elements, and then replaces the -1 by the
    quotient, so that the inferred view has as many elements as the tensor;
    when it rejects, the view is left as it was. *)
Theorem inferViewShape_infers_dynamic_axis (tensor_sizes pre suf : list Z) :
  Forall (fun s => 0 <= s < 2 ^ 31) tensor_sizes ->
  list_prod tensor_sizes < 2 ^ 31 ->
  Forall (fun v => 0 < v) pre -> Forall (fun v => 0 < v) suf ->
  list_prod pre * list_prod suf < 2 ^ 64 ->
  let numel := list_prod tensor_sizes in
  let static := list_prod pre * list_prod suf in
  (numel mod static = 0 ->
   inferViewShape tensor_sizes (pre ++ -1 :: suf)
   = Ok (true, pre ++ numel / static :: suf)
   /\ list_prod (pre ++ numel / static :: suf) = numel)
  /\ (numel mod static <> 0 ->
      inferViewShape tensor_sizes (pre ++ -1 :: suf)
      = Ok (false, pre ++ -1 :: suf)).
Proof.
  intros Hts Hsmall Hpre Hsuf Hfit. cbv zeta.
  pose proof (list_prod_nonneg tensor_sizes Hts) as Hnn.
  pose proof (list_prod_pos pre Hpre) as Hp1.
  pose proof (list_prod_pos suf Hsuf) as Hp2.
  pose proof (inferViewShape_dynamic tensor_sizes pre suf Hpre Hsuf Hfit) as Hrun.
  cbv zeta in Hrun.
  assert (HK : to_size_t (to_int (list_prod tensor_sizes)) = list_prod tensor_sizes).
  { unfold to_size_t, to_int.
    rewrite (Z.mod_small (list_prod tensor_sizes + 2 ^ 31)) by lia.
    rewrite Z.mod_small by lia. lia. }
  rewrite HK in Hrun.
  set (numel := list_prod tensor_sizes) in *.
  set (static := list_prod pre * list_prod suf) in *.
  assert (Hq : 0 <= numel / static <= numel).
  { split; [apply Z.div_pos; lia |].
    apply Z.div_le_upper_bound; nia. }
  split.
  - intros Hdiv. rewrite Hdiv in Hrun. cbn in Hrun.
    assert (H64 : to_int64 (numel / static) = numel / static).
    { unfold to_int64. rewrite Z.mod_small by lia. lia. }
    rewrite H64 in Hrun. split; [exact Hrun |].
    rewrite list_prod_app.
    change (list_prod (numel / static :: suf)) with (numel / static * list_prod suf).
    pose proof (Z.div_mod numel static ltac:(lia)) as Hdm. rewrite Hdiv in Hdm.
    unfold static in *. nia.
  - intros Hdiv. destruct (Z.eqb_spec (numel mod static) 0) as [Hz | _];
      [contradiction | exact Hrun].
Qed.

(** A [4 x 6] tensor viewed as [2 x -1 x 3]. *)
Lemma inferViewShape_infers_dynamic_axis_witness :
  (list_prod [4; 6] mod (list_prod [2] * list_prod [3]) = 0 ->
   inferViewShape [4; 6] ([2] ++ -1 :: [3])
   = Ok (true, [2] ++ list_prod [4; 6] / (list_prod [2] * list_prod [3]) :: [3])
   /\ list_prod ([2] ++ list_prod [4; 6] / (list_prod [2] * list_prod [3]) :: [3])
      = list_prod [4; 6])
  /\ (list_prod [4; 6] mod (list_prod [2] * list_prod [3]) <> 0 ->
      inferViewShape [4; 6] ([2] ++ -1 :: [3]) = Ok (false, [2] ++ -1 :: [3])).
Proof.
  apply (inferViewShape_infers_dynamic_axis [4; 6] [2] [3]).
  - repeat constructor; lia.
  - cbn. lia.
  - repeat constructor.
  - repeat constructor.
  - cbn. lia.
Defined.

(** A tensor with sizes below [2 ^ 31] whose number of elements is a
    multiple of [2 ^ 32] counts as empty: whatever the static sizes of the
    view are, [inferViewShape] accepts it and infers 0 for the dynamic
    axis. *)
Theorem inferViewShape_wraps_at_32_bits (tensor_sizes pre suf : list Z) :
  Forall (fun s => 0 <= s < 2 ^ 31) tensor_sizes ->
  list_prod tensor_sizes mod 2 ^ 32 = 0 ->
  Forall (fun v => 0 < v) pre -> Forall (fun v => 0 < v) suf ->
  list_prod pre * list_prod suf < 2 ^ 64 ->
  inferViewShape tensor_sizes (pre ++ -1 :: suf) = Ok (true, pre ++ 0 :: suf).
Proof.
  intros _ Hwrap Hpre Hsuf Hfit.
  pose proof (inferViewShape_dynamic tensor_sizes pre suf Hpre Hsuf Hfit) as Hrun.
  cbv zeta in Hrun.
  assert (HK : to_size_t (to_int (list_prod tensor_sizes)) = 0).
  { unfold to_size_t, to_int.
    replace (list_prod tensor_sizes + 2 ^ 31)
      with (2 ^ 31 + list_prod tensor_sizes / 2 ^ 32 * 2 ^ 32)
      by (pose proof (Z.div_mod (list_prod tensor_sizes) (2 ^ 32) ltac:(lia)); lia).
    rewrite Z_mod_plus_full. reflexivity. }
  rewrite HK in Hrun. rewrite Z.mod_0_l in Hrun.
  - exact Hrun.
  - pose proof (list_prod_pos pre Hpre). pose proof (list_prod_pos suf Hsuf). nia.
Qed.

(** A [65536 x 65536] tensor viewed as [3 x -1]. *)
Lemma inferViewShape_wraps_at_32_bits_witness :
  inferViewShape [65536; 65536] ([3] ++ -1 :: []) = Ok (true, [3] ++ 0 :: []).
Proof.
  apply (inferViewShape_wraps_at_32_bits [65536; 65536] [3] []).
  - repeat constructor; lia.
  - reflexivity.
  - repeat constructor.
  - constructor.
  - cbn. lia.
Defined.

(** For a tensor of fewer than [2 ^ 31] elements and a view without a
    dynamic axis, [inferViewShape] leaves the view as it is and accepts it
    exactly when its number of elements divides that of the tensor; the two
    numbers need not be equal. *)
Theorem inferViewShape_static_view (tensor_sizes view_sizes : list Z) :
  Forall (fun s => 0 <= s < 2 ^ 31) tensor_sizes ->
  list_prod tensor_sizes < 2 ^ 31 ->
  Forall (fun v => 0 < v) view_sizes ->
  list_prod view_sizes < 2 ^ 64 ->
  inferViewShape tensor_sizes view_sizes
  = Ok (list_prod tensor_sizes mod list_prod view_sizes =? 0, view_sizes).
Proof.
  intros Hts Hsmall Hvs Hfit.
  pose proof (list_prod_nonneg tensor_sizes Hts) as Hnn.
  pose proof (list_prod_pos view_sizes Hvs) as Hpos.
  unfold inferViewShape.
  replace view_sizes with (view_sizes ++ []) at 1 by apply app_nil_r.
  rewrite (infer_scan_static view_sizes 0 (-1) 1 Hvs) by lia.
  cbn [infer_scan bind]. rewrite Z.mul_1_l, accumulate_int_wraps.
  assert (HK : to_size_t (to_int (list_prod tensor_sizes)) = list_prod tensor_sizes).
  { unfold to_size_t, to_int.
    rewrite (Z.mod_small (list_prod tensor_sizes + 2 ^ 31)) by lia.
    rewrite Z.mod_small by lia. lia. }
  rewrite HK.
  destruct (Z.eqb_spec (list_prod view_sizes) 0) as [Hz | _]; [lia |].
  destruct (list_prod tensor_sizes mod list_prod view_sizes =? 0); reflexivity.
Qed.

(** A [4 x 6] tensor and the view [2 x 3]: 6 elements for 24. *)
Lemma inferViewShape_static_view_witness :
  inferViewShape [4; 6] [2; 3] = Ok (true, [2; 3]).
Proof.
  apply (inferViewShape_static_view [4; 6] [2; 3]).
  - repeat constructor; lia.
  - cbn. lia.
  - repeat constructor.
  - cbn. lia.
Defined.

(** With guarding enabled, [prim::CudaFusionViewGuard] pushes true only if
    [inferViewShape] accepted the view and the view it inferred has as many
    elements as the tensor and passes [checkViewGuard]. *)
Theorem view_guard_true_inferred (rest : GuardOps.Stack)
  (tensor_sizes view_sizes tensor_constraint view_sizes_constraint : list Z) :
  view_guard true
    (rest ++ [IVIntList tensor_sizes; IVIntList view_sizes;
              IVIntList tensor_constraint; IVIntList view_sizes_constraint])
  = Ok (push rest (IVBool true)) ->
  exists inferred,
    inferViewShape tensor_sizes view_sizes = Ok (true, inferred)
    /\ checkViewGuard tensor_sizes inferred tensor_constraint view_sizes_constraint
       = Ok true
    /\ list_prod tensor_sizes = list_prod inferred.
Proof.
  unfold view_guard.
  rewrite (last_top _ rest [_; _; _; _] 4 eq_refl),
    (drop_top _ rest [_; _; _; _] 4 eq_refl).
  simpl.
  destruct (inferViewShape tensor_sizes view_sizes) as [[status inferred] | e];
    cbn [bind]; [| discriminate].
  destruct status; cbn [negb].
  - destruct (checkViewGuard tensor_sizes inferred tensor_constraint
                view_sizes_constraint) as [guard_status | e] eqn:Hguard;
      cbn [bind]; [| discriminate].
    intros Hpush. unfold push in Hpush.
    assert (guard_status = true) as ->.
    { injection Hpush as Hpush. apply app_inv_head in Hpush. congruence. }
    exists inferred. split; [reflexivity |]. split; [exact Hguard |].
    now apply checkViewGuard_true in Hguard.
  - intros Hpush. unfold push in Hpush.
    injection Hpush as Hpush. apply app_inv_head in Hpush. discriminate.
Qed.

(** The guard of the example graph of the source, with the dynamic axis of
    the view left to be inferred. *)
Lemma view_guard_true_inferred_witness :
  exists inferred,
    inferViewShape [4; 5; 6] [4; 5; -1; 3] = Ok (true, inferred)
    /\ checkViewGuard [4; 5; 6] inferred [-1; -1; 6] [-1; -1; 2; 3] = Ok true
    /\ list_prod [4; 5; 6] = list_prod inferred.
Proof.
  apply (view_guard_true_inferred []
           [4; 5; 6] [4; 5; -1; 3] [-1; -1; 6] [-1; -1; 2; 3]).
  reflexivity.
Defined.

End ViewInference.

(* ------------------------------------------------------------------ *)
(** * The Python bindings of the dispatcher *)

Module PythonDispatch.
Local Open Scope string_scope.
Local Open Scope list_scope.

(** [torch::Library::Kind] *)
Inductive Kind : Type := DEF | IMPL | FRAGMENT.

(** The values of [c10::AliasAnalysisKind] the bindings name. *)
Inductive AliasAnalysisKind : Type := CONSERVATIVE | FROM_SCHEMA | PURE_FUNCTION.

(** [std::unordered_map<std::string, V>::find] on a map built from a list
    of entries with distinct keys; [None] is [end()]. *)
Fixpoint find {V : Type} (map : list (string * V)) (k : string) : option V :=
  match map with
  | [] => None
  | (key, v) :: rest => if key =? k then Some v else find rest k
  end.

Definition kind_map : list (string * Kind) :=
  [("DEF", DEF); ("IMPL", IMPL); ("FRAGMENT", FRAGMENT)].

Definition parseKind (k : string) : result Kind :=
  let it := find kind_map k in
  _ <- TORCH_CHECK (match it with Some _ => true | None => false end)
         ("could not parse " ++ k) ;;
  match it with
  | Some second => Ok second
  | None => Err (OutOfContract "dereference of end()")
  end.

Definition key_map : list (string * AliasAnalysisKind) :=
  [("CONSERVATIVE", CONSERVATIVE); ("FROM_SCHEMA", FROM_SCHEMA);
   ("PURE_FUNCTION", PURE_FUNCTION); (EmptyString, FROM_SCHEMA)].

Definition parseAliasAnalysisKind (k : string) : result AliasAnalysisKind :=
  let it := find key_map k in
  _ <- TORCH_CHECK (match it with Some _ => true | None => false end)
         ("could not parse " ++ k) ;;
  match it with
  | Some second => Ok second
  | None => Err (OutOfContract "dereference of end()")
  end.

Section WithHost.
(** The host types, and the host functions the two bindings call:
    [torch::schema] and [torch::Library::def], both of which may throw. *)
Variables FunctionSchema Library : Type.
Variable torch_schema : string -> AliasAnalysisKind -> result FunctionSchema.
Variable Library_def : Library -> FunctionSchema -> result Library.

(** A binding is modelled by the library it leaves behind, or the error
    it throws.  The binding [def_(schema, alias)] of [_DispatchModule],
    whose [alias] defaults to the empty string; it also hands the library
    back to Python. *)
Definition def_ (self : Library) (schema alias : string) : result Library :=
  kind <- parseAliasAnalysisKind alias ;;
  s <- torch_schema schema kind ;;
  Library_def self s.

(** The binding [define(schema)], which hands nothing back. *)
Definition define (self : Library) (schema : string) : result Library :=
  s <- torch_schema schema FROM_SCHEMA ;;
  Library_def self s.

(** [parseKind] accepts exactly the three names "DEF", "IMPL" and
    "FRAGMENT", each for the kind of that name, and
    [parseAliasAnalysisKind] exactly "CONSERVATIVE", "FROM_SCHEMA",
    "PURE_FUNCTION" and the empty string, which stands for FROM_SCHEMA.
    On any other string, a name in lower case included, each throws the
    check error "could not parse " followed by the string; neither ever
    dereferences [end()]. *)
Theorem parse_kinds_accept_exactly (k : string) :
  (parseKind k = Ok DEF <-> k = "DEF")
  /\ (parseKind k = Ok IMPL <-> k = "IMPL")
  /\ (parseKind k = Ok FRAGMENT <-> k = "FRAGMENT")
  /\ (k <> "DEF" -> k <> "IMPL" -> k <> "FRAGMENT" ->
      parseKind k = Err (CheckError ("could not parse " ++ k)))
  /\ (parseAliasAnalysisKind k = Ok CONSERVATIVE <-> k = "CONSERVATIVE")
  /\ (parseAliasAnalysisKind k = Ok FROM_SCHEMA
      <-> k = "FROM_SCHEMA" \/ k = EmptyString)
  /\ (parseAliasAnalysisKind k = Ok PURE_FUNCTION <-> k = "PURE_FUNCTION")
  /\ (k <> "CONSERVATIVE" -> k <> "FROM_SCHEMA" -> k <> "PURE_FUNCTION" ->
      k <> EmptyString ->
      parseAliasAnalysisKind k = Err (CheckError ("could not parse " ++ k))).
Proof.
  unfold parseKind, parseAliasAnalysisKind, kind_map, key_map. cbn [find].
  destruct (String.eqb_spec "DEF" k) as [<- | Hdef];
    [cbn; repeat split; intros; try reflexivity; try discriminate; try congruence;
     try (destruct H as [H | H]; discriminate) |].
  destruct (String.eqb_spec "IMPL" k) as [<- | Himpl];
    [cbn; repeat split; intros; try reflexivity; try discriminate; try congruence;
     try (destruct H as [H | H]; discriminate) |].
  destruct (String.eqb_spec "FRAGMENT" k) as [<- | Hfrag];
    [cbn; repeat split; intros; try reflexivity; try discriminate; try congruence;
     try (destruct H as [H | H]; discriminate) |].
  destruct (String.eqb_spec "CONSERVATIVE" k) as [<- | Hcons];
    [cbn; repeat split; intros; try reflexivity; try discriminate; try congruence;
     try (destruct H as [H | H]; discriminate) |].
  destruct (String.eqb_spec "FROM_SCHEMA" k) as [<- | Hfrom];
    [cbn; repeat split; intros; try reflexivity; try discriminate; try congruence;
     try (now left) |].
  destruct (String.eqb_spec "PURE_FUNCTION" k) as [<- | Hpure];
    [cbn; repeat split; intros; try reflexivity; try discriminate; try congruence;
     try (destruct H as [H | H]; discriminate) |].
  destruct (String.eqb_spec EmptyString k) as [<- | Hempty];
    [cbn; repeat split; intros; try reflexivity; try discriminate; try congruence;
     try (now right) |].
  cbn [TORCH_CHECK bind].
  repeat split; intros; try reflexivity; try discriminate; try congruence.
  destruct H as [H | H]; congruence.
Qed.

(** [def_] with the alias left out, or given as "FROM_SCHEMA", does what
    [define] does: the schema is parsed with FROM_SCHEMA and defined in
    the library.  With an alias [parseAliasAnalysisKind] rejects, [def_]
    throws that error; the schema is not parsed and the library not
    changed. *)
Theorem def__default_alias_is_define (self : Library) (schema alias : string) :
  def_ self schema EmptyString = define self schema
  /\ def_ self schema "FROM_SCHEMA" = define self schema
  /\ (alias <> "CONSERVATIVE" -> alias <> "FROM_SCHEMA" ->
      alias <> "PURE_FUNCTION" -> alias <> EmptyString ->
      def_ self schema alias = Err (CheckError ("could not parse " ++ alias))).
Proof.
  split; [reflexivity |]. split; [reflexivity |].
  intros Hc Hf Hp He. unfold def_, parseAliasAnalysisKind, key_map. cbn [find].
  destruct (String.eqb_spec "CONSERVATIVE" alias) as [Heq | _]; [congruence |].
  destruct (String.eqb_spec "FROM_SCHEMA" alias) as [Heq | _]; [congruence |].
  destruct (String.eqb_spec "PURE_FUNCTION" alias) as [Heq | _]; [congruence |].
  destruct (String.eqb_spec EmptyString alias) as [Heq | _]; [congruence |].
  reflexivity.
Qed.

End WithHost.
End PythonDispatch.

(* ------------------------------------------------------------------ *)
(** * The softmax kernels in exact real arithmetic *)

Module SoftMaxReal.
Import SoftMax.
Local Open Scope Z_scope.

(** ** Sums of real numbers *)

Lemma ssum_from (l : list R) (a : R) : fold_left Rplus l a = (a + ssum l)%R.
Proof.
  unfold ssum. cbn [add zero R_Scalar].
  revert a. induction l as [| x l IH]; intros a; cbn [fold_left].
  - lra.
  - rewrite (IH (a + x)%R), (IH (0 + x)%R). lra.
Qed.

Lemma ssum_cons (x : R) (l : list R) : ssum (x :: l) = (x + ssum l)%R.
Proof.
  unfold ssum at 1. cbn [add zero R_Scalar fold_left]. rewrite ssum_from. lra.
Qed.

Lemma ssum_nil : ssum (@nil R) = 0%R.
Proof. reflexivity. Qed.

Lemma ssum_map_scale {A : Type} (f : A -> R) (c : R) (l : list A) :
  ssum (map (fun k => (f k * c)%R) l) = (ssum (map f l) * c)%R.
Proof.
  induction l as [| x l IH]; cbn [map].
  - rewrite ssum_nil. lra.
  - rewrite !ssum_cons, IH. lra.
Qed.

Lemma ssum_map_minus {A : Type} (f g : A -> R) (l : list A) :
  ssum (map (fun k => (f k - g k)%R) l) = (ssum (map f l) - ssum (map g l))%R.
Proof.
  induction l as [| x l IH]; cbn [map].
  - rewrite ssum_nil. lra.
  - rewrite !ssum_cons, IH. lra.
Qed.

Lemma ssum_pos (l : list R) :
  l <> [] -> Forall (fun y => (0 < y)%R) l -> (0 < ssum l)%R.
Proof.
  intros Hne Hall. induction Hall as [| x l Hx Hl IH]; [congruence |].
  rewrite ssum_cons. destruct l as [| y l].
  - rewrite ssum_nil. lra.
  - assert (0 < ssum (y :: l))%R by (apply IH; discriminate). lra.
Qed.

Lemma ssum_nonneg (l : list R) : Forall (fun y => (0 < y)%R) l -> (0 <= ssum l)%R.
Proof.
  induction 1 as [| x l Hx _ IH].
  - rewrite ssum_nil. lra.
  - rewrite ssum_cons. lra.
Qed.

Lemma ssum_bounds_elements (l : list R) (y : R) :
  Forall (fun y => (0 < y)%R) l -> In y l -> (y <= ssum l)%R.
Proof.
  induction 1 as [| x l Hx Hl IH]; intros Hin; [contradiction |].
  rewrite ssum_cons. destruct Hin as [-> | Hin].
  - pose proof (ssum_nonneg l Hl). lra.
  - specialize (IH Hin). lra.
Qed.

Lemma exp_all_pos (xs : list R) : Forall (fun y => (0 < y)%R) (map exp xs).
Proof. apply Forall_forall. intros y Hy. apply in_map_iff in Hy as (x & <- & _). apply exp_pos. Qed.

Lemma ssum_exp_pos (xs : list R) : xs <> [] -> (0 < ssum (map exp xs))%R.
Proof.
  intros Hne. apply ssum_pos; [| apply exp_all_pos].
  destruct xs; [congruence | discriminate].
Qed.

(** ** The values the kernels compute *)

(** Subtracting the maximum does not change the quotient. *)
Lemma softmax_value_quotient (xs : list R) (x : R) :
  xs <> [] -> softmax_value xs x = (exp x / ssum (map exp xs))%R.
Proof.
  intros Hne. unfold softmax_value. cbv zeta. cbn [div sexp sub R_Scalar].
  set (m := list_max xs).
  pose proof (ssum_exp_pos xs Hne) as Hpos.
  pose proof (exp_pos m) as Hm.
  assert (Hsum : ssum (map (fun y => exp (y - m)) xs)
                 = (ssum (map exp xs) * / exp m)%R).
  { rewrite <- ssum_map_scale. f_equal. apply map_ext. intros y.
    unfold Rminus. now rewrite exp_plus, exp_Ropp. }
  rewrite Hsum. unfold Rminus. rewrite exp_plus, exp_Ropp. field. lra.
Qed.

Lemma softmax_value_sums_to_one (xs : list R) :
  xs <> [] -> ssum (map (softmax_value xs) xs) = 1%R.
Proof.
  intros Hne. pose proof (ssum_exp_pos xs Hne) as Hpos.
  rewrite (map_ext_in _ (fun x => (exp x * / ssum (map exp xs))%R)).
  - rewrite ssum_map_scale. field. lra.
  - intros x _. now rewrite softmax_value_quotient.
Qed.

Lemma softmax_value_range (xs : list R) (x : R) :
  In x xs -> (0 < softmax_value xs x <= 1)%R.
Proof.
  intros Hin. assert (Hne : xs <> []) by (destruct xs; [contradiction | discriminate]).
  rewrite softmax_value_quotient by exact Hne.
  pose proof (ssum_exp_pos xs Hne) as Hpos.
  pose proof (exp_pos x) as Hx.
  assert (Hle : (exp x <= ssum (map exp xs))%R).
  { apply ssum_bounds_elements; [apply exp_all_pos | now apply in_map]. }
  split.
  - apply Rdiv_lt_0_compat; assumption.
  - apply (Rmult_le_reg_r (ssum (map exp xs))); [exact Hpos |].
    unfold Rdiv. rewrite Rmult_assoc, Rinv_l by lra. lra.
Qed.

(** The exponential of the log-softmax is the softmax. *)
Lemma exp_log_softmax_value (xs : list R) (x : R) :
  xs <> [] -> exp (log_softmax_value xs x) = softmax_value xs x.
Proof.
  intros Hne. unfold log_softmax_value, softmax_value. cbv zeta.
  cbn [div sexp slog sub R_Scalar].
  set (m := list_max xs).
  assert (Hpos : (0 < ssum (map (fun y => exp (y - m)) xs))%R).
  { apply ssum_pos; [destruct xs; [congruence | discriminate] |].
    apply Forall_forall. intros y Hy. apply in_map_iff in Hy as (z & <- & _).
    apply exp_pos. }
  unfold Rminus at 1. rewrite exp_plus, exp_Ropp, exp_ln by exact Hpos.
  reflexivity.
Qed.

(** [m] holds a probability distribution along the slice at [p]: the
    quotients [exp x_d / sum_j exp x_j], each in [(0, 1]], with sum 1. *)
Definition distribution_along (m input : @buffer R) (p stride n : Z) : Prop :=
  ssum (slice m p stride n) = 1%R
  /\ forall d, 0 <= d < n ->
       (0 < m (p + d * stride)%Z <= 1)%R
       /\ m (p + d * stride)
          = (exp (input (p + d * stride)%Z) / ssum (map exp (slice input p stride n)))%R.

Lemma distribution_along_softmax (m input : @buffer R) (p stride n : Z) :
  0 < n ->
  (forall d, 0 <= d < n ->
     m (p + d * stride)
     = softmax_value (slice input p stride n) (input (p + d * stride))) ->
  distribution_along m input p stride n.
Proof.
  intros Hn Hv.
  assert (Hne : slice input p stride n <> []) by now apply slice_nonempty.
  split.
  - rewrite <- (softmax_value_sums_to_one (slice input p stride n) Hne).
    unfold slice at 3. rewrite tabulate_map. f_equal.
    apply tabulate_ext. exact Hv.
  - intros d Hd. rewrite (Hv d Hd). split.
    + apply softmax_value_range. apply in_slice. now exists d.
    + now apply softmax_value_quotient.
Qed.

(** In exact real arithmetic each softmax forward kernel returns and leaves
    a probability distribution in every slice: the entries are
    [exp x_d / sum_j exp x_j], the maximum the kernel subtracts having
    cancelled, each lies in [(0, 1]], and they sum to 1. *)
Theorem softmax_kernels_normalize
  (input output : @buffer R) (outer_size inner_size dim_size : Z)
  (vectorized_step float_lanes : Z) (rows columns : list (Z * Z)) :
  0 <= outer_size -> 0 < dim_size -> 0 < inner_size ->
  0 < vectorized_step -> 0 < float_lanes ->
  is_partition 0 outer_size rows ->
  is_partition 0 (outer_size * inner_size) columns ->
  (exists output',
      _vec_softmax_lastdim rows input output outer_size dim_size = Some output'
      /\ forall i, 0 <= i < outer_size ->
           distribution_along output' input (i * dim_size) 1 dim_size)
  /\ (exists output',
        _vec_softmax vectorized_step columns input output outer_size inner_size
          dim_size = Some output'
        /\ forall o k, 0 <= o < outer_size -> 0 <= k < inner_size ->
             distribution_along output' input (o * (dim_size * inner_size) + k)
               inner_size dim_size)
  /\ (exists output',
        _vec_softmax_bf16 float_lanes (2 * float_lanes) columns input output
          outer_size inner_size dim_size = Some output'
        /\ forall o k, 0 <= o < outer_size -> 0 <= k < inner_size ->
             distribution_along output' input (o * (dim_size * inner_size) + k)
               inner_size dim_size).
Proof.
  intros Houter Hdim Hin Hvs Hfl Hrows Hcols. split; [| split].
  - destruct (_vec_softmax_lastdim_correct rows input output outer_size dim_size
                Houter Hdim Hrows) as (output' & Hrun & Hv & _).
    exists output'. split; [exact Hrun |]. intros i Hi.
    apply distribution_along_softmax; [exact Hdim |]. intros d Hd.
    rewrite !Z.mul_1_r. apply (Hv i d Hi Hd).
  - destruct (_vec_softmax_correct vectorized_step columns input output outer_size
                inner_size dim_size Hvs Houter Hin Hdim Hcols)
      as (output' & Hrun & Hdone).
    exists output'. split; [exact Hrun |]. intros o k Ho Hk.
    apply distribution_along_softmax; [exact Hdim |]. intros d Hd.
    apply (softmax_cols_done_pointwise inner_size dim_size outer_size
             input output output' Hin Hdim Hdone o k d Ho Hk Hd).
  - destruct (_vec_softmax_bf16_correct float_lanes (2 * float_lanes) columns
                input output outer_size inner_size dim_size Hfl eq_refl
                Houter Hin Hdim Hcols) as (output' & Hrun & Hdone).
    exists output'. split; [exact Hrun |]. intros o k Ho Hk.
    apply distribution_along_softmax; [exact Hdim |]. intros d Hd.
    apply (softmax_cols_done_pointwise inner_size dim_size outer_size
             input output output' Hin Hdim Hdone o k d Ho Hk Hd).
Qed.

(** The second slice of a [2 x 3] tensor, through the last-dim kernel. *)
Lemma softmax_kernels_normalize_witness :
  exists output',
    _vec_softmax_lastdim [(0, 1); (1, 2)] sample_input sample_output 2 3
    = Some output'
    /\ distribution_along output' sample_input (1 * 3) 1 3.
Proof.
  destruct (softmax_kernels_normalize sample_input sample_output 2 2 3 2 1
              [(0, 1); (1, 2)] [(0, 3); (3, 4)])
    as ((output' & Hrun & Hv) & _);
    try lia; try (cbn; repeat split; lia).
  exists output'. split; [exact Hrun |]. apply (Hv 1). lia.
Defined.

(** In exact real arithmetic the last-dim log-softmax kernel writes the
    logarithm of what the last-dim softmax kernel writes: the exponential
    of each of its outputs is the output of the softmax kernel at that
    offset. *)
Theorem log_softmax_lastdim_is_log_of_softmax
  (uninit input output : @buffer R) (outer_size dim_size : Z)
  (sizeof_scalar Vec_size : Z) (rows rows' : list (Z * Z)) :
  0 < sizeof_scalar <= 128 -> 0 < Vec_size ->
  0 <= outer_size -> 0 < dim_size ->
  is_partition 0 outer_size rows -> is_partition 0 outer_size rows' ->
  exists log_output soft_output,
    LogSoftMax._vec_log_softmax_lastdim sizeof_scalar Vec_size rows uninit input
      output outer_size dim_size = Some log_output
    /\ _vec_softmax_lastdim rows' input output outer_size dim_size = Some soft_output
    /\ forall q, 0 <= q < outer_size * dim_size ->
         exp (log_output q) = soft_output q.
Proof.
  intros Hsz Hv Houter Hdim Hrows Hrows'.
  assert (Hchunk : 0 < 128 / sizeof_scalar * Vec_size).
  { assert (1 <= 128 / sizeof_scalar) by (apply Z.div_le_lower_bound; lia). nia. }
  destruct (LogSoftMax._vec_log_softmax_lastdim_correct sizeof_scalar Vec_size rows
              uninit input output outer_size dim_size Hchunk Houter Hdim Hrows)
    as (log_output & Hlog & Hlv & _).
  destruct (_vec_softmax_lastdim_correct rows' input output outer_size dim_size
              Houter Hdim Hrows') as (soft_output & Hsoft & Hsv & _).
  exists log_output, soft_output. split; [exact Hlog |]. split; [exact Hsoft |].
  intros q Hq.
  pose proof (Z.div_mod q dim_size ltac:(lia)) as Hdm.
  pose proof (Z.mod_pos_bound q dim_size Hdim) as Hmod.
  assert (Hi : 0 <= q / dim_size < outer_size).
  { split; [apply Z.div_pos; lia | apply Z.div_lt_upper_bound; lia]. }
  specialize (Hlv (q / dim_size) (q mod dim_size) Hi Hmod).
  specialize (Hsv (q / dim_size) (q mod dim_size) Hi Hmod).
  unfold lastdim_addr in Hlv, Hsv.
  replace (q / dim_size * dim_size + q mod dim_size) with q in Hlv, Hsv by lia.
  rewrite Hlv, Hsv.
  unfold LogSoftMax.log_softmax_lastdim_expected, softmax_lastdim_expected.
  apply exp_log_softmax_value. now apply slice_nonempty.
Qed.

Lemma log_softmax_lastdim_is_log_of_softmax_witness :
  exists log_output soft_output,
    LogSoftMax._vec_log_softmax_lastdim 4 8 [(0, 2)] sample_output sample_input
      sample_output 2 3 = Some log_output
    /\ _vec_softmax_lastdim [(0, 1); (1, 2)] sample_input sample_output 2 3
       = Some soft_output
    /\ exp (log_output 4) = soft_output 4.
Proof.
  destruct (log_softmax_lastdim_is_log_of_softmax sample_output sample_input
              sample_output 2 3 4 8 [(0, 2)] [(0, 1); (1, 2)])
    as (log_output & soft_output & Hlog & Hsoft & Hv);
    try lia; try (cbn; repeat split; lia).
  exists log_output, soft_output. split; [exact Hlog |]. split; [exact Hsoft |].
  apply Hv. lia.
Defined.

(** ** The backward kernel *)

Lemma ssum_tabulate_scale (f : Z -> R) (c : R) (n : Z) :
  ssum (tabulate (fun d => (f d * c)%R) n) = (ssum (tabulate f n) * c)%R.
Proof. unfold tabulate. apply (ssum_map_scale (fun k => f (Z.of_nat k))). Qed.

Lemma ssum_tabulate_minus (f g : Z -> R) (n : Z) :
  ssum (tabulate (fun d => (f d - g d)%R) n)
  = (ssum (tabulate f n) - ssum (tabulate g n))%R.
Proof.
  unfold tabulate.
  apply (ssum_map_minus (fun k => f (Z.of_nat k)) (fun k => g (Z.of_nat k))).
Qed.

(** In exact real arithmetic the gradients the backward kernel writes sum
    to zero along every row whose forward output was normalized: in softmax
    mode when the entries of the row of [output] sum to 1, in log-softmax
    mode when their exponentials do. *)
Theorem softmax_backward_rows_sum_to_zero (log_softmax : bool)
  (grad_input grad output : @buffer R) (outer_size dim_size : Z)
  (rows : list (Z * Z)) :
  0 <= outer_size -> 0 < dim_size -> is_partition 0 outer_size rows ->
  exists grad_input',
    _vec_host_softmax_backward_lastdim log_softmax rows grad_input grad output
      outer_size dim_size = Some grad_input'
    /\ forall i, 0 <= i < outer_size ->
         ssum (map (fun y => if log_softmax then exp y else y)
                 (slice output (i * dim_size) 1 dim_size)) = 1%R ->
         ssum (slice grad_input' (i * dim_size) 1 dim_size) = 0%R.
Proof.
  intros Houter Hdim Hrows.
  destruct (_vec_host_softmax_backward_lastdim_correct log_softmax rows grad_input
              grad output outer_size dim_size Houter Hdim Hrows)
    as (gi & Hrun & Hv & _).
  exists gi. split; [exact Hrun |]. intros i Hi Hnorm.
  set (p := i * dim_size) in *.
  assert (Hrow : slice gi p 1 dim_size
                 = tabulate (softmax_backward_expected log_softmax dim_size grad
                               output i) dim_size).
  { apply tabulate_ext. intros d Hd. rewrite Z.mul_1_r. apply (Hv i d Hi Hd). }
  rewrite Hrow. unfold softmax_backward_expected. cbv zeta. fold p.
  unfold slice in Hnorm. rewrite tabulate_map in Hnorm.
  destruct log_softmax; cbn [sub mul sexp R_Scalar].
  - rewrite ssum_tabulate_minus.
    rewrite (ssum_tabulate_scale (fun d => exp (output (p + d)))).
    rewrite (tabulate_ext (fun d => exp (output (p + d)))
               (fun d => exp (output (p + d * 1)))) by
      (intros d _; now rewrite Z.mul_1_r).
    rewrite Hnorm.
    unfold slice.
    rewrite (tabulate_ext (fun d => grad (p + d * 1)) (fun d => grad (p + d))) by
      (intros d _; now rewrite Z.mul_1_r).
    lra.
  - set (total := ssum (tabulate (fun j => (grad (p + j)%Z * output (p + j)%Z)%R) dim_size)).
    rewrite (tabulate_ext _ (fun d => (grad (p + d)%Z * output (p + d)%Z
                                       - output (p + d)%Z * total)%R)) by
      (intros d _; lra).
    rewrite ssum_tabulate_minus, ssum_tabulate_scale.
    rewrite (tabulate_ext (fun d => output (p + d))
               (fun d => output (p + d * 1))) by
      (intros d _; now rewrite Z.mul_1_r).
    rewrite Hnorm. fold total. lra.
Qed.

(** A row of [output] that sums to 1. *)
Definition half_output : @buffer R := fun _ => (1 / 2)%R.

Lemma softmax_backward_rows_sum_to_zero_witness :
  exists grad_input',
    _vec_host_softmax_backward_lastdim false [(0, 1)] sample_output sample_input
      half_output 1 2 = Some grad_input'
    /\ ssum (slice grad_input' (0 * 2) 1 2) = 0%R.
Proof.
  destruct (softmax_backward_rows_sum_to_zero false sample_output sample_input
              half_output 1 2 [(0, 1)])
    as (grad_input' & Hrun & Hv);
    try lia; try (cbn; repeat split; lia).
  exists grad_input'. split; [exact Hrun |].
  apply (Hv 0); [lia |]. unfold slice, tabulate.
  change (Z.to_nat 2) with 2%nat. cbn [seq map].
  rewrite !ssum_cons, ssum_nil. unfold half_output. lra.
Defined.

End SoftMaxReal.

(* ------------------------------------------------------------------ *)
(** * How the kernels relate *)

Module KernelAgreement.
Import SoftMax LogSoftMax.
Local Open Scope Z_scope.

(** ** The float model satisfies the scalar laws *)

#[export] Instance float_ScalarLaws : ScalarLaws float_value.
Proof.
  split.
  - intros [| | x |]; cbn; try reflexivity.
    destruct (Rlt_dec x x) as [Hlt | _]; [| reflexivity].
    exfalso. exact (Rlt_irrefl x Hlt).
  - intros [| | x |] [| | y |] [| | z |]; cbn; try congruence.
    destruct (Rlt_dec x y) as [Hxy | _]; [| discriminate].
    destruct (Rlt_dec y z) as [Hyz | _]; [| discriminate]. intros _ _.
    destruct (Rlt_dec x z) as [_ | Hn]; [reflexivity |].
    exfalso. apply Hn. exact (Rlt_trans x y z Hxy Hyz).
  - intros [| | x |]; cbn; try reflexivity. f_equal. lra.
  - intros a s. cbn.
    destruct s as [| | r |]; cbn.
    + destruct a; reflexivity.
    + destruct a as [| | x |]; cbn; try reflexivity.
      * unfold float_scale_inf.
        destruct (Rlt_dec 0 0) as [Hlt | _]; [lra |]. reflexivity.
      * f_equal. lra.
      * unfold float_scale_inf.
        destruct (Rlt_dec 0 0) as [Hlt | _]; [lra |]. reflexivity.
    + destruct (Req_EM_T r 0) as [-> | Hr].
      * unfold float_scale_inf at 1.
        destruct (Rlt_dec 0 1) as [_ | Hn]; [| lra].
        destruct a as [| | x |]; cbn; try reflexivity.
        -- destruct (Rlt_dec 0 0) as [Hlt | _]; [lra | reflexivity].
        -- destruct (Req_EM_T 0 0) as [_ | Hn]; [reflexivity | lra].
        -- destruct (Rlt_dec 0 0) as [Hlt | _]; [lra | reflexivity].
      * assert (Hinv : (1 / r <> 0)%R).
        { unfold Rdiv. rewrite Rmult_1_l. now apply Rinv_neq_0_compat. }
        destruct a as [| | x |]; cbn; try reflexivity.
        -- unfold float_scale_inf.
           destruct (Rlt_dec 0 (1 / r)) as [Hpos | Hnpos].
           ++ destruct (Rlt_dec r 0) as [Hneg | _]; [| reflexivity].
              exfalso. assert (1 / r < 0)%R; [| lra].
              unfold Rdiv. rewrite Rmult_1_l. now apply Rinv_lt_0_compat.
           ++ destruct (Rlt_dec (1 / r) 0) as [Hneg | Hnneg]; [| lra].
              destruct (Rlt_dec r 0) as [_ | Hnn]; [reflexivity |].
              exfalso. assert (0 < 1 / r)%R; [| lra].
              unfold Rdiv. rewrite Rmult_1_l. apply Rinv_0_lt_compat. lra.
        -- destruct (Req_EM_T r 0) as [Hz | _]; [contradiction |].
           f_equal. unfold Rdiv. lra.
        -- unfold float_scale_inf.
           destruct (Rlt_dec 0 (1 / r)) as [Hpos | Hnpos].
           ++ destruct (Rlt_dec r 0) as [Hneg | _]; [| reflexivity].
              exfalso. assert (1 / r < 0)%R; [| lra].
              unfold Rdiv. rewrite Rmult_1_l. now apply Rinv_lt_0_compat.
           ++ destruct (Rlt_dec (1 / r) 0) as [Hneg | Hnneg]; [| lra].
              destruct (Rlt_dec r 0) as [_ | Hnn]; [reflexivity |].
              exfalso. assert (0 < 1 / r)%R; [| lra].
              unfold Rdiv. rewrite Rmult_1_l. apply Rinv_0_lt_compat. lra.
    + destruct a as [| | x |]; cbn; try reflexivity.
      * unfold float_scale_inf.
        destruct (Rlt_dec 0 0) as [Hlt | _]; [lra |]. reflexivity.
      * f_equal. lra.
      * unfold float_scale_inf.
        destruct (Rlt_dec 0 0) as [Hlt | _]; [lra |]. reflexivity.
Qed.

(** A float other than NaN is ordered with [-infinity]. *)
Lemma float_ordered (x : float_value) : x <> NaN -> smax neg_infinity x = x.
Proof. destruct x; cbn; congruence. Qed.

Section Agreement.
Context {T : Type} `{Scalar T} `{!ScalarLaws T}.

(** With [inner_size = 1] the strided addresses are the row addresses. *)
Lemma strided_addr_1 (dim_size c d : Z) :
  strided_addr 1 dim_size c d = lastdim_addr dim_size c d.
Proof.
  unfold strided_addr, lastdim_addr. rewrite Z.div_1_r, Z.mod_1_r. lia.
Qed.

(** Two buffers that hold the same expected values in the rows
    [[0, outer_size)] and both agree with [m0] elsewhere are equal. *)
Lemma rows_done_unique (dim_size outer_size : Z) (expected expected' : Z -> Z -> T)
  (m0 m m' : @buffer T) :
  0 < dim_size -> 0 <= outer_size ->
  (forall c d, 0 <= c < outer_size -> 0 <= d < dim_size ->
     expected c d = expected' c d) ->
  cols_done (lastdim_addr dim_size) dim_size expected m0 m 0 outer_size ->
  cols_done (strided_addr 1 dim_size) dim_size expected' m0 m' 0 (outer_size * 1) ->
  forall q, m' q = m q.
Proof.
  intros Hdim Houter Hexp [Hv Hf] [Hv' Hf'] q.
  rewrite Z.mul_1_r in Hv', Hf'.
  destruct (Z_lt_ge_dec q 0) as [Hneg | Hnn];
    [| destruct (Z_lt_ge_dec q (outer_size * dim_size)) as [Hin | Hout]].
  - rewrite Hf, Hf'; [reflexivity | |].
    + intros c d Hc Hd. rewrite strided_addr_1. unfold lastdim_addr. nia.
    + intros c d Hc Hd. unfold lastdim_addr. nia.
  - pose proof (Z.div_mod q dim_size ltac:(lia)) as Hdm.
    pose proof (Z.mod_pos_bound q dim_size Hdim) as Hmod.
    assert (Hi : 0 <= q / dim_size < outer_size).
    { split; [apply Z.div_pos; lia | apply Z.div_lt_upper_bound; lia]. }
    specialize (Hv (q / dim_size) (q mod dim_size) Hi Hmod).
    specialize (Hv' (q / dim_size) (q mod dim_size) Hi Hmod).
    rewrite strided_addr_1 in Hv'. unfold lastdim_addr in Hv, Hv'.
    replace (q / dim_size * dim_size + q mod dim_size) with q in Hv, Hv' by lia.
    rewrite Hv, Hv'. symmetry. now apply Hexp.
  - rewrite Hf, Hf'; [reflexivity | |].
    + intros c d Hc Hd. rewrite strided_addr_1. unfold lastdim_addr. nia.
    + intros c d Hc Hd. unfold lastdim_addr. nia.
Qed.

Lemma softmax_expected_1 (dim_size : Z) (input : @buffer T) (c d : Z) :
  softmax_lastdim_expected dim_size input c d = softmax_expected 1 dim_size input c d.
Proof.
  unfold softmax_lastdim_expected, softmax_expected.
  rewrite !strided_addr_1. unfold lastdim_addr. now rewrite Z.add_0_r.
Qed.

(** On scalars with exact arithmetic, for slices along the last dimension
    ([inner_size = 1]) the generic softmax kernel and its BFloat16 overload
    leave the whole output buffer as the last-dim kernel leaves it,
    whatever the vector width and however [parallel_for] splits the work of
    each. *)
Theorem softmax_generic_agrees_with_lastdim
  (input output : @buffer T) (outer_size dim_size : Z)
  (vectorized_step float_lanes : Z) (rows columns columns' : list (Z * Z)) :
  0 <= outer_size -> 0 < dim_size ->
  0 < vectorized_step -> 0 < float_lanes ->
  is_partition 0 outer_size rows ->
  is_partition 0 (outer_size * 1) columns ->
  is_partition 0 (outer_size * 1) columns' ->
  exists lastdim generic bf16,
    _vec_softmax_lastdim rows input output outer_size dim_size = Some lastdim
    /\ _vec_softmax vectorized_step columns input output outer_size 1 dim_size
       = Some generic
    /\ _vec_softmax_bf16 float_lanes (2 * float_lanes) columns' input output
         outer_size 1 dim_size = Some bf16
    /\ forall q, generic q = lastdim q /\ bf16 q = lastdim q.
Proof.
  intros Houter Hdim Hvs Hfl Hrows Hcols Hcols'.
  destruct (_vec_softmax_lastdim_correct rows input output outer_size dim_size
              Houter Hdim Hrows) as (lastdim & Hrun1 & Hdone1).
  destruct (_vec_softmax_correct vectorized_step columns input output outer_size
              1 dim_size Hvs Houter ltac:(lia) Hdim Hcols)
    as (generic & Hrun2 & Hdone2).
  destruct (_vec_softmax_bf16_correct float_lanes (2 * float_lanes) columns'
              input output outer_size 1 dim_size Hfl eq_refl
              Houter ltac:(lia) Hdim Hcols') as (bf16 & Hrun3 & Hdone3).
  exists lastdim, generic, bf16.
  split; [exact Hrun1 |]. split; [exact Hrun2 |]. split; [exact Hrun3 |].
  intros q. split.
  - apply (rows_done_unique dim_size outer_size _ _ output lastdim generic
             Hdim Houter (fun c d _ _ => softmax_expected_1 dim_size input c d)
             Hdone1 Hdone2).
  - apply (rows_done_unique dim_size outer_size _ _ output lastdim bf16
             Hdim Houter (fun c d _ _ => softmax_expected_1 dim_size input c d)
             Hdone1 Hdone3).
Qed.

Section WithInfinity.
Context `{ScalarInf T}.

Lemma log_softmax_expected_1 (dim_size : Z) (input : @buffer T) (c d : Z) :
  log_softmax_lastdim_expected dim_size input c d
  = log_softmax_expected 1 dim_size input c d.
Proof.
  unfold log_softmax_lastdim_expected, log_softmax_expected.
  rewrite !strided_addr_1. unfold lastdim_addr. now rewrite Z.add_0_r.
Qed.

(** On scalars with exact arithmetic and an input ordered with
    [-infinity], for slices along the last dimension ([inner_size = 1]) the
    generic log-softmax kernel leaves the whole output buffer as the
    last-dim kernel leaves it, whatever the vector width, the contents of
    the uninitialized local arrays, and the split of the work. *)
Theorem log_softmax_generic_agrees_with_lastdim
  (uninit uninit' input output : @buffer T) (outer_size dim_size : Z)
  (sizeof_scalar Vec_size : Z) (rows blocks : list (Z * Z)) :
  0 < sizeof_scalar <= 128 -> 0 < Vec_size ->
  0 <= outer_size -> 0 < dim_size ->
  (forall a, 0 <= a < outer_size * dim_size ->
             smax neg_infinity (input a) = input a) ->
  is_partition 0 outer_size rows ->
  is_partition 0 outer_size blocks ->
  exists lastdim generic,
    _vec_log_softmax_lastdim sizeof_scalar Vec_size rows uninit input output
      outer_size dim_size = Some lastdim
    /\ _vec_logsoftmax sizeof_scalar Vec_size blocks uninit' input output
         outer_size 1 dim_size = Some generic
    /\ forall q, generic q = lastdim q.
Proof.
  intros Hsz Hv Houter Hdim Hordered Hrows Hblocks.
  assert (Hchunk : 0 < 128 / sizeof_scalar * Vec_size).
  { assert (1 <= 128 / sizeof_scalar) by (apply Z.div_le_lower_bound; lia). nia. }
  destruct (_vec_log_softmax_lastdim_correct sizeof_scalar Vec_size rows uninit
              input output outer_size dim_size Hchunk Houter Hdim Hrows)
    as (lastdim & Hrun1 & Hdone1).
  set (CHUNK_SIZE :=
         Z.max (BLOCK_SIZE / dim_size / sizeof_scalar) Vec_size / Vec_size * Vec_size).
  assert (Hc : 1 <= CHUNK_SIZE).
  { unfold CHUNK_SIZE.
    assert (1 <= Z.max (BLOCK_SIZE / dim_size / sizeof_scalar) Vec_size / Vec_size)
      by (apply Z.div_le_lower_bound; lia).
    nia. }
  assert (Hnum : divup 1 CHUNK_SIZE = 1).
  { unfold divup. symmetry. apply (Z.div_unique _ CHUNK_SIZE 1 0); lia. }
  destruct (_vec_logsoftmax_correct sizeof_scalar Vec_size blocks uninit' input
              output outer_size 1 dim_size Hv Houter ltac:(lia) Hdim)
    as (generic & Hrun2 & Hdone2).
  { intros a Ha. apply Hordered. lia. }
  { fold CHUNK_SIZE. now rewrite Hnum, Z.mul_1_r. }
  exists lastdim, generic. split; [exact Hrun1 |]. split; [exact Hrun2 |].
  apply (rows_done_unique dim_size outer_size _ _ output lastdim generic
           Hdim Houter (fun c d _ _ => log_softmax_expected_1 dim_size input c d)
           Hdone1 Hdone2).
Qed.

(** When [inner_size] is below the width of a [bVec], so that every column
    is handled by the scalar tail, the BFloat16 log-softmax kernel returns
    and writes [x_d - m - log(sum_j exp(x_j - m))] for every slice, [m]
    being the maximum of the slice. *)
Theorem logsoftmax_bf16_narrow (fVec_size : Z) (chunks : list (Z * Z))
  (uninit input output : @buffer T) (outer_size inner_size dim_size : Z) :
  0 < fVec_size -> 0 <= outer_size -> 0 < inner_size < 2 * fVec_size ->
  0 < dim_size ->
  (forall a, 0 <= a < outer_size * dim_size * inner_size ->
             smax neg_infinity (input a) = input a) ->
  is_partition 0 outer_size chunks ->
  exists output',
    _vec_logsoftmax_bf16 fVec_size chunks uninit input output
      outer_size inner_size dim_size = Some output'
    /\ forall o k d,
        0 <= o < outer_size -> 0 <= k < inner_size -> 0 <= d < dim_size ->
        let p := o * (dim_size * inner_size) + k in
        output' (p + d * inner_size)
        = log_softmax_value (slice input p inner_size dim_size)
            (input (p + d * inner_size)).
Proof.
  intros Hf Houter Hin Hdim Hordered Hpart.
  set (CHUNK_SIZE :=
         Z.max (BLOCK_SIZE / dim_size / sizeof_BFloat16) (2 * fVec_size)
         / (2 * fVec_size) * (2 * fVec_size)).
  assert (Hchunk : 2 * fVec_size <= CHUNK_SIZE).
  { unfold CHUNK_SIZE.
    assert (1 <= Z.max (BLOCK_SIZE / dim_size / sizeof_BFloat16) (2 * fVec_size)
                 / (2 * fVec_size)) by (apply Z.div_le_lower_bound; lia).
    nia. }
  assert (Hnum : divup inner_size CHUNK_SIZE = 1).
  { unfold divup. symmetry.
    apply (Z.div_unique _ CHUNK_SIZE 1 (inner_size - 1)); lia. }
  destruct (_vec_logsoftmax_bf16_spec fVec_size chunks uninit input output
              outer_size inner_size dim_size Hf Houter ltac:(lia) Hdim Hordered)
    as (output' & Hrun & Hv & _).
  { cbv zeta. fold CHUNK_SIZE. now rewrite Hnum, Z.mul_1_r. }
  exists output'. split; [exact Hrun |].
  intros o k d Ho Hk Hd. cbv zeta.
  specialize (Hv (o * inner_size + k) d ltac:(nia) Hd).
  fold CHUNK_SIZE in Hv.
  assert (Hcol : bf16_max_column fVec_size inner_size CHUNK_SIZE (o * inner_size + k)
                 = o * inner_size + k).
  { unfold bf16_max_column. cbv zeta.
    assert (Hmod : (o * inner_size + k) mod inner_size = k).
    { symmetry. apply (Z.mod_unique _ inner_size o k); lia. }
    rewrite Hmod, (Z.mod_small k CHUNK_SIZE) by lia.
    replace (k - k) with 0 by lia. rewrite Z.sub_0_r.
    rewrite Z.min_r by lia. unfold max_lane.
    rewrite Z.rem_small by lia. rewrite Z.sub_diag.
    destruct (Z.ltb_spec k 0) as [Hneg | _]; [lia |]. cbn [andb]. lia. }
  rewrite (log_softmax_bf16_expected_agrees _ _ _ _ _ _ _ Hcol) in Hv.
  unfold log_softmax_expected in Hv.
  rewrite !strided_addr_outer_inner in Hv by lia.
  now rewrite Z.mul_0_l, Z.add_0_r in Hv.
Qed.

End WithInfinity.
End Agreement.

(** Two rows of three real numbers. *)
Lemma softmax_generic_agrees_with_lastdim_witness :
  exists lastdim generic bf16,
    _vec_softmax_lastdim [(0, 1); (1, 2)] sample_input sample_output 2 3
    = Some lastdim
    /\ _vec_softmax 2 [(0, 2)] sample_input sample_output 2 1 3 = Some generic
    /\ _vec_softmax_bf16 1 (2 * 1) [(0, 1); (1, 2)] sample_input sample_output 2 1 3
       = Some bf16
    /\ generic 4 = lastdim 4 /\ bf16 4 = lastdim 4.
Proof.
  destruct (softmax_generic_agrees_with_lastdim sample_input sample_output 2 3 2 1
              [(0, 1); (1, 2)] [(0, 2)] [(0, 1); (1, 2)])
    as (lastdim & generic & bf16 & H1 & H2 & H3 & Hq);
    try lia; try (cbn; repeat split; lia).
  exists lastdim, generic, bf16.
  split; [exact H1 |]. split; [exact H2 |]. split; [exact H3 |]. apply Hq.
Defined.

Lemma overflow_input_ordered (a : Z) :
  smax neg_infinity (overflow_input a) = overflow_input a.
Proof. unfold overflow_input. destruct ((a =? 8) || (a =? 24)); reflexivity. Qed.

(** Sixteen rows of two floats, the local arrays holding NaN. *)
Lemma log_softmax_generic_agrees_with_lastdim_witness :
  exists lastdim generic,
    _vec_log_softmax_lastdim 4 8 [(0, 16)] uninitialized overflow_input
      uninitialized 16 2 = Some lastdim
    /\ _vec_logsoftmax 4 8 [(0, 7); (7, 16)] overflow_input overflow_input
         uninitialized 16 1 2 = Some generic
    /\ generic 8 = lastdim 8.
Proof.
  destruct (log_softmax_generic_agrees_with_lastdim uninitialized overflow_input
              overflow_input uninitialized 16 2 4 8 [(0, 16)] [(0, 7); (7, 16)])
    as (lastdim & generic & H1 & H2 & Hq);
    try lia; try (cbn; repeat split; lia).
  - intros a _. apply overflow_input_ordered.
  - exists lastdim, generic. split; [exact H1 |]. split; [exact H2 |]. apply Hq.
Defined.

(** A [2 x 8] tensor of floats reduced over its first dimension, with
    16-lane [bVec]. *)
Lemma logsoftmax_bf16_narrow_witness :
  exists output',
    _vec_logsoftmax_bf16 8 [(0, 1)] uninitialized overflow_input uninitialized
      1 8 2 = Some output'
    /\ output' (0 * (2 * 8) + 3 + 1 * 8)
       = log_softmax_value (slice overflow_input (0 * (2 * 8) + 3) 8 2)
           (overflow_input (0 * (2 * 8) + 3 + 1 * 8)).
Proof.
  destruct (logsoftmax_bf16_narrow 8 [(0, 1)] uninitialized overflow_input
              uninitialized 1 8 2)
    as (output' & Hrun & Hv);
    try lia; try (cbn; repeat split; lia).
  - intros a _. apply overflow_input_ordered.
  - exists output'. split; [exact Hrun |]. apply (Hv 0 3 1); lia.
Defined.

(** The last-dim and the generic log-softmax kernel on floats. *)
Lemma log_softmax_lastdim_and_generic_kernels_witness :
  exists output',
    _vec_logsoftmax 4 8 [(0, 1)] uninitialized overflow_input uninitialized 1 16 2
    = Some output'
    /\ output' (0 * (2 * 16) + 8 + 1 * 16)
       = log_softmax_value (slice overflow_input (0 * (2 * 16) + 8) 16 2)
           (overflow_input (0 * (2 * 16) + 8 + 1 * 16)).
Proof.
  destruct (log_softmax_lastdim_and_generic_kernels uninitialized overflow_input
              uninitialized 1 16 2 4 8 [(0, 1)] [(0, 1)])
    as (_ & (output' & Hrun & Hv));
    try lia; try (cbn; repeat split; lia).
  - intros a _. apply overflow_input_ordered.
  - exists output'. split; [exact Hrun |]. apply (Hv 0 8 1); lia.
Defined.

End KernelAgreement.

(* ------------------------------------------------------------------ *)
(** * From tensors to kernels: the registered kernel functions *)

Module KernelImpl.
Import SoftMax LogSoftMax KernelAgreement.
Local Open Scope string_scope.
Local Open Scope list_scope.
Local Open Scope Z_scope.

(** [at::ScalarType]: the three types the kernels are instantiated for,
    and any other, by its name. *)
Inductive ScalarType : Type :=
| Float
| Double
| BFloat16
| OtherType (name : string).

Section WithScalar.
Context {T : Type} `{Scalar T} `{ScalarInf T}.

(** [Vectorized<float>::size()] and [Vectorized<double>::size()], fixed by
    the build; a [Vectorized<BFloat16>] has twice the lanes of a
    [Vectorized<float>]. *)
Variables float_lanes double_lanes : Z.

(** The text of the error [AT_DISPATCH_FLOATING_TYPES_AND] raises, from the
    name given to the macro and the name of the type. *)
Variable not_implemented_for : string -> string -> string.

(** A contiguous tensor: its sizes, its type, and the memory at
    [data_ptr<scalar_t>()]. *)
Record Tensor : Type := {
  sizes : list Z;
  scalar_type : ScalarType;
  data_ptr : @buffer T
}.

Definition ndimension (t : Tensor) : Z := Z.of_nat (length (sizes t)).

(** Modelled from the spec: [Tensor::size(dim)] of [ATen/core/TensorBase.h]
    is not under src/.  It counts a negative [dim] from the end and throws
    for one out of range. *)
Definition size (t : Tensor) (dim : Z) : result Z :=
  let n := ndimension t in
  if (- n <=? dim) && (dim <? n)
  then at_index (sizes t) (if dim <? 0 then dim + n else dim)
  else Err (CheckError "Dimension out of range").

(** [sizeof(scalar_t)] *)
Definition sizeof (st : ScalarType) : Z :=
  match st with
  | Float => 4
  | Double => 8
  | BFloat16 => 2
  | OtherType _ => 0
  end.

(** [Vectorized<scalar_t>::size()] *)
Definition Vec_size (st : ScalarType) : Z :=
  match st with
  | Float => float_lanes
  | Double => double_lanes
  | BFloat16 => 2 * float_lanes
  | OtherType _ => 0
  end.

(** [Vectorized<vec_scalar_t<scalar_t>>::size()]: [vec_scalar_t<BFloat16>]
    is [float]. *)
Definition vec_scalar_size (st : ScalarType) : Z :=
  match st with
  | BFloat16 => float_lanes
  | _ => Vec_size st
  end.

(** [for (i = lo; i < hi; ++i) acc *= t.size(i);] with [n] rounds left. *)
Fixpoint mul_sizes (n : nat) (t : Tensor) (i : Z) (acc : Z) : result Z :=
  match n with
  | O => Ok acc
  | S n' =>
      s <- size t i ;;
      acc <- mul_int64 acc s ;;
      mul_sizes n' t (i + 1) acc
  end.

Definition size_product (t : Tensor) (lo hi : Z) (acc : Z) : result Z :=
  mul_sizes (Z.to_nat (hi - lo)) t lo acc.

(** [vec_host_softmax_lastdim<scalar_t, LogSoftMax>::apply]; [chunks] is
    the split [parallel_for] makes and [uninit] what the local arrays of
    the log-softmax kernel hold at first. *)
Definition vec_host_softmax_lastdim_apply (LogSoftMax : bool) (st : ScalarType)
  (chunks : list (Z * Z)) (uninit : @buffer T) (output input : Tensor)
  : result (option (@buffer T)) :=
  let outer_size := 1 in
  dim_size <- size input (ndimension input - 1) ;;
  outer_size <- size_product input 0 (ndimension input - 1) outer_size ;;
  let input_data_base := data_ptr input in
  let output_data_base := data_ptr output in
  if LogSoftMax
  then Ok (_vec_log_softmax_lastdim (sizeof st) (vec_scalar_size st) chunks uninit
             input_data_base output_data_base outer_size dim_size)
  else Ok (_vec_softmax_lastdim chunks input_data_base output_data_base
             outer_size dim_size).

(** [vec_softmax<scalar_t, LogSoftMax>::apply]: for [BFloat16] the calls
    resolve to the overload of [_vec_softmax] and to the specialization of
    [_vec_logsoftmax]. *)
Definition vec_softmax_apply (LogSoftMax : bool) (st : ScalarType)
  (chunks : list (Z * Z)) (uninit : @buffer T) (output input : Tensor) (dim : Z)
  : result (option (@buffer T)) :=
  let outer_size := 1 in
  dim_size <- size input dim ;;
  let inner_size := 1 in
  outer_size <- size_product input 0 dim outer_size ;;
  inner_size <- size_product input (dim + 1) (ndimension input) inner_size ;;
  let input_data_base := data_ptr input in
  let output_data_base := data_ptr output in
  if LogSoftMax
  then match st with
       | BFloat16 =>
           Ok (_vec_logsoftmax_bf16 float_lanes chunks uninit input_data_base
                 output_data_base outer_size inner_size dim_size)
       | _ =>
           Ok (_vec_logsoftmax (sizeof st) (Vec_size st) chunks uninit
                 input_data_base output_data_base outer_size inner_size dim_size)
       end
  else match st with
       | BFloat16 =>
           Ok (_vec_softmax_bf16 float_lanes (Vec_size st) chunks input_data_base
                 output_data_base outer_size inner_size dim_size)
       | _ =>
           Ok (_vec_softmax (Vec_size st) chunks input_data_base output_data_base
                 outer_size inner_size dim_size)
       end.

(** [vec_host_softmax_backward_lastdim<scalar_t, LogSoftMax>::apply] *)
Definition vec_host_softmax_backward_lastdim_apply (LogSoftMax : bool)
  (chunks : list (Z * Z)) (grad_input grad output : Tensor)
  : result (option (@buffer T)) :=
  let outer_size := 1 in
  dim_size <- size grad (ndimension grad - 1) ;;
  outer_size <- size_product grad 0 (ndimension grad - 1) outer_size ;;
  Ok (_vec_host_softmax_backward_lastdim LogSoftMax chunks (data_ptr grad_input)
        (data_ptr grad) (data_ptr output) outer_size dim_size).

(** Modelled from the spec: [AT_DISPATCH_FLOATING_TYPES_AND] of
    [ATen/Dispatch.h] is not under src/.  It runs the body with [scalar_t]
    bound for [double], [float] and the extra type, and raises an error for
    any other type. *)
Definition AT_DISPATCH_FLOATING_TYPES_AND_BFloat16 {A : Type} (st : ScalarType)
  (name : string) (body : ScalarType -> result A) : result A :=
  match st with
  | OtherType type_name => Err (CheckError (not_implemented_for name type_name))
  | _ => body st
  end.

Definition softmax_lastdim_kernel_impl (chunks : list (Z * Z)) (uninit : @buffer T)
  (result_ self : Tensor) : result (option (@buffer T)) :=
  AT_DISPATCH_FLOATING_TYPES_AND_BFloat16 (scalar_type self)
    "softmax_lastdim_kernel_impl"
    (fun scalar_t =>
       vec_host_softmax_lastdim_apply false scalar_t chunks uninit result_ self).

Definition softmax_kernel_impl (chunks : list (Z * Z)) (uninit : @buffer T)
  (result_ self : Tensor) (dim : Z) : result (option (@buffer T)) :=
  AT_DISPATCH_FLOATING_TYPES_AND_BFloat16 (scalar_type self)
    "softmax_kernel_impl"
    (fun scalar_t => vec_softmax_apply false scalar_t chunks uninit result_ self dim).

Definition log_softmax_lastdim_kernel_impl (chunks : list (Z * Z))
  (uninit : @buffer T) (result_ self : Tensor) : result (option (@buffer T)) :=
  AT_DISPATCH_FLOATING_TYPES_AND_BFloat16 (scalar_type self)
    "log_softmax_lastdim_kernel_impl"
    (fun scalar_t =>
       vec_host_softmax_lastdim_apply true scalar_t chunks uninit result_ self).

(** The name given to the macro is that of [softmax_kernel_impl]. *)
Definition log_softmax_kernel_impl (chunks : list (Z * Z)) (uninit : @buffer T)
  (result_ self : Tensor) (dim : Z) : result (option (@buffer T)) :=
  AT_DISPATCH_FLOATING_TYPES_AND_BFloat16 (scalar_type self)
    "softmax_kernel_impl"
    (fun scalar_t => vec_softmax_apply true scalar_t chunks uninit result_ self dim).

Definition softmax_backward_lastdim_kernel_impl (chunks : list (Z * Z))
  (grad_input grad output : Tensor) : result (option (@buffer T)) :=
  AT_DISPATCH_FLOATING_TYPES_AND_BFloat16 (scalar_type grad)
    "softmax_backward_lastdim_kernel_impl"
    (fun scalar_t =>
       vec_host_softmax_backward_lastdim_apply false chunks grad_input grad output).

Definition log_softmax_backward_lastdim_kernel_impl (chunks : list (Z * Z))
  (grad_input grad output : Tensor) : result (option (@buffer T)) :=
  AT_DISPATCH_FLOATING_TYPES_AND_BFloat16 (scalar_type grad)
    "log_softmax_backward_lastdim_kernel_impl"
    (fun scalar_t =>
       vec_host_softmax_backward_lastdim_apply true chunks grad_input grad output).

(** ** Sizes *)

Lemma size_at (t : Tensor) (a r : list Z) (s : Z) :
  sizes t = a ++ s :: r -> size t (Z.of_nat (length a)) = Ok s.
Proof.
  intros Hs. unfold size, ndimension. rewrite Hs, length_app. cbn [length].
  destruct (Z.leb_spec (- Z.of_nat (length a + S (length r))) (Z.of_nat (length a)));
    [| lia].
  destruct (Z.ltb_spec (Z.of_nat (length a)) (Z.of_nat (length a + S (length r))));
    [| lia].
  cbn [andb]. destruct (Z.ltb_spec (Z.of_nat (length a)) 0); [lia |].
  unfold at_index. rewrite length_app. cbn [length].
  destruct (Z.leb_spec 0 (Z.of_nat (length a))); [| lia].
  destruct (Z.ltb_spec (Z.of_nat (length a)) (Z.of_nat (length a + S (length r))));
    [| lia].
  cbn [andb]. rewrite Nat2Z.id, nth_error_app2, Nat.sub_diag by lia. reflexivity.
Qed.

Lemma mul_sizes_spec (t : Tensor) (l : list Z) :
  forall (a b : list Z) (acc : Z),
    sizes t = a ++ l ++ b ->
    (forall k, fits_int64 (acc * list_prod (firstn k l)) = true) ->
    mul_sizes (length l) t (Z.of_nat (length a)) acc = Ok (acc * list_prod l).
Proof.
  induction l as [| s l IH]; intros a b acc Hs Hfit.
  - cbn. now rewrite Z.mul_1_r.
  - cbn [length mul_sizes]. rewrite (size_at t a (l ++ b) s Hs). cbn [bind].
    assert (Hmul : mul_int64 acc s = Ok (acc * s)).
    { apply ViewGuard.mul_int64_fits. specialize (Hfit 1%nat). cbn in Hfit.
      now rewrite Z.mul_1_r in Hfit. }
    rewrite Hmul. cbn [bind].
    replace (Z.of_nat (length a) + 1) with (Z.of_nat (length (a ++ [s])))
      by (rewrite length_app; cbn [length]; lia).
    rewrite (IH (a ++ [s]) b (acc * s)).
    + f_equal. change (list_prod (s :: l)) with (s * list_prod l). lia.
    + now rewrite <- app_assoc.
    + intros k. specialize (Hfit (S k)). cbn in Hfit.
      now rewrite Z.mul_assoc in Hfit.
Qed.

Lemma size_product_spec (t : Tensor) (a l b : list Z) :
  sizes t = a ++ l ++ b ->
  ViewGuard.prefix_products_fit l ->
  size_product t (Z.of_nat (length a))
    (Z.of_nat (length a) + Z.of_nat (length l)) 1
  = Ok (list_prod l).
Proof.
  intros Hs Hfit. unfold size_product.
  replace (Z.to_nat (Z.of_nat (length a) + Z.of_nat (length l) - Z.of_nat (length a)))
    with (length l) by lia.
  rewrite (mul_sizes_spec t l a b 1 Hs).
  - now rewrite Z.mul_1_l.
  - intros k. rewrite Z.mul_1_l. apply Hfit.
Qed.

Lemma sizes_prod_nonneg (l : list Z) : Forall (fun s => 0 <= s) l -> 0 <= list_prod l.
Proof.
  induction 1 as [| x l Hx _ IH]; [cbn; lia |].
  change (list_prod (x :: l)) with (x * list_prod l). nia.
Qed.

Lemma sizes_prod_pos (l : list Z) : Forall (fun s => 0 < s) l -> 0 < list_prod l.
Proof.
  induction 1 as [| x l Hx _ IH]; [cbn; lia |].
  change (list_prod (x :: l)) with (x * list_prod l). nia.
Qed.

(** The addresses of the columns fill [[0, outer_size * dim_size * inner_size)]. *)
Lemma strided_addr_range (inner_size dim_size outer_size c d : Z) :
  0 < inner_size -> 0 <= c < outer_size * inner_size -> 0 <= d < dim_size ->
  0 <= strided_addr inner_size dim_size c d < outer_size * dim_size * inner_size.
Proof.
  intros Hin Hc Hd. unfold strided_addr.
  pose proof (Z.div_mod c inner_size ltac:(lia)) as Hdm.
  pose proof (Z.mod_pos_bound c inner_size Hin) as Hmod.
  assert (Ho : 0 <= c / inner_size < outer_size).
  { split; [apply Z.div_pos; lia | apply Z.div_lt_upper_bound; lia]. }
  set (o := c / inner_size) in *. set (k := c mod inner_size) in *.
  assert (HD : 0 <= dim_size * inner_size) by nia.
  assert (Hr0 : 0 <= o * (dim_size * inner_size)) by (apply Z.mul_nonneg_nonneg; lia).
  assert (Hr1 : (o + 1) * (dim_size * inner_size)
               <= outer_size * (dim_size * inner_size))
    by (apply Z.mul_le_mono_nonneg_r; lia).
  assert (Hr2 : d * inner_size <= (dim_size - 1) * inner_size)
    by (apply Z.mul_le_mono_nonneg_r; lia).
  assert (Hr3 : 0 <= d * inner_size) by (apply Z.mul_nonneg_nonneg; lia).
  replace ((o + 1) * (dim_size * inner_size))
    with (o * (dim_size * inner_size) + dim_size * inner_size) in Hr1 by ring.
  replace ((dim_size - 1) * inner_size)
    with (dim_size * inner_size - inner_size) in Hr2 by ring.
  replace (outer_size * dim_size * inner_size)
    with (outer_size * (dim_size * inner_size)) by ring.
  lia.
Qed.

Definition supported (st : ScalarType) : Prop :=
  match st with OtherType _ => False | _ => True end.

Section WithLaws.
Context `{!ScalarLaws T}.
Hypothesis float_lanes_pos : 0 < float_lanes.
Hypothesis double_lanes_pos : 0 < double_lanes.

(** [softmax_kernel_impl(result, self, dim)] on a contiguous tensor of
    sizes [pre ++ dim_size :: post] with [dim] the position of [dim_size]:
    for each of the three types it returns, has written into [result], for
    every index [o] into the leading sizes and [k] into the trailing ones,
    the softmax of the [dim_size] elements [self[o, 0 .. dim_size - 1, k]],
    and has written nothing outside the [numel] elements of the tensor.
    For any other type it raises the dispatch error, and so does
    [log_softmax_kernel_impl], under the name of [softmax_kernel_impl]. *)
Theorem softmax_kernel_impl_slices (chunks : list (Z * Z)) (uninit : @buffer T)
  (result_ self : Tensor) (pre post : list Z) (dim_size : Z) :
  sizes self = pre ++ dim_size :: post ->
  Forall (fun s => 0 <= s) pre -> 0 < dim_size -> Forall (fun s => 0 < s) post ->
  ViewGuard.prefix_products_fit pre -> ViewGuard.prefix_products_fit post ->
  is_partition 0 (list_prod pre * list_prod post) chunks ->
  let dim := Z.of_nat (length pre) in
  let outer_size := list_prod pre in
  let inner_size := list_prod post in
  (supported (scalar_type self) ->
   exists output',
     softmax_kernel_impl chunks uninit result_ self dim = Ok (Some output')
     /\ (forall o k d,
           0 <= o < outer_size -> 0 <= k < inner_size -> 0 <= d < dim_size ->
           let p := o * (dim_size * inner_size) + k in
           output' (p + d * inner_size)
           = softmax_value (slice (data_ptr self) p inner_size dim_size)
               (data_ptr self (p + d * inner_size)))
     /\ (forall q, ~ 0 <= q < outer_size * dim_size * inner_size ->
           output' q = data_ptr result_ q))
  /\ (forall type_name, scalar_type self = OtherType type_name ->
        softmax_kernel_impl chunks uninit result_ self dim
        = Err (CheckError (not_implemented_for "softmax_kernel_impl" type_name))
        /\ log_softmax_kernel_impl chunks uninit result_ self dim
           = Err (CheckError (not_implemented_for "softmax_kernel_impl" type_name))).
Proof.
  intros Hs Hpre Hdim Hpost Hfit1 Hfit2 Hpart. cbv zeta.
  pose proof (sizes_prod_nonneg pre Hpre) as Houter.
  pose proof (sizes_prod_pos post Hpost) as Hinner.
  split.
  - intros Hsup.
    assert (Hdone : exists output',
               softmax_kernel_impl chunks uninit result_ self (Z.of_nat (length pre))
               = Ok (Some output')
               /\ cols_done (strided_addr (list_prod post) dim_size) dim_size
                    (softmax_expected (list_prod post) dim_size (data_ptr self))
                    (data_ptr result_) output' 0 (list_prod pre * list_prod post)).
    { unfold softmax_kernel_impl, AT_DISPATCH_FLOATING_TYPES_AND_BFloat16,
        vec_softmax_apply.
      rewrite (size_at self pre post dim_size Hs). cbn [bind].
      pose proof (size_product_spec self [] pre (dim_size :: post) Hs Hfit1) as Ho.
      cbn [length] in Ho. change (Z.of_nat 0) with 0 in Ho.
      rewrite Z.add_0_l in Ho. rewrite Ho. cbn [bind].
      assert (Hs' : sizes self = (pre ++ [dim_size]) ++ post ++ [])
        by (rewrite Hs, <- app_assoc, app_nil_r; reflexivity).
      pose proof (size_product_spec self (pre ++ [dim_size]) post [] Hs' Hfit2) as Hi.
      rewrite length_app in Hi. cbn [length] in Hi.
      replace (Z.of_nat (length pre + 1)) with (Z.of_nat (length pre) + 1) in Hi by lia.
      replace (Z.of_nat (length pre) + 1 + Z.of_nat (length post))
        with (ndimension self) in Hi
        by (unfold ndimension; rewrite Hs, length_app; cbn [length]; lia).
      rewrite Hi. cbn [bind].
      destruct (scalar_type self) as [| | | type_name]; try contradiction.
      - destruct (_vec_softmax_correct (Vec_size Float) chunks (data_ptr self)
                    (data_ptr result_) (list_prod pre) (list_prod post) dim_size
                    float_lanes_pos Houter Hinner Hdim Hpart) as (output' & Hrun & Hd).
        exists output'. now rewrite Hrun.
      - destruct (_vec_softmax_correct (Vec_size Double) chunks (data_ptr self)
                    (data_ptr result_) (list_prod pre) (list_prod post) dim_size
                    double_lanes_pos Houter Hinner Hdim Hpart) as (output' & Hrun & Hd).
        exists output'. now rewrite Hrun.
      - destruct (_vec_softmax_bf16_correct float_lanes (Vec_size BFloat16) chunks
                    (data_ptr self) (data_ptr result_) (list_prod pre)
                    (list_prod post) dim_size float_lanes_pos eq_refl Houter Hinner
                    Hdim Hpart) as (output' & Hrun & Hd).
        exists output'. now rewrite Hrun. }
    destruct Hdone as (output' & Hrun & Hdone).
    exists output'. split; [exact Hrun |]. split.
    + intros o k d Ho Hk Hd.
      apply (softmax_cols_done_pointwise (list_prod post) dim_size (list_prod pre)
               (data_ptr self) (data_ptr result_) output' Hinner Hdim Hdone
               o k d Ho Hk Hd).
    + intros q Hq. destruct Hdone as [_ Hframe]. apply Hframe.
      intros c d Hc Hd Heq.
      pose proof (strided_addr_range (list_prod post) dim_size (list_prod pre) c d
                    Hinner Hc Hd) as Hr.
      rewrite <- Heq in Hr. contradiction.
  - intros type_name Hty.
    unfold softmax_kernel_impl, log_softmax_kernel_impl,
      AT_DISPATCH_FLOATING_TYPES_AND_BFloat16.
    rewrite Hty. split; reflexivity.
Qed.

(** On scalars with exact arithmetic ([ScalarLaws]: in particular
    [x * (1 / s) = x / s], which IEEE arithmetic does not give, the
    last-dim kernel multiplying by the reciprocal where the generic one
    divides), for a contiguous tensor of sizes [pre ++ [dim_size]] and each
    of the three types, [softmax_lastdim_kernel_impl] and
    [softmax_kernel_impl] with [dim] the last dimension return and leave
    the same contents in [result], whatever the splits of [parallel_for]. *)
Theorem softmax_lastdim_kernel_impl_agrees (rows columns : list (Z * Z))
  (uninit : @buffer T) (result_ self : Tensor) (pre : list Z) (dim_size : Z) :
  sizes self = pre ++ [dim_size] ->
  supported (scalar_type self) ->
  Forall (fun s => 0 <= s) pre -> 0 < dim_size ->
  ViewGuard.prefix_products_fit pre ->
  is_partition 0 (list_prod pre) rows ->
  is_partition 0 (list_prod pre) columns ->
  exists lastdim generic,
    softmax_lastdim_kernel_impl rows uninit result_ self = Ok (Some lastdim)
    /\ softmax_kernel_impl columns uninit result_ self (ndimension self - 1)
       = Ok (Some generic)
    /\ forall q, generic q = lastdim q.
Proof.
  intros Hs Hsup Hpre Hdim Hfit Hrows Hcols.
  pose proof (sizes_prod_nonneg pre Hpre) as Houter.
  assert (Hnd : ndimension self - 1 = Z.of_nat (length pre)).
  { unfold ndimension. rewrite Hs, length_app. cbn [length]. lia. }
  pose proof (size_product_spec self [] pre [dim_size] Hs Hfit) as Ho.
  cbn [length] in Ho. change (Z.of_nat 0) with 0 in Ho. rewrite Z.add_0_l in Ho.
  assert (Hcols1 : is_partition 0 (list_prod pre * 1) columns)
    by now rewrite Z.mul_1_r.
  assert (Hlast : exists lastdim,
             softmax_lastdim_kernel_impl rows uninit result_ self = Ok (Some lastdim)
             /\ cols_done (lastdim_addr dim_size) dim_size
                  (softmax_lastdim_expected dim_size (data_ptr self))
                  (data_ptr result_) lastdim 0 (list_prod pre)).
  { unfold softmax_lastdim_kernel_impl, AT_DISPATCH_FLOATING_TYPES_AND_BFloat16,
      vec_host_softmax_lastdim_apply.
    rewrite Hnd, (size_at self pre [] dim_size Hs). cbn [bind].
    rewrite Ho. cbn [bind].
    destruct (_vec_softmax_lastdim_correct rows (data_ptr self) (data_ptr result_)
                (list_prod pre) dim_size Houter Hdim Hrows)
      as (lastdim & Hrun & Hd).
    exists lastdim. rewrite Hrun.
    destruct (scalar_type self); try contradiction; now split. }
  assert (Hgen : exists generic,
             softmax_kernel_impl columns uninit result_ self (ndimension self - 1)
             = Ok (Some generic)
             /\ cols_done (strided_addr 1 dim_size) dim_size
                  (softmax_expected 1 dim_size (data_ptr self))
                  (data_ptr result_) generic 0 (list_prod pre * 1)).
  { unfold softmax_kernel_impl, AT_DISPATCH_FLOATING_TYPES_AND_BFloat16,
      vec_softmax_apply.
    rewrite Hnd, (size_at self pre [] dim_size Hs). cbn [bind].
    rewrite Ho. cbn [bind].
    assert (Hi : size_product self (Z.of_nat (length pre) + 1) (ndimension self) 1
                 = Ok 1).
    { unfold size_product. replace (ndimension self) with (Z.of_nat (length pre) + 1)
        by lia.
      now rewrite Z.sub_diag. }
    rewrite Hi. cbn [bind].
    destruct (scalar_type self) as [| | | type_name]; try contradiction.
    - destruct (_vec_softmax_correct (Vec_size Float) columns (data_ptr self)
                  (data_ptr result_) (list_prod pre) 1 dim_size
                  float_lanes_pos Houter ltac:(lia) Hdim Hcols1)
        as (generic & Hrun & Hd).
      exists generic. now rewrite Hrun.
    - destruct (_vec_softmax_correct (Vec_size Double) columns (data_ptr self)
                  (data_ptr result_) (list_prod pre) 1 dim_size
                  double_lanes_pos Houter ltac:(lia) Hdim Hcols1)
        as (generic & Hrun & Hd).
      exists generic. now rewrite Hrun.
    - destruct (_vec_softmax_bf16_correct float_lanes (Vec_size BFloat16) columns
                  (data_ptr self) (data_ptr result_) (list_prod pre) 1 dim_size
                  float_lanes_pos eq_refl Houter ltac:(lia) Hdim Hcols1)
        as (generic & Hrun & Hd).
      exists generic. now rewrite Hrun. }
  destruct Hlast as (lastdim & Hrun1 & Hdone1).
  destruct Hgen as (generic & Hrun2 & Hdone2).
  exists lastdim, generic. split; [exact Hrun1 |]. split; [exact Hrun2 |].
  apply (rows_done_unique dim_size (list_prod pre) _ _ (data_ptr result_) lastdim
           generic Hdim Houter
           (fun c d _ _ => softmax_expected_1 dim_size (data_ptr self) c d)
           Hdone1 Hdone2).
Qed.

End WithLaws.
End WithScalar.

(** A [2 x 3 x 2] tensor of floats, reduced over its middle dimension. *)
Definition sample_self : @Tensor float_value :=
  {| sizes := [2; 3; 2]; scalar_type := BFloat16; data_ptr := overflow_input |}.

Definition sample_result : @Tensor float_value :=
  {| sizes := [2; 3; 2]; scalar_type := BFloat16; data_ptr := uninitialized |}.

Definition no_message : string -> string -> string := fun _ _ => EmptyString.

Lemma prefix_products_fit_small (l : list Z) :
  Forall (fun s => 0 < s) l -> list_prod l < 2 ^ 63 ->
  ViewGuard.prefix_products_fit l.
Proof.
  intros Hpos Hsmall k.
  assert (Hle : 0 < list_prod (firstn k l) <= list_prod l).
  { clear Hsmall. revert k. induction Hpos as [| y l Hy Hl IH]; intros k.
    - destruct k; cbn; lia.
    - destruct k as [| k].
      + cbn [firstn]. change (list_prod []) with 1.
        change (list_prod (y :: l)) with (y * list_prod l).
        pose proof (sizes_prod_pos l Hl). nia.
      + cbn [firstn].
        change (list_prod (y :: firstn k l)) with (y * list_prod (firstn k l)).
        change (list_prod (y :: l)) with (y * list_prod l).
        specialize (IH k). nia. }
  unfold fits_int64. apply andb_true_intro. split.
  - apply Z.leb_le. lia.
  - apply Z.ltb_lt. lia.
Qed.

Lemma softmax_kernel_impl_slices_witness :
  exists output',
    softmax_kernel_impl 8 4 no_message [(0, 3); (3, 4)] uninitialized
      sample_result sample_self 1 = Ok (Some output')
    /\ output' (1 * (3 * 2) + 1 + 2 * 2)
       = softmax_value (slice overflow_input (1 * (3 * 2) + 1) 2 3)
           (overflow_input (1 * (3 * 2) + 1 + 2 * 2)).
Proof.
  destruct (softmax_kernel_impl_slices 8 4 no_message ltac:(lia) ltac:(lia)
              [(0, 3); (3, 4)] uninitialized sample_result sample_self [2] [2] 3)
    as ((output' & Hrun & Hv & _) & _).
  - reflexivity.
  - repeat constructor; lia.
  - lia.
  - repeat constructor; lia.
  - apply prefix_products_fit_small; [repeat constructor; lia | cbn; lia].
  - apply prefix_products_fit_small; [repeat constructor; lia | cbn; lia].
  - cbn. repeat split; lia.
  - exact I.
  - exists output'. split; [exact Hrun |]. apply (Hv 1 1 2); cbn; lia.
Defined.

Definition sample_rows : @Tensor float_value :=
  {| sizes := [2; 3]; scalar_type := Float; data_ptr := overflow_input |}.

Definition sample_rows_result : @Tensor float_value :=
  {| sizes := [2; 3]; scalar_type := Float; data_ptr := uninitialized |}.

Lemma softmax_lastdim_kernel_impl_agrees_witness :
  exists lastdim generic,
    softmax_lastdim_kernel_impl 8 4 no_message [(0, 2)] uninitialized sample_rows_result
      sample_rows = Ok (Some lastdim)
    /\ softmax_kernel_impl 8 4 no_message [(0, 1); (1, 2)] uninitialized
         sample_rows_result sample_rows (ndimension sample_rows - 1) = Ok (Some generic)
    /\ generic 4 = lastdim 4.
Proof.
  destruct (softmax_lastdim_kernel_impl_agrees 8 4 no_message ltac:(lia) ltac:(lia)
              [(0, 2)] [(0, 1); (1, 2)] uninitialized sample_rows_result sample_rows
              [2] 3)
    as (lastdim & generic & H1 & H2 & Hq).
  - reflexivity.
  - exact I.
  - repeat constructor; lia.
  - lia.
  - apply prefix_products_fit_small; [repeat constructor; lia | cbn; lia].
  - cbn. repeat split; lia.
  - cbn. repeat split; lia.
  - exists lastdim, generic. split; [exact H1 |]. split; [exact H2 |]. apply Hq.
Defined.

End KernelImpl.
